(** * ssim-grey: mean SSIM of two greyscale images over summed-area tables

    A shallow embedding of [src/src/index.ts].  The single function of the
    package, [ssimGrey], is written once over an interface [Number] for the
    JavaScript [number] type and is read in two ways:

    - [binary64]: IEEE 754 double precision (the kernel's primitive floats),
      which is what the program computes with;
    - [exact]: canonical rationals extended with one error value, the
      "exact arithmetic" reading in which rounding is absent.

    Integer-valued quantities of the source (sizes, indices, the window
    count, the shift [1 << bitDepth]) are kept in [Z]. *)

From Stdlib Require Import ZArith QArith Qcanon Lia Lqa Floats.
From stdpp Require Import base list list_numbers numbers.

Local Open Scope Z_scope.

(** ** The [number] interface *)

Class Number := {
  num : Type;
  (** an integer-valued number *)
  of_Z : Z -> num;
  (** what [undefined] (a read outside a typed array) becomes in arithmetic *)
  NaN : num;
  add : num -> num -> num;
  sub : num -> num -> num;
  mul : num -> num -> num;
  div : num -> num -> num
}.

Declare Scope num_scope.
Delimit Scope num_scope with num.
Infix "+" := add : num_scope.
Infix "-" := sub : num_scope.
Infix "*" := mul : num_scope.
Infix "/" := div : num_scope.

(** ** 32-bit integer shift: [a << b] of JavaScript *)

(** [ToInt32]: wrap into the signed 32-bit range. *)
Definition to_int32 (z : Z) : Z := (z + 2 ^ 31) mod 2 ^ 32 - 2 ^ 31.

(** [a << b]: both operands become 32-bit integers, only the low five bits
    of the shift count are used, and the result is wrapped again. *)
Definition shl32 (a b : Z) : Z := to_int32 (Z.shiftl (to_int32 a) (b mod 32)).

(** ** Options *)

Record SsimGreyOptions {N : Number} := {
  windowSize : option Z;
  k1 : option num;
  k2 : option num;
  bitDepth : option Z
}.
Arguments SsimGreyOptions : clear implicits.

(** What the call produced: a value, or the [RangeError] that
    [new Float64Array(n)] raises for a negative length. *)
Inductive outcome (A : Type) : Type :=
  | Return (v : A)
  | RangeError.
Arguments Return {A} v.
Arguments RangeError {A}.

Section Program.
Context {N : Number}.
Local Open Scope num_scope.

(** [options?.field ?? dflt] *)
Definition opt_or {A} (options : option (SsimGreyOptions N))
    (field : SsimGreyOptions N -> option A) (dflt : A) : A :=
  match options with
  | Some o => match field o with Some v => v | None => dflt end
  | None => dflt
  end.

(** The decimal literals [0.01] and [0.03]: the number nearest to the
    quotient. *)
Definition lit_0_01 : num := of_Z 1 / of_Z 100.
Definition lit_0_03 : num := of_Z 3 / of_Z 100.

(** *** Typed arrays *)

(** [img[i]!] on a [Uint8Array]: the sample, or [undefined] outside the
    buffer. *)
Definition sample (img : list Z) (i : Z) : num :=
  if i <? 0 then NaN
  else match img !! Z.to_nat i with Some v => of_Z v | None => NaN end.

(** [new Float64Array(n)]: [n] zeros. *)
Definition float64_array (n : Z) : list num := replicate (Z.to_nat n) (of_Z 0).

(** [a[i]] on a [Float64Array]. *)
Definition get (a : list num) (i : Z) : num :=
  if i <? 0 then NaN
  else match a !! Z.to_nat i with Some v => v | None => NaN end.

(** [a[i] = v] on a [Float64Array]: ignored outside the array. *)
Definition put (a : list num) (i : Z) (v : num) : list num :=
  if i <? 0 then a else <[Z.to_nat i := v]> a.

(** *** SAT builder (lines 62-90) *)

Record Sats := {
  satX : list num;
  satY : list num;
  satX2 : list num;
  satY2 : list num;
  satXY : list num
}.

(** One table's update at a pixel:
    [sat[i] = v + sat[above] + sat[left] - sat[aboveLeft]]. *)
Definition sat_update (sat : list num) (v : num) (i above left aboveLeft : Z)
    : list num :=
  put sat i (v + get sat above + get sat left - get sat aboveLeft).

(** Body of the inner loop at pixel [(x, y)]. *)
Definition sat_pixel (img1 img2 : list Z) (width sw : Z) (y : Z)
    (s : Sats) (x : Z) : Sats :=
  let px := sample img1 (y * width + x)%Z in
  let py := sample img2 (y * width + x)%Z in
  let i := ((y + 1) * sw + (x + 1))%Z in
  let above := (i - sw)%Z in
  let left := (i - 1)%Z in
  let aboveLeft := (above - 1)%Z in
  {| satX := sat_update (satX s) px i above left aboveLeft;
     satY := sat_update (satY s) py i above left aboveLeft;
     satX2 := sat_update (satX2 s) (px * px) i above left aboveLeft;
     satY2 := sat_update (satY2 s) (py * py) i above left aboveLeft;
     satXY := sat_update (satXY s) (px * py) i above left aboveLeft |}.

(** [for (x = 0; x < width; x++)] *)
Definition sat_row (img1 img2 : list Z) (width sw : Z) (s : Sats) (y : Z)
    : Sats :=
  foldl (sat_pixel img1 img2 width sw y) s (seqZ 0 width).

(** [for (y = 0; y < height; y++)], from the five zeroed tables. *)
Definition build_sats (img1 img2 : list Z) (width height : Z) : Sats :=
  let sw := (width + 1)%Z in
  let satSize := (sw * (height + 1))%Z in
  let zeros := float64_array satSize in
  foldl (sat_row img1 img2 width sw)
    {| satX := zeros; satY := zeros; satX2 := zeros; satY2 := zeros;
       satXY := zeros |}
    (seqZ 0 height).

(** *** Window evaluator (lines 92-125) *)

(** [sat[br] - sat[bl] - sat[tr] + sat[tl]] *)
Definition rect (sat : list num) (tl tr bl br : Z) : num :=
  get sat br - get sat bl - get sat tr + get sat tl.

Record WindowStats := {
  meanX : num; meanY : num; varX : num; varY : num; covXY : num
}.

(** Lines 100-113: local statistics of the window with top-left corner
    [(wx, wy)]. *)
Definition window_stats (s : Sats) (sw ws : Z) (wy wx : Z) : WindowStats :=
  let wsSq := of_Z (ws * ws) in
  let tl := (wy * sw + wx)%Z in
  let tr := (wy * sw + (wx + ws))%Z in
  let bl := ((wy + ws) * sw + wx)%Z in
  let br := ((wy + ws) * sw + (wx + ws))%Z in
  let sX := rect (satX s) tl tr bl br in
  let sY := rect (satY s) tl tr bl br in
  let mX := sX / wsSq in
  let mY := sY / wsSq in
  {| meanX := mX;
     meanY := mY;
     varX := rect (satX2 s) tl tr bl br / wsSq - mX * mX;
     varY := rect (satY2 s) tl tr bl br / wsSq - mY * mY;
     covXY := rect (satXY s) tl tr bl br / wsSq - mX * mY |}.

(** Lines 115-116. *)
Definition ssim_num (c1 c2 : num) (w : WindowStats) : num :=
  (of_Z 2 * meanX w * meanY w + c1) * (of_Z 2 * covXY w + c2).

Definition ssim_den (c1 c2 : num) (w : WindowStats) : num :=
  (meanX w * meanX w + meanY w * meanY w + c1) * (varX w + varY w + c2).

(** Line 117: the SSIM value of one window. *)
Definition window_val (s : Sats) (sw ws : Z) (c1 c2 : num) (wy wx : Z) : num :=
  let w := window_stats s sw ws wy wx in
  ssim_num c1 c2 w / ssim_den c1 c2 w.

(** Lines 120-121: [count++; mssim = mssim + (val - mssim) / count]. *)
Definition welford (acc : num * Z) (val : num) : num * Z :=
  let count := (acc.2 + 1)%Z in
  (acc.1 + (val - acc.1) / of_Z count, count).

(** [for (wx = 0; wx < winW; wx++)] *)
Definition window_row (s : Sats) (sw ws : Z) (c1 c2 : num) (winW : Z)
    (acc : num * Z) (wy : Z) : num * Z :=
  foldl (fun acc wx => welford acc (window_val s sw ws c1 c2 wy wx))
    acc (seqZ 0 winW).

(** [for (wy = 0; wy < winH; wy++)], from [mssim = 0], [count = 0]. *)
Definition mean_ssim (s : Sats) (sw ws : Z) (c1 c2 : num) (winW winH : Z)
    : num :=
  (foldl (window_row s sw ws c1 c2 winW) (of_Z 0, 0%Z) (seqZ 0 winH)).1.

(** *** Constants (lines 51-53) *)

Definition dynamic_range (bitDepth : Z) : Z := (shl32 1 bitDepth - 1)%Z.

(** [k * L * (k * L)] *)
Definition stability (k : num) (L : Z) : num := k * of_Z L * (k * of_Z L).

(** *** [ssimGrey] *)

Definition ssimGrey (img1 img2 : list Z) (width height : Z)
    (options : option (SsimGreyOptions N)) : outcome num :=
  let ws := opt_or options windowSize 11%Z in
  let k1 := opt_or options k1 lit_0_01 in
  let k2 := opt_or options k2 lit_0_03 in
  let bitDepth := opt_or options bitDepth 8%Z in
  let L := dynamic_range bitDepth in
  let c1 := stability k1 L in
  let c2 := stability k2 L in
  let winW := (width - ws + 1)%Z in
  let winH := (height - ws + 1)%Z in
  if (winW <=? 0) || (winH <=? 0) then Return (of_Z 1)
  else
    let sw := (width + 1)%Z in
    let satSize := (sw * (height + 1))%Z in
    if satSize <? 0 then RangeError
    else
      let s := build_sats img1 img2 width height in
      Return (mean_ssim s sw ws c1 c2 winW winH).

End Program.

(** ** IEEE 754 double precision *)

(** The double nearest to an integer (ties to even). *)
Definition float_of_Z (z : Z) : float :=
  SF2Prim (binary_normalize prec emax z 0 false).

Definition binary64 : Number := {|
  num := float;
  of_Z := float_of_Z;
  NaN := PrimFloat.nan;
  add := PrimFloat.add;
  sub := PrimFloat.sub;
  mul := PrimFloat.mul;
  div := PrimFloat.div
|}.

(** ** Exact arithmetic *)

(** A rational, or the error value that a division by zero or a read of
    [undefined] produces and every later operation keeps. *)
Inductive xnum : Type :=
  | Fin (q : Qc)
  | Undef.

Definition xlift (f : Qc -> Qc -> Qc) (a b : xnum) : xnum :=
  match a, b with
  | Fin x, Fin y => Fin (f x y)
  | _, _ => Undef
  end.

Definition xdiv (a b : xnum) : xnum :=
  match a, b with
  | Fin x, Fin y => if decide (y = 0%Qc) then Undef else Fin (x / y)%Qc
  | _, _ => Undef
  end.

Definition exact : Number := {|
  num := xnum;
  of_Z := fun z => Fin (Qc_of_Z z);
  NaN := Undef;
  add := xlift Qcplus;
  sub := xlift Qcminus;
  mul := xlift Qcmult;
  div := xdiv
|}.

(** ** Reference definitions

    What the tables and the window statistics are meant to be, written
    directly over the raw pixels. *)

(** The sample at column [x], row [y] of a row-major image. *)
Definition pixel (img : list Z) (width x y : Z) : Z :=
  default 0 (img !! Z.to_nat (y * width + x)).

(** [g lo + g (lo + 1) + ... + g (lo + n - 1)] *)
Definition sumZ (g : Z -> Z) (lo n : Z) : Z := foldr Z.add 0 (g <$> seqZ lo n).

Definition sumQ (g : Z -> Qc) (lo n : Z) : Qc := foldr Qcplus 0%Qc (g <$> seqZ lo n).

(** Sum of [f] over the rectangle with corners [(0, 0)] and [(x - 1, y - 1)]:
    the intended content of [SAT[y][x]]. *)
Definition prefix_sum (f : Z -> Z -> Z) (x y : Z) : Z :=
  sumZ (fun j => sumZ (fun i => f i j) 0 x) 0 y.

(** Sum of [g] over the [ws] by [ws] window with top-left corner [(wx, wy)]. *)
Definition window_sum (g : Z -> Z -> Qc) (wx wy ws : Z) : Qc :=
  sumQ (fun j => sumQ (fun i => g i j) wx ws) wy ws.

(** Mean of [f] over the window's pixels. *)
Definition direct_mean (f : Z -> Z -> Z) (wx wy ws : Z) : Qc :=
  (window_sum (fun i j => Qc_of_Z (f i j)) wx wy ws / Qc_of_Z (ws * ws))%Qc.

(** Biased covariance over the window's pixels: the mean product of the
    deviations from the two means. *)
Definition direct_cov (f g : Z -> Z -> Z) (wx wy ws : Z) : Qc :=
  (window_sum
     (fun i j => (Qc_of_Z (f i j) - direct_mean f wx wy ws)
                 * (Qc_of_Z (g i j) - direct_mean g wx wy ws))
     wx wy ws / Qc_of_Z (ws * ws))%Qc.

(** Biased variance over the window's pixels. *)
Definition direct_var (f : Z -> Z -> Z) (wx wy ws : Z) : Qc :=
  direct_cov f f wx wy ws.

(** Sum-then-divide mean of a list of numbers. *)
Definition total {N : Number} (vals : list num) : num :=
  foldl add (of_Z 0) vals.

Definition arithmetic_mean {N : Number} (vals : list num) : num :=
  div (total vals) (of_Z (Z.of_nat (length vals))).

(** Top-left corners [(wy, wx)] of the windows, row by row. *)
Definition window_corners (winW winH : Z) : list (Z * Z) :=
  wy ← seqZ 0 winH; (fun wx => (wy, wx)) <$> seqZ 0 winW.

(** The SSIM values of the windows, in the order of [window_corners]. *)
Definition window_values {N : Number} (s : Sats) (sw ws : Z) (c1 c2 : num)
    (winW winH : Z) : list num :=
  (fun p => window_val s sw ws c1 c2 p.1 p.2) <$> window_corners winW winH.

(** The option values that [ssimGrey] works with. *)
Definition ws_of {N : Number} (options : option (SsimGreyOptions N)) : Z :=
  opt_or options windowSize 11.
Definition k1_of {N : Number} (options : option (SsimGreyOptions N)) : num :=
  opt_or options k1 lit_0_01.
Definition k2_of {N : Number} (options : option (SsimGreyOptions N)) : num :=
  opt_or options k2 lit_0_03.
Definition bitDepth_of {N : Number} (options : option (SsimGreyOptions N)) : Z :=
  opt_or options bitDepth 8.
Definition c1_of {N : Number} (options : option (SsimGreyOptions N)) : num :=
  stability (k1_of options) (dynamic_range (bitDepth_of options)).
Definition c2_of {N : Number} (options : option (SsimGreyOptions N)) : num :=
  stability (k2_of options) (dynamic_range (bitDepth_of options)).

(** The statistics of the window at [(wx, wy)] in a call, and the
    denominator of its SSIM value. *)
Definition call_stats {N : Number} (img1 img2 : list Z) (width height : Z)
    (options : option (SsimGreyOptions N)) (wy wx : Z) : WindowStats :=
  window_stats (build_sats img1 img2 width height) (width + 1)
    (ws_of options) wy wx.

Definition call_den {N : Number} (img1 img2 : list Z) (width height : Z)
    (options : option (SsimGreyOptions N)) (wy wx : Z) : num :=
  ssim_den (c1_of options) (c2_of options)
    (call_stats img1 img2 width height options wy wx).

Definition call_val {N : Number} (img1 img2 : list Z) (width height : Z)
    (options : option (SsimGreyOptions N)) (wy wx : Z) : num :=
  window_val (build_sats img1 img2 width height) (width + 1)
    (ws_of options) (c1_of options) (c2_of options) wy wx.

(** A positive rational of the exact reading. *)
Definition strictly_positive (a : xnum) : Prop := exists q, a = Fin q /\ (0 < q)%Qc.

(** A rational of the exact reading in [[-1, 1]]. *)
Definition in_unit_range (a : xnum) : Prop :=
  exists q, a = Fin q /\ (-1 <= q)%Qc /\ (q <= 1)%Qc.

(** The per-window values of a call, in the order the program folds them. *)
Definition ssim_values {N : Number} (img1 img2 : list Z) (width height : Z)
    (options : option (SsimGreyOptions N)) : list num :=
  let ws := ws_of options in
  window_values (build_sats img1 img2 width height) (width + 1) ws
    (c1_of options) (c2_of options) (width - ws + 1) (height - ws + 1).

(** The tables of the call with the two images exchanged. *)
Definition swap_sats {N : Number} (s : Sats) : Sats :=
  {| satX := satY s; satY := satX s; satX2 := satY2 s; satY2 := satX2 s;
     satXY := satXY s |}.

(** Doubling may be moved from one mean to the other in the window at
    [(wx, wy)]: [2 * meanY * meanX = 2 * meanX * meanY]. *)
Definition doubling_commutes {N : Number} (s : Sats) (sw ws wy wx : Z) : Prop :=
  let st := window_stats s sw ws wy wx in
  mul (mul (of_Z 2) (meanY st)) (meanX st)
  = mul (mul (of_Z 2) (meanX st)) (meanY st).

(** The double 2, as the specification of floats sees it. *)
Definition SFtwo : spec_float := S754_finite false 4503599627370496 (-51).

(** Doubling [x] does not overflow: [x] finite and [2 * x] infinite is
    excluded. *)
Definition doubles_safely (x : spec_float) : Prop :=
  match x, SF64mul SFtwo x with
  | S754_finite _ _ _, S754_infinity _ => False
  | _, _ => True
  end.

(** The same on doubles, as a test: is [x] finite and [2 * x] infinite? *)
Definition overflows_when_doubled (x : float) : bool :=
  match Prim2SF x, Prim2SF (float_of_Z 2 * x)%float with
  | S754_finite _ _ _, S754_infinity _ => true
  | _, _ => false
  end.

(** No window mean of the call overflows when doubled. *)
Definition means_double_safely (img1 img2 : list Z) (w h : Z)
    (options : option (SsimGreyOptions binary64)) : Prop :=
  forall wy wx,
    0 <= wy < h - ws_of options + 1 -> 0 <= wx < w - ws_of options + 1 ->
    let st := @call_stats binary64 img1 img2 w h options wy wx in
    overflows_when_doubled (meanX st) = false /\
    overflows_when_doubled (meanY st) = false.

(** The shape of a rounded product. *)
Definition rounded (s : bool) (r e : Z) : spec_float :=
  match r with
  | Z0 => S754_zero s
  | Z.pos m => if e <=? emax - prec then S754_finite s m e else S754_infinity s
  | Z.neg _ => S754_nan
  end.

(** Squaring [x] stays clear of the subnormal range: [x] is not finite, or
    it is a normal number of magnitude at least [2^-484]. *)
Definition squares_safely (x : float) : bool :=
  match Prim2SF x with
  | S754_finite _ m e => (Z.pos (digits2_pos m) =? 53) && (-536 <=? e)
  | _ => true
  end.

(** A finite non-zero double. *)
Definition regular (x : float) : bool :=
  match Prim2SF x with
  | S754_finite _ _ _ => true
  | _ => false
  end.

(** The tables of the second image repeat those of the first. *)
Definition diagonal {N : Number} (s : Sats) : Prop :=
  satY s = satX s /\ satY2 s = satX2 s /\ satXY s = satX2 s.

(** No window of the call on [img] and itself leaves the range in which
    the double-precision identity is exact: the mean does not overflow
    when doubled, its square does not underflow, and the denominator is a
    finite non-zero double. *)
Definition identity_safe (img : list Z) (w h : Z)
    (options : option (SsimGreyOptions binary64)) : Prop :=
  forall wy wx,
    0 <= wy < h - ws_of options + 1 -> 0 <= wx < w - ws_of options + 1 ->
    overflows_when_doubled
      (meanX (@call_stats binary64 img img w h options wy wx)) = false /\
    squares_safely
      (meanX (@call_stats binary64 img img w h options wy wx)) = true /\
    regular (@call_den binary64 img img w h options wy wx) = true.

(** ** Concrete calls *)

(** Two 2 by 2 images. *)
Definition imgA : list Z := [1; 2; 3; 4].
Definition imgB : list Z := [4; 3; 2; 1].

(** [{ windowSize: ws }] in either reading. *)
Definition with_window {N : Number} (ws : Z) : option (SsimGreyOptions N) :=
  Some {| windowSize := Some ws; k1 := None; k2 := None; bitDepth := None |}.

(** [{ windowSize: 1, k1: k, k2: k }] in double precision. *)
Definition with_constants (k : float) : option (SsimGreyOptions binary64) :=
  Some (@Build_SsimGreyOptions binary64 (Some 1) (Some k) (Some k) None).

(** [{ windowSize: 1, k1: k }] in double precision. *)
Definition with_k1 (k : float) : option (SsimGreyOptions binary64) :=
  Some (@Build_SsimGreyOptions binary64 (Some 1) (Some k) None None).

(** [{ windowSize: 1, bitDepth: b }] in either reading. *)
Definition with_bit_depth {N : Number} (b : Z) : option (SsimGreyOptions N) :=
  Some {| windowSize := Some 1; k1 := None; k2 := None; bitDepth := Some b |}.

(** Two 3 by 3 images. *)
Definition imgC : list Z := [10; 200; 30; 47; 5; 60; 7; 80; 255].
Definition imgD : list Z := [1; 2; 3; 4; 5; 6; 7; 8; 9].

(** A positive double whose square underflows: [2^-600]. *)
Definition tiny : float := 0x1p-600%float.





(** A 2 by 2 image with the sample [2^26], and one of the sample [2^600],
    a double whose square is not finite. *)
Definition imgG : list Z := [2 ^ 26; 0; 1; 0].
Definition imgH : list Z := [2 ^ 600; 2 ^ 600; 2 ^ 600; 2 ^ 600].

(** ** Invariant of the SAT builder *)

(** Has cell [(j, i)] received its final value once the pixels before
    [(x, y)] in row-major order are processed? *)
Definition cell_done (y x j i : Z) : bool :=
  (j <=? y) || ((j =? y + 1) && (i <=? x)).

Definition table_inv (f : Z -> Z -> Z) (w h y x : Z) (sat : list xnum) : Prop :=
  length sat = Z.to_nat ((w + 1) * (h + 1)) /\
  forall i j, 0 <= i <= w -> 0 <= j <= h ->
    @get exact sat (j * (w + 1) + i)
    = Fin (Qc_of_Z (if cell_done y x j i then prefix_sum f i j else 0)).

Definition sats_inv (img1 img2 : list Z) (w h y x : Z) (s : @Sats exact) : Prop :=
  table_inv (pixel img1 w) w h y x (satX s) /\
  table_inv (pixel img2 w) w h y x (satY s) /\
  table_inv (fun i j => pixel img1 w i j * pixel img1 w i j) w h y x (satX2 s) /\
  table_inv (fun i j => pixel img2 w i j * pixel img2 w i j) w h y x (satY2 s) /\
  table_inv (fun i j => pixel img1 w i j * pixel img2 w i j) w h y x (satXY s).

(** After the builder, every cell of every table holds its prefix sum. *)
Definition table_ok (f : Z -> Z -> Z) (w h : Z) (sat : list xnum) : Prop :=
  forall i j, 0 <= i <= w -> 0 <= j <= h ->
    @get exact sat (j * (w + 1) + i) = Fin (Qc_of_Z (prefix_sum f i j)).

(** [SAT[y][x]] of a table for an image of width [w]. *)
Definition cell {N : Number} (w : Z) (sat : list num) (y x : Z) : num :=
  get sat (y * (w + 1) + x).

Definition finite (a : xnum) : Prop := exists q, a = Fin q.

Definition xle (a b : xnum) : Prop :=
  match a, b with
  | Fin p, Fin q => (p <= q)%Qc
  | _, _ => False
  end.

(** A table of an image of [w] by [h] pixels has finite cells that do not
    decrease to the right or downwards. *)
Definition sat_monotone (w h : Z) (sat : list xnum) : Prop :=
  (forall x y, 0 <= x <= w -> 0 <= y <= h -> finite (@cell exact w sat y x)) /\
  (forall x y, 0 <= x < w -> 0 <= y <= h ->
     xle (@cell exact w sat y x) (@cell exact w sat y (x + 1))) /\
  (forall x y, 0 <= x <= w -> 0 <= y < h ->
     xle (@cell exact w sat y x) (@cell exact w sat (y + 1) x)).

(** The window statistics as the reference definitions give them. *)
Definition direct_stats (img1 img2 : list Z) (w wx wy ws : Z)
    : @WindowStats exact :=
  @Build_WindowStats exact
    (Fin (direct_mean (pixel img1 w) wx wy ws))
    (Fin (direct_mean (pixel img2 w) wx wy ws))
    (Fin (direct_var (pixel img1 w) wx wy ws))
    (Fin (direct_var (pixel img2 w) wx wy ws))
    (Fin (direct_cov (pixel img1 w) (pixel img2 w) wx wy ws)).

(** ** Definitions for the further properties *)

(** Row 0 and column 0 of a table hold 0. *)
Definition zero_border {N : Number} (w h : Z) (sat : list num) : Prop :=
  (forall x, 0 <= x <= w -> cell w sat 0 x = of_Z 0) /\
  (forall y, 0 <= y <= h -> cell w sat y 0 = of_Z 0).

(** A property of single tables holds of all five. *)
Definition all_tables {N : Number} (P : list num -> Prop) (s : Sats) : Prop :=
  P (satX s) /\ P (satY s) /\ P (satX2 s) /\ P (satY2 s) /\ P (satXY s).

(** A rational of the exact reading above [-1]. *)
Definition above_minus_one (a : xnum) : Prop :=
  exists q, a = Fin q /\ (-1 < q)%Qc.

(** The corner of the window that the half-turn of the image maps the
    window at [(wy, wx)] onto. *)
Definition turned (winW winH : Z) (p : Z * Z) : Z * Z :=
  (winH - 1 - p.1, winW - 1 - p.2).

(** The double nearest to an integer, as the specification of floats sees
    it: [float_of_Z z] is [SF2Prim (SFint z)]. *)
Definition SFint (z : Z) : spec_float := binary_normalize prec emax z 0 false.

(** The builder's invariant in any reading of [number]: the cells that are
    done hold the number of their prefix sum, the others 0. *)
Definition int_table_inv {N : Number} (w h y x : Z) (f : Z -> Z -> Z)
    (sat : list num) : Prop :=
  length sat = Z.to_nat ((w + 1) * (h + 1)) /\
  forall i j, 0 <= i <= w -> 0 <= j <= h ->
    get sat (j * (w + 1) + i)
    = of_Z (if cell_done y x j i then prefix_sum f i j else 0).

(** Every cell of a table holds the number of its prefix sum. *)
Definition int_table_ok {N : Number} (w h : Z) (f : Z -> Z -> Z)
    (sat : list num) : Prop :=
  forall i j, 0 <= i <= w -> 0 <= j <= h ->
    cell w sat j i = of_Z (prefix_sum f i j).

(** A relation between a per-pixel quantity and a table, for the five
    quantities and the five tables. *)
Definition five_tables_of {N : Number}
    (P : (Z -> Z -> Z) -> list num -> Prop)
    (img1 img2 : list Z) (w : Z) (s : Sats) : Prop :=
  P (pixel img1 w) (satX s) /\
  P (pixel img2 w) (satY s) /\
  P (fun i j => pixel img1 w i j * pixel img1 w i j) (satX2 s) /\
  P (fun i j => pixel img2 w i j * pixel img2 w i j) (satY2 s) /\
  P (fun i j => pixel img1 w i j * pixel img2 w i j) (satXY s).

(** The samples of an image lie in [[0, maxv]]. *)
Definition samples_within (maxv : Z) (img : list Z) : Prop :=
  Forall (fun v => 0 <= v <= maxv) img.

(** The sum of [f] over the [ws] by [ws] window with top-left corner
    [(wx, wy)], as an integer. *)
Definition window_sumZ (f : Z -> Z -> Z) (wx wy ws : Z) : Z :=
  sumZ (fun j => sumZ (fun i => f i j) wx ws) wy ws.

(** The four-corner difference of a table at the window with top-left
    corner [(wx, wy)]. *)
Definition window_rect {N : Number} (w ws wy wx : Z) (sat : list num) : num :=
  rect sat (wy * (w + 1) + wx) (wy * (w + 1) + (wx + ws))
    ((wy + ws) * (w + 1) + wx) ((wy + ws) * (w + 1) + (wx + ws)).

(** A finite double other than [-0]. *)
Definition steady (v : float) : bool :=
  match Prim2SF v with
  | S754_finite _ _ _ => true
  | S754_zero s => negb s
  | _ => false
  end.

(** The double 1, as the specification of floats sees it. *)
Definition SFone : spec_float := S754_finite false 4503599627370496 (-52).

(** The statistics of a window of two flat images with the values [c] and
    [d]. *)
Definition flat_stats (c d : Z) : @WindowStats binary64 :=
  @Build_WindowStats binary64 (float_of_Z c) (float_of_Z d) 0%float 0%float 0%float.

(** The SSIM value that these statistics give. *)
Definition flat_val (c d : Z) (options : option (SsimGreyOptions binary64)) : float :=
  (@ssim_num binary64 (c1_of options) (c2_of options) (flat_stats c d)
   / @ssim_den binary64 (c1_of options) (c2_of options) (flat_stats c d))%float.

(** The options leave [k1], [k2] and [bitDepth] at their defaults. *)
Definition default_constants {N : Number} (options : option (SsimGreyOptions N)) : Prop :=
  match options with
  | None => True
  | Some o => k1 o = None /\ k2 o = None /\ bitDepth o = None
  end.

(** The value of a double in units of [2^-1074], the smallest positive
    double: an integer for every valid double; 0 stands for the numbers
    that are not finite. *)
Definition scaled (x : spec_float) : Z :=
  match x with
  | S754_finite s m e => cond_Zopp s (Z.pos m) * 2 ^ (e + 1074)
  | _ => 0
  end.

(** The number 1 in these units. *)
Definition unit_scale : Z := 2 ^ 1074.

(** A normal double with an exponent in [[lo, hi]]. *)
Definition normal_within (lo hi : Z) (x : spec_float) : Prop :=
  match x with
  | S754_finite _ m e => Z.pos (digits2_pos m) = 53 /\ lo <= e <= hi
  | _ => False
  end.

(** A zero, or such a normal double. *)
Definition zero_or_normal (lo hi : Z) (x : spec_float) : Prop :=
  match x with
  | S754_zero _ => True
  | S754_finite _ m e => Z.pos (digits2_pos m) = 53 /\ lo <= e <= hi
  | _ => False
  end.

(** [r] is within one part in [2^52] of [x]. *)
Definition close_to (r x : Z) : Prop := 2 ^ 52 * Z.abs (r - x) <= Z.abs x.

(** A zero or a finite double. *)
Definition finite_SF (x : spec_float) : bool :=
  match x with
  | S754_zero _ | S754_finite _ _ _ => true
  | _ => false
  end.

(** A zero or finite double of magnitude at most [B], in units of
    [2^-1074]. *)
Definition finite_below (B : Z) (x : float) : Prop :=
  finite_SF (Prim2SF x) /\ Z.abs (scaled (Prim2SF x)) <= B.

(** The sum of the values of a list of doubles, in units of [2^-1074]. *)
Definition scaled_sum (vals : list float) : Z :=
  foldr (fun v s => scaled (Prim2SF v) + s) 0 vals.


(** The same for a table of doubles: the cells are finite doubles that do
    not decrease, by [<=] on doubles, to the right or downwards. *)
Definition sat_monotone64 (w h : Z) (sat : list float) : Prop :=
  (forall x y, 0 <= x <= w -> 0 <= y <= h ->
     finite_SF (Prim2SF (@cell binary64 w sat y x)) = true) /\
  (forall x y, 0 <= x < w -> 0 <= y <= h ->
     (@cell binary64 w sat y x <=? @cell binary64 w sat y (x + 1))%float = true) /\
  (forall x y, 0 <= x <= w -> 0 <= y < h ->
     (@cell binary64 w sat y x <=? @cell binary64 w sat (y + 1) x)%float = true).

(** Lines 57-72 with the limit of the engine: [new Float64Array(satSize)]
    throws a [RangeError] for a negative length and also for a length
    above [limit], the largest one that the engine allocates; the guard
    comes first.  [ssimGrey] is the program on an engine without such a
    limit. *)
Definition ssimGrey_alloc {N : Number} (limit : Z) (img1 img2 : list Z)
    (width height : Z) (options : option (SsimGreyOptions N)) : outcome num :=
  let ws := opt_or options windowSize 11 in
  if (width - ws + 1 <=? 0) || (height - ws + 1 <=? 0) then Return (of_Z 1)
  else if limit <? (width + 1) * (height + 1) then RangeError
  else ssimGrey img1 img2 width height options.

(** Expose the rational operations behind the exact reading. *)
Ltac exact_ops := cbn [num of_Z NaN add sub mul div exact xlift] in *.

(** Split a goal about the five tables into one goal per table. *)
Ltac five_tables := split; [|split; [|split; [|split]]].

(** ** Sums over integer ranges *)

Lemma sumZ_nil g lo n : n <= 0 -> sumZ g lo n = 0.
Proof. intros. unfold sumZ. by rewrite seqZ_nil. Qed.

Lemma sumZ_app g lo a b :
  0 <= a -> 0 <= b -> sumZ g lo (a + b) = sumZ g lo a + sumZ g (lo + a) b.
Proof.
  intros Ha Hb. unfold sumZ. rewrite seqZ_app, fmap_app, foldr_app by done.
  generalize (foldr Z.add 0 (g <$> seqZ (lo + a) b)) as r.
  induction (g <$> seqZ lo a) as [|v l IH]; intros r; simpl; [lia|].
  rewrite IH. lia.
Qed.

Lemma sumZ_one g lo : sumZ g lo 1 = g lo.
Proof. unfold sumZ. rewrite seqZ_cons, seqZ_nil by lia. simpl. lia. Qed.

Lemma sumZ_succ g lo n : 0 <= n -> sumZ g lo (n + 1) = sumZ g lo n + g (lo + n).
Proof. intros. rewrite sumZ_app, sumZ_one by lia. done. Qed.

Lemma sumZ_ext g g' lo n :
  (forall i, lo <= i < lo + n -> g i = g' i) -> sumZ g lo n = sumZ g' lo n.
Proof.
  intros H. unfold sumZ. f_equal. apply list_fmap_ext.
  intros k i Hi. apply H. apply lookup_seqZ in Hi. lia.
Qed.

Lemma sumZ_nonneg g lo n :
  (forall i, lo <= i < lo + n -> 0 <= g i) -> 0 <= sumZ g lo n.
Proof.
  intros H. unfold sumZ.
  assert (Forall (fun v => 0 <= v) (g <$> seqZ lo n)) as HF.
  { apply Forall_fmap, Forall_seqZ. intros i Hi. by apply H. }
  induction HF; simpl; lia.
Qed.

Lemma sumZ_sub g g' lo n :
  sumZ g lo n - sumZ g' lo n = sumZ (fun i => g i - g' i) lo n.
Proof.
  unfold sumZ. induction (seqZ lo n) as [|v l IH]; csimpl; lia.
Qed.

Lemma prefix_sum_0_l f y : prefix_sum f 0 y = 0.
Proof.
  unfold prefix_sum. destruct (decide (0 <= y)) as [Hy|Hy].
  - rewrite (sumZ_ext _ (fun _ => 0)) by (intros; by apply sumZ_nil).
    unfold sumZ. induction (seqZ 0 y); csimpl; lia.
  - apply sumZ_nil. lia.
Qed.

Lemma prefix_sum_0_r f x : prefix_sum f x 0 = 0.
Proof. by apply sumZ_nil. Qed.

Lemma prefix_sum_succ f x y :
  0 <= x -> 0 <= y ->
  prefix_sum f (x + 1) (y + 1)
  = f x y + prefix_sum f (x + 1) y + prefix_sum f x (y + 1) - prefix_sum f x y.
Proof.
  intros Hx Hy. unfold prefix_sum.
  rewrite !(sumZ_succ _ 0 y) by done. rewrite (sumZ_succ _ 0 x) by done.
  rewrite !Z.add_0_l. lia.
Qed.

(** ** The exact reading: computation rules *)

Lemma get_lookup {N : Number} (a : list num) (i : Z) (v : num) :
  0 <= i -> a !! Z.to_nat i = Some v -> get a i = v.
Proof.
  intros Hi Hv. unfold get. destruct (Z.ltb_spec i 0); [lia|]. by rewrite Hv.
Qed.

Lemma get_put_eq {N : Number} (a : list num) (i : Z) (v : num) :
  0 <= i < Z.of_nat (length a) -> get (put a i v) i = v.
Proof.
  intros Hi. unfold get, put. destruct (Z.ltb_spec i 0); [lia|].
  rewrite list_lookup_insert_eq by lia. done.
Qed.

Lemma get_put_ne {N : Number} (a : list num) (i j : Z) (v : num) :
  0 <= i -> 0 <= j -> i <> j -> get (put a i v) j = get a j.
Proof.
  intros Hi Hj Hij. unfold get, put.
  destruct (Z.ltb_spec i 0); [lia|]. destruct (Z.ltb_spec j 0); [lia|].
  rewrite list_lookup_insert_ne by lia. done.
Qed.

Lemma length_put {N : Number} (a : list num) (i : Z) (v : num) :
  length (put a i v) = length a.
Proof. unfold put. destruct (i <? 0); [done|]. apply length_insert. Qed.

(** Cells of a table are addressed without collision. *)
Lemma cell_index_inj (sw i j i' j' : Z) :
  0 <= i < sw -> 0 <= i' < sw ->
  j * sw + i = j' * sw + i' -> i = i' /\ j = j'.
Proof.
  intros Hi Hi' E.
  assert (j = j') as -> by nia. lia.
Qed.

Lemma cell_index_bound (w h i j : Z) :
  0 <= i <= w -> 0 <= j <= h ->
  0 <= j * (w + 1) + i < (w + 1) * (h + 1).
Proof. intros. nia. Qed.

(** ** Correctness of the SAT builder (exact reading) *)

Lemma sample_pixel (img : list Z) (w h x y : Z) :
  length img = Z.to_nat (w * h) -> 0 <= x < w -> 0 <= y < h ->
  @sample exact img (y * w + x) = Fin (Qc_of_Z (pixel img w x y)).
Proof.
  intros Hlen Hx Hy. unfold sample, pixel.
  assert (0 <= y * w + x < w * h) as Hi by nia.
  destruct (Z.ltb_spec (y * w + x) 0); [lia|].
  destruct (lookup_lt_is_Some_2 img (Z.to_nat (y * w + x))) as [v Hv]; [lia|].
  rewrite Hv. done.
Qed.

Lemma table_inv_init f w h :
  0 <= w -> 0 <= h ->
  table_inv f w h 0 0 (@float64_array exact ((w + 1) * (h + 1))).
Proof.
  intros Hw Hh. split.
  - unfold float64_array. by rewrite length_replicate.
  - intros i j Hi Hj. pose proof (cell_index_bound w h i j Hi Hj).
    erewrite get_lookup; [|lia|apply lookup_replicate_2; lia].
    simpl. do 2 f_equal. unfold cell_done.
    destruct (Z.leb_spec j 0); simpl.
    + assert (j = 0) as -> by lia. by rewrite prefix_sum_0_r.
    + destruct (Z.eqb_spec j (0 + 1)); simpl; [|done].
      destruct (Z.leb_spec i 0); [|done].
      assert (i = 0) as -> by lia. by rewrite prefix_sum_0_l.
Qed.

Lemma cell_done_above y x i : cell_done y x y i = true.
Proof. unfold cell_done. by rewrite Z.leb_refl. Qed.

Lemma cell_done_row y x i : cell_done y x (y + 1) i = (i <=? x).
Proof.
  unfold cell_done. rewrite Z.eqb_refl.
  by destruct (Z.leb_spec (y + 1) y); [lia|].
Qed.

Lemma table_inv_update f w h y x sat v :
  0 <= x < w -> 0 <= y < h ->
  table_inv f w h y x sat ->
  v = Fin (Qc_of_Z (f x y)) ->
  let i := (y + 1) * (w + 1) + (x + 1) in
  table_inv f w h y (x + 1)
    (@sat_update exact sat v i (i - (w + 1)) (i - 1) (i - (w + 1) - 1)).
Proof.
  intros Hx Hy [Hlen Hcells] -> i. subst i. unfold sat_update. split.
  - by rewrite (length_put (N:=exact)).
  - intros i' j' Hi' Hj'.
    pose proof (cell_index_bound w h i' j' Hi' Hj') as Hb'.
    pose proof (cell_index_bound w h (x + 1) (y + 1) ltac:(lia) ltac:(lia)) as Hb.
    destruct (decide (i' = x + 1 /\ j' = y + 1)) as [[-> ->]|Hne].
    + rewrite (get_put_eq (N:=exact)) by (simpl; lia).
      replace ((y + 1) * (w + 1) + (x + 1) - (w + 1))
        with (y * (w + 1) + (x + 1)) by lia.
      replace ((y + 1) * (w + 1) + (x + 1) - 1)
        with ((y + 1) * (w + 1) + x) by lia.
      replace (y * (w + 1) + (x + 1) - 1) with (y * (w + 1) + x) by lia.
      rewrite !Hcells by lia.
      rewrite !cell_done_above, !cell_done_row, !Z.leb_refl.
      rewrite (prefix_sum_succ f x y) by lia. simpl.
      f_equal. rewrite !Z2Qc_inj_sub, !Z2Qc_inj_add. done.
    + rewrite (get_put_ne (N:=exact)); [|lia|lia|].
      * rewrite Hcells by done. do 2 f_equal. unfold cell_done.
        destruct (Z.leb_spec j' y); [done|]. simpl.
        destruct (Z.eqb_spec j' (y + 1)); [|done]. simpl.
        destruct (Z.leb_spec i' x), (Z.leb_spec i' (x + 1)); try done; lia.
      * intros E. apply cell_index_inj in E; lia.
Qed.

(** A [for (k = 0; k < n; k++)] loop maintains an invariant indexed by [k]. *)
Lemma foldl_seqZ_snoc {A} (step : A -> Z -> A) (a : A) (n : Z) :
  0 <= n -> foldl step a (seqZ 0 (n + 1)) = step (foldl step a (seqZ 0 n)) n.
Proof.
  intros Hn. rewrite seqZ_app by lia. rewrite foldl_app.
  rewrite (seqZ_cons (0 + n)), (seqZ_nil (Z.succ (0 + n))) by lia.
  simpl. by rewrite Z.add_0_l.
Qed.

Lemma for_loop_inv {A} (P : Z -> A -> Prop) (step : A -> Z -> A) (n : Z) (a : A) :
  0 <= n -> P 0 a ->
  (forall k b, 0 <= k < n -> P k b -> P (k + 1) (step b k)) ->
  P n (foldl step a (seqZ 0 n)).
Proof.
  intros Hn H0 Hstep.
  cut (forall m, 0 <= m -> m <= n -> P m (foldl step a (seqZ 0 m))).
  { intros H. apply H; lia. }
  intros m Hm. pattern m. apply natlike_ind; [| |done].
  - intros _. by rewrite seqZ_nil.
  - intros k Hk IH Hle. rewrite <- Z.add_1_r, foldl_seqZ_snoc by lia.
    apply Hstep; [lia|]. apply IH. lia.
Qed.

Lemma sats_inv_pixel img1 img2 w h y x s :
  length img1 = Z.to_nat (w * h) -> length img2 = Z.to_nat (w * h) ->
  0 <= x < w -> 0 <= y < h ->
  sats_inv img1 img2 w h y x s ->
  sats_inv img1 img2 w h y (x + 1) (sat_pixel img1 img2 w (w + 1) y s x).
Proof.
  intros H1 H2 Hx Hy (HX & HY & HX2 & HY2 & HXY).
  unfold sat_pixel.
  rewrite (sample_pixel img1 w h), (sample_pixel img2 w h) by done.
  five_tables; simpl; apply table_inv_update; try done; simpl;
    by rewrite Z2Qc_inj_mul.
Qed.

Lemma table_inv_next_row f w h y sat :
  table_inv f w h y w sat -> table_inv f w h (y + 1) 0 sat.
Proof.
  intros [Hlen Hcells]. split; [done|].
  intros i j Hi Hj. rewrite Hcells by done. do 2 f_equal.
  unfold cell_done.
  destruct (Z.leb_spec j y), (Z.leb_spec j (y + 1)); simpl; try done; try lia.
  - destruct (Z.eqb_spec j (y + 1)); [|lia]. simpl.
    by destruct (Z.leb_spec i w); [|lia].
  - destruct (Z.eqb_spec j (y + 1)); [lia|]. simpl.
    destruct (Z.eqb_spec j (y + 1 + 1)); simpl; [|done].
    destruct (Z.leb_spec i 0); [|done].
    assert (i = 0) as -> by lia. by rewrite prefix_sum_0_l.
Qed.

Lemma sats_inv_row img1 img2 w h y s :
  length img1 = Z.to_nat (w * h) -> length img2 = Z.to_nat (w * h) ->
  0 <= w -> 0 <= y < h ->
  sats_inv img1 img2 w h y 0 s ->
  sats_inv img1 img2 w h (y + 1) 0 (sat_row img1 img2 w (w + 1) s y).
Proof.
  intros H1 H2 Hw Hy Hs.
  assert (sats_inv img1 img2 w h y w (sat_row img1 img2 w (w + 1) s y))
    as (HX & HY & HX2 & HY2 & HXY).
  { unfold sat_row.
    apply (for_loop_inv (fun x s => sats_inv img1 img2 w h y x s)); [done..|].
    intros x s' Hx Hs'. by apply sats_inv_pixel. }
  five_tables; by apply table_inv_next_row.
Qed.

Lemma table_inv_final f w h sat : table_inv f w h h 0 sat -> table_ok f w h sat.
Proof.
  intros [_ Hcells] i j Hi Hj. rewrite Hcells by done. unfold cell_done.
  by destruct (Z.leb_spec j h); [|lia].
Qed.

Lemma build_sats_inv img1 img2 w h :
  length img1 = Z.to_nat (w * h) -> length img2 = Z.to_nat (w * h) ->
  0 <= w -> 0 <= h ->
  sats_inv img1 img2 w h h 0 (@build_sats exact img1 img2 w h).
Proof.
  intros H1 H2 Hw Hh. unfold build_sats.
  apply (for_loop_inv (fun y s => sats_inv img1 img2 w h y 0 s)); [done| |].
  - five_tables; by apply table_inv_init.
  - intros y s Hy Hs. by apply sats_inv_row.
Qed.

Lemma build_sats_ok img1 img2 w h :
  length img1 = Z.to_nat (w * h) -> length img2 = Z.to_nat (w * h) ->
  0 <= w -> 0 <= h ->
  let s := @build_sats exact img1 img2 w h in
  table_ok (pixel img1 w) w h (satX s) /\
  table_ok (pixel img2 w) w h (satY s) /\
  table_ok (fun i j => pixel img1 w i j * pixel img1 w i j) w h (satX2 s) /\
  table_ok (fun i j => pixel img2 w i j * pixel img2 w i j) w h (satY2 s) /\
  table_ok (fun i j => pixel img1 w i j * pixel img2 w i j) w h (satXY s).
Proof.
  intros H1 H2 Hw Hh s.
  destruct (build_sats_inv img1 img2 w h H1 H2 Hw Hh) as (HX & HY & HX2 & HY2 & HXY).
  five_tables; by apply table_inv_final.
Qed.

(** ** Monotonicity of prefix sums *)

Lemma prefix_sum_step_x f x y :
  0 <= x -> prefix_sum f (x + 1) y - prefix_sum f x y = sumZ (fun j => f x j) 0 y.
Proof.
  intros Hx. unfold prefix_sum. rewrite sumZ_sub. apply sumZ_ext.
  intros j _. rewrite sumZ_succ by done. rewrite Z.add_0_l. lia.
Qed.

Lemma prefix_sum_step_y f x y :
  0 <= y -> prefix_sum f x (y + 1) - prefix_sum f x y = sumZ (fun i => f i y) 0 x.
Proof.
  intros Hy. unfold prefix_sum. rewrite sumZ_succ by done.
  rewrite Z.add_0_l. lia.
Qed.

Lemma pixel_nonneg img w x y : Forall (Z.le 0) img -> 0 <= pixel img w x y.
Proof.
  intros H. unfold pixel.
  destruct (img !! Z.to_nat (y * w + x)) as [v|] eqn:E; simpl; [|done].
  exact (Forall_lookup_1 _ _ _ _ H E).
Qed.

Lemma xle_of_Z (a b : Z) : a <= b -> xle (Fin (Qc_of_Z a)) (Fin (Qc_of_Z b)).
Proof. intros H. exact (proj1 (Z2Qc_inj_le a b) H). Qed.

Lemma table_ok_monotone f w h sat :
  (forall i j, 0 <= f i j) -> table_ok f w h sat -> sat_monotone w h sat.
Proof.
  intros Hf Hok. repeat split.
  - intros x y Hx Hy. unfold cell. rewrite Hok by done. by eexists.
  - intros x y Hx Hy. unfold cell. rewrite !Hok by lia.
    apply xle_of_Z. pose proof (prefix_sum_step_x f x y ltac:(lia)).
    pose proof (sumZ_nonneg (fun j => f x j) 0 y ltac:(intros; apply Hf)). lia.
  - intros x y Hx Hy. unfold cell. rewrite !Hok by lia.
    apply xle_of_Z. pose proof (prefix_sum_step_y f x y ltac:(lia)).
    pose proof (sumZ_nonneg (fun i => f i y) 0 x ltac:(intros; apply Hf)). lia.
Qed.

(** In the exact reading, for two images of [w * h] non-negative samples,
    every cell of each of the five tables that [build_sats] produces is
    finite, and each table is non-decreasing in [x] and in [y]. *)
Lemma sats_monotone_exact img1 img2 w h :
  length img1 = Z.to_nat (w * h) -> length img2 = Z.to_nat (w * h) ->
  0 <= w -> 0 <= h ->
  Forall (Z.le 0) img1 -> Forall (Z.le 0) img2 ->
  let s := @build_sats exact img1 img2 w h in
  sat_monotone w h (satX s) /\ sat_monotone w h (satY s) /\
  sat_monotone w h (satX2 s) /\ sat_monotone w h (satY2 s) /\
  sat_monotone w h (satXY s).
Proof.
  intros H1 H2 Hw Hh Hp1 Hp2 s.
  destruct (build_sats_ok img1 img2 w h H1 H2 Hw Hh) as (HX & HY & HX2 & HY2 & HXY).
  pose proof (pixel_nonneg img1 w) as P1. pose proof (pixel_nonneg img2 w) as P2.
  five_tables; (eapply table_ok_monotone; [|eassumption]); intros i j; simpl;
    auto using Z.mul_nonneg_nonneg.
Qed.

(** ** From the four corners of a table to the window's pixels *)

Lemma four_corners f x y ws :
  0 <= x -> 0 <= y -> 0 <= ws ->
  prefix_sum f (x + ws) (y + ws) - prefix_sum f x (y + ws)
    - prefix_sum f (x + ws) y + prefix_sum f x y
  = sumZ (fun j => sumZ (fun i => f i j) x ws) y ws.
Proof.
  intros Hx Hy Hws. unfold prefix_sum.
  rewrite !(sumZ_app _ 0 y ws) by done. rewrite Z.add_0_l.
  transitivity (sumZ (fun j => sumZ (fun i => f i j) 0 (x + ws)) y ws
                - sumZ (fun j => sumZ (fun i => f i j) 0 x) y ws); [lia|].
  rewrite sumZ_sub. apply sumZ_ext. intros j _.
  rewrite sumZ_app by done. rewrite Z.add_0_l. lia.
Qed.

Lemma sumQ_of_sumZ g lo n :
  Qc_of_Z (sumZ g lo n) = sumQ (fun i => Qc_of_Z (g i)) lo n.
Proof.
  unfold sumZ, sumQ. induction (seqZ lo n) as [|v l IH]; csimpl.
  - apply Z2Qc_inj_0.
  - by rewrite Z2Qc_inj_add, IH.
Qed.

Lemma sumQ_ext g g' lo n :
  (forall i, lo <= i < lo + n -> g i = g' i) -> sumQ g lo n = sumQ g' lo n.
Proof.
  intros H. unfold sumQ. f_equal. apply list_fmap_ext.
  intros k i Hi. apply H. apply lookup_seqZ in Hi. lia.
Qed.

Lemma window_sum_of_Z f wx wy ws :
  Qc_of_Z (sumZ (fun j => sumZ (fun i => f i j) wx ws) wy ws)
  = window_sum (fun i j => Qc_of_Z (f i j)) wx wy ws.
Proof.
  unfold window_sum. rewrite sumQ_of_sumZ. apply sumQ_ext.
  intros j _. apply sumQ_of_sumZ.
Qed.

(** Sum of products of deviations, expanded. *)
Lemma sumQ_deviations (F G : Z -> Qc) (a b : Qc) lo n :
  0 <= n ->
  (sumQ (fun i => (F i - a) * (G i - b)) lo n
   = sumQ (fun i => F i * G i) lo n - b * sumQ F lo n - a * sumQ G lo n
     + Qc_of_Z n * (a * b))%Qc.
Proof.
  intros Hn.
  replace n with (Z.of_nat (length (seqZ lo n))) at 5
    by (by rewrite length_seqZ, Z2Nat.id).
  unfold sumQ. induction (seqZ lo n) as [|v l IH]; csimpl.
  - change (Z.of_nat 0) with 0. rewrite Z2Qc_inj_0. ring.
  - rewrite IH, Nat2Z.inj_succ, <- Z.add_1_r, Z2Qc_inj_add, Z2Qc_inj_1. ring.
Qed.

Lemma sumQ_linear (A B C : Z -> Qc) (a b c : Qc) lo n :
  0 <= n ->
  (sumQ (fun j => A j - b * B j - a * C j + c) lo n
   = sumQ A lo n - b * sumQ B lo n - a * sumQ C lo n + Qc_of_Z n * c)%Qc.
Proof.
  intros Hn.
  replace n with (Z.of_nat (length (seqZ lo n))) at 5
    by (by rewrite length_seqZ, Z2Nat.id).
  unfold sumQ. induction (seqZ lo n) as [|v l IH]; csimpl.
  - change (Z.of_nat 0) with 0. rewrite Z2Qc_inj_0. ring.
  - rewrite IH, Nat2Z.inj_succ, <- Z.add_1_r, Z2Qc_inj_add, Z2Qc_inj_1. ring.
Qed.

Lemma window_sum_deviations (F G : Z -> Z -> Qc) (a b : Qc) wx wy ws :
  0 <= ws ->
  (window_sum (fun i j => (F i j - a) * (G i j - b)) wx wy ws
   = window_sum (fun i j => F i j * G i j) wx wy ws
     - b * window_sum F wx wy ws - a * window_sum G wx wy ws
     + Qc_of_Z (ws * ws) * (a * b))%Qc.
Proof.
  intros Hws. unfold window_sum.
  rewrite (sumQ_ext _ (fun j =>
    sumQ (fun i => F i j * G i j) wx ws - b * sumQ (fun i => F i j) wx ws
    - a * sumQ (fun i => G i j) wx ws + Qc_of_Z ws * (a * b))%Qc).
  - rewrite sumQ_linear by done. rewrite Z2Qc_inj_mul. ring.
  - intros j _. by apply sumQ_deviations.
Qed.

(** [E[FG] - E[F] E[G]] is the mean product of the deviations. *)
Lemma cov_formula (F G : Z -> Z -> Qc) wx wy ws :
  0 < ws ->
  let n := Qc_of_Z (ws * ws) in
  let mF := (window_sum F wx wy ws / n)%Qc in
  let mG := (window_sum G wx wy ws / n)%Qc in
  (window_sum (fun i j => F i j * G i j) wx wy ws / n - mF * mG
   = window_sum (fun i j => (F i j - mF) * (G i j - mG)) wx wy ws / n)%Qc.
Proof.
  intros Hws n mF mG.
  assert (n <> 0%Qc) as Hn.
  { unfold n. rewrite <- Z2Qc_inj_0. intros E%Z2Qc_inj. nia. }
  rewrite window_sum_deviations by lia. fold n. unfold mF, mG. field. done.
Qed.

Lemma window_sum_of_Z_mul (f g : Z -> Z -> Z) wx wy ws :
  window_sum (fun i j => Qc_of_Z (f i j * g i j)) wx wy ws
  = window_sum (fun i j => (Qc_of_Z (f i j) * Qc_of_Z (g i j))%Qc) wx wy ws.
Proof.
  unfold window_sum. apply sumQ_ext. intros j _. apply sumQ_ext. intros i _.
  apply Z2Qc_inj_mul.
Qed.

Lemma rect_window f w h sat wx wy ws :
  table_ok f w h sat ->
  0 <= wx -> 0 <= wy -> 0 <= ws -> wx + ws <= w -> wy + ws <= h ->
  @rect exact sat (wy * (w + 1) + wx) (wy * (w + 1) + (wx + ws))
    ((wy + ws) * (w + 1) + wx) ((wy + ws) * (w + 1) + (wx + ws))
  = Fin (window_sum (fun i j => Qc_of_Z (f i j)) wx wy ws).
Proof.
  intros Hok Hx Hy Hws Hw Hh. unfold rect. rewrite !Hok by lia. simpl.
  rewrite <- window_sum_of_Z, <- four_corners by done.
  by rewrite Z2Qc_inj_add, !Z2Qc_inj_sub.
Qed.

Lemma xdiv_window_size (a : Qc) (ws : Z) :
  0 < ws -> xdiv (Fin a) (Fin (Qc_of_Z (ws * ws))) = Fin (a / Qc_of_Z (ws * ws)).
Proof.
  intros Hws. unfold xdiv. destruct (decide _) as [E|_]; [|done].
  rewrite <- Z2Qc_inj_0 in E. apply Z2Qc_inj in E. nia.
Qed.

Lemma window_stats_exact img1 img2 w h ws wx wy :
  length img1 = Z.to_nat (w * h) -> length img2 = Z.to_nat (w * h) ->
  0 < ws -> 0 <= wx -> wx + ws <= w -> 0 <= wy -> wy + ws <= h ->
  @window_stats exact (build_sats img1 img2 w h) (w + 1) ws wy wx
  = direct_stats img1 img2 w wx wy ws.
Proof.
  intros H1 H2 Hws Hwx Hw Hwy Hh.
  destruct (build_sats_ok img1 img2 w h H1 H2 ltac:(lia) ltac:(lia))
    as (HX & HY & HX2 & HY2 & HXY).
  unfold window_stats, direct_stats.
  rewrite (rect_window _ w h _ wx wy ws HX), (rect_window _ w h _ wx wy ws HY),
    (rect_window _ w h _ wx wy ws HX2), (rect_window _ w h _ wx wy ws HY2),
    (rect_window _ w h _ wx wy ws HXY) by lia.
  exact_ops. rewrite !xdiv_window_size by done. exact_ops.
  unfold direct_var, direct_cov, direct_mean.
  rewrite <- !cov_formula by done.
  by rewrite !window_sum_of_Z_mul.
Qed.

(** C1.  For images of [w * h] samples and a window of size [ws > 0] that
    lies inside the image, the mean, variance and covariance that the
    program derives from the four corners of its tables are the mean,
    variance and covariance of the window's raw pixels (exact reading). *)
Theorem window_stats_direct img1 img2 w h ws wx wy :
  length img1 = Z.to_nat (w * h) -> length img2 = Z.to_nat (w * h) ->
  0 < ws -> 0 <= wx -> wx + ws <= w -> 0 <= wy -> wy + ws <= h ->
  let st := @window_stats exact (build_sats img1 img2 w h) (w + 1) ws wy wx in
  meanX st = Fin (direct_mean (pixel img1 w) wx wy ws) /\
  meanY st = Fin (direct_mean (pixel img2 w) wx wy ws) /\
  varX st = Fin (direct_var (pixel img1 w) wx wy ws) /\
  varY st = Fin (direct_var (pixel img2 w) wx wy ws) /\
  covXY st = Fin (direct_cov (pixel img1 w) (pixel img2 w) wx wy ws).
Proof.
  intros H1 H2 Hws Hwx Hw Hwy Hh st. subst st.
  rewrite (window_stats_exact img1 img2 w h ws wx wy) by done.
  unfold direct_stats. by five_tables.
Qed.

(** ** The window loops, in any reading of [number] *)

Lemma window_row_fold {N : Number} s sw ws c1 c2 winW acc wy :
  window_row s sw ws c1 c2 winW acc wy
  = foldl welford acc
      ((fun p => window_val s sw ws c1 c2 p.1 p.2)
         <$> ((fun wx => (wy, wx)) <$> seqZ 0 winW)).
Proof. unfold window_row. by rewrite !foldl_fmap. Qed.

Lemma mean_ssim_fold {N : Number} s sw ws c1 c2 winW winH :
  mean_ssim s sw ws c1 c2 winW winH
  = (foldl welford (of_Z 0, 0) (window_values s sw ws c1 c2 winW winH)).1.
Proof.
  unfold mean_ssim, window_values, window_corners. f_equal.
  generalize (of_Z 0, 0) as acc.
  induction (seqZ 0 winH) as [|wy l IH]; intros acc; [done|].
  rewrite bind_cons, fmap_app, foldl_app. simpl.
  by rewrite IH, window_row_fold.
Qed.

Lemma length_window_corners winW winH :
  0 <= winW -> 0 <= winH ->
  Z.of_nat (length (window_corners winW winH)) = winW * winH.
Proof.
  intros HW HH. unfold window_corners.
  assert (forall l : list Z,
    length (l ≫= fun wy => (fun wx => (wy, wx)) <$> seqZ 0 winW)
    = (length l * Z.to_nat winW)%nat) as E.
  { induction l as [|v l IH]; [done|].
    rewrite bind_cons, length_app, length_fmap, length_seqZ, IH. simpl. lia. }
  rewrite E, length_seqZ. nia.
Qed.

Lemma elem_of_window_corners winW winH wy wx :
  (wy, wx) ∈ window_corners winW winH <-> 0 <= wy < winH /\ 0 <= wx < winW.
Proof.
  unfold window_corners. rewrite list_elem_of_bind. split.
  - intros (y & Hin & Hy). apply list_elem_of_fmap in Hin as (x & E & Hx).
    inversion E; subst. apply elem_of_seqZ in Hx, Hy. lia.
  - intros [Hy Hx]. exists wy. split.
    + apply list_elem_of_fmap. exists wx. split; [done|]. apply elem_of_seqZ. lia.
    + apply elem_of_seqZ. lia.
Qed.

Lemma ssimGrey_unfold {N : Number} img1 img2 width height options :
  let ws := ws_of options in
  0 < width - ws + 1 -> 0 < height - ws + 1 ->
  0 <= (width + 1) * (height + 1) ->
  ssimGrey img1 img2 width height options
  = Return (foldl welford (of_Z 0, 0)
              (ssim_values img1 img2 width height options)).1.
Proof.
  intros ws HW HH Hsize. unfold ssimGrey. fold (ws_of options). fold ws.
  destruct (Z.leb_spec (width - ws + 1) 0); [lia|].
  destruct (Z.leb_spec (height - ws + 1) 0); [lia|].
  destruct (Z.ltb_spec ((width + 1) * (height + 1)) 0); [lia|].
  simpl. by rewrite mean_ssim_fold.
Qed.

Lemma degenerate_guard (winW winH : Z) :
  winW <= 0 \/ winH <= 0 -> (winW <=? 0) || (winH <=? 0) = true.
Proof.
  intros H. destruct (Z.leb_spec winW 0); [done|].
  destruct (Z.leb_spec winH 0); [done|]. lia.
Qed.

Lemma ssimGrey_guard {N : Number} img1 img2 width height options :
  (width - ws_of options + 1 <=? 0) || (height - ws_of options + 1 <=? 0) = true ->
  ssimGrey img1 img2 width height options = Return (of_Z 1).
Proof. intros H. unfold ssimGrey. fold (ws_of options). by rewrite H. Qed.

(** C4.  When the image is smaller than the window in either dimension,
    [ssimGrey] returns 1 whatever the buffers hold, in every reading of
    [number]; no table is consulted. *)
Theorem ssimGrey_degenerate_window {N : Number} img1 img2 width height options :
  width - ws_of options + 1 <= 0 \/ height - ws_of options + 1 <= 0 ->
  ssimGrey img1 img2 width height options = Return (of_Z 1).
Proof.
  intros H. apply ssimGrey_guard. by apply degenerate_guard.
Qed.

(** ** The running mean is the arithmetic mean (exact reading) *)

Lemma Qc_of_Z_nonzero (z : Z) : z <> 0 -> Qc_of_Z z <> 0%Qc.
Proof. intros Hz E. rewrite <- Z2Qc_inj_0 in E. by apply Z2Qc_inj in E. Qed.

Lemma xdiv_of_Z (a : Qc) (z : Z) :
  z <> 0 -> xdiv (Fin a) (Fin (Qc_of_Z z)) = Fin (a / Qc_of_Z z).
Proof.
  intros Hz. unfold xdiv. destruct (decide _) as [E|_]; [|done].
  by apply Qc_of_Z_nonzero in E.
Qed.

Lemma total_snoc {N : Number} (vals : list num) (v : num) :
  total (vals ++ [v]) = add (total vals) v.
Proof. unfold total. by rewrite foldl_snoc. Qed.

Lemma welford_mean (vals : list xnum) :
  let acc := foldl (@welford exact) (Fin 0%Qc, 0) vals in
  acc.2 = Z.of_nat (length vals) /\
  (vals = [] -> acc.1 = Fin 0%Qc) /\
  (vals <> [] -> acc.1 = @arithmetic_mean exact vals).
Proof.
  induction vals as [|v vals IH] using rev_ind; [done|].
  rewrite foldl_snoc.
  destruct (foldl (@welford exact) (Fin 0%Qc, 0) vals) as [m c].
  destruct IH as (Hc & H0 & Hm). simpl in Hc, H0, Hm. subst c.
  unfold welford. cbn [fst snd].
  rewrite length_app, Nat2Z.inj_add. change (Z.of_nat (length [v])) with 1.
  split; [done|]. split; [by destruct vals|]. intros _.
  set (n := Z.of_nat (length vals)) in *.
  assert (n + 1 <> 0) as Hn by lia.
  pose proof (Qc_of_Z_nonzero _ Hn) as Hn1. rewrite Z2Qc_inj_add, Z2Qc_inj_1 in Hn1.
  unfold arithmetic_mean. rewrite (total_snoc (N:=exact)), length_app, Nat2Z.inj_add.
  change (Z.of_nat (length [v])) with 1. fold n.
  destruct (decide (vals = [])) as [->|Hne].
  - rewrite H0 by done. destruct v as [q|]; [|done].
    unfold total. cbn [foldl]. exact_ops. rewrite !xdiv_of_Z by done. f_equal.
    change n with 0. rewrite Z.add_0_l, Z2Qc_inj_0, Z2Qc_inj_1. field. done.
  - rewrite (Hm Hne). unfold arithmetic_mean. fold n.
    assert (n <> 0) as Hn0 by (unfold n; destruct vals; simpl; [done|lia]).
    pose proof (Qc_of_Z_nonzero _ Hn0).
    destruct (@total exact vals) as [S|]; [|done].
    exact_ops. rewrite xdiv_of_Z by done.
    destruct v as [q|]; [|done]. exact_ops. rewrite !xdiv_of_Z by done.
    f_equal. rewrite Z2Qc_inj_add, Z2Qc_inj_1. field. done.
Qed.

(** ** Order facts on canonical rationals, through [Q] *)

Lemma this_plus (x y : Qc) : (this (x + y)%Qc == this x + this y)%Q.
Proof. apply Qred_correct. Qed.

Lemma this_mult (x y : Qc) : (this (x * y)%Qc == this x * this y)%Q.
Proof. apply Qred_correct. Qed.

Lemma this_opp (x : Qc) : (this (- x)%Qc == - this x)%Q.
Proof. apply Qred_correct. Qed.

Lemma this_minus (x y : Qc) : (this (x - y)%Qc == this x - this y)%Q.
Proof. unfold Qcminus. rewrite this_plus, this_opp. reflexivity. Qed.

Lemma this_inv (x : Qc) : (this (/ x)%Qc == / this x)%Q.
Proof. apply Qred_correct. Qed.

(** Turn order statements on [Qc] into statements on [Q], where [lra] and
    [nra] apply. *)
Ltac qc2q :=
  unfold Qcle, Qclt in *;
  repeat match goal with
  | H : context [this (_ + _)%Qc] |- _ => rewrite this_plus in H
  | H : context [this (_ * _)%Qc] |- _ => rewrite this_mult in H
  | H : context [this (_ - _)%Qc] |- _ => rewrite this_minus in H
  | H : context [this (- _)%Qc] |- _ => rewrite this_opp in H
  | |- context [this (_ + _)%Qc] => rewrite this_plus
  | |- context [this (_ * _)%Qc] => rewrite this_mult
  | |- context [this (_ - _)%Qc] => rewrite this_minus
  | |- context [this (- _)%Qc] => rewrite this_opp
  end;
  change (this 0%Qc) with 0%Q in *; change (this 1%Qc) with 1%Q in *.

Lemma Qc_square_nonneg (x : Qc) : (0 <= x * x)%Qc.
Proof. qc2q. nra. Qed.

Lemma Qc_div_nonneg (a n : Qc) : (0 <= a -> 0 < n -> 0 <= a / n)%Qc.
Proof.
  intros Ha Hn. unfold Qcdiv. apply Qcmult_nonneg_nonneg; [done|].
  apply Qclt_le_weak. by apply Qcinv_pos.
Qed.

(** A ratio whose numerator is bounded by its positive denominator. *)
Lemma Qc_ratio_bound (n d : Qc) :
  (0 < d -> - d <= n -> n <= d -> -1 <= n / d /\ n / d <= 1)%Qc.
Proof.
  intros Hd Hlo Hhi. pose proof (Qcinv_pos d Hd) as Hi.
  assert (d * / d = 1)%Qc as E by (apply Qcmult_inv_r; by apply Qclt_not_eq in Hd).
  unfold Qcdiv. revert Hi E. generalize (/ d)%Qc. intros t Hi E.
  assert (this d * this t == 1)%Q as E'
    by (rewrite <- this_mult, E; reflexivity).
  clear E. qc2q.
  change (this (-1)%Qc) with (-1)%Q.
  set (a := this n) in *. set (b := this d) in *. set (c := this t) in *.
  clearbody a b c.
  assert (0 <= (b - a) * c)%Q by (apply Qmult_le_0_compat; lra).
  assert (0 <= (b + a) * c)%Q by (apply Qmult_le_0_compat; lra).
  split; lra.
Qed.

(** The two factors of the SSIM quotient: the denominator is positive and
    bounds the numerator in absolute value. *)
Lemma ssim_bound (mX mY vX vY cov c1 c2 : Qc) :
  (0 <= mX * mY ->
   0 <= vX + vY - 2 * cov -> 0 <= vX + vY + 2 * cov ->
   0 < c1 -> 0 < c2 ->
   let n := (2 * mX * mY + c1) * (2 * cov + c2) in
   let d := (mX * mX + mY * mY + c1) * (vX + vY + c2) in
   0 < d /\ - d <= n /\ n <= d)%Qc.
Proof.
  intros H1 H3 H4 H5 H6 n d. subst n d. qc2q.
  set (a := this mX) in *. set (b := this mY) in *.
  set (p := this vX) in *. set (q := this vY) in *.
  set (c := this cov) in *. set (d1 := this c1) in *. set (d2 := this c2) in *.
  clearbody a b p q c d1 d2.
  assert (0 <= a * a)%Q by nra.
  assert (0 <= b * b)%Q by nra.
  assert (0 <= (a - b) * (a - b))%Q by (generalize (a - b)%Q; intros t; nra).
  set (A := ((1 + 1) * a * b + d1)%Q). set (B := (a * a + b * b + d1)%Q).
  set (C := ((1 + 1) * c + d2)%Q). set (D := (p + q + d2)%Q).
  assert (0 < A)%Q by (unfold A; lra).
  assert (A <= B)%Q by (unfold A, B; lra).
  assert (0 < D)%Q by (unfold D; lra).
  assert (C <= D)%Q by (unfold C, D; lra).
  assert (- D <= C)%Q by (unfold C, D; lra).
  clearbody A B C D.
  assert (0 <= (B - A) * D)%Q by (apply Qmult_le_0_compat; lra).
  assert (0 <= A * (D - C))%Q by (apply Qmult_le_0_compat; lra).
  assert (0 <= A * (D + C))%Q by (apply Qmult_le_0_compat; lra).
  assert (0 < B * D)%Q by (apply Qmult_lt_0_compat; lra).
  repeat split; lra.
Qed.

(** The denominator alone needs no sign condition on the means. *)
Lemma ssim_den_pos (mX mY vX vY cov c1 c2 : Qc) :
  (0 <= vX + vY - 2 * cov -> 0 <= vX + vY + 2 * cov ->
   0 < c1 -> 0 < c2 ->
   0 < (mX * mX + mY * mY + c1) * (vX + vY + c2))%Qc.
Proof.
  intros H3 H4 H5 H6. qc2q.
  set (a := this mX) in *. set (b := this mY) in *.
  set (p := this vX) in *. set (q := this vY) in *.
  set (c := this cov) in *. set (d1 := this c1) in *. set (d2 := this c2) in *.
  clearbody a b p q c d1 d2.
  assert (0 <= a * a)%Q by nra.
  assert (0 <= b * b)%Q by nra.
  apply Qmult_lt_0_compat; lra.
Qed.

(** ** Sign of the window statistics (exact reading) *)

Lemma sumQ_nonneg g lo n : (forall i, (0 <= g i)%Qc) -> (0 <= sumQ g lo n)%Qc.
Proof.
  intros H. unfold sumQ. induction (seqZ lo n) as [|v l IH]; csimpl; [done|].
  by apply Qcplus_nonneg_nonneg.
Qed.

Lemma window_sum_nonneg g wx wy ws :
  (forall i j, (0 <= g i j)%Qc) -> (0 <= window_sum g wx wy ws)%Qc.
Proof. intros H. apply sumQ_nonneg. intros j. by apply sumQ_nonneg. Qed.

Lemma sumQ_combine (A B C : Z -> Qc) (k : Qc) lo n :
  (sumQ (fun i => A i + B i + k * C i) lo n
   = sumQ A lo n + sumQ B lo n + k * sumQ C lo n)%Qc.
Proof.
  unfold sumQ. induction (seqZ lo n) as [|v l IH]; csimpl; [ring|].
  rewrite IH. ring.
Qed.

Lemma window_sum_combine (A B C : Z -> Z -> Qc) (k : Qc) wx wy ws :
  (window_sum (fun i j => A i j + B i j + k * C i j) wx wy ws
   = window_sum A wx wy ws + window_sum B wx wy ws + k * window_sum C wx wy ws)%Qc.
Proof.
  unfold window_sum. rewrite <- sumQ_combine. apply sumQ_ext.
  intros j _. apply sumQ_combine.
Qed.

Lemma window_size_pos ws : 0 < ws -> (0 < Qc_of_Z (ws * ws))%Qc.
Proof.
  intros H. rewrite <- Z2Qc_inj_0. apply (proj1 (Z2Qc_inj_lt 0 (ws * ws))). nia.
Qed.

Lemma direct_mean_nonneg f wx wy ws :
  0 < ws -> (forall i j, 0 <= f i j) -> (0 <= direct_mean f wx wy ws)%Qc.
Proof.
  intros Hws Hf. apply Qc_div_nonneg; [|by apply window_size_pos].
  apply window_sum_nonneg. intros i j. rewrite <- Z2Qc_inj_0.
  by apply (proj1 (Z2Qc_inj_le 0 (f i j))).
Qed.

(** [var f + var g + k cov(f, g)] as one sum over the window. *)
Lemma direct_var_cov_combine f g (k : Qc) wx wy ws :
  0 < ws ->
  (direct_var f wx wy ws + direct_var g wx wy ws + k * direct_cov f g wx wy ws
   = window_sum
       (fun i j =>
          (Qc_of_Z (f i j) - direct_mean f wx wy ws)
          * (Qc_of_Z (f i j) - direct_mean f wx wy ws)
          + (Qc_of_Z (g i j) - direct_mean g wx wy ws)
            * (Qc_of_Z (g i j) - direct_mean g wx wy ws)
          + k * ((Qc_of_Z (f i j) - direct_mean f wx wy ws)
                 * (Qc_of_Z (g i j) - direct_mean g wx wy ws)))
       wx wy ws / Qc_of_Z (ws * ws))%Qc.
Proof.
  intros Hws. pose proof (window_size_pos ws Hws) as Hn%Qclt_not_eq.
  rewrite window_sum_combine. unfold direct_var, direct_cov. field. auto.
Qed.

Lemma direct_var_cov_minus f g wx wy ws :
  0 < ws ->
  (0 <= direct_var f wx wy ws + direct_var g wx wy ws
        - 2 * direct_cov f g wx wy ws)%Qc.
Proof.
  intros Hws.
  replace (direct_var f wx wy ws + direct_var g wx wy ws
           - 2 * direct_cov f g wx wy ws)%Qc
    with (direct_var f wx wy ws + direct_var g wx wy ws
          + (- (2)) * direct_cov f g wx wy ws)%Qc by ring.
  rewrite direct_var_cov_combine by done.
  apply Qc_div_nonneg; [|by apply window_size_pos].
  apply window_sum_nonneg. intros i j.
  set (a := (Qc_of_Z (f i j) - direct_mean f wx wy ws)%Qc).
  set (b := (Qc_of_Z (g i j) - direct_mean g wx wy ws)%Qc).
  replace (a * a + b * b + - (2) * (a * b))%Qc with ((a - b) * (a - b))%Qc by ring.
  apply Qc_square_nonneg.
Qed.

Lemma direct_var_cov_plus f g wx wy ws :
  0 < ws ->
  (0 <= direct_var f wx wy ws + direct_var g wx wy ws
        + 2 * direct_cov f g wx wy ws)%Qc.
Proof.
  intros Hws. rewrite direct_var_cov_combine by done.
  apply Qc_div_nonneg; [|by apply window_size_pos].
  apply window_sum_nonneg. intros i j.
  set (a := (Qc_of_Z (f i j) - direct_mean f wx wy ws)%Qc).
  set (b := (Qc_of_Z (g i j) - direct_mean g wx wy ws)%Qc).
  replace (a * a + b * b + 2 * (a * b))%Qc with ((a + b) * (a + b))%Qc by ring.
  apply Qc_square_nonneg.
Qed.

(** ** The SSIM value of a window (exact reading) *)

Lemma Qc_square_pos (x : Qc) : x <> 0%Qc -> (0 < x * x)%Qc.
Proof.
  intros Hx. destruct (Qcle_lt_or_eq _ _ (Qc_square_nonneg x)) as [H|H]; [done|].
  symmetry in H. by destruct (Qcmult_integral _ _ H).
Qed.

Lemma stability_positive (k : xnum) (L : Z) :
  strictly_positive k -> L <> 0 -> strictly_positive (@stability exact k L).
Proof.
  intros (q & -> & Hq) HL. unfold stability. exact_ops. eexists. split; [done|].
  apply Qc_square_pos. intros [E|E]%Qcmult_integral.
  - subst q. by apply Qclt_not_eq in Hq.
  - by apply Qc_of_Z_nonzero in E.
Qed.

Lemma ssim_num_exact (mX mY vX vY cov c1 c2 : Qc) :
  @ssim_num exact (Fin c1) (Fin c2)
    (@Build_WindowStats exact (Fin mX) (Fin mY) (Fin vX) (Fin vY) (Fin cov))
  = Fin ((2 * mX * mY + c1) * (2 * cov + c2))%Qc.
Proof. unfold ssim_num. cbn [meanX meanY covXY]. exact_ops. by rewrite Z2Qc_inj_2. Qed.

Lemma ssim_den_exact (mX mY vX vY cov c1 c2 : Qc) :
  @ssim_den exact (Fin c1) (Fin c2)
    (@Build_WindowStats exact (Fin mX) (Fin mY) (Fin vX) (Fin vY) (Fin cov))
  = Fin ((mX * mX + mY * mY + c1) * (vX + vY + c2))%Qc.
Proof. unfold ssim_den. cbn [meanX meanY varX varY]. by exact_ops. Qed.

Lemma xdiv_pos (n d : Qc) : (0 < d)%Qc -> xdiv (Fin n) (Fin d) = Fin (n / d).
Proof.
  intros Hd. unfold xdiv. destruct (decide _) as [E|_]; [|done].
  subst d. by apply Qclt_not_eq in Hd.
Qed.

(** A window of the call lies inside the image. *)
Lemma window_in_range w h ws wy wx :
  0 <= wy < h - ws + 1 -> 0 <= wx < w - ws + 1 ->
  0 <= wx /\ wx + ws <= w /\ 0 <= wy /\ wy + ws <= h.
Proof. lia. Qed.

(** C6 (amended).  In the exact reading, for images of [w * h] samples, a
    positive window size, positive [k1] and [k2] and a non-zero dynamic
    range, the denominator of every window of the call is strictly positive
    and the window's SSIM value is a finite number: no division by zero
    occurs. *)
Theorem den_positive img1 img2 w h options wy wx :
  length img1 = Z.to_nat (w * h) -> length img2 = Z.to_nat (w * h) ->
  0 < ws_of options ->
  strictly_positive (@k1_of exact options) -> strictly_positive (@k2_of exact options) ->
  dynamic_range (bitDepth_of options) <> 0 ->
  0 <= wy < h - ws_of options + 1 -> 0 <= wx < w - ws_of options + 1 ->
  strictly_positive (@call_den exact img1 img2 w h options wy wx) /\
  finite (@call_val exact img1 img2 w h options wy wx).
Proof.
  intros H1 H2 Hws Hk1 Hk2 HL Hwy Hwx.
  destruct (window_in_range _ _ _ _ _ Hwy Hwx) as (? & ? & ? & ?).
  destruct (stability_positive _ _ Hk1 HL) as (q1 & E1 & Hq1).
  destruct (stability_positive _ _ Hk2 HL) as (q2 & E2 & Hq2).
  unfold call_den, call_val, window_val, call_stats, c1_of, c2_of.
  rewrite E1, E2, window_stats_exact by done. unfold direct_stats.
  rewrite ssim_num_exact, ssim_den_exact.
  pose proof (ssim_den_pos
    (direct_mean (pixel img1 w) wx wy (ws_of options))
    (direct_mean (pixel img2 w) wx wy (ws_of options)) _ _ _ q1 q2
    (direct_var_cov_minus (pixel img1 w) (pixel img2 w) wx wy _ Hws)
    (direct_var_cov_plus (pixel img1 w) (pixel img2 w) wx wy _ Hws) Hq1 Hq2) as Hd.
  split.
  - eexists. by split.
  - exact_ops. rewrite xdiv_pos by done. by eexists.
Qed.

Lemma call_val_in_range img1 img2 w h options wy wx :
  length img1 = Z.to_nat (w * h) -> length img2 = Z.to_nat (w * h) ->
  Forall (Z.le 0) img1 -> Forall (Z.le 0) img2 ->
  0 < ws_of options ->
  strictly_positive (@k1_of exact options) -> strictly_positive (@k2_of exact options) ->
  dynamic_range (bitDepth_of options) <> 0 ->
  0 <= wy < h - ws_of options + 1 -> 0 <= wx < w - ws_of options + 1 ->
  in_unit_range (@call_val exact img1 img2 w h options wy wx).
Proof.
  intros H1 H2 P1 P2 Hws Hk1 Hk2 HL Hwy Hwx.
  destruct (window_in_range _ _ _ _ _ Hwy Hwx) as (? & ? & ? & ?).
  destruct (stability_positive _ _ Hk1 HL) as (q1 & E1 & Hq1).
  destruct (stability_positive _ _ Hk2 HL) as (q2 & E2 & Hq2).
  unfold call_val, window_val, c1_of, c2_of.
  rewrite E1, E2, window_stats_exact by done. unfold direct_stats.
  rewrite ssim_num_exact, ssim_den_exact.
  destruct (ssim_bound
    (direct_mean (pixel img1 w) wx wy (ws_of options))
    (direct_mean (pixel img2 w) wx wy (ws_of options)) _ _ _ q1 q2
    (Qcmult_nonneg_nonneg _ _
       (direct_mean_nonneg _ wx wy _ Hws (fun i j => pixel_nonneg img1 w i j P1))
       (direct_mean_nonneg _ wx wy _ Hws (fun i j => pixel_nonneg img2 w i j P2)))
    (direct_var_cov_minus (pixel img1 w) (pixel img2 w) wx wy _ Hws)
    (direct_var_cov_plus (pixel img1 w) (pixel img2 w) wx wy _ Hws) Hq1 Hq2)
    as (Hd & Hlo & Hhi).
  exact_ops. rewrite xdiv_pos by done. eexists. split; [done|].
  by apply Qc_ratio_bound.
Qed.

Lemma call_val_identity img w h options wy wx :
  length img = Z.to_nat (w * h) ->
  0 < ws_of options ->
  strictly_positive (@k1_of exact options) -> strictly_positive (@k2_of exact options) ->
  dynamic_range (bitDepth_of options) <> 0 ->
  0 <= wy < h - ws_of options + 1 -> 0 <= wx < w - ws_of options + 1 ->
  @call_val exact img img w h options wy wx = Fin 1%Qc.
Proof.
  intros H1 Hws Hk1 Hk2 HL Hwy Hwx.
  destruct (window_in_range _ _ _ _ _ Hwy Hwx) as (? & ? & ? & ?).
  destruct (stability_positive _ _ Hk1 HL) as (q1 & E1 & Hq1).
  destruct (stability_positive _ _ Hk2 HL) as (q2 & E2 & Hq2).
  unfold call_val, window_val, c1_of, c2_of.
  rewrite E1, E2, window_stats_exact by done. unfold direct_stats.
  rewrite ssim_num_exact, ssim_den_exact. unfold direct_var.
  set (m := direct_mean (pixel img w) wx wy (ws_of options)).
  set (v := direct_cov (pixel img w) (pixel img w) wx wy (ws_of options)).
  pose proof (ssim_den_pos m m v v v q1 q2
    (direct_var_cov_minus (pixel img w) (pixel img w) wx wy _ Hws)
    (direct_var_cov_plus (pixel img w) (pixel img w) wx wy _ Hws) Hq1 Hq2) as Hd.
  exact_ops. rewrite xdiv_pos by done. f_equal.
  replace ((2 * m * m + q1) * (2 * v + q2))%Qc
    with ((m * m + m * m + q1) * (v + v + q2))%Qc by ring.
  apply Qcmult_inv_r. intros E. rewrite E in Hd. by apply Qclt_not_eq in Hd.
Qed.

(** ** Bounds on the mean of the window values *)

Lemma total_in_range (vals : list xnum) :
  Forall in_unit_range vals ->
  exists S, @total exact vals = Fin S /\
    (- Qc_of_Z (Z.of_nat (length vals)) <= S)%Qc /\
    (S <= Qc_of_Z (Z.of_nat (length vals)))%Qc.
Proof.
  induction vals as [|v vals IH] using rev_ind.
  - intros _. exists 0%Qc. cbn. rewrite Z2Qc_inj_0. by repeat split.
  - intros [Hvals Hv]%Forall_app. rewrite Forall_singleton in Hv.
    destruct (IH Hvals) as (S & ES & Hlo & Hhi).
    destruct Hv as (q & -> & Hqlo & Hqhi).
    rewrite (total_snoc (N:=exact)), ES. exact_ops. eexists. split; [done|].
    rewrite length_app, Nat2Z.inj_add, Z2Qc_inj_add.
    change (Z.of_nat (length [Fin q])) with 1. rewrite Z2Qc_inj_1.
    set (n := Qc_of_Z (Z.of_nat (length vals))) in *. clearbody n.
    change (this (-1)%Qc) with (-1)%Q in *.
    split; qc2q; change (this (-1)%Qc) with (-1)%Q in *; lra.
Qed.

Lemma arithmetic_mean_in_range (vals : list xnum) :
  vals <> [] -> Forall in_unit_range vals ->
  in_unit_range (@arithmetic_mean exact vals).
Proof.
  intros Hne Hvals. destruct (total_in_range vals Hvals) as (S & ES & Hlo & Hhi).
  unfold arithmetic_mean. rewrite ES.
  assert (0 < Z.of_nat (length vals)) as Hn by (destruct vals; simpl; [done|lia]).
  apply Z2Qc_inj_lt in Hn. rewrite Z2Qc_inj_0 in Hn.
  exact_ops. rewrite xdiv_pos by done. eexists. split; [done|].
  by apply Qc_ratio_bound.
Qed.

Lemma total_ones (vals : list xnum) :
  Forall (eq (Fin 1%Qc)) vals ->
  @total exact vals = Fin (Qc_of_Z (Z.of_nat (length vals))).
Proof.
  induction vals as [|v vals IH] using rev_ind.
  - intros _. done.
  - intros [Hvals Hv]%Forall_app. rewrite Forall_singleton in Hv. subst v.
    rewrite (total_snoc (N:=exact)), (IH Hvals). exact_ops.
    by rewrite length_app, Nat2Z.inj_add, Z2Qc_inj_add, <- Z2Qc_inj_1.
Qed.

Lemma arithmetic_mean_ones (vals : list xnum) :
  vals <> [] -> Forall (eq (Fin 1%Qc)) vals ->
  @arithmetic_mean exact vals = Fin 1%Qc.
Proof.
  intros Hne Hvals. unfold arithmetic_mean. rewrite (total_ones vals Hvals).
  assert (Z.of_nat (length vals) <> 0) as Hn by (destruct vals; simpl; [done|lia]).
  exact_ops. rewrite xdiv_of_Z by done. f_equal. field.
  by apply Qc_of_Z_nonzero.
Qed.

(** ** [ssimGrey] in the exact reading *)

Lemma ssim_values_nonempty {N : Number} img1 img2 w h (options : option (SsimGreyOptions N)) :
  0 < w - ws_of options + 1 -> 0 < h - ws_of options + 1 ->
  Z.of_nat (length (ssim_values img1 img2 w h options))
  = (w - ws_of options + 1) * (h - ws_of options + 1) /\
  ssim_values img1 img2 w h options <> [].
Proof.
  intros HW HH.
  assert (Z.of_nat (length (ssim_values img1 img2 w h options))
          = (w - ws_of options + 1) * (h - ws_of options + 1)) as E.
  { unfold ssim_values, window_values.
    rewrite length_fmap, length_window_corners; lia. }
  split; [done|]. intros E0. rewrite E0 in E. simpl in E. nia.
Qed.

Lemma ssim_values_Forall {N : Number} (P : num -> Prop) img1 img2 w h
    (options : option (SsimGreyOptions N)) :
  (forall wy wx,
     0 <= wy < h - ws_of options + 1 -> 0 <= wx < w - ws_of options + 1 ->
     P (call_val img1 img2 w h options wy wx)) ->
  Forall P (ssim_values img1 img2 w h options).
Proof.
  intros H. unfold ssim_values, window_values. apply Forall_fmap, Forall_forall.
  intros [wy wx] Hin. apply list_elem_of_In, elem_of_window_corners in Hin.
  destruct Hin. by apply H.
Qed.

Lemma ssimGrey_exact_mean img1 img2 w h options :
  0 < w - ws_of options + 1 -> 0 < h - ws_of options + 1 ->
  0 <= (w + 1) * (h + 1) ->
  @ssimGrey exact img1 img2 w h options
  = Return (arithmetic_mean (ssim_values img1 img2 w h options)).
Proof.
  intros HW HH Hsize. rewrite ssimGrey_unfold by done.
  destruct (ssim_values_nonempty img1 img2 w h options HW HH) as [_ Hne].
  destruct (welford_mean (ssim_values img1 img2 w h options)) as (_ & _ & Hm).
  f_equal. rewrite <- (Hm Hne). by rewrite <- Z2Qc_inj_0.
Qed.

(** ** The order of the windows *)




(** C9 (amended).  In the exact reading, for images of [w * h] non-negative
    samples, a positive window size, positive [k1] and [k2] and a non-zero
    dynamic range, the score that [ssimGrey] returns lies in [[-1, 1]]. *)
Theorem ssimGrey_in_range img1 img2 w h options :
  0 < w -> 0 < h ->
  length img1 = Z.to_nat (w * h) -> length img2 = Z.to_nat (w * h) ->
  Forall (Z.le 0) img1 -> Forall (Z.le 0) img2 ->
  0 < ws_of options ->
  strictly_positive (@k1_of exact options) -> strictly_positive (@k2_of exact options) ->
  dynamic_range (bitDepth_of options) <> 0 ->
  exists q, @ssimGrey exact img1 img2 w h options = Return (Fin q) /\
    (-1 <= q)%Qc /\ (q <= 1)%Qc.
Proof.
  intros Hw Hh H1 H2 P1 P2 Hws Hk1 Hk2 HL.
  destruct (decide (w - ws_of options + 1 <= 0 \/ h - ws_of options + 1 <= 0))
    as [Hdeg|Hwin].
  - rewrite ssimGrey_guard by (by apply degenerate_guard). exists 1%Qc.
    cbn. rewrite Z2Qc_inj_1. by repeat split.
  - rewrite ssimGrey_exact_mean by nia.
    destruct (arithmetic_mean_in_range (ssim_values img1 img2 w h options))
      as (q & E & Hq).
    + apply (ssim_values_nonempty (N:=exact)); lia.
    + apply (ssim_values_Forall (N:=exact)). intros wy wx Hwy Hwx.
      by apply call_val_in_range.
    + exists q. by rewrite E.
Qed.

(** In the exact reading, for an image of [w * h] samples compared with
    itself, a positive window size, positive [k1] and [k2] and a non-zero
    dynamic range, [ssimGrey] returns 1. *)
Lemma ssimGrey_identity_exact img w h options :
  0 < w -> 0 < h ->
  length img = Z.to_nat (w * h) ->
  0 < ws_of options ->
  strictly_positive (@k1_of exact options) -> strictly_positive (@k2_of exact options) ->
  dynamic_range (bitDepth_of options) <> 0 ->
  @ssimGrey exact img img w h options = Return (of_Z 1).
Proof.
  intros Hw Hh H1 Hws Hk1 Hk2 HL.
  destruct (decide (w - ws_of options + 1 <= 0 \/ h - ws_of options + 1 <= 0))
    as [Hdeg|Hwin].
  - apply ssimGrey_guard. by apply degenerate_guard.
  - rewrite ssimGrey_exact_mean by nia. f_equal. cbn [of_Z exact].
    rewrite Z2Qc_inj_1. apply arithmetic_mean_ones.
    + apply (ssim_values_nonempty (N:=exact)); lia.
    + apply (ssim_values_Forall (N:=exact)). intros wy wx Hwy Hwx.
      symmetry. by apply call_val_identity.
Qed.

(** ** Exchanging the two images *)

Section Symmetry.
Context {N : Number}.
Local Open Scope num_scope.

(** What the argument needs of the arithmetic: [+] and [*] commute. *)
Hypothesis add_comm : forall a b : num, a + b = b + a.
Hypothesis mul_comm : forall a b : num, a * b = b * a.

Lemma sat_pixel_swap img1 img2 w sw y s x :
  sat_pixel img2 img1 w sw y (swap_sats s) x
  = swap_sats (sat_pixel img1 img2 w sw y s x).
Proof using mul_comm.
  unfold sat_pixel, swap_sats. cbn [satX satY satX2 satY2 satXY].
  by rewrite (mul_comm (sample img2 _) (sample img1 _)).
Qed.

Lemma sat_row_swap img1 img2 w sw s y :
  sat_row img2 img1 w sw (swap_sats s) y
  = swap_sats (sat_row img1 img2 w sw s y).
Proof using mul_comm.
  unfold sat_row. revert s.
  induction (seqZ 0 w) as [|x l IH]; intros s; [done|].
  simpl. by rewrite sat_pixel_swap, IH.
Qed.

Lemma build_sats_swap img1 img2 w h :
  build_sats img2 img1 w h = swap_sats (build_sats img1 img2 w h).
Proof using mul_comm.
  unfold build_sats.
  set (z := float64_array ((w + 1) * (h + 1))).
  change {| satX := z; satY := z; satX2 := z; satY2 := z; satXY := z |}
    with (swap_sats {| satX := z; satY := z; satX2 := z; satY2 := z; satXY := z |})
    at 1.
  generalize {| satX := z; satY := z; satX2 := z; satY2 := z; satXY := z |}.
  induction (seqZ 0 h) as [|y l IH]; intros s; [done|].
  simpl. by rewrite sat_row_swap, IH.
Qed.

Lemma window_val_swap s sw ws c1 c2 wy wx :
  doubling_commutes s sw ws wy wx ->
  window_val (swap_sats s) sw ws c1 c2 wy wx = window_val s sw ws c1 c2 wy wx.
Proof using add_comm mul_comm.
  unfold doubling_commutes, window_val, ssim_num, ssim_den, window_stats, swap_sats.
  cbn [satX satY satX2 satY2 satXY meanX meanY varX varY covXY].
  set (mX := rect (satX s) _ _ _ _ / _).
  set (mY := rect (satY s) _ _ _ _ / _).
  set (vX := rect (satX2 s) _ _ _ _ / _ - _).
  set (vY := rect (satY2 s) _ _ _ _ / _ - _).
  intros Hd. rewrite (mul_comm mY mX), Hd.
  by rewrite (add_comm (mY * mY)), (add_comm vY).
Qed.

(** Exchanging the images keeps the result when doubling commutes on the
    means of every window of the call. *)
Lemma ssimGrey_swap img1 img2 w h options :
  (forall wy wx,
     0 <= wy < h - ws_of options + 1 -> 0 <= wx < w - ws_of options + 1 ->
     doubling_commutes (build_sats img1 img2 w h) (w + 1) (ws_of options) wy wx) ->
  ssimGrey img2 img1 w h options = ssimGrey img1 img2 w h options.
Proof using add_comm mul_comm.
  intros Hd. unfold ssimGrey. fold (ws_of options).
  destruct (_ || _); [done|]. destruct (_ <? _); [done|].
  rewrite !mean_ssim_fold, build_sats_swap. unfold window_values.
  do 3 f_equal. apply list_fmap_ext. intros k [wy wx] Hk.
  apply list_elem_of_lookup_2, elem_of_window_corners in Hk as [Hwy Hwx].
  apply window_val_swap. by apply Hd.
Qed.
End Symmetry.

Lemma exact_add_comm (a b : xnum) : @add exact a b = @add exact b a.
Proof. destruct a, b; exact_ops; try done. by rewrite Qcplus_comm. Qed.

Lemma exact_mul_comm (a b : xnum) : @mul exact a b = @mul exact b a.
Proof. destruct a, b; exact_ops; try done. by rewrite Qcmult_comm. Qed.

Lemma exact_double_swap (a b : xnum) :
  @mul exact (@mul exact (@of_Z exact 2) a) b
  = @mul exact (@mul exact (@of_Z exact 2) b) a.
Proof. destruct a, b; exact_ops; try done. f_equal. ring. Qed.

(** ** The dynamic range *)

Lemma dynamic_range_small (b : Z) : 0 <= b <= 30 -> dynamic_range b = 2 ^ b - 1.
Proof.
  intros Hb. unfold dynamic_range, shl32.
  change (to_int32 1) with 1. rewrite Z.mod_small by lia.
  rewrite Z.shiftl_1_l. unfold to_int32.
  assert (0 < 2 ^ b <= 2 ^ 30) as Hp.
  { split; [apply Z.pow_pos_nonneg; lia|apply Z.pow_le_mono_r; lia]. }
  rewrite Z.mod_small; lia.
Qed.

Lemma dynamic_range_nonzero (b : Z) : 1 <= b <= 30 -> dynamic_range b <> 0.
Proof.
  intros Hb. rewrite dynamic_range_small by lia.
  assert (2 ^ 1 <= 2 ^ b) by (apply Z.pow_le_mono_r; lia). lia.
Qed.

(** C8.  At [bitDepth = 32] the shift [1 << bitDepth] wraps: the program's
    dynamic range is 0, not [2^32 - 1], both stability constants vanish and
    a call on a one-pixel image returns [NaN]; at 31 the range is negative. *)
Theorem dynamic_range_wraps :
  dynamic_range 32 = 0 /\ 2 ^ 32 - 1 = 4294967295 /\
  dynamic_range 31 = -2147483649 /\ 2 ^ 31 - 1 = 2147483647 /\
  @c1_of binary64 (with_bit_depth 32) = 0%float /\
  @c2_of binary64 (with_bit_depth 32) = 0%float /\
  @ssimGrey binary64 [0] [0] 1 1 (with_bit_depth 32) = Return PrimFloat.nan.
Proof. by vm_compute. Qed.

(** ** Double precision: how [NaN] travels *)

Lemma Prim2SF_nan : Prim2SF PrimFloat.nan = S754_nan.
Proof. reflexivity. Qed.

Lemma float_is_nan (x : float) : Prim2SF x = S754_nan -> x = PrimFloat.nan.
Proof. intros H. apply Prim2SF_inj. by rewrite H. Qed.

Lemma float_add_nan_l x : (PrimFloat.nan + x)%float = PrimFloat.nan.
Proof. apply float_is_nan. by rewrite add_spec. Qed.

Lemma float_add_nan_r x : (x + PrimFloat.nan)%float = PrimFloat.nan.
Proof. apply float_is_nan. rewrite add_spec, Prim2SF_nan. by destruct (Prim2SF x). Qed.

Lemma float_sub_nan_l x : (PrimFloat.nan - x)%float = PrimFloat.nan.
Proof. apply float_is_nan. by rewrite sub_spec. Qed.

Lemma float_sub_nan_r x : (x - PrimFloat.nan)%float = PrimFloat.nan.
Proof. apply float_is_nan. rewrite sub_spec, Prim2SF_nan. by destruct (Prim2SF x). Qed.

Lemma float_mul_nan_l x : (PrimFloat.nan * x)%float = PrimFloat.nan.
Proof. apply float_is_nan. by rewrite mul_spec. Qed.

Lemma float_mul_nan_r x : (x * PrimFloat.nan)%float = PrimFloat.nan.
Proof. apply float_is_nan. rewrite mul_spec, Prim2SF_nan. by destruct (Prim2SF x). Qed.

Lemma float_div_nan_l x : (PrimFloat.nan / x)%float = PrimFloat.nan.
Proof. apply float_is_nan. by rewrite div_spec. Qed.

Lemma float_div_nan_r x : (x / PrimFloat.nan)%float = PrimFloat.nan.
Proof. apply float_is_nan. rewrite div_spec, Prim2SF_nan. by destruct (Prim2SF x). Qed.

(** [s - s - s + s] is [+0] or [NaN], whatever [s] is. *)
Lemma SF64_rect_self (s : spec_float) :
  SF64add (SF64sub (SF64sub s s) s) s = S754_zero false \/
  SF64add (SF64sub (SF64sub s s) s) s = S754_nan.
Proof.
  destruct s as [[|]|[|]| |sg m e]; try (by left); try (by right).
  left. unfold SF64sub at 2. unfold SFsub.
  rewrite Z.min_id. unfold shl_align. rewrite Z.sub_diag. cbn [fst].
  cbn [binary_normalize].
  unfold SF64sub, SFsub, SF64add, SFadd.
  rewrite Z.min_id. unfold shl_align. rewrite Z.sub_diag. cbn [fst].
  replace (cond_Zopp (negb sg) (Z.pos m) + cond_Zopp sg (Z.pos m)) with 0
    by (destruct sg; simpl; lia).
  done.
Qed.

(** With a window size of 0 the four corners coincide and the rectangle sum
    is divided by [0 * 0]. *)
Lemma float_rect_self_div0 (g : float) :
  ((g - g - g + g) / float_of_Z (0 * 0))%float = PrimFloat.nan.
Proof.
  apply float_is_nan. rewrite div_spec, add_spec, !sub_spec.
  change (Prim2SF (float_of_Z (0 * 0))) with (S754_zero false).
  by destruct (SF64_rect_self (Prim2SF g)) as [-> | ->].
Qed.

(** ** Double precision: exchanging the two images *)

Lemma SF64mul_comm x y : SF64mul x y = SF64mul y x.
Proof.
  unfold SF64mul, SFmul.
  destruct x as [sx|sx| |sx mx ex], y as [sy|sy| |sy my ey];
    rewrite ?(xorb_comm sx sy); try reflexivity.
  by rewrite (Pos.mul_comm mx my), (Z.add_comm ex ey).
Qed.

Lemma SF64add_comm x y : SF64add x y = SF64add y x.
Proof.
  unfold SF64add, SFadd.
  destruct x as [[|]|[|]| |sx mx ex], y as [[|]|[|]| |sy my ey]; try reflexivity.
  by rewrite (Z.min_comm ex ey), Z.add_comm.
Qed.

Lemma float_add_comm (x y : float) : (x + y)%float = (y + x)%float.
Proof. apply Prim2SF_inj. rewrite !add_spec. apply SF64add_comm. Qed.

Lemma float_mul_comm (x y : float) : (x * y)%float = (y * x)%float.
Proof. apply Prim2SF_inj. rewrite !mul_spec. apply SF64mul_comm. Qed.

(** [iter_pos f p] applies [f] [p] times. *)
Lemma iter_pos_comm {A} (f : A -> A) (p : positive) (x : A) :
  SpecFloat.iter_pos f p (f x) = f (SpecFloat.iter_pos f p x).
Proof.
  revert x. induction p as [p IH|p IH|]; intros x; simpl.
  - by rewrite !IH.
  - by rewrite !IH.
  - done.
Qed.

Lemma iter_pos_succ {A} (f : A -> A) (p : positive) (x : A) :
  SpecFloat.iter_pos f (Pos.succ p) x = SpecFloat.iter_pos f p (f x).
Proof.
  revert x. induction p as [p IH|p IH|]; intros x; simpl.
  - by rewrite !IH, !iter_pos_comm.
  - by rewrite !iter_pos_comm.
  - done.
Qed.

Lemma digits2_pos_size (m : positive) : digits2_pos m = Pos.size m.
Proof. induction m; simpl; congruence. Qed.

(** The product has at least as many binary digits as each factor. *)
Lemma digits2_pos_mul_le (a b : positive) :
  Z.pos (digits2_pos a) <= Z.pos (digits2_pos (a * b)).
Proof.
  rewrite (digits2_pos_size a), (digits2_pos_size (a * b)).
  assert (2 ^ Z.pos (Pos.size a) <= 2 * Z.pos a) as Ha.
  { pose proof (Pos.size_le a) as H. apply (Pos2Z.pos_le_pos _ _) in H.
    by rewrite Pos2Z.inj_pow in H. }
  assert (Z.pos a * Z.pos b < 2 ^ Z.pos (Pos.size (a * b))) as Hab.
  { pose proof (Pos.size_gt (a * b)) as H. apply (Pos2Z.pos_lt_pos _ _) in H.
    by rewrite Pos2Z.inj_pow in H. }
  apply Z.nlt_ge. intros Hlt.
  assert (2 ^ (Z.pos (Pos.size (a * b)) + 1) <= 2 ^ Z.pos (Pos.size a))
    by (apply Z.pow_le_mono_r; lia).
  rewrite Z.pow_add_r, Z.pow_1_r in * by lia. nia.
Qed.

(** One shift to the right of an even mantissa, with nothing lost so far,
    halves it and loses nothing. *)
Lemma shr_1_even (m : positive) :
  shr_1 {| shr_m := Z.pos m~0; shr_r := false; shr_s := false |}
  = {| shr_m := Z.pos m; shr_r := false; shr_s := false |}.
Proof. reflexivity. Qed.

(** Rounding [2 M * 2^E] and [M * 2^(E+1)] gives the same double when the
    first needs at least one shift to the right. *)
Lemma binary_round_aux_double (s : bool) (M : positive) (E : Z) :
  E + 1 <= fexp prec emax (Z.pos (digits2_pos M) + (E + 1)) ->
  binary_round_aux prec emax s (Z.pos M~0) E loc_Exact
  = binary_round_aux prec emax s (Z.pos M) (E + 1) loc_Exact.
Proof.
  intros Ht. unfold binary_round_aux.
  assert (shr_fexp prec emax (Z.pos M~0) E loc_Exact
          = shr_fexp prec emax (Z.pos M) (E + 1) loc_Exact) as ->; [|done].
  unfold shr_fexp. cbn [Zdigits2 digits2_pos shr_record_of_loc].
  rewrite Pos2Z.inj_succ.
  replace (Z.succ (Z.pos (digits2_pos M)) + E) with (Z.pos (digits2_pos M) + (E + 1)) by lia.
  set (t := fexp prec emax (Z.pos (digits2_pos M) + (E + 1))) in *.
  destruct (Z.eq_dec t (E + 1)) as [->|Hne].
  - replace (E + 1 - E) with 1 by lia. rewrite Z.sub_diag. reflexivity.
  - destruct (t - (E + 1)) as [|q|q] eqn:Eq; try lia.
    replace (t - E) with (Z.pos (Pos.succ q)) by lia.
    unfold shr. rewrite iter_pos_succ, shr_1_even. f_equal. lia.
Qed.

Lemma digits2_pos_shift (k : nat) (m : positive) :
  Z.pos (digits2_pos (Nat.iter k xO m)) = Z.pos (digits2_pos m) + Z.of_nat k.
Proof.
  induction k as [|k IH]; [simpl; lia|].
  change (Nat.iter (S k) xO m) with (xO (Nat.iter k xO m)).
  cbn [digits2_pos]. rewrite Pos2Z.inj_succ. lia.
Qed.

(** [k] trailing zero bits of the mantissa may be moved to the exponent. *)
Lemma binary_round_aux_shift (s : bool) (k : nat) (m : positive) (E : Z) :
  53 <= Z.pos (digits2_pos m) \/ E + Z.of_nat k <= -1074 ->
  binary_round_aux prec emax s (Z.pos (Nat.iter k xO m)) E loc_Exact
  = binary_round_aux prec emax s (Z.pos m) (E + Z.of_nat k) loc_Exact.
Proof.
  revert E. induction k as [|k IH]; intros E H.
  - simpl. by rewrite Z.add_0_r.
  - change (Nat.iter (S k) xO m) with (xO (Nat.iter k xO m)).
    rewrite binary_round_aux_double.
    + rewrite IH by lia. f_equal. lia.
    + rewrite digits2_pos_shift. unfold fexp, prec, emin, emax. lia.
Qed.

(** A mantissa that is canonical at its exponent is rounded to itself. *)
Lemma binary_round_aux_canonical (s : bool) (m : positive) (E : Z) :
  fexp prec emax (Z.pos (digits2_pos m) + E) = E ->
  binary_round_aux prec emax s (Z.pos m) E loc_Exact
  = if E <=? emax - prec then S754_finite s m E else S754_infinity s.
Proof.
  intros H. unfold binary_round_aux, shr_fexp. cbn [Zdigits2 shr_record_of_loc].
  rewrite H, Z.sub_diag. cbn [shr shr_m loc_of_shr_record round_nearest_even].
  cbn [Zdigits2 shr_record_of_loc]. rewrite H, Z.sub_diag. reflexivity.
Qed.

(** Doubling a double: the exponent of a normal number goes up by one (or
    the result overflows), the mantissa of a subnormal one is doubled. *)
Lemma SF64mul_two (s : bool) (m : positive) (e : Z) :
  valid_binary (S754_finite s m e) = true ->
  SF64mul SFtwo (S754_finite s m e)
  = if Z.pos (digits2_pos m) =? 53
    then (if e + 1 <=? emax - prec then S754_finite s m (e + 1)
          else S754_infinity s)
    else S754_finite s (xO m) e.
Proof.
  intros Hv. unfold valid_binary, SpecFloat.valid_binary in Hv.
  unfold bounded, canonical_mantissa in Hv.
  apply andb_true_iff in Hv as [Hc%Z.eqb_eq He%Z.leb_le].
  unfold fexp, emin, prec, emax in Hc.
  unfold SF64mul, SFmul, SFtwo. cbn [xorb].
  destruct (Z.eqb_spec (Z.pos (digits2_pos m)) 53) as [Hd|Hd].
  - change (4503599627370496 * m)%positive with (Nat.iter 52 xO m).
    rewrite binary_round_aux_shift by lia.
    replace (-51 + e + Z.of_nat 52) with (e + 1) by lia.
    apply binary_round_aux_canonical. unfold fexp, emin, prec, emax. lia.
  - change (4503599627370496 * m)%positive with (Nat.iter 51 xO (xO m)).
    rewrite binary_round_aux_shift by lia.
    replace (-51 + e + Z.of_nat 51) with e by lia.
    rewrite binary_round_aux_canonical.
    + unfold prec, emax in *. by destruct (Z.leb_spec e (1024 - 53)); [|lia].
    + cbn [digits2_pos]. rewrite Pos2Z.inj_succ. unfold fexp, emin, prec, emax. lia.
Qed.

(** The double of a valid finite number, when it does not overflow, in the
    two shapes it can take. *)
Lemma SF64mul_two_cases (s : bool) (m : positive) (e : Z) :
  valid_binary (S754_finite s m e) = true ->
  doubles_safely (S754_finite s m e) ->
  (Z.pos (digits2_pos m) = 53 /\
   SF64mul SFtwo (S754_finite s m e) = S754_finite s m (e + 1)) \/
  (Z.pos (digits2_pos m) < 53 /\
   SF64mul SFtwo (S754_finite s m e) = S754_finite s (xO m) e).
Proof.
  intros Hv Hs. unfold doubles_safely in Hs.
  rewrite (SF64mul_two s m e Hv) in *.
  unfold valid_binary, SpecFloat.valid_binary, bounded, canonical_mantissa in Hv.
  apply andb_true_iff in Hv as [Hc%Z.eqb_eq He%Z.leb_le].
  unfold fexp, emin, prec, emax in Hc.
  destruct (Z.eqb_spec (Z.pos (digits2_pos m)) 53) as [Hd|Hd].
  - left. split; [done|]. by destruct (e + 1 <=? emax - prec).
  - right. split; [lia|done].
Qed.

Lemma SF64mul_finite (sx sy : bool) (mx my : positive) (ex ey : Z) :
  SF64mul (S754_finite sx mx ex) (S754_finite sy my ey)
  = binary_round_aux prec emax (xorb sx sy) (Z.pos (mx * my)) (ex + ey) loc_Exact.
Proof. reflexivity. Qed.

(** In double precision, doubling may be moved from one factor of a
    product to the other when neither doubling overflows. *)
Lemma SF64_double_swap (a b : spec_float) :
  valid_binary a = true -> valid_binary b = true ->
  doubles_safely a -> doubles_safely b ->
  SF64mul (SF64mul SFtwo a) b = SF64mul (SF64mul SFtwo b) a.
Proof.
  intros Va Vb Sa Sb.
  destruct a as [sa|sa| |sa ma ea], b as [sb|sb| |sb mb eb];
    try (cbn; by rewrite ?(xorb_comm sa sb)).
  - (* zero, finite *)
    destruct (SF64mul_two_cases sb mb eb Vb Sb) as [[_ ->]|[_ ->]];
      cbn; by rewrite (xorb_comm sa sb).
  - (* infinity, finite *)
    destruct (SF64mul_two_cases sb mb eb Vb Sb) as [[_ ->]|[_ ->]];
      cbn; by rewrite (xorb_comm sa sb).
  - (* nan, finite *)
    by destruct (SF64mul_two_cases sb mb eb Vb Sb) as [[_ ->]|[_ ->]].
  - (* finite, zero *)
    destruct (SF64mul_two_cases sa ma ea Va Sa) as [[_ ->]|[_ ->]];
      cbn; by rewrite (xorb_comm sa sb).
  - (* finite, infinity *)
    destruct (SF64mul_two_cases sa ma ea Va Sa) as [[_ ->]|[_ ->]];
      cbn; by rewrite (xorb_comm sa sb).
  - (* finite, nan *)
    by destruct (SF64mul_two_cases sa ma ea Va Sa) as [[_ ->]|[_ ->]].
  - (* finite, finite *)
    destruct (SF64mul_two_cases sa ma ea Va Sa) as [[Da ->]|[Da ->]],
      (SF64mul_two_cases sb mb eb Vb Sb) as [[Db ->]|[Db ->]];
      rewrite !SF64mul_finite, (xorb_comm sb sa);
      try change (xO ma * mb)%positive with (xO (ma * mb));
      try change (xO mb * ma)%positive with (xO (mb * ma));
      rewrite (Pos.mul_comm mb ma).
    + f_equal. lia.
    + rewrite binary_round_aux_double; [f_equal; lia|].
      pose proof (digits2_pos_mul_le ma mb).
      unfold fexp, prec, emin, emax. lia.
    + rewrite binary_round_aux_double; [f_equal; lia|].
      pose proof (digits2_pos_mul_le mb ma). rewrite (Pos.mul_comm ma mb).
      unfold fexp, prec, emin, emax. lia.
    + f_equal. lia.
Qed.

Lemma overflows_doubles_safely (x : float) :
  overflows_when_doubled x = false -> doubles_safely (Prim2SF x).
Proof.
  unfold overflows_when_doubled, doubles_safely. rewrite mul_spec.
  change (Prim2SF (float_of_Z 2)) with SFtwo.
  destruct (Prim2SF x) as [| | |s m e]; try done.
  by destruct (SF64mul SFtwo (S754_finite s m e)).
Qed.

Lemma float_double_swap (a b : float) :
  overflows_when_doubled a = false -> overflows_when_doubled b = false ->
  (float_of_Z 2 * a * b)%float = (float_of_Z 2 * b * a)%float.
Proof.
  intros Ha Hb. apply Prim2SF_inj. rewrite !mul_spec.
  change (Prim2SF (float_of_Z 2)) with SFtwo.
  apply SF64_double_swap;
    (apply Prim2SF_valid || by apply overflows_doubles_safely).
Qed.

(** In double precision [+] and [*] commute bit for bit and doubling moves
    between the factors of [2 * meanX * meanY] unless it overflows. *)
Lemma ssimGrey_swap_binary64 img1 img2 w h options :
  means_double_safely img1 img2 w h options ->
  @ssimGrey binary64 img2 img1 w h options
  = @ssimGrey binary64 img1 img2 w h options.
Proof.
  intros Hsafe. apply (@ssimGrey_swap binary64 float_add_comm float_mul_comm).
  intros wy wx Hwy Hwx. destruct (Hsafe wy wx Hwy Hwx) as [HX HY].
  unfold doubling_commutes. by apply float_double_swap.
Qed.

(** C3.  Exchanging the two images does not change what [ssimGrey]
    returns: in the exact reading for all buffers, sizes and options, and
    in double precision, bit for bit, whenever no window mean overflows
    when doubled. *)
Theorem ssimGrey_symmetric img1 img2 w h :
  (forall options,
     @ssimGrey exact img1 img2 w h options
     = @ssimGrey exact img2 img1 w h options) /\
  (forall options,
     means_double_safely img1 img2 w h options ->
     @ssimGrey binary64 img1 img2 w h options
     = @ssimGrey binary64 img2 img1 w h options).
Proof.
  split; intros options.
  - symmetry. apply (@ssimGrey_swap exact exact_add_comm exact_mul_comm).
    intros wy wx _ _. apply exact_double_swap.
  - intros Hsafe. symmetry. by apply ssimGrey_swap_binary64.
Qed.

(** ** Double precision: a window size of 0 *)

Lemma window_val_ws0 s sw c1 c2 wy wx :
  @window_val binary64 s sw 0 c1 c2 wy wx = PrimFloat.nan.
Proof.
  unfold window_val, ssim_num, window_stats. cbn [meanX meanY covXY].
  rewrite !Z.add_0_r. unfold rect. cbn [num of_Z add sub mul div binary64].
  rewrite float_rect_self_div0.
  by rewrite float_mul_nan_r, float_mul_nan_l, float_add_nan_l,
    float_mul_nan_l, float_div_nan_l.
Qed.

Lemma welford_nan (acc : float * Z) :
  (@welford binary64 acc PrimFloat.nan).1 = PrimFloat.nan.
Proof.
  unfold welford. cbn [fst num of_Z add sub mul div binary64].
  by rewrite float_sub_nan_l, float_div_nan_l, float_add_nan_r.
Qed.

Lemma foldl_welford_nan (vals : list float) (acc : float * Z) :
  vals <> [] -> Forall (eq PrimFloat.nan) vals ->
  (foldl (@welford binary64) acc vals).1 = PrimFloat.nan.
Proof.
  destruct vals as [|v vals _] using rev_ind; [done|]. intros _.
  intros [_ Hv]%Forall_app. rewrite Forall_singleton in Hv. subst v.
  rewrite foldl_snoc. apply welford_nan.
Qed.

(** * Double precision: an image against itself *)

Lemma valid_finite_cases (s : bool) (m : positive) (e : Z) :
  valid_binary (S754_finite s m e) = true ->
  -1074 <= e <= 971 /\
  (Z.pos (digits2_pos m) = 53 \/ (Z.pos (digits2_pos m) < 53 /\ e = -1074)).
Proof.
  unfold valid_binary, SpecFloat.valid_binary, bounded, canonical_mantissa.
  intros [Hc%Z.eqb_eq He%Z.leb_le]%andb_true_iff.
  unfold fexp, emin, prec, emax in *. lia.
Qed.

(** Adding a double to itself is doubling it. *)
Lemma SF64add_diag (x : spec_float) :
  valid_binary x = true -> SF64add x x = SF64mul SFtwo x.
Proof.
  intros Hv. destruct x as [[|]|[|]| |s m e]; try reflexivity.
  rewrite (SF64mul_two s m e Hv).
  destruct (valid_finite_cases s m e Hv) as [He Hd].
  unfold SF64add, SFadd. rewrite Z.min_id. unfold shl_align.
  rewrite Z.sub_diag. cbn [fst].
  assert (cond_Zopp s (Z.pos m) + cond_Zopp s (Z.pos m)
          = cond_Zopp s (Z.pos (xO m))) as -> by (destruct s; simpl; lia).
  assert (binary_normalize prec emax (cond_Zopp s (Z.pos m~0)) e false
          = binary_round prec emax s (xO m) e) as -> by (by destruct s).
  unfold binary_round, shl_align. cbn [digits2_pos]. rewrite Pos2Z.inj_succ.
  destruct (fexp prec emax (Z.succ (Z.pos (digits2_pos m)) + e) - e) as [|p|p] eqn:E;
    [| |unfold fexp, prec, emin, emax in E; lia].
  - (* subnormal: already canonical *)
    assert (Z.pos (digits2_pos m) < 53) as Hlt
      by (unfold fexp, prec, emin, emax in E; lia).
    destruct (Z.eqb_spec (Z.pos (digits2_pos m)) 53); [lia|].
    rewrite binary_round_aux_canonical.
    + unfold prec, emax. by destruct (Z.leb_spec e (1024 - 53)); [|lia].
    + cbn [digits2_pos]. rewrite Pos2Z.inj_succ. lia.
  - destruct (Z.eqb_spec (Z.pos (digits2_pos m)) 53) as [Hd53|Hd53].
    + rewrite binary_round_aux_double
        by (unfold fexp, prec, emin, emax; lia).
      apply binary_round_aux_canonical. unfold fexp, prec, emin, emax. lia.
    + unfold fexp, prec, emin, emax in E. lia.
Qed.

Lemma float_add_diag (x : float) : (x + x)%float = (float_of_Z 2 * x)%float.
Proof.
  apply Prim2SF_inj. rewrite add_spec, mul_spec.
  change (Prim2SF (float_of_Z 2)) with SFtwo.
  apply SF64add_diag, Prim2SF_valid.
Qed.

(** Raising the exponent by one shifts by the same amount, outside the
    subnormal range. *)
Lemma shr_fexp_succ (m e : Z) (l : location) :
  -1074 <= Zdigits2 m + e - 53 \/ -1073 <= e ->
  shr_fexp prec emax m (e + 1) l
  = ((shr_fexp prec emax m e l).1, (shr_fexp prec emax m e l).2 + 1).
Proof.
  intros H. unfold shr_fexp.
  set (c := fexp prec emax (Zdigits2 m + e) - e).
  set (c' := fexp prec emax (Zdigits2 m + (e + 1)) - (e + 1)).
  assert (c' = c \/ (c <= 0 /\ c' <= 0)) as [->|[Hc Hc']].
  { unfold c, c', fexp, prec, emin, emax. lia. }
  - unfold shr. destruct c; simpl; f_equal; lia.
  - unfold shr. destruct c, c'; try lia; reflexivity.
Qed.

Lemma shr_fexp_snd (m e : Z) (l : location) :
  e <= (shr_fexp prec emax m e l).2 /\
  fexp prec emax (Zdigits2 m + e) <= (shr_fexp prec emax m e l).2.
Proof.
  unfold shr_fexp, shr.
  destruct (fexp prec emax (Zdigits2 m + e) - e) eqn:E; simpl; lia.
Qed.

(** Outside the subnormal range, rounding [M * 2^(E+1)] gives the mantissa
    of [M * 2^E] with the next exponent. *)
Lemma binary_round_aux_succ (s : bool) (M : positive) (E : Z) :
  -1073 <= Z.pos (digits2_pos M) + E - 53 ->
  exists r e2, -1073 <= e2 /\
    binary_round_aux prec emax s (Z.pos M) E loc_Exact = rounded s r e2 /\
    binary_round_aux prec emax s (Z.pos M) (E + 1) loc_Exact = rounded s r (e2 + 1).
Proof.
  intros H. unfold binary_round_aux.
  rewrite (shr_fexp_succ (Z.pos M) E) by (cbn [Zdigits2]; lia).
  pose proof (shr_fexp_snd (Z.pos M) E loc_Exact) as [_ H1].
  destruct (shr_fexp prec emax (Z.pos M) E loc_Exact) as [mrs' e1].
  cbn [fst snd] in *.
  assert (-1073 <= e1) as He1
    by (cbn [Zdigits2] in H1; unfold fexp, prec, emin, emax in H1; lia).
  set (M1 := round_nearest_even (shr_m mrs') (loc_of_shr_record mrs')).
  rewrite (shr_fexp_succ M1 e1) by lia.
  pose proof (shr_fexp_snd M1 e1 loc_Exact) as [H2 _].
  destruct (shr_fexp prec emax M1 e1 loc_Exact) as [mrs'' e2].
  cbn [fst snd] in *.
  exists (shr_m mrs''), e2. split; [lia|]. by split.
Qed.

Lemma SF64mul_two_rounded (s : bool) (r e2 : Z) :
  -1073 <= e2 -> valid_binary (rounded s r e2) = true ->
  SF64mul SFtwo (rounded s r e2) = rounded s r (e2 + 1).
Proof.
  intros He Hv. destruct r as [|m|m]; [reflexivity| |reflexivity].
  unfold rounded in *. unfold prec, emax in *.
  destruct (Z.leb_spec e2 (1024 - 53)) as [Hle|Hgt].
  - rewrite (SF64mul_two s m e2 Hv).
    destruct (valid_finite_cases s m e2 Hv) as [_ [Hd|[_ ?]]]; [|lia].
    by destruct (Z.eqb_spec (Z.pos (digits2_pos m)) 53); [|lia].
  - by destruct (Z.leb_spec (e2 + 1) (1024 - 53)); [lia|].
Qed.

Lemma SF64_square_double (a : spec_float) :
  valid_binary a = true -> valid_binary (SF64mul a a) = true ->
  doubles_safely a ->
  match a with
  | S754_finite _ m e => Z.pos (digits2_pos m) = 53 /\ -536 <= e
  | _ => True
  end ->
  SF64mul (SF64mul SFtwo a) a = SF64mul SFtwo (SF64mul a a).
Proof.
  intros Va Vaa Sa Hn. destruct a as [[|]|[|]| |s m e]; try reflexivity.
  destruct Hn as [Hd He].
  destruct (SF64mul_two_cases s m e Va Sa) as [[_ ->]|[? _]]; [|lia].
  rewrite !SF64mul_finite in *.
  pose proof (digits2_pos_mul_le m m) as Hmm.
  destruct (binary_round_aux_succ (xorb s s) (m * m) (e + e) ltac:(lia))
    as (r & e2 & He2 & E0 & E1).
  replace (e + 1 + e) with (e + e + 1) by lia.
  rewrite E1. rewrite E0 in *. symmetry. by apply SF64mul_two_rounded.
Qed.

Lemma float_square_double (a : float) :
  overflows_when_doubled a = false -> squares_safely a = true ->
  (float_of_Z 2 * a * a)%float = (a * a + a * a)%float.
Proof.
  intros Ho Hs. rewrite float_add_diag. apply Prim2SF_inj. rewrite !mul_spec.
  change (Prim2SF (float_of_Z 2)) with SFtwo.
  apply SF64_square_double.
  - apply Prim2SF_valid.
  - rewrite <- mul_spec. apply Prim2SF_valid.
  - by apply overflows_doubles_safely.
  - unfold squares_safely in Hs. destruct (Prim2SF a); try done.
    apply andb_true_iff in Hs as [?%Z.eqb_eq ?%Z.leb_le]. done.
Qed.

Lemma Z_div_eucl_mul (q m : Z) : 0 < m -> Z.div_eucl (q * m) m = (q, 0).
Proof.
  intros Hm. pose proof (Z.div_mul q m ltac:(lia)) as Hq.
  pose proof (Z.mod_mul q m ltac:(lia)) as Hr.
  unfold Z.div, Z.modulo in Hq, Hr.
  destruct (Z.div_eucl (q * m) m) as [q' r']. simpl in *. by subst.
Qed.

(** A finite non-zero double divided by itself is exactly 1. *)
Lemma SF64div_diag (s : bool) (m : positive) (e : Z) :
  SF64div (S754_finite s m e) (S754_finite s m e)
  = S754_finite false 4503599627370496 (-52).
Proof.
  unfold SF64div, SFdiv, SFdiv_core_binary.
  rewrite !Z.sub_diag, xorb_nilpotent.
  change (Z.min (fexp prec emax 0) 0) with (-53).
  change (0 - -53) with 53.
  rewrite Z.shiftl_mul_pow2 by lia. rewrite Z.mul_comm, Z_div_eucl_mul by lia.
  assert (new_location (Z.pos m) 0 = loc_Exact) as ->.
  { unfold new_location, new_location_even, new_location_odd.
    by destruct (Z.even (Z.pos m)). }
  by vm_compute.
Qed.

Lemma float_div_diag (d : float) : regular d = true -> (d / d)%float = 1%float.
Proof.
  intros Hd. apply Prim2SF_inj. rewrite div_spec. unfold regular in Hd.
  destruct (Prim2SF d) as [| | |s m e]; try done. by rewrite SF64div_diag.
Qed.

(** ** The window count as a double *)

Lemma digits2_pos_iter_xO (p d : positive) :
  Z.pos (digits2_pos (Pos.iter xO p d)) = Z.pos (digits2_pos p) + Z.pos d.
Proof.
  induction d as [|d IH] using Pos.peano_ind.
  - simpl. lia.
  - rewrite Pos.iter_succ. cbn [digits2_pos]. rewrite Pos2Z.inj_succ. lia.
Qed.

(** A positive integer below [2^53] is a finite positive double. *)
Lemma float_of_Z_regular (n : Z) :
  0 < n < 2 ^ 53 ->
  exists m e, Prim2SF (float_of_Z n) = S754_finite false m e.
Proof.
  intros Hn. destruct n as [|p|p]; try lia.
  assert (Z.pos (digits2_pos p) <= 53) as Hd.
  { rewrite digits2_pos_size. apply Z.nlt_ge. intros Hlt.
    pose proof (Pos.size_le p) as H. apply (Pos2Z.pos_le_pos _ _) in H.
    rewrite Pos2Z.inj_pow in H.
    assert (2 ^ 54 <= 2 ^ Z.pos (Pos.size p)) by (apply Z.pow_le_mono_r; lia).
    lia. }
  unfold float_of_Z. cbn [binary_normalize]. unfold binary_round, shl_align.
  rewrite Z.add_0_r, Z.sub_0_r.
  assert (fexp prec emax (Z.pos (digits2_pos p)) = Z.pos (digits2_pos p) - 53) as ->
    by (unfold fexp, prec, emin, emax; lia).
  destruct (Z.pos (digits2_pos p) - 53) as [|q|q] eqn:Eq; try lia.
  - rewrite binary_round_aux_canonical
      by (unfold fexp, prec, emin, emax; lia).
    change (0 <=? emax - prec) with true. cbn [fst snd].
    exists p, 0. apply Prim2SF_SF2Prim.
    unfold valid_binary, SpecFloat.valid_binary, bounded, canonical_mantissa.
    apply andb_true_iff. split; [apply Z.eqb_eq|by apply Z.leb_le].
    unfold fexp, prec, emin, emax. lia.
  - pose proof (digits2_pos_iter_xO p q) as Hq.
    rewrite binary_round_aux_canonical
      by (unfold fexp, prec, emin, emax; lia).
    assert ((Z.neg q <=? emax - prec) = true) as -> by (apply Z.leb_le; unfold emax, prec; lia).
    exists (Pos.iter xO p q), (Z.neg q). apply Prim2SF_SF2Prim.
    unfold valid_binary, SpecFloat.valid_binary, bounded, canonical_mantissa.
    apply andb_true_iff. split; [apply Z.eqb_eq|apply Z.leb_le; unfold emax, prec; lia].
    unfold fexp, prec, emin, emax. lia.
Qed.

(** ** The running mean of ones *)

Lemma float_zero_div (k : float) (m : positive) (e : Z) :
  Prim2SF k = S754_finite false m e -> (0 / k)%float = 0%float.
Proof. intros Hk. apply Prim2SF_inj. rewrite div_spec, Hk. reflexivity. Qed.

Lemma welford_one (c : Z) :
  0 <= c -> c + 1 < 2 ^ 53 ->
  @welford binary64 (1%float, c) 1%float = (1%float, c + 1).
Proof.
  intros Hc Hb. unfold welford. cbn [fst snd].
  destruct (float_of_Z_regular (c + 1) ltac:(lia)) as (m & e & Hk).
  change (((1 + (1 - 1) / float_of_Z (c + 1))%float, c + 1) = (1%float, c + 1)).
  change (1 - 1)%float with 0%float. rewrite (float_zero_div _ m e Hk).
  reflexivity.
Qed.

Lemma foldl_welford_ones (vals : list float) (c : Z) :
  0 <= c -> c + Z.of_nat (length vals) < 2 ^ 53 ->
  Forall (eq 1%float) vals ->
  foldl (@welford binary64) (1%float, c) vals
  = (1%float, c + Z.of_nat (length vals)).
Proof.
  revert c. induction vals as [|v vals IH]; intros c Hc Hb Hv.
  - simpl. f_equal. lia.
  - inversion Hv as [|? ? <- Hv']; subst. cbn [foldl length] in *.
    rewrite welford_one by lia. rewrite IH by (done || lia). f_equal. lia.
Qed.

Lemma mean_of_ones (vals : list float) :
  vals <> [] -> Z.of_nat (length vals) < 2 ^ 53 ->
  Forall (eq 1%float) vals ->
  (foldl (@welford binary64) (@of_Z binary64 0, 0) vals).1 = 1%float.
Proof.
  intros Hne Hb Hv. destruct vals as [|v vals]; [done|].
  inversion Hv as [|? ? <- Hv']; subst. cbn [foldl length] in *.
  change (@welford binary64 (@of_Z binary64 0, 0) 1%float) with (1%float, 1).
  by rewrite foldl_welford_ones by (done || lia).
Qed.

(** ** An image compared with itself *)

Lemma foldl_invariant {A B} (P : A -> Prop) (f : A -> B -> A) (l : list B) (a : A) :
  P a -> (forall a x, P a -> P (f a x)) -> P (foldl f a l).
Proof.
  intros Ha Hf. revert a Ha. induction l as [|x l IH]; intros a Ha; [done|].
  simpl. apply IH. by apply Hf.
Qed.

Lemma build_sats_diagonal {N : Number} img w h :
  diagonal (build_sats img img w h).
Proof.
  unfold build_sats. apply foldl_invariant; [done|].
  intros s y Hs. unfold sat_row. apply foldl_invariant; [done|].
  intros s' x (HY & HY2 & HXY). unfold sat_pixel, diagonal.
  cbn [satX satY satX2 satY2 satXY]. by rewrite HY, HY2, HXY.
Qed.

Lemma window_stats_diagonal {N : Number} s sw ws wy wx :
  diagonal s ->
  let st := window_stats s sw ws wy wx in
  meanY st = meanX st /\ varY st = varX st /\ covXY st = varX st.
Proof.
  intros (HY & HY2 & HXY). unfold window_stats.
  cbn [meanX meanY varX varY covXY]. by rewrite HY, HY2, HXY.
Qed.

Lemma call_val_identity_binary64 img w h options wy wx :
  overflows_when_doubled
    (meanX (@call_stats binary64 img img w h options wy wx)) = false ->
  squares_safely
    (meanX (@call_stats binary64 img img w h options wy wx)) = true ->
  regular (@call_den binary64 img img w h options wy wx) = true ->
  @call_val binary64 img img w h options wy wx = 1%float.
Proof.
  intros Ho Hs Hr.
  assert (@call_val binary64 img img w h options wy wx
          = (@call_den binary64 img img w h options wy wx
             / @call_den binary64 img img w h options wy wx)%float) as ->.
  { unfold call_val, call_den, call_stats, window_val, ssim_num, ssim_den in *.
    destruct (window_stats_diagonal (N:=binary64) (build_sats img img w h)
                (w + 1) (ws_of options) wy wx
                (build_sats_diagonal (N:=binary64) img w h))
      as (E1 & E2 & E3).
    cbv zeta in E1, E2, E3. rewrite E1, E2, E3 in *.
    cbn [num of_Z add sub mul div binary64] in *.
    by rewrite float_square_double, <- float_add_diag. }
  by apply float_div_diag.
Qed.

Lemma ssimGrey_identity_binary64 img w h options :
  0 < w -> 0 < h ->
  (w - ws_of options + 1) * (h - ws_of options + 1) < 2 ^ 53 ->
  identity_safe img w h options ->
  @ssimGrey binary64 img img w h options = Return 1%float.
Proof.
  intros Hw Hh Hcount Hsafe.
  destruct (decide (w - ws_of options + 1 <= 0 \/ h - ws_of options + 1 <= 0))
    as [Hdeg|Hwin].
  - rewrite ssimGrey_guard by (by apply degenerate_guard). reflexivity.
  - rewrite ssimGrey_unfold; [|lia|lia|nia]. f_equal.
    destruct (ssim_values_nonempty (N:=binary64) img img w h options)
      as [Hlen Hne]; [lia..|].
    apply mean_of_ones;
      [done|exact (eq_ind_r (fun n => n < 2 ^ 53) Hcount Hlen)|].
    apply (ssim_values_Forall (N:=binary64)). intros wy wx Hwy Hwx.
    destruct (Hsafe wy wx Hwy Hwx) as (Ho & Hs & Hr).
    symmetry. by apply call_val_identity_binary64.
Qed.

(** C2 (amended).  An image compared with itself scores 1: in the exact
    reading for an image of [w * h] samples, a positive window size,
    positive [k1] and [k2] and a non-zero dynamic range; and in double
    precision, as exactly [1.0], whenever fewer than [2^53] windows are
    averaged and in each of them the mean does not overflow when doubled,
    its square stays clear of the subnormal range and the denominator is a
    finite non-zero double. *)
Theorem ssimGrey_identity img w h :
  0 < w -> 0 < h ->
  (forall options,
     length img = Z.to_nat (w * h) ->
     0 < ws_of options ->
     strictly_positive (@k1_of exact options) ->
     strictly_positive (@k2_of exact options) ->
     dynamic_range (bitDepth_of options) <> 0 ->
     @ssimGrey exact img img w h options = Return (of_Z 1)) /\
  (forall options,
     (w - ws_of options + 1) * (h - ws_of options + 1) < 2 ^ 53 ->
     identity_safe img w h options ->
     @ssimGrey binary64 img img w h options = Return 1%float).
Proof.
  intros Hw Hh. split; intros options.
  - by apply ssimGrey_identity_exact.
  - by apply ssimGrey_identity_binary64.
Qed.

(** C10.  With [windowSize = 0] on an image of positive width and height
    the degenerate-window guard does not fire ([winW = width + 1] and
    [winH = height + 1]), every window sum is divided by [wsSq = 0], and in
    double precision [ssimGrey] returns [NaN], whatever the buffers hold. *)
Theorem ssimGrey_window_size_zero img1 img2 w h options :
  0 < w -> 0 < h -> ws_of options = 0 ->
  (w - ws_of options + 1 <=? 0) || (h - ws_of options + 1 <=? 0) = false /\
  @ssimGrey binary64 img1 img2 w h options = Return PrimFloat.nan.
Proof.
  intros Hw Hh Hws. split.
  - rewrite Hws. destruct (Z.leb_spec (w - 0 + 1) 0); [lia|].
    by destruct (Z.leb_spec (h - 0 + 1) 0); [lia|].
  - rewrite ssimGrey_unfold by nia. f_equal.
    apply foldl_welford_nan.
    + apply (ssim_values_nonempty (N:=binary64)); lia.
    + apply (ssim_values_Forall (N:=binary64)). intros wy wx _ _.
      unfold call_val. rewrite Hws. symmetry. apply window_val_ws0.
Qed.

(** ** The theorems at concrete calls *)

Lemma positive_default_k1 ws : strictly_positive (@k1_of exact (with_window ws)).
Proof. eexists. split; [by vm_compute|]. by vm_compute. Defined.

Lemma positive_default_k2 ws : strictly_positive (@k2_of exact (with_window ws)).
Proof. eexists. split; [by vm_compute|]. by vm_compute. Defined.

Lemma nonneg_imgA : Forall (Z.le 0) imgA.
Proof. repeat (constructor; [lia|]). constructor. Defined.

Lemma nonneg_imgB : Forall (Z.le 0) imgB.
Proof. repeat (constructor; [lia|]). constructor. Defined.

Lemma window_stats_direct_witness :
  let st := @window_stats exact (build_sats imgA imgB 2 2) (2 + 1) 2 0 0 in
  meanX st = Fin (direct_mean (pixel imgA 2) 0 0 2) /\
  meanY st = Fin (direct_mean (pixel imgB 2) 0 0 2) /\
  varX st = Fin (direct_var (pixel imgA 2) 0 0 2) /\
  varY st = Fin (direct_var (pixel imgB 2) 0 0 2) /\
  covXY st = Fin (direct_cov (pixel imgA 2) (pixel imgB 2) 0 0 2).
Proof. apply (window_stats_direct imgA imgB 2 2 2 0 0); (reflexivity || lia). Defined.

Lemma identity_safe_sample : identity_safe imgC 3 3 (with_window 2).
Proof.
  intros wy wx Hwy Hwx.
  change (@ws_of binary64 (with_window 2)) with 2 in *.
  assert ((wy = 0 \/ wy = 1) /\ (wx = 0 \/ wx = 1))
    as [[-> | ->] [-> | ->]] by lia; by vm_compute.
Defined.

Lemma ssimGrey_identity_witness :
  @ssimGrey exact imgC imgC 3 3 (with_window 2) = Return (of_Z 1) /\
  @ssimGrey binary64 imgC imgC 3 3 (with_window 2) = Return 1%float.
Proof.
  split.
  - apply (proj1 (ssimGrey_identity imgC 3 3 ltac:(lia) ltac:(lia)));
      try reflexivity; try lia.
    + apply positive_default_k1.
    + apply positive_default_k2.
    + by vm_compute.
  - apply (proj2 (ssimGrey_identity imgC 3 3 ltac:(lia) ltac:(lia))).
    + by vm_compute.
    + apply identity_safe_sample.
Defined.

Lemma means_double_safely_sample :
  means_double_safely imgC imgD 3 3 (with_window 2).
Proof.
  intros wy wx Hwy Hwx.
  change (@ws_of binary64 (with_window 2)) with 2 in *.
  assert ((wy = 0 \/ wy = 1) /\ (wx = 0 \/ wx = 1))
    as [[-> | ->] [-> | ->]] by lia; by vm_compute.
Defined.

Lemma ssimGrey_symmetric_witness :
  @ssimGrey exact imgC imgD 3 3 (with_window 2)
  = @ssimGrey exact imgD imgC 3 3 (with_window 2) /\
  @ssimGrey binary64 imgC imgD 3 3 (with_window 2)
  = @ssimGrey binary64 imgD imgC 3 3 (with_window 2).
Proof.
  split.
  - apply (proj1 (ssimGrey_symmetric imgC imgD 3 3)).
  - apply (proj2 (ssimGrey_symmetric imgC imgD 3 3)).
    apply means_double_safely_sample.
Defined.

Lemma ssimGrey_degenerate_window_witness :
  @ssimGrey binary64 (replicate 25 128) (replicate 25 128) 5 5 None
  = Return (float_of_Z 1).
Proof.
  apply (@ssimGrey_degenerate_window binary64 (replicate 25 128)
           (replicate 25 128) 5 5 None).
  left. by vm_compute.
Defined.

Lemma den_positive_witness :
  strictly_positive (@call_den exact imgA imgB 2 2 (with_window 1) 1 0) /\
  finite (@call_val exact imgA imgB 2 2 (with_window 1) 1 0).
Proof.
  apply (den_positive imgA imgB 2 2 (with_window 1) 1 0);
    try reflexivity; try (by vm_compute).
  - apply positive_default_k1.
  - apply positive_default_k2.
Defined.

Lemma ssimGrey_in_range_witness :
  exists q, @ssimGrey exact imgA imgB 2 2 (with_window 2) = Return (Fin q) /\
    (-1 <= q)%Qc /\ (q <= 1)%Qc.
Proof.
  apply (ssimGrey_in_range imgA imgB 2 2 (with_window 2));
    try reflexivity; try lia.
  - apply nonneg_imgA.
  - apply nonneg_imgB.
  - apply positive_default_k1.
  - apply positive_default_k2.
  - by vm_compute.
Defined.

Lemma ssimGrey_window_size_zero_witness :
  (2 - @ws_of binary64 (with_window 0) + 1 <=? 0)
  || (2 - @ws_of binary64 (with_window 0) + 1 <=? 0) = false /\
  @ssimGrey binary64 imgA imgB 2 2 (with_window 0) = Return PrimFloat.nan.
Proof.
  apply (ssimGrey_window_size_zero imgA imgB 2 2 (with_window 0));
    (reflexivity || lia).
Defined.

(** ** Double precision: positive constants that vanish *)

(** C2, as stated, fails: [k1 = 2^-600] is positive, but [c1 = (k1 * 255)^2]
    underflows to 0, and an all-zero image compared with itself gives
    0 / 0. *)
Lemma identity_lost_to_underflow :
  (0 <? tiny)%float = true /\
  @ssimGrey binary64 [0] [0] 1 1 (with_k1 tiny) = Return PrimFloat.nan /\
  (PrimFloat.nan =? float_of_Z 1)%float = false.
Proof. by vm_compute. Qed.

(** C6, as stated, fails: with [k1 = k2 = 2^-600], both positive, the
    constants [c1] and [c2] are 0 in double precision and the denominator
    of an all-zero window is 0; the division evaluates 0 / 0. *)
Lemma den_zero_on_underflow :
  (0 <? tiny)%float = true /\
  @c1_of binary64 (with_constants tiny) = 0%float /\
  @c2_of binary64 (with_constants tiny) = 0%float /\
  @call_den binary64 [0] [0] 1 1 (with_constants tiny) 0 0 = 0%float /\
  PrimFloat.ltb 0%float (@call_den binary64 [0] [0] 1 1 (with_constants tiny) 0 0)
  = false /\
  @call_val binary64 [0] [0] 1 1 (with_constants tiny) 0 0 = PrimFloat.nan.
Proof. by vm_compute. Qed.

(** C9, as stated, fails: the same underflow makes the score of two
    all-zero 2 by 2 images [NaN], which is not in [[-1, 1]]. *)
Lemma score_nan_on_underflow :
  (0 <? tiny)%float = true /\
  @ssimGrey binary64 [0; 0; 0; 0] [0; 0; 0; 0] 2 2 (with_constants tiny)
  = Return PrimFloat.nan /\
  (-1 <=? PrimFloat.nan)%float = false /\ (PrimFloat.nan <=? 1)%float = false.
Proof. by vm_compute. Qed.

(** ** Double precision: the running mean and the sum *)


(** ** Double precision: sample runs *)

(** The defaults [0.01] and [0.03] are the doubles that JavaScript reads
    from these literals. *)
Example binary64_default_constants :
  @k1_of binary64 None = 0x1.47ae147ae147bp-7%float /\
  @k2_of binary64 None = 0x1.eb851eb851eb8p-6%float /\
  bitDepth_of (N:=binary64) None = 8 /\ ws_of (N:=binary64) None = 11 /\
  dynamic_range 8 = 255.
Proof. by vm_compute. Qed.

Example binary64_identity_sample :
  @ssimGrey binary64 imgC imgC 3 3 (with_window 2) = Return 1%float.
Proof. by vm_compute. Qed.

Example binary64_symmetric_sample :
  @ssimGrey binary64 imgC imgD 3 3 (with_window 2)
  = @ssimGrey binary64 imgD imgC 3 3 (with_window 2).
Proof. by vm_compute. Qed.

(** The two readings agree on a sample up to rounding: the exact score and
    its double. *)
Example exact_and_binary64_sample :
  @ssimGrey exact imgA imgB 2 2 (with_window 2)
    = Return (Fin (Q2Qc (22409 # 24409))) /\
  @ssimGrey binary64 imgA imgB 2 2 (with_window 2)
    = Return 0x1.d60c5ad354f69p-1%float.
Proof. split; by vm_compute. Qed.

(** * Further properties of [ssimGrey] *)

(** ** The builder, table by table *)

Lemma foldl_invariant_in {A B} (P : A -> Prop) (f : A -> B -> A) (l : list B) (a : A) :
  P a -> (forall a x, x ∈ l -> P a -> P (f a x)) -> P (foldl f a l).
Proof.
  revert a. induction l as [|x l IH]; intros a Ha Hf; [done|].
  simpl. apply IH.
  - apply Hf; [left|done].
  - intros b z Hz. apply Hf. by right.
Qed.

(** What the zeroed tables satisfy and every pixel's update keeps holds of
    the five tables that the builder returns. *)
Lemma build_sats_tables {N : Number} (P : list num -> Prop) img1 img2 w h :
  P (float64_array ((w + 1) * (h + 1))) ->
  (forall sat v x y, 0 <= x < w -> 0 <= y < h -> P sat ->
     let i := (y + 1) * (w + 1) + (x + 1) in
     P (sat_update sat v i (i - (w + 1)) (i - 1) (i - (w + 1) - 1))) ->
  all_tables P (build_sats img1 img2 w h).
Proof.
  intros H0 Hstep. unfold build_sats.
  apply foldl_invariant_in; [by repeat split|].
  intros s y Hy%elem_of_seqZ Hs. unfold sat_row.
  apply foldl_invariant_in; [done|].
  intros s' x Hx%elem_of_seqZ (HX & HY & HX2 & HY2 & HXY).
  unfold sat_pixel, all_tables. cbn [satX satY satX2 satY2 satXY].
  repeat split; apply Hstep; (done || lia).
Qed.

Lemma get_float64_array {N : Number} (n i : Z) :
  0 <= i < n -> get (float64_array n) i = of_Z 0.
Proof.
  intros Hi. apply get_lookup; [lia|]. apply lookup_replicate_2. lia.
Qed.

Lemma build_sats_length {N : Number} img1 img2 w h :
  all_tables (fun sat => length sat = Z.to_nat ((w + 1) * (h + 1)))
    (build_sats img1 img2 w h).
Proof.
  apply build_sats_tables.
  - apply length_replicate.
  - intros sat v x y _ _ Hlen. unfold sat_update. by rewrite length_put.
Qed.

(** X1.  The builder never writes into row 0 or column 0: in every reading
    of [number], each of the five tables of an image of [w] by [h] pixels
    has a zero border on top and on the left. *)
Theorem build_sats_zero_border {N : Number} img1 img2 w h :
  0 <= w -> 0 <= h ->
  all_tables (zero_border w h) (build_sats img1 img2 w h).
Proof.
  intros Hw Hh. apply build_sats_tables.
  - split; intros k Hk; unfold cell; apply get_float64_array; nia.
  - intros sat v x y Hx Hy [Hrow Hcol]. unfold sat_update.
    split; intros k Hk; unfold cell in *.
    + rewrite get_put_ne by nia. by apply Hrow.
    + rewrite get_put_ne; [by apply Hcol|nia|nia|].
      intros E. assert (x + 1 = (k - (y + 1)) * (w + 1)) as E' by lia.
      destruct (Z_le_gt_dec (k - (y + 1)) 0); nia.
Qed.

Lemma build_sats_zero_border_witness :
  all_tables (zero_border 3 3) (@build_sats binary64 imgC imgD 3 3).
Proof. apply build_sats_zero_border; lia. Defined.

(** ** Samples beyond [width * height] *)

Lemma foldl_ext_in {A B} (f g : A -> B -> A) (l : list B) (a : A) :
  (forall a x, x ∈ l -> f a x = g a x) -> foldl f a l = foldl g a l.
Proof.
  revert a. induction l as [|x l IH]; intros a H; [done|].
  simpl. rewrite H by left. apply IH. intros b z Hz. apply H. by right.
Qed.

Lemma sample_take {N : Number} (img : list Z) (n i : Z) :
  i < n -> sample (take (Z.to_nat n) img) i = sample img i.
Proof.
  intros Hi. unfold sample. destruct (Z.ltb_spec i 0); [done|].
  by rewrite lookup_take_lt by lia.
Qed.

(** The builder reads the samples with index below [width * height] only. *)
Lemma build_sats_take {N : Number} img1 img2 w h :
  build_sats (take (Z.to_nat (w * h)) img1) (take (Z.to_nat (w * h)) img2) w h
  = build_sats img1 img2 w h.
Proof.
  unfold build_sats. apply foldl_ext_in. intros s y Hy%elem_of_seqZ.
  unfold sat_row. apply foldl_ext_in. intros s' x Hx%elem_of_seqZ.
  unfold sat_pixel. by rewrite !sample_take by nia.
Qed.

(** X2.  [ssimGrey] reads the first [width * height] samples of each
    buffer only: two calls whose buffers agree on these return the same,
    whatever follows in the buffers. *)
Theorem ssimGrey_reads_first_samples {N : Number} img1 img2 img1' img2' w h options :
  take (Z.to_nat (w * h)) img1' = take (Z.to_nat (w * h)) img1 ->
  take (Z.to_nat (w * h)) img2' = take (Z.to_nat (w * h)) img2 ->
  ssimGrey img1' img2' w h options = ssimGrey img1 img2 w h options.
Proof.
  intros E1 E2. unfold ssimGrey.
  by rewrite <- (build_sats_take img1' img2'), E1, E2, build_sats_take.
Qed.

Lemma ssimGrey_reads_first_samples_witness :
  @ssimGrey binary64 (imgA ++ [7; 7]) (imgB ++ [9]) 2 2 (with_window 2)
  = @ssimGrey binary64 imgA imgB 2 2 (with_window 2).
Proof. by apply ssimGrey_reads_first_samples. Defined.

(** ** Buffers shorter than [width * height] *)

Lemma sat_pixel_length {N : Number} img1 img2 w sw y s x n :
  all_tables (fun sat => length sat = n) s ->
  all_tables (fun sat => length sat = n) (sat_pixel img1 img2 w sw y s x).
Proof.
  intros (HX & HY & HX2 & HY2 & HXY). unfold sat_pixel, all_tables, sat_update.
  cbn [satX satY satX2 satY2 satXY]. by rewrite !length_put.
Qed.

Lemma sat_row_length {N : Number} img1 img2 w sw s y n k :
  all_tables (fun sat => length sat = n) s ->
  all_tables (fun sat => length sat = n)
    (foldl (sat_pixel img1 img2 w sw y) s (seqZ 0 k)).
Proof.
  intros Hs. apply foldl_invariant; [done|].
  intros s' x Hs'. by apply sat_pixel_length.
Qed.

Lemma foldl_seqZ_last {A} (step : A -> Z -> A) (a : A) (n : Z) :
  0 < n -> foldl step a (seqZ 0 n) = step (foldl step a (seqZ 0 (n - 1))) (n - 1).
Proof.
  intros Hn. rewrite <- foldl_seqZ_snoc by lia. by replace (n - 1 + 1) with n by lia.
Qed.

(** The last pixel's update is the last write of the builder. *)
Lemma build_sats_last {N : Number} img1 img2 w h :
  0 < w -> 0 < h ->
  exists s,
    all_tables (fun sat => length sat = Z.to_nat ((w + 1) * (h + 1))) s /\
    build_sats img1 img2 w h = sat_pixel img1 img2 w (w + 1) (h - 1) s (w - 1).
Proof.
  intros Hw Hh. unfold build_sats.
  rewrite foldl_seqZ_last by done. unfold sat_row at 1.
  rewrite foldl_seqZ_last by done.
  eexists. split; [|reflexivity].
  apply sat_row_length. apply foldl_invariant.
  - unfold float64_array. repeat split; apply length_replicate.
  - intros s y Hs. by apply sat_row_length.
Qed.

Lemma sample_missing {N : Number} (img : list Z) (i : Z) :
  Z.of_nat (length img) <= i -> sample img i = NaN.
Proof.
  intros Hi. unfold sample. destruct (Z.ltb_spec i 0); [done|].
  by rewrite lookup_ge_None_2 by lia.
Qed.

(** With a sample missing from the first buffer the bottom-right cell of
    [satX] is [NaN]; with one missing from the second, that of [satY]. *)
Lemma build_sats_short img1 img2 w h :
  0 < w -> 0 < h ->
  let s := @build_sats binary64 img1 img2 w h in
  (Z.of_nat (length img1) < w * h ->
   @get binary64 (satX s) (h * (w + 1) + w) = PrimFloat.nan) /\
  (Z.of_nat (length img2) < w * h ->
   @get binary64 (satY s) (h * (w + 1) + w) = PrimFloat.nan).
Proof.
  intros Hw Hh.
  destruct (build_sats_last (N:=binary64) img1 img2 w h Hw Hh)
    as (s' & (HX & HY & _) & ->).
  cbv zeta. unfold sat_pixel, sat_update. cbn [satX satY].
  replace ((h - 1 + 1) * (w + 1) + (w - 1 + 1)) with (h * (w + 1) + w) by lia.
  replace ((h - 1) * w + (w - 1)) with (w * h - 1) by lia.
  split; intros Hshort.
  - rewrite (get_put_eq (N:=binary64)) by (rewrite HX; nia).
    rewrite (sample_missing (N:=binary64)) by nia.
    cbn [num NaN add sub binary64].
    by rewrite !float_add_nan_l, float_sub_nan_l.
  - rewrite (get_put_eq (N:=binary64)) by (rewrite HY; nia).
    rewrite (sample_missing (N:=binary64)) by nia.
    cbn [num NaN add sub binary64].
    by rewrite !float_add_nan_l, float_sub_nan_l.
Qed.

Lemma rect_nan (sat : list float) (tl tr bl br : Z) :
  @get binary64 sat br = PrimFloat.nan ->
  @rect binary64 sat tl tr bl br = PrimFloat.nan.
Proof.
  intros E. unfold rect. rewrite E. cbn [num add sub binary64].
  by rewrite !float_sub_nan_l, float_add_nan_l.
Qed.

(** A window whose bottom-right corner is [NaN] in [satX] or in [satY]
    has the value [NaN]. *)
Lemma window_val_nan s sw ws c1 c2 wy wx :
  @get binary64 (satX s) ((wy + ws) * sw + (wx + ws)) = PrimFloat.nan \/
  @get binary64 (satY s) ((wy + ws) * sw + (wx + ws)) = PrimFloat.nan ->
  @window_val binary64 s sw ws c1 c2 wy wx = PrimFloat.nan.
Proof.
  intros H. unfold window_val, ssim_num, window_stats.
  cbn [meanX meanY covXY]. destruct H as [H|H]; rewrite (rect_nan _ _ _ _ _ H);
    cbn [num of_Z add sub mul div binary64].
  - by rewrite float_div_nan_l, float_mul_nan_r, float_mul_nan_l,
      float_add_nan_l, float_mul_nan_l, float_div_nan_l.
  - by rewrite float_div_nan_l, float_mul_nan_r,
      float_add_nan_l, float_mul_nan_l, float_div_nan_l.
Qed.

(** The value of the last window decides whether the mean is [NaN]. *)
Lemma mean_ssim_last_nan s sw ws c1 c2 winW winH :
  0 < winW -> 0 < winH ->
  @window_val binary64 s sw ws c1 c2 (winH - 1) (winW - 1) = PrimFloat.nan ->
  @mean_ssim binary64 s sw ws c1 c2 winW winH = PrimFloat.nan.
Proof.
  intros HW HH E. unfold mean_ssim.
  rewrite foldl_seqZ_last by done. unfold window_row at 1.
  rewrite foldl_seqZ_last by done.
  rewrite E. apply welford_nan.
Qed.

(** With a buffer that holds fewer than [width * height] samples and at
    least one window, the program without a limit on the size of the
    tables returns [NaN] (double precision). *)
Lemma short_buffer_nan img1 img2 w h options :
  0 < w -> 0 < h ->
  0 < w - ws_of options + 1 -> 0 < h - ws_of options + 1 ->
  Z.of_nat (length img1) < w * h \/ Z.of_nat (length img2) < w * h ->
  @ssimGrey binary64 img1 img2 w h options = Return PrimFloat.nan.
Proof.
  intros Hw Hh HW HH Hshort. unfold ssimGrey. fold (ws_of options).
  destruct (Z.leb_spec (w - ws_of options + 1) 0); [lia|].
  destruct (Z.leb_spec (h - ws_of options + 1) 0); [lia|].
  destruct (Z.ltb_spec ((w + 1) * (h + 1)) 0); [nia|].
  cbn [orb]. f_equal. apply mean_ssim_last_nan; [done..|].
  apply window_val_nan.
  replace ((h - ws_of options + 1 - 1 + ws_of options) * (w + 1)
           + (w - ws_of options + 1 - 1 + ws_of options))
    with (h * (w + 1) + w) by lia.
  destruct (build_sats_short img1 img2 w h Hw Hh) as [HX HY].
  destruct Hshort; [left; by apply HX|right; by apply HY].
Qed.

(** ** A negative window size *)

Lemma get_beyond {N : Number} (a : list num) (i : Z) :
  Z.of_nat (length a) <= i -> get a i = NaN.
Proof.
  intros Hi. unfold get. destruct (Z.ltb_spec i 0); [done|].
  by rewrite lookup_ge_None_2 by lia.
Qed.

(** A window whose top-left corner lies beyond the table has the value
    [NaN]. *)
Lemma window_val_beyond s sw ws c1 c2 wy wx :
  Z.of_nat (length (satX s)) <= wy * sw + wx ->
  @window_val binary64 s sw ws c1 c2 wy wx = PrimFloat.nan.
Proof.
  intros H. unfold window_val, ssim_num, window_stats, rect.
  cbn [meanX meanY covXY]. rewrite (get_beyond (N:=binary64) (satX s) (wy * sw + wx)) by exact H.
  cbn [num NaN of_Z add sub mul div binary64].
  by rewrite float_add_nan_r, float_div_nan_l, float_mul_nan_r, float_mul_nan_l,
    float_add_nan_l, float_mul_nan_l, float_div_nan_l.
Qed.

(** With a negative window size and a width and a height that are not
    negative, the windows reach beyond the tables, and the program without
    a limit on the size of the tables returns [NaN] (double precision). *)
Lemma negative_window_nan img1 img2 w h options :
  0 <= w -> 0 <= h -> ws_of options < 0 ->
  @ssimGrey binary64 img1 img2 w h options = Return PrimFloat.nan.
Proof.
  intros Hw Hh Hws. unfold ssimGrey. fold (ws_of options).
  destruct (Z.leb_spec (w - ws_of options + 1) 0); [lia|].
  destruct (Z.leb_spec (h - ws_of options + 1) 0); [lia|].
  destruct (Z.ltb_spec ((w + 1) * (h + 1)) 0); [nia|].
  cbn [orb]. f_equal. apply mean_ssim_last_nan; [done..|].
  apply window_val_beyond.
  destruct (build_sats_length (N:=binary64) img1 img2 w h) as (-> & _).
  nia.
Qed.

(** ** The limit on the size of the tables *)

(** Tables within the limit: the call is the one that [ssimGrey]
    describes. *)
Lemma ssimGrey_alloc_within {N : Number} limit img1 img2 w h
    (options : option (SsimGreyOptions N)) :
  (w + 1) * (h + 1) <= limit ->
  ssimGrey_alloc limit img1 img2 w h options = ssimGrey img1 img2 w h options.
Proof.
  intros Hl. unfold ssimGrey_alloc, ssimGrey.
  destruct ((w - opt_or options windowSize 11 + 1 <=? 0)
            || (h - opt_or options windowSize 11 + 1 <=? 0)); [done|].
  by destruct (Z.ltb_spec limit ((w + 1) * (h + 1))); [lia|].
Qed.

(** With at least one window, tables beyond the limit end the call. *)
Lemma ssimGrey_alloc_beyond {N : Number} limit img1 img2 w h
    (options : option (SsimGreyOptions N)) :
  0 < w - ws_of options + 1 -> 0 < h - ws_of options + 1 ->
  ssimGrey_alloc limit img1 img2 w h options
  = if limit <? (w + 1) * (h + 1) then RangeError
    else ssimGrey img1 img2 w h options.
Proof.
  intros HW HH. unfold ssimGrey_alloc. fold (ws_of options).
  destruct (Z.leb_spec (w - ws_of options + 1) 0); [lia|].
  by destruct (Z.leb_spec (h - ws_of options + 1) 0); [lia|].
Qed.

(** X3.  A buffer that holds fewer than [width * height] samples raises
    no error of its own: when there is at least one window, the call ends
    in the [RangeError] of the allocation if the tables are beyond the
    limit of the engine, and returns [NaN] otherwise (double
    precision). *)
Theorem ssimGrey_short_buffer limit img1 img2 w h options :
  0 < w -> 0 < h ->
  0 < w - ws_of options + 1 -> 0 < h - ws_of options + 1 ->
  Z.of_nat (length img1) < w * h \/ Z.of_nat (length img2) < w * h ->
  @ssimGrey_alloc binary64 limit img1 img2 w h options
  = if limit <? (w + 1) * (h + 1) then RangeError else Return PrimFloat.nan.
Proof.
  intros Hw Hh HW HH Hshort. rewrite ssimGrey_alloc_beyond by done.
  destruct (limit <? (w + 1) * (h + 1)); [done|].
  by apply short_buffer_nan.
Qed.

Lemma ssimGrey_short_buffer_witness :
  @ssimGrey_alloc binary64 (2 ^ 32) [1; 2; 3] imgB 2 2 (with_window 1)
  = Return PrimFloat.nan.
Proof.
  apply (ssimGrey_short_buffer (2 ^ 32) [1; 2; 3] imgB 2 2 (with_window 1));
    try (by vm_compute). left. by vm_compute.
Defined.

(** X15.  A negative window size is not rejected: for a width and a
    height that are not negative, the call ends in the [RangeError] of the
    allocation if the tables are beyond the limit of the engine; otherwise
    the windows reach beyond the tables and the call returns [NaN] (double
    precision). *)
Theorem ssimGrey_negative_window limit img1 img2 w h options :
  0 <= w -> 0 <= h -> ws_of options < 0 ->
  @ssimGrey_alloc binary64 limit img1 img2 w h options
  = if limit <? (w + 1) * (h + 1) then RangeError else Return PrimFloat.nan.
Proof.
  intros Hw Hh Hws. rewrite ssimGrey_alloc_beyond by lia.
  destruct (limit <? (w + 1) * (h + 1)); [done|].
  by apply negative_window_nan.
Qed.

Lemma ssimGrey_negative_window_witness :
  @ssimGrey_alloc binary64 (2 ^ 32) imgA imgB 2 2 (with_window (-1))
  = Return PrimFloat.nan.
Proof.
  apply (ssimGrey_negative_window (2 ^ 32) imgA imgB 2 2 (with_window (-1)));
    (reflexivity || lia).
Defined.

(** A call that declares [2^53] by 11 samples with empty buffers: the
    tables are beyond a limit of [2^53 - 1], and the call ends in the
    [RangeError] of the allocation. *)
Example short_buffer_beyond_limit :
  @ssimGrey_alloc binary64 (2 ^ 53 - 1) [] [] (2 ^ 53) 11 None = RangeError.
Proof. by vm_compute. Qed.

(** ** Flat images (exact reading) *)

Lemma pixel_replicate (c w h x y : Z) :
  0 <= x < w -> 0 <= y < h -> pixel (replicate (Z.to_nat (w * h)) c) w x y = c.
Proof.
  intros Hx Hy. unfold pixel. by rewrite lookup_replicate_2 by nia.
Qed.

Lemma sumQ_const (c : Qc) lo n :
  0 <= n -> (sumQ (fun _ => c) lo n = Qc_of_Z n * c)%Qc.
Proof.
  intros Hn.
  replace n with (Z.of_nat (length (seqZ lo n))) at 2
    by (by rewrite length_seqZ, Z2Nat.id).
  unfold sumQ. induction (seqZ lo n) as [|v l IH]; csimpl.
  - change (Z.of_nat 0) with 0. rewrite Z2Qc_inj_0. ring.
  - rewrite IH, Nat2Z.inj_succ, <- Z.add_1_r, Z2Qc_inj_add, Z2Qc_inj_1. ring.
Qed.

Lemma window_sum_ext (F G : Z -> Z -> Qc) wx wy ws :
  (forall i j, wx <= i < wx + ws -> wy <= j < wy + ws -> F i j = G i j) ->
  window_sum F wx wy ws = window_sum G wx wy ws.
Proof.
  intros H. unfold window_sum. apply sumQ_ext. intros j Hj.
  apply sumQ_ext. intros i Hi. by apply H.
Qed.

Lemma window_sum_const (c : Qc) wx wy ws :
  0 <= ws -> (window_sum (fun _ _ => c) wx wy ws = Qc_of_Z (ws * ws) * c)%Qc.
Proof.
  intros Hws. unfold window_sum.
  rewrite (sumQ_ext _ (fun _ => Qc_of_Z ws * c)%Qc)
    by (intros j _; by apply sumQ_const).
  rewrite sumQ_const by done. rewrite Z2Qc_inj_mul. ring.
Qed.

(** The mean of a function that is [c] throughout the window. *)
Lemma direct_mean_flat f (c : Z) wx wy ws :
  0 < ws ->
  (forall i j, wx <= i < wx + ws -> wy <= j < wy + ws -> f i j = c) ->
  direct_mean f wx wy ws = Qc_of_Z c.
Proof.
  intros Hws Hf. unfold direct_mean.
  rewrite (window_sum_ext _ (fun _ _ => Qc_of_Z c))
    by (intros i j Hi Hj; by rewrite Hf).
  rewrite window_sum_const by lia. field.
  apply Qc_of_Z_nonzero. nia.
Qed.

(** Its covariance with any other function is 0. *)
Lemma direct_cov_flat_l f g (c : Z) wx wy ws :
  0 < ws ->
  (forall i j, wx <= i < wx + ws -> wy <= j < wy + ws -> f i j = c) ->
  direct_cov f g wx wy ws = 0%Qc.
Proof.
  intros Hws Hf. unfold direct_cov.
  rewrite (direct_mean_flat f c) by done.
  rewrite (window_sum_ext _ (fun _ _ => 0%Qc)).
  - rewrite window_sum_const by lia. field. apply Qc_of_Z_nonzero. nia.
  - intros i j Hi Hj. rewrite Hf by done. ring.
Qed.

Lemma direct_cov_flat_r f g (c : Z) wx wy ws :
  0 < ws ->
  (forall i j, wx <= i < wx + ws -> wy <= j < wy + ws -> g i j = c) ->
  direct_cov f g wx wy ws = 0%Qc.
Proof.
  intros Hws Hg. unfold direct_cov.
  rewrite (direct_mean_flat g c) by done.
  rewrite (window_sum_ext _ (fun _ _ => 0%Qc)).
  - rewrite window_sum_const by lia. field. apply Qc_of_Z_nonzero. nia.
  - intros i j Hi Hj. rewrite Hg by done. ring.
Qed.

Lemma total_const (v : Qc) (vals : list xnum) :
  Forall (eq (Fin v)) vals ->
  @total exact vals = Fin (Qc_of_Z (Z.of_nat (length vals)) * v)%Qc.
Proof.
  induction vals as [|x vals IH] using rev_ind.
  - intros _. change (@total exact []) with (Fin (Qc_of_Z 0)). f_equal.
    change (Z.of_nat (length [])) with 0. rewrite Z2Qc_inj_0. ring.
  - intros [Hvals Hx]%Forall_app. rewrite Forall_singleton in Hx. subst x.
    rewrite (total_snoc (N:=exact)), (IH Hvals). exact_ops. f_equal.
    rewrite length_app, Nat2Z.inj_add, Z2Qc_inj_add.
    change (Z.of_nat (length [Fin v])) with 1. rewrite Z2Qc_inj_1. ring.
Qed.

(** The mean of equal values is that value. *)
Lemma arithmetic_mean_const (v : Qc) (vals : list xnum) :
  vals <> [] -> Forall (eq (Fin v)) vals ->
  @arithmetic_mean exact vals = Fin v.
Proof.
  intros Hne Hvals. unfold arithmetic_mean. rewrite (total_const v vals Hvals).
  assert (Z.of_nat (length vals) <> 0) as Hn by (destruct vals; simpl; [done|lia]).
  exact_ops. rewrite xdiv_of_Z by done. f_equal. field.
  by apply Qc_of_Z_nonzero.
Qed.

(** X5.  Two flat images, all [c] and all [d], score
    [(2 c d + c1) / (c^2 + d^2 + c1)]: the structure term is 1 and only the
    luminance term is left (exact reading). *)
Theorem ssimGrey_flat_images (c d w h : Z) options :
  0 < ws_of options <= w -> ws_of options <= h ->
  strictly_positive (@k1_of exact options) ->
  strictly_positive (@k2_of exact options) ->
  dynamic_range (bitDepth_of options) <> 0 ->
  @ssimGrey exact (replicate (Z.to_nat (w * h)) c)
    (replicate (Z.to_nat (w * h)) d) w h options
  = Return ((of_Z 2 * of_Z c * of_Z d + c1_of options)
            / (of_Z c * of_Z c + of_Z d * of_Z d + c1_of options))%num.
Proof.
  intros Hws Hh Hk1 Hk2 HL.
  destruct (stability_positive _ _ Hk1 HL) as (q1 & E1 & Hq1).
  destruct (stability_positive _ _ Hk2 HL) as (q2 & E2 & Hq2).
  set (C := Qc_of_Z c). set (D := Qc_of_Z d).
  assert (0 < C * C + D * D + q1)%Qc as Hden.
  { pose proof (Qc_square_nonneg C). pose proof (Qc_square_nonneg D).
    qc2q. lra. }
  rewrite ssimGrey_exact_mean by nia. f_equal.
  unfold c1_of at 1 2. rewrite E1. exact_ops. rewrite Z2Qc_inj_2.
  fold C D. rewrite xdiv_pos by done.
  apply arithmetic_mean_const.
  { apply (ssim_values_nonempty (N:=exact)); lia. }
  apply (ssim_values_Forall (N:=exact)). intros wy wx Hwy Hwx.
  unfold call_val, window_val, c1_of, c2_of.
  rewrite E1, E2, window_stats_exact by (rewrite ?length_replicate; lia).
  unfold direct_stats, direct_var.
  set (f := pixel (replicate (Z.to_nat (w * h)) c) w).
  set (g := pixel (replicate (Z.to_nat (w * h)) d) w).
  rewrite (direct_mean_flat f c), (direct_mean_flat g d),
    (direct_cov_flat_l f f c), (direct_cov_flat_l g g d),
    (direct_cov_flat_l f g c);
    try done; try lia; try (intros i j Hi Hj; apply pixel_replicate; lia).
  rewrite ssim_num_exact, ssim_den_exact. fold C D.
  assert (0 < (C * C + D * D + q1) * (0 + 0 + q2))%Qc as Hd.
  { qc2q. apply Qmult_lt_0_compat; lra. }
  exact_ops. rewrite xdiv_pos by done. f_equal. field.
  split; intros E.
  - rewrite E in Hq2. by apply Qclt_not_eq in Hq2.
  - rewrite E in Hden. by apply Qclt_not_eq in Hden.
Qed.

Lemma ssimGrey_flat_images_witness :
  @ssimGrey exact (replicate (Z.to_nat (2 * 2)) 0)
    (replicate (Z.to_nat (2 * 2)) 255) 2 2 (with_window 2)
  = Return ((of_Z 2 * of_Z 0 * of_Z 255 + c1_of (with_window 2))
            / (of_Z 0 * of_Z 0 + of_Z 255 * of_Z 255 + c1_of (with_window 2)))%num.
Proof.
  apply (ssimGrey_flat_images 0 255 2 2 (with_window 2)).
  - change (@ws_of exact (with_window 2)) with 2. lia.
  - change (@ws_of exact (with_window 2)) with 2. lia.
  - apply positive_default_k1.
  - apply positive_default_k2.
  - by vm_compute.
Defined.

(** ** A score of 1 (exact reading) *)

(** The SSIM quotient is 1 only if the means agree and the variance of the
    difference vanishes. *)
Lemma ssim_one (mX mY vX vY cov c1 c2 : Qc) :
  (0 <= mX * mY ->
   0 <= vX + vY - 2 * cov -> 0 <= vX + vY + 2 * cov ->
   0 < c1 -> 0 < c2 ->
   (2 * mX * mY + c1) * (2 * cov + c2)
   = (mX * mX + mY * mY + c1) * (vX + vY + c2) ->
   mX = mY /\ vX + vY - 2 * cov = 0)%Qc.
Proof.
  intros H1 H3 H4 H5 H6 E.
  assert (this ((2 * mX * mY + c1) * (2 * cov + c2))%Qc
          == this ((mX * mX + mY * mY + c1) * (vX + vY + c2))%Qc)%Q as E'
    by (by rewrite E).
  clear E.
  cut ((this mX == this mY)%Q /\ (this (vX + vY - 2 * cov)%Qc == 0)%Q).
  { intros [Ea Eb]. split; by apply Qc_is_canon. }
  qc2q.
  set (a := this mX) in *. set (b := this mY) in *.
  set (p := this vX) in *. set (q := this vY) in *.
  set (c := this cov) in *. set (d1 := this c1) in *. set (d2 := this c2) in *.
  clearbody a b p q c d1 d2.
  assert (0 <= (a - b) * (a - b))%Q as Hsq by (generalize (a - b)%Q; intros t; nra).
  set (A := ((1 + 1) * a * b + d1)%Q) in *. set (B := (a * a + b * b + d1)%Q) in *.
  set (C := ((1 + 1) * c + d2)%Q) in *. set (D := (p + q + d2)%Q) in *.
  assert (0 < A)%Q by (unfold A; lra).
  assert (B - A == (a - b) * (a - b))%Q as EBA by (unfold A, B; ring).
  assert (0 < D)%Q by (unfold D; lra).
  assert (D - C == p + q - (1 + 1) * c)%Q as EDC by (unfold C, D; ring).
  assert (0 <= D - C)%Q by (rewrite EDC; lra).
  assert (0 <= B - A)%Q by (rewrite EBA; lra).
  assert (0 <= (B - A) * D)%Q as P1 by (apply Qmult_le_0_compat; lra).
  assert (0 <= A * (D - C))%Q as P2 by (apply Qmult_le_0_compat; lra).
  assert ((B - A) * D + A * (D - C) == 0)%Q as E0.
  { transitivity (B * D - A * C)%Q; [ring|]. rewrite E'. ring. }
  assert ((B - A) * D == 0)%Q as Z1 by lra.
  assert (A * (D - C) == 0)%Q as Z2 by lra.
  apply Qmult_integral in Z1 as [Z1|Z1]; [|lra].
  apply Qmult_integral in Z2 as [Z2|Z2]; [lra|].
  split; [|lra].
  rewrite EBA in Z1. apply Qmult_integral in Z1. lra.
Qed.

Lemma Fin_inj (a b : Qc) : Fin a = Fin b -> a = b.
Proof.
  intros H. exact (f_equal (fun t => match t with Fin q => q | Undef => a end) H).
Qed.

Lemma sumQ_zero g lo n :
  (forall i, (0 <= g i)%Qc) -> sumQ g lo n = 0%Qc ->
  forall i, lo <= i < lo + n -> g i = 0%Qc.
Proof.
  intros Hg E i Hi.
  assert (i ∈ seqZ lo n) as Hin by (apply elem_of_seqZ; lia).
  revert E Hin. unfold sumQ.
  induction (seqZ lo n) as [|v l IH]; csimpl; intros E Hin.
  - by apply elem_of_nil in Hin.
  - pose proof (Hg v) as Hv.
    assert (0 <= foldr Qcplus 0 (g <$> l))%Qc as Hl.
    { clear -Hg. induction l as [|u l IH]; csimpl; [done|].
      by apply Qcplus_nonneg_nonneg. }
    assert (g v = 0 /\ foldr Qcplus 0 (g <$> l) = 0)%Qc as [Ev El].
    { revert E Hv Hl. generalize (g v) (foldr Qcplus 0%Qc (g <$> l)).
      intros a b E Ha Hb.
      assert (this (a + b)%Qc == 0)%Q as E' by (by rewrite E).
      split; apply Qc_is_canon; qc2q; lra. }
    apply elem_of_cons in Hin as [->|Hin]; [done|]. by apply IH.
Qed.

Lemma window_sum_zero (G : Z -> Z -> Qc) wx wy ws :
  (forall i j, (0 <= G i j)%Qc) -> window_sum G wx wy ws = 0%Qc ->
  forall i j, wx <= i < wx + ws -> wy <= j < wy + ws -> G i j = 0%Qc.
Proof.
  intros HG E i j Hi Hj. unfold window_sum in E.
  pose proof (sumQ_zero _ wy ws (fun j => sumQ_nonneg _ wx ws (fun i => HG i j))
                E j Hj) as Erow.
  by apply (sumQ_zero _ wx ws (fun i => HG i j) Erow i Hi).
Qed.

(** Two functions with equal means whose difference has variance 0 over a
    window agree on it. *)
Lemma window_equal f g wx wy ws :
  0 < ws ->
  direct_mean f wx wy ws = direct_mean g wx wy ws ->
  (direct_var f wx wy ws + direct_var g wx wy ws
   - 2 * direct_cov f g wx wy ws = 0)%Qc ->
  forall i j, wx <= i < wx + ws -> wy <= j < wy + ws -> f i j = g i j.
Proof.
  intros Hws Em E i j Hi Hj.
  replace (direct_var f wx wy ws + direct_var g wx wy ws
           - 2 * direct_cov f g wx wy ws)%Qc
    with (direct_var f wx wy ws + direct_var g wx wy ws
          + (- (2)) * direct_cov f g wx wy ws)%Qc in E by ring.
  rewrite direct_var_cov_combine in E by done.
  pose proof (window_size_pos ws Hws) as Hn%Qclt_not_eq.
  apply (f_equal (fun t => t * Qc_of_Z (ws * ws))%Qc) in E.
  rewrite Qcmult_0_l in E. unfold Qcdiv in E.
  rewrite <- Qcmult_assoc, (Qcmult_comm (/ _)), Qcmult_inv_r, Qcmult_1_r in E
    by auto.
  rewrite <- Em in E.
  set (m := direct_mean f wx wy ws) in *.
  rewrite (window_sum_ext _ (fun i j =>
    (Qc_of_Z (f i j) - Qc_of_Z (g i j)) * (Qc_of_Z (f i j) - Qc_of_Z (g i j)))%Qc)
    in E by (intros; ring).
  pose proof (window_sum_zero _ wx wy ws
    (fun i j => Qc_square_nonneg (Qc_of_Z (f i j) - Qc_of_Z (g i j))) E i j Hi Hj)
    as Esq.
  apply Qcmult_integral in Esq.
  assert (Qc_of_Z (f i j) - Qc_of_Z (g i j) = 0)%Qc as E0 by (by destruct Esq).
  apply Z2Qc_inj. rewrite <- (Qcplus_0_l (Qc_of_Z (g i j))), <- E0. ring.
Qed.

Lemma total_all_ones (vals : list xnum) :
  Forall in_unit_range vals ->
  @total exact vals = Fin (Qc_of_Z (Z.of_nat (length vals))) ->
  Forall (eq (Fin 1%Qc)) vals.
Proof.
  induction vals as [|v vals IH] using rev_ind; [done|].
  intros [Hvals Hv]%Forall_app. rewrite Forall_singleton in Hv.
  destruct (total_in_range vals Hvals) as (S & ES & _ & Hhi).
  destruct Hv as (q & -> & _ & Hq).
  rewrite (total_snoc (N:=exact)), ES. exact_ops.
  rewrite length_app, Nat2Z.inj_add, Z2Qc_inj_add.
  change (Z.of_nat (length [Fin q])) with 1. rewrite Z2Qc_inj_1.
  intros E%Fin_inj.
  set (n := Qc_of_Z (Z.of_nat (length vals))) in *.
  assert (this (S + q)%Qc == this (n + 1)%Qc)%Q as E' by (by rewrite E).
  assert (S = n /\ q = 1%Qc) as [-> ->].
  { clearbody n. split; apply Qc_is_canon; qc2q; lra. }
  apply Forall_app. split; [by apply IH|]. by apply Forall_singleton.
Qed.

(** A mean of values in [[-1, 1]] is 1 only if each of them is 1. *)
Lemma arithmetic_mean_one (vals : list xnum) :
  vals <> [] -> Forall in_unit_range vals ->
  @arithmetic_mean exact vals = Fin 1%Qc ->
  Forall (eq (Fin 1%Qc)) vals.
Proof.
  intros Hne Hvals E. apply total_all_ones; [done|].
  destruct (total_in_range vals Hvals) as (S & ES & _).
  unfold arithmetic_mean in E. rewrite ES in *.
  assert (Z.of_nat (length vals) <> 0) as Hn by (destruct vals; simpl; [done|lia]).
  exact_ops. rewrite xdiv_of_Z in E by done. apply Fin_inj in E. f_equal.
  pose proof (Qc_of_Z_nonzero _ Hn) as Hn'.
  apply (f_equal (fun t => t * Qc_of_Z (Z.of_nat (length vals)))%Qc) in E.
  rewrite Qcmult_1_l in E. rewrite <- E. field. done.
Qed.

Lemma ssim_values_elem {N : Number} (P : num -> Prop) img1 img2 w h
    (options : option (SsimGreyOptions N)) wy wx :
  Forall P (ssim_values img1 img2 w h options) ->
  0 <= wy < h - ws_of options + 1 -> 0 <= wx < w - ws_of options + 1 ->
  P (call_val img1 img2 w h options wy wx).
Proof.
  intros H Hwy Hwx. rewrite Forall_forall in H. apply H.
  apply list_elem_of_In. unfold ssim_values, window_values.
  apply list_elem_of_fmap. exists (wy, wx). split; [done|].
  by apply elem_of_window_corners.
Qed.

(** A window of value 1 holds the same samples in both images. *)
Lemma call_val_one_equal img1 img2 w h options wy wx :
  length img1 = Z.to_nat (w * h) -> length img2 = Z.to_nat (w * h) ->
  Forall (Z.le 0) img1 -> Forall (Z.le 0) img2 ->
  0 < ws_of options ->
  strictly_positive (@k1_of exact options) -> strictly_positive (@k2_of exact options) ->
  dynamic_range (bitDepth_of options) <> 0 ->
  0 <= wy < h - ws_of options + 1 -> 0 <= wx < w - ws_of options + 1 ->
  @call_val exact img1 img2 w h options wy wx = Fin 1%Qc ->
  forall i j, wx <= i < wx + ws_of options -> wy <= j < wy + ws_of options ->
    pixel img1 w i j = pixel img2 w i j.
Proof.
  intros H1 H2 P1 P2 Hws Hk1 Hk2 HL Hwy Hwx.
  destruct (window_in_range _ _ _ _ _ Hwy Hwx) as (? & ? & ? & ?).
  destruct (stability_positive _ _ Hk1 HL) as (q1 & E1 & Hq1).
  destruct (stability_positive _ _ Hk2 HL) as (q2 & E2 & Hq2).
  unfold call_val, window_val, c1_of, c2_of.
  rewrite E1, E2, window_stats_exact by done. unfold direct_stats.
  rewrite ssim_num_exact, ssim_den_exact.
  set (f := pixel img1 w). set (g := pixel img2 w). set (ws := ws_of options) in *.
  pose proof (Qcmult_nonneg_nonneg _ _
       (direct_mean_nonneg _ wx wy _ Hws (fun i j => pixel_nonneg img1 w i j P1))
       (direct_mean_nonneg _ wx wy _ Hws (fun i j => pixel_nonneg img2 w i j P2)))
    as Hm.
  pose proof (direct_var_cov_minus f g wx wy _ Hws) as Hminus.
  pose proof (direct_var_cov_plus f g wx wy _ Hws) as Hplus.
  destruct (ssim_bound _ _ _ _ _ q1 q2 Hm Hminus Hplus Hq1 Hq2) as (Hd & _ & _).
  exact_ops. rewrite xdiv_pos by done. intros E%Fin_inj.
  apply (f_equal (fun t => t * ((direct_mean f wx wy ws * direct_mean f wx wy ws
            + direct_mean g wx wy ws * direct_mean g wx wy ws + q1)
           * (direct_var f wx wy ws + direct_var g wx wy ws + q2)))%Qc) in E.
  unfold Qcdiv in E.
  rewrite <- Qcmult_assoc, (Qcmult_comm (/ _)), Qcmult_inv_r, Qcmult_1_r,
    Qcmult_1_l in E by (by apply Qclt_not_eq, not_eq_sym in Hd).
  destruct (ssim_one _ _ _ _ _ q1 q2 Hm Hminus Hplus Hq1 Hq2 E) as [Em Ev].
  by apply window_equal.
Qed.

(** Images of [w * h] samples that agree pixel by pixel are the same list. *)
Lemma images_equal (img1 img2 : list Z) (w h : Z) :
  0 < w ->
  length img1 = Z.to_nat (w * h) -> length img2 = Z.to_nat (w * h) ->
  (forall x y, 0 <= x < w -> 0 <= y < h -> pixel img1 w x y = pixel img2 w x y) ->
  img1 = img2.
Proof.
  intros Hw H1 H2 H. apply list_eq. intros i.
  destruct (decide (i < length img1)%nat) as [Hi|Hi].
  - destruct (lookup_lt_is_Some_2 img1 i Hi) as [a Ea].
    destruct (lookup_lt_is_Some_2 img2 i ltac:(lia)) as [b Eb].
    rewrite Ea, Eb. f_equal.
    pose proof (Z.div_mod (Z.of_nat i) w ltac:(lia)) as Ediv.
    pose proof (Z.mod_pos_bound (Z.of_nat i) w Hw) as Hmod.
    assert (0 <= Z.of_nat i / w < h) as Hquot.
    { split; [apply Z.div_pos; lia|]. apply Z.div_lt_upper_bound; nia. }
    specialize (H (Z.of_nat i mod w) (Z.of_nat i / w) Hmod Hquot).
    unfold pixel in H.
    replace (Z.of_nat i / w * w + Z.of_nat i mod w) with (Z.of_nat i) in H by lia.
    by rewrite Nat2Z.id, Ea, Eb in H.
  - by rewrite !lookup_ge_None_2 by lia.
Qed.

(** X6.  With at least one window, the score is 1 only for identical
    images: for images of [w * h] non-negative samples, [ssimGrey] returns
    1 if and only if the two buffers are equal (exact reading). *)
Theorem ssimGrey_one_iff_equal img1 img2 w h options :
  length img1 = Z.to_nat (w * h) -> length img2 = Z.to_nat (w * h) ->
  Forall (Z.le 0) img1 -> Forall (Z.le 0) img2 ->
  0 < ws_of options <= w -> ws_of options <= h ->
  strictly_positive (@k1_of exact options) ->
  strictly_positive (@k2_of exact options) ->
  dynamic_range (bitDepth_of options) <> 0 ->
  @ssimGrey exact img1 img2 w h options = Return (of_Z 1) <-> img1 = img2.
Proof.
  intros H1 H2 P1 P2 Hws Hh Hk1 Hk2 HL.
  rewrite ssimGrey_exact_mean by nia. cbn [of_Z exact]. rewrite Z2Qc_inj_1.
  destruct (ssim_values_nonempty (N:=exact) img1 img2 w h options) as [_ Hne];
    [lia..|].
  split.
  - intros E%(f_equal (fun o => match o with Return v => v | RangeError => Undef end)).
    apply (images_equal img1 img2 w h); [lia|done..|].
    intros x y Hx Hy.
    assert (Forall in_unit_range (ssim_values img1 img2 w h options)) as Hr.
    { apply (ssim_values_Forall (N:=exact)). intros wy wx Hwy Hwx.
      apply call_val_in_range; (done || lia). }
    pose proof (arithmetic_mean_one _ Hne Hr E) as Hones.
    set (wx := Z.min x (w - ws_of options)).
    set (wy := Z.min y (h - ws_of options)).
    assert (0 <= wy < h - ws_of options + 1) as Hwy by lia.
    assert (0 <= wx < w - ws_of options + 1) as Hwx by lia.
    pose proof (ssim_values_elem (N:=exact) _ _ _ _ _ _ wy wx Hones Hwy Hwx) as E1.
    symmetry in E1.
    apply (call_val_one_equal img1 img2 w h options wy wx); (done || lia).
  - intros <-. f_equal. apply arithmetic_mean_ones; [done|].
    apply (ssim_values_Forall (N:=exact)). intros wy wx Hwy Hwx.
    symmetry. apply call_val_identity; (done || lia).
Qed.

Lemma ssimGrey_one_iff_equal_witness :
  @ssimGrey exact imgA imgB 2 2 (with_window 2) = Return (of_Z 1) <-> imgA = imgB.
Proof.
  apply (ssimGrey_one_iff_equal imgA imgB 2 2 (with_window 2)).
  - reflexivity.
  - reflexivity.
  - apply nonneg_imgA.
  - apply nonneg_imgB.
  - change (@ws_of exact (with_window 2)) with 2. lia.
  - change (@ws_of exact (with_window 2)) with 2. lia.
  - apply positive_default_k1.
  - apply positive_default_k2.
  - by vm_compute.
Defined.

(** ** The dynamic range for every bit depth *)

Lemma shl32_one (k : Z) :
  0 <= k <= 31 -> shl32 1 k = if k =? 31 then - 2 ^ 31 else 2 ^ k.
Proof.
  intros Hk. unfold shl32. change (to_int32 1) with 1.
  rewrite Z.mod_small by lia. rewrite Z.shiftl_1_l.
  destruct (Z.eqb_spec k 31) as [->|Hne]; [done|].
  unfold to_int32.
  assert (0 < 2 ^ k <= 2 ^ 30) as Hp.
  { split; [apply Z.pow_pos_nonneg; lia|apply Z.pow_le_mono_r; lia]. }
  rewrite Z.mod_small; lia.
Qed.

(** X11.  The dynamic range that the program computes, for every integer
    [bitDepth]: the shift count is taken modulo 32, so that [L] is
    [2^(bitDepth mod 32) - 1], except that a count of 31 gives
    [-2^31 - 1]; [bitDepth] and [bitDepth + 32] give the same [L]. *)
Theorem dynamic_range_law (b : Z) :
  dynamic_range b
  = (if b mod 32 =? 31 then - 2 ^ 31 - 1 else 2 ^ (b mod 32) - 1) /\
  dynamic_range (b + 32) = dynamic_range b.
Proof.
  assert (forall b, shl32 1 b = shl32 1 (b mod 32)) as Hmod.
  { intros b'. unfold shl32. by rewrite Z.mod_mod by lia. }
  pose proof (Z.mod_pos_bound b 32 ltac:(lia)) as Hk.
  split.
  - unfold dynamic_range. rewrite Hmod, shl32_one by lia.
    by destruct (b mod 32 =? 31).
  - unfold dynamic_range. rewrite (Hmod (b + 32)), (Hmod b).
    replace (b + 32) with (b + 1 * 32) by lia. by rewrite Z.mod_add by lia.
Qed.

(** ** The score stays above [-1] (exact reading) *)

Lemma ssim_above (mX mY vX vY cov c1 c2 : Qc) :
  (0 <= mX * mY ->
   0 <= vX + vY - 2 * cov -> 0 <= vX + vY + 2 * cov ->
   0 < c1 -> 0 < c2 ->
   let n := (2 * mX * mY + c1) * (2 * cov + c2) in
   let d := (mX * mX + mY * mY + c1) * (vX + vY + c2) in
   0 < d /\ - d < n)%Qc.
Proof.
  intros H1 H3 H4 H5 H6 n d. subst n d. qc2q.
  set (a := this mX) in *. set (b := this mY) in *.
  set (p := this vX) in *. set (q := this vY) in *.
  set (c := this cov) in *. set (d1 := this c1) in *. set (d2 := this c2) in *.
  clearbody a b p q c d1 d2.
  assert (0 <= a * a)%Q by nra.
  assert (0 <= b * b)%Q by nra.
  assert (0 <= (a - b) * (a - b))%Q by (generalize (a - b)%Q; intros t; nra).
  set (A := ((1 + 1) * a * b + d1)%Q). set (B := (a * a + b * b + d1)%Q).
  set (C := ((1 + 1) * c + d2)%Q). set (D := (p + q + d2)%Q).
  assert (0 < A)%Q by (unfold A; lra).
  assert (A <= B)%Q by (unfold A, B; lra).
  assert (0 < D)%Q by (unfold D; lra).
  assert (0 < D + C)%Q by (unfold C, D; lra).
  clearbody A B C D.
  assert (0 <= (B - A) * D)%Q by (apply Qmult_le_0_compat; lra).
  assert (0 < A * (D + C))%Q by (apply Qmult_lt_0_compat; lra).
  assert (0 < B * D)%Q by (apply Qmult_lt_0_compat; lra).
  split; lra.
Qed.

Lemma Qc_ratio_above (n d : Qc) : (0 < d -> - d < n -> -1 < n / d)%Qc.
Proof.
  intros Hd Hlo. pose proof (Qcinv_pos d Hd) as Hi.
  assert (d * / d = 1)%Qc as E by (apply Qcmult_inv_r; by apply Qclt_not_eq in Hd).
  unfold Qcdiv. revert Hi E. generalize (/ d)%Qc. intros t Hi E.
  assert (this d * this t == 1)%Q as E'
    by (rewrite <- this_mult, E; reflexivity).
  clear E. qc2q.
  change (this (-1)%Qc) with (-1)%Q.
  set (a := this n) in *. set (b := this d) in *. set (c := this t) in *.
  clearbody a b c.
  assert (0 < (b + a) * c)%Q by (apply Qmult_lt_0_compat; lra).
  lra.
Qed.

Lemma call_val_above img1 img2 w h options wy wx :
  length img1 = Z.to_nat (w * h) -> length img2 = Z.to_nat (w * h) ->
  Forall (Z.le 0) img1 -> Forall (Z.le 0) img2 ->
  0 < ws_of options ->
  strictly_positive (@k1_of exact options) -> strictly_positive (@k2_of exact options) ->
  dynamic_range (bitDepth_of options) <> 0 ->
  0 <= wy < h - ws_of options + 1 -> 0 <= wx < w - ws_of options + 1 ->
  above_minus_one (@call_val exact img1 img2 w h options wy wx).
Proof.
  intros H1 H2 P1 P2 Hws Hk1 Hk2 HL Hwy Hwx.
  destruct (window_in_range _ _ _ _ _ Hwy Hwx) as (? & ? & ? & ?).
  destruct (stability_positive _ _ Hk1 HL) as (q1 & E1 & Hq1).
  destruct (stability_positive _ _ Hk2 HL) as (q2 & E2 & Hq2).
  unfold call_val, window_val, c1_of, c2_of.
  rewrite E1, E2, window_stats_exact by done. unfold direct_stats.
  rewrite ssim_num_exact, ssim_den_exact.
  destruct (ssim_above
    (direct_mean (pixel img1 w) wx wy (ws_of options))
    (direct_mean (pixel img2 w) wx wy (ws_of options)) _ _ _ q1 q2
    (Qcmult_nonneg_nonneg _ _
       (direct_mean_nonneg _ wx wy _ Hws (fun i j => pixel_nonneg img1 w i j P1))
       (direct_mean_nonneg _ wx wy _ Hws (fun i j => pixel_nonneg img2 w i j P2)))
    (direct_var_cov_minus (pixel img1 w) (pixel img2 w) wx wy _ Hws)
    (direct_var_cov_plus (pixel img1 w) (pixel img2 w) wx wy _ Hws) Hq1 Hq2)
    as (Hd & Hlo).
  exact_ops. rewrite xdiv_pos by done. eexists. split; [done|].
  by apply Qc_ratio_above.
Qed.

Lemma total_above (vals : list xnum) :
  vals <> [] -> Forall above_minus_one vals ->
  exists S, @total exact vals = Fin S /\
    (- Qc_of_Z (Z.of_nat (length vals)) < S)%Qc.
Proof.
  induction vals as [|v vals IH] using rev_ind; [done|].
  intros _ [Hvals Hv]%Forall_app. rewrite Forall_singleton in Hv.
  destruct Hv as (q & -> & Hq).
  rewrite (total_snoc (N:=exact)), length_app, Nat2Z.inj_add, Z2Qc_inj_add.
  change (Z.of_nat (length [Fin q])) with 1. rewrite Z2Qc_inj_1.
  destruct (decide (vals = [])) as [->|Hne].
  - change (@total exact []) with (Fin (Qc_of_Z 0)). exact_ops.
    eexists. split; [done|]. cbn [length]. change (Z.of_nat 0) with 0.
    rewrite Z2Qc_inj_0. change (this (-1)%Qc) with (-1)%Q in *.
    qc2q. change (this (-1)%Qc) with (-1)%Q in *. lra.
  - destruct (IH Hne Hvals) as (S & -> & HS). exact_ops.
    eexists. split; [done|].
    set (n := Qc_of_Z (Z.of_nat (length vals))) in *. clearbody n.
    change (this (-1)%Qc) with (-1)%Q in *.
    qc2q. change (this (-1)%Qc) with (-1)%Q in *. lra.
Qed.

Lemma arithmetic_mean_above (vals : list xnum) :
  vals <> [] -> Forall above_minus_one vals ->
  above_minus_one (@arithmetic_mean exact vals).
Proof.
  intros Hne Hvals. destruct (total_above vals Hne Hvals) as (S & ES & Hlo).
  unfold arithmetic_mean. rewrite ES.
  assert (0 < Z.of_nat (length vals)) as Hn by (destruct vals; simpl; [done|lia]).
  apply Z2Qc_inj_lt in Hn. rewrite Z2Qc_inj_0 in Hn.
  exact_ops. rewrite xdiv_pos by done. eexists. split; [done|].
  by apply Qc_ratio_above.
Qed.

(** X12.  The score never reaches -1: for images of [w * h] non-negative
    samples, a positive window size, positive [k1] and [k2] and a non-zero
    dynamic range, [ssimGrey] returns a number strictly above -1 (exact
    reading). *)
Theorem ssimGrey_above_minus_one img1 img2 w h options :
  0 < w -> 0 < h ->
  length img1 = Z.to_nat (w * h) -> length img2 = Z.to_nat (w * h) ->
  Forall (Z.le 0) img1 -> Forall (Z.le 0) img2 ->
  0 < ws_of options ->
  strictly_positive (@k1_of exact options) ->
  strictly_positive (@k2_of exact options) ->
  dynamic_range (bitDepth_of options) <> 0 ->
  exists q, @ssimGrey exact img1 img2 w h options = Return (Fin q) /\ (-1 < q)%Qc.
Proof.
  intros Hw Hh H1 H2 P1 P2 Hws Hk1 Hk2 HL.
  destruct (decide (w - ws_of options + 1 <= 0 \/ h - ws_of options + 1 <= 0))
    as [Hdeg|Hwin].
  - rewrite ssimGrey_guard by (by apply degenerate_guard).
    exists 1%Qc. split; [by rewrite <- Z2Qc_inj_1|done].
  - rewrite ssimGrey_exact_mean by nia.
    destruct (arithmetic_mean_above (ssim_values img1 img2 w h options))
      as (q & E & Hq).
    + apply (ssim_values_nonempty (N:=exact)); lia.
    + apply (ssim_values_Forall (N:=exact)). intros wy wx Hwy Hwx.
      by apply call_val_above.
    + exists q. by rewrite E.
Qed.

Lemma ssimGrey_above_minus_one_witness :
  exists q, @ssimGrey exact imgA imgB 2 2 (with_window 2) = Return (Fin q) /\
            (-1 < q)%Qc.
Proof.
  apply (ssimGrey_above_minus_one imgA imgB 2 2 (with_window 2)).
  - lia.
  - lia.
  - reflexivity.
  - reflexivity.
  - apply nonneg_imgA.
  - apply nonneg_imgB.
  - change (@ws_of exact (with_window 2)) with 2. lia.
  - apply positive_default_k1.
  - apply positive_default_k2.
  - by vm_compute.
Defined.

(** ** Both images turned by 180 degrees (exact reading) *)

(** The sum of a list of numbers does not depend on their order. *)
Lemma foldl_add_perm (l k : list xnum) :
  l ≡ₚ k -> forall a, foldl (@add exact) a l = foldl (@add exact) a k.
Proof.
  induction 1 as [|x l k _ IH|x y l|l1 l2 l3 _ IH1 _ IH2]; intros a; simpl.
  - done.
  - apply IH.
  - f_equal. destruct a, x, y; cbn; try done. f_equal. ring.
  - by rewrite IH1.
Qed.

Lemma arithmetic_mean_perm (l k : list xnum) :
  l ≡ₚ k -> @arithmetic_mean exact l = @arithmetic_mean exact k.
Proof.
  intros H. unfold arithmetic_mean, total.
  rewrite (foldl_add_perm l k H). do 3 f_equal. apply (Permutation_length H).
Qed.

Lemma pixel_reverse (img : list Z) (w h x y : Z) :
  length img = Z.to_nat (w * h) -> 0 <= x < w -> 0 <= y < h ->
  pixel (reverse img) w x y = pixel img w (w - 1 - x) (h - 1 - y).
Proof.
  intros Hlen Hx Hy. unfold pixel.
  rewrite reverse_lookup by (rewrite Hlen; nia). do 2 f_equal. rewrite Hlen. nia.
Qed.

Lemma sumQ_snoc g lo n :
  0 <= n -> sumQ g lo (n + 1) = (sumQ g lo n + g (lo + n)%Z)%Qc.
Proof.
  intros Hn. unfold sumQ. rewrite seqZ_app, fmap_app, foldr_app by lia.
  rewrite (seqZ_cons (lo + n)), (seqZ_nil (Z.succ (lo + n))) by lia. csimpl.
  generalize (g (lo + n)). intros t.
  induction (seqZ lo n) as [|v l IH]; csimpl; [ring|].
  rewrite IH. ring.
Qed.

Lemma sumQ_cons g lo n :
  0 <= n -> sumQ g lo (n + 1) = (g lo + sumQ g (lo + 1)%Z n)%Qc.
Proof.
  intros Hn. unfold sumQ. rewrite seqZ_cons by lia. csimpl.
  by replace (Z.pred (n + 1)) with n by lia.
Qed.

(** A sum taken in the opposite direction. *)
Lemma sumQ_reverse g (a : Z) lo n :
  0 <= n -> sumQ (fun i => g (a - i)) lo n = sumQ g (a - lo - n + 1) n.
Proof.
  intros Hn. pattern n. apply natlike_ind; [| |done].
  - done.
  - intros k Hk IH. rewrite <- Z.add_1_r.
    rewrite sumQ_snoc, IH by done.
    replace (a - lo - (k + 1) + 1) with (a - lo - k) by lia.
    rewrite sumQ_cons by done.
    replace (a - lo - k + 1) with (a - lo - k + 1) by lia.
    replace (a - (lo + k)) with (a - lo - k) by lia. ring.
Qed.

Lemma window_sum_reverse (G : Z -> Z -> Qc) (a b : Z) wx wy ws :
  0 <= ws ->
  window_sum (fun i j => G (a - i) (b - j)) wx wy ws
  = window_sum G (a - wx - ws + 1) (b - wy - ws + 1) ws.
Proof.
  intros Hws. unfold window_sum.
  rewrite (sumQ_ext _ (fun j => sumQ (fun i => G i (b - j)) (a - wx - ws + 1) ws))
    by (intros j _; by rewrite (sumQ_reverse (fun i => G i (b - j)))).
  by rewrite (sumQ_reverse (fun j => sumQ (fun i => G i j) (a - wx - ws + 1) ws)).
Qed.

(** Over a window inside the image, the turned image has the statistics
    of the original over the opposite window. *)
Lemma window_sum_turned (F F' : Z -> Z -> Qc) (w h : Z) wx wy ws :
  0 <= ws -> 0 <= wx -> wx + ws <= w -> 0 <= wy -> wy + ws <= h ->
  (forall i j, 0 <= i < w -> 0 <= j < h -> F' i j = F (w - 1 - i) (h - 1 - j)) ->
  window_sum F' wx wy ws = window_sum F (w - ws - wx) (h - ws - wy) ws.
Proof.
  intros Hws Hx Hw Hy Hh HF.
  rewrite (window_sum_ext F' (fun i j => F (w - 1 - i) (h - 1 - j)))
    by (intros i j Hi Hj; apply HF; lia).
  rewrite (window_sum_reverse F (w - 1) (h - 1)) by done.
  f_equal; lia.
Qed.

Lemma direct_stats_turned img1 img2 w h wx wy ws :
  length img1 = Z.to_nat (w * h) -> length img2 = Z.to_nat (w * h) ->
  0 < ws -> 0 <= wx -> wx + ws <= w -> 0 <= wy -> wy + ws <= h ->
  direct_stats (reverse img1) (reverse img2) w wx wy ws
  = direct_stats img1 img2 w (w - ws - wx) (h - ws - wy) ws.
Proof.
  intros H1 H2 Hws Hx Hw Hy Hh.
  assert (forall img, length img = Z.to_nat (w * h) ->
            direct_mean (pixel (reverse img) w) wx wy ws
            = direct_mean (pixel img w) (w - ws - wx) (h - ws - wy) ws) as Hmean.
  { intros img Hl. unfold direct_mean. f_equal.
    apply (window_sum_turned _ _ w h); try lia.
    intros i j Hi Hj. by rewrite (pixel_reverse img w h). }
  assert (forall imga imgb,
            length imga = Z.to_nat (w * h) -> length imgb = Z.to_nat (w * h) ->
            direct_cov (pixel (reverse imga) w) (pixel (reverse imgb) w) wx wy ws
            = direct_cov (pixel imga w) (pixel imgb w)
                (w - ws - wx) (h - ws - wy) ws) as Hcov.
  { intros imga imgb Ha Hb. unfold direct_cov. rewrite !Hmean by done. f_equal.
    apply (window_sum_turned
             (fun i j => (Qc_of_Z (pixel imga w i j)
                          - direct_mean (pixel imga w) (w - ws - wx) (h - ws - wy) ws)
                         * (Qc_of_Z (pixel imgb w i j)
                            - direct_mean (pixel imgb w) (w - ws - wx) (h - ws - wy) ws))%Qc
             _ w h); try lia.
    intros i j Hi Hj.
    by rewrite (pixel_reverse imga w h), (pixel_reverse imgb w h). }
  unfold direct_stats, direct_var. by rewrite !Hmean, !Hcov.
Qed.

Lemma call_val_turned img1 img2 w h options wy wx :
  length img1 = Z.to_nat (w * h) -> length img2 = Z.to_nat (w * h) ->
  0 < ws_of options ->
  0 <= wy < h - ws_of options + 1 -> 0 <= wx < w - ws_of options + 1 ->
  @call_val exact (reverse img1) (reverse img2) w h options wy wx
  = @call_val exact img1 img2 w h options
      (h - ws_of options - wy) (w - ws_of options - wx).
Proof.
  intros H1 H2 Hws Hwy Hwx. unfold call_val, window_val.
  rewrite (window_stats_exact (reverse img1) (reverse img2) w h),
    (window_stats_exact img1 img2 w h)
    by (rewrite ?length_reverse; done || lia).
  by rewrite (direct_stats_turned img1 img2 w h) by (done || lia).
Qed.

Lemma turned_corners (winW winH : Z) :
  turned winW winH <$> window_corners winW winH ≡ₚ window_corners winW winH.
Proof.
  assert (NoDup (window_corners winW winH)) as Hnd.
  { unfold window_corners. apply NoDup_bind.
    - intros y1 y2 [y x] _ _ (? & [= -> _] & _)%list_elem_of_fmap
        (? & [= -> _] & _)%list_elem_of_fmap. done.
    - intros y _. apply NoDup_fmap_2; [|apply NoDup_seqZ]. by intros ? ? [= ->].
    - apply NoDup_seqZ. }
  apply NoDup_Permutation; [|done|].
  - apply NoDup_fmap_2; [|done].
    intros [y1 x1] [y2 x2] [= ? ?]. simpl in *. f_equal; lia.
  - intros [y x]. rewrite list_elem_of_fmap. split.
    + intros ([y' x'] & [= -> ->] & Hin). simpl.
      apply elem_of_window_corners in Hin. apply elem_of_window_corners. lia.
    + intros Hin. apply elem_of_window_corners in Hin.
      exists (winH - 1 - y, winW - 1 - x). split.
      * unfold turned. simpl. f_equal; lia.
      * apply elem_of_window_corners. lia.
Qed.

Lemma ssim_values_turned img1 img2 w h options :
  length img1 = Z.to_nat (w * h) -> length img2 = Z.to_nat (w * h) ->
  0 < ws_of options ->
  @ssim_values exact (reverse img1) (reverse img2) w h options
  ≡ₚ @ssim_values exact img1 img2 w h options.
Proof.
  intros H1 H2 Hws.
  set (winW := w - ws_of options + 1). set (winH := h - ws_of options + 1).
  transitivity
    ((fun p => @call_val exact img1 img2 w h options p.1 p.2)
       <$> (turned winW winH <$> window_corners winW winH)).
  - unfold ssim_values, window_values. fold winW winH.
    rewrite <- list_fmap_compose.
    match goal with |- ?l ≡ₚ ?r => assert (l = r) as ->; [|done] end.
    apply list_fmap_ext.
    intros i [wy wx] Hin%list_elem_of_lookup_2.
    apply elem_of_window_corners in Hin. unfold compose, turned. cbn [fst snd].
    change (window_val (build_sats (reverse img1) (reverse img2) w h) (w + 1)
              (ws_of options) (c1_of options) (c2_of options) wy wx)
      with (@call_val exact (reverse img1) (reverse img2) w h options wy wx).
    rewrite call_val_turned by (done || (unfold winW, winH in Hin; lia)).
    unfold winW, winH. f_equal; lia.
  - unfold ssim_values, window_values. fold winW winH.
    by rewrite turned_corners.
Qed.

(** X13.  Turning both images by 180 degrees, that is reversing both
    buffers, does not change the score: every window of the turned pair
    has the statistics of the opposite window of the original pair, and
    the mean of the window values does not depend on their order (exact
    reading). *)
Theorem ssimGrey_half_turn img1 img2 w h options :
  0 < w -> 0 < h ->
  length img1 = Z.to_nat (w * h) -> length img2 = Z.to_nat (w * h) ->
  0 < ws_of options ->
  @ssimGrey exact (reverse img1) (reverse img2) w h options
  = @ssimGrey exact img1 img2 w h options.
Proof.
  intros Hw Hh H1 H2 Hws.
  destruct (decide (w - ws_of options + 1 <= 0 \/ h - ws_of options + 1 <= 0))
    as [Hdeg|Hwin].
  - by rewrite !ssimGrey_guard by (by apply degenerate_guard).
  - rewrite !ssimGrey_exact_mean by nia. f_equal.
    apply arithmetic_mean_perm. by apply ssim_values_turned.
Qed.

Lemma ssimGrey_half_turn_witness :
  @ssimGrey exact (reverse imgC) (reverse imgD) 3 3 (with_window 2)
  = @ssimGrey exact imgC imgD 3 3 (with_window 2).
Proof.
  apply (ssimGrey_half_turn imgC imgD 3 3 (with_window 2));
    (reflexivity || lia).
Defined.

(** ** Double precision: integers below [2^53] *)

Lemma Zpos_iter_xO (p d : positive) :
  Z.pos (Pos.iter xO p d) = Z.pos p * 2 ^ Z.pos d.
Proof.
  induction d as [|d IH] using Pos.peano_ind.
  - simpl. lia.
  - rewrite Pos.iter_succ, Pos2Z.inj_xO, IH, Pos2Z.inj_succ, Z.pow_succ_r by lia.
    lia.
Qed.

Lemma Zpos_Nat_iter_xO (k : nat) (m : positive) :
  Z.pos (Nat.iter k xO m) = Z.pos m * 2 ^ Z.of_nat k.
Proof.
  induction k as [|k IH]; [simpl; lia|].
  change (Nat.iter (S k) xO m) with (xO (Nat.iter k xO m)).
  rewrite Pos2Z.inj_xO, IH, Nat2Z.inj_succ, Z.pow_succ_r by lia. lia.
Qed.

(** A positive number of [d] binary digits lies in [[2^(d-1), 2^d)]. *)
Lemma digits2_pos_bounds (p : positive) :
  2 ^ (Z.pos (digits2_pos p) - 1) <= Z.pos p < 2 ^ Z.pos (digits2_pos p).
Proof.
  rewrite digits2_pos_size. split.
  - pose proof (Pos.size_le p) as H. apply (Pos2Z.pos_le_pos _ _) in H.
    rewrite Pos2Z.inj_pow in H.
    replace (Z.pos (Pos.size p)) with (Z.succ (Z.pos (Pos.size p) - 1)) in H by lia.
    rewrite Z.pow_succ_r in H by lia. lia.
  - pose proof (Pos.size_gt p) as H. apply (Pos2Z.pos_lt_pos _ _) in H.
    by rewrite Pos2Z.inj_pow in H.
Qed.

Lemma digits2_pos_le (p : positive) (d : Z) :
  0 <= d -> Z.pos p < 2 ^ d -> Z.pos (digits2_pos p) <= d.
Proof.
  intros Hd Hp. apply Z.nlt_ge. intros Hlt.
  pose proof (digits2_pos_bounds p) as [Hlo _].
  assert (2 ^ d <= 2 ^ (Z.pos (digits2_pos p) - 1)) by (apply Z.pow_le_mono_r; lia).
  lia.
Qed.

(** A mantissa of 53 digits with exponent [e], reached from any finer
    exponent [E], is the rounding of the same value written at [E]. *)
Lemma binary_round_aux_exact (s : bool) (M m : positive) (E e : Z) :
  Z.pos (digits2_pos m) = 53 -> -1074 <= e <= 971 -> E <= e ->
  Z.pos M = Z.pos m * 2 ^ (e - E) ->
  binary_round_aux prec emax s (Z.pos M) E loc_Exact = S754_finite s m e.
Proof.
  intros Hd He HE HM.
  assert (M = Nat.iter (Z.to_nat (e - E)) xO m) as ->.
  { apply Pos2Z.inj. rewrite HM, Zpos_Nat_iter_xO, Z2Nat.id by lia. done. }
  rewrite binary_round_aux_shift by lia.
  rewrite Z2Nat.id by lia. replace (E + (e - E)) with e by lia.
  rewrite binary_round_aux_canonical by (unfold fexp, prec, emin, emax; lia).
  by destruct (Z.leb_spec e (emax - prec)); [|unfold emax, prec in *; lia].
Qed.

(** The same for [binary_round], which also aligns to the left. *)
Lemma binary_round_exact (s : bool) (M m : positive) (E e : Z) :
  Z.pos (digits2_pos m) = 53 -> -1074 <= e <= 971 ->
  (E <= e /\ Z.pos M = Z.pos m * 2 ^ (e - E)) \/
  (e < E /\ Z.pos m = Z.pos M * 2 ^ (E - e)) ->
  binary_round prec emax s M E = S754_finite s m e.
Proof.
  intros Hd He [[HE HM]|[HE HM]]; unfold binary_round.
  - assert (fexp prec emax (Z.pos (digits2_pos M) + E) = e) as ->.
    { assert (M = Nat.iter (Z.to_nat (e - E)) xO m) as ->.
      { apply Pos2Z.inj. rewrite HM, Zpos_Nat_iter_xO, Z2Nat.id by lia. done. }
      rewrite digits2_pos_shift, Z2Nat.id by lia.
      unfold fexp, prec, emin, emax. lia. }
    unfold shl_align. destruct (e - E) as [|q|q] eqn:Eq; try lia;
      apply binary_round_aux_exact; (done || lia || by rewrite ?Eq).
  - destruct (E - e) as [|q|q] eqn:Eq; try lia.
    assert (m = Pos.iter xO M q) as ->.
    { apply Pos2Z.inj. by rewrite HM, Zpos_iter_xO. }
    rewrite digits2_pos_iter_xO in Hd.
    assert (fexp prec emax (Z.pos (digits2_pos M) + E) = e) as ->
      by (unfold fexp, prec, emin, emax; lia).
    unfold shl_align. replace (e - E) with (Z.neg q) by lia.
    rewrite binary_round_aux_canonical
      by (rewrite digits2_pos_iter_xO; unfold fexp, prec, emin, emax; lia).
    by destruct (Z.leb_spec e (emax - prec)); [|unfold emax, prec in *; lia].
Qed.

(** The double of a positive integer below [2^53]: a mantissa of 53 digits
    and an exponent in [[-52, 0]], with either sign. *)
Lemma binary_round_int (n : positive) :
  Z.pos n < 2 ^ 53 ->
  exists m e,
    (forall s, binary_round prec emax s n 0 = S754_finite s m e) /\
    Z.pos (digits2_pos m) = 53 /\ -52 <= e <= 0 /\
    Z.pos m = Z.pos n * 2 ^ (- e).
Proof.
  intros Hn. pose proof (digits2_pos_le n 53 ltac:(lia) Hn) as Hd.
  destruct (Z.eq_dec (Z.pos (digits2_pos n)) 53) as [E53|Hne].
  - exists n, 0. repeat split; try lia.
    intros s. apply binary_round_exact; [done|lia|]. left. split; lia.
  - destruct (53 - Z.pos (digits2_pos n)) as [|q|q] eqn:Eq; try lia.
    exists (Pos.iter xO n q), (Z.neg q).
    pose proof (digits2_pos_iter_xO n q) as Hq.
    assert (Z.pos (digits2_pos (Pos.iter xO n q)) = 53) as H53 by lia.
    repeat split; try lia.
    + intros s. apply binary_round_exact; [done|lia|]. right. split; [lia|].
      by rewrite Zpos_iter_xO.
    + by rewrite Zpos_iter_xO.
Qed.

(** The double of an integer of magnitude below [2^53]: zero, or finite
    with the integer's sign and exactly its value. *)
Lemma SFint_cases (z : Z) :
  Z.abs z < 2 ^ 53 ->
  (z = 0 /\ SFint z = S754_zero false) \/
  (exists m e,
     z <> 0 /\ SFint z = S754_finite (z <? 0) m e /\
     Z.pos (digits2_pos m) = 53 /\ -52 <= e <= 0 /\
     Z.pos m = Z.abs z * 2 ^ (- e)).
Proof.
  intros Hz. destruct z as [|n|n]; [by left|right..].
  - destruct (binary_round_int n Hz) as (m & e & Hr & Hd & He & Hm).
    exists m, e. repeat split; try done; try lia. apply Hr.
  - destruct (binary_round_int n Hz) as (m & e & Hr & Hd & He & Hm).
    exists m, e. repeat split; try done; try lia. apply Hr.
Qed.

Lemma SFint_valid (z : Z) : Z.abs z < 2 ^ 53 -> valid_binary (SFint z) = true.
Proof.
  intros Hz. destruct (SFint_cases z Hz) as [[_ ->]|(m & e & _ & -> & Hd & He & _)];
    [done|].
  unfold valid_binary, SpecFloat.valid_binary, bounded, canonical_mantissa.
  apply andb_true_iff. split; [apply Z.eqb_eq|apply Z.leb_le].
  - unfold fexp, prec, emin, emax. lia.
  - unfold emax, prec. lia.
Qed.

Lemma Prim2SF_float_of_Z (z : Z) :
  Z.abs z < 2 ^ 53 -> Prim2SF (float_of_Z z) = SFint z.
Proof. intros Hz. apply Prim2SF_SF2Prim. by apply SFint_valid. Qed.

(** A value [z * 2^j], written with exponent [-j], is normalised to the
    double of [z]. *)
Lemma binary_normalize_int (z j : Z) :
  0 <= j -> Z.abs z < 2 ^ 53 ->
  binary_normalize prec emax (z * 2 ^ j) (- j) false = SFint z.
Proof.
  intros Hj Hz.
  assert (0 < 2 ^ j) as Hp by (by apply Z.pow_pos_nonneg).
  destruct (SFint_cases z Hz) as [[-> ->]|(m & e & Hz0 & -> & Hd & He & Hm)];
    [done|].
  assert (binary_round prec emax (z <? 0) (Z.to_pos (Z.abs z * 2 ^ j)) (- j)
          = S754_finite (z <? 0) m e) as Hr.
  { apply binary_round_exact; [done|lia|].
    rewrite Z2Pos.id by nia.
    destruct (Z_le_gt_dec (- j) e) as [Hle|Hgt]; [left|right]; (split; [lia|]).
    - rewrite Hm, <- Z.mul_assoc, <- Z.pow_add_r by lia. do 2 f_equal. lia.
    - rewrite Hm, <- Z.mul_assoc, <- Z.pow_add_r by lia. do 2 f_equal. lia. }
  destruct z as [|n|n]; [done|..].
  - change (Z.abs (Z.pos n)) with (Z.pos n) in Hr.
    destruct (Z.pos n * 2 ^ j) as [|M|M] eqn:EM; try lia. exact Hr.
  - change (Z.abs (Z.neg n)) with (Z.pos n) in Hr.
    destruct (Z.neg n * 2 ^ j) as [|M|M] eqn:EM; try lia.
    replace (Z.pos n * 2 ^ j) with (Z.pos M) in Hr by lia. exact Hr.
Qed.

Lemma shl_align_value (m : positive) (e ez : Z) :
  ez <= e -> Z.pos (fst (shl_align m e ez)) = Z.pos m * 2 ^ (e - ez).
Proof.
  intros H. unfold shl_align. destruct (ez - e) as [|d|d] eqn:Ed; try lia.
  - replace (e - ez) with 0 by lia. cbn [fst]. lia.
  - cbn [fst]. rewrite Zpos_iter_xO. do 2 f_equal. lia.
Qed.

(** The mantissa of the double of [z], aligned to a finer exponent [ez]
    and signed, is [z * 2^(-ez)]. *)
Lemma aligned_int (z : Z) (m : positive) (e ez : Z) :
  Z.pos m = Z.abs z * 2 ^ (- e) -> ez <= e <= 0 ->
  cond_Zopp (z <? 0) (Z.pos (fst (shl_align m e ez))) = z * 2 ^ (- ez).
Proof.
  intros Hm He. rewrite shl_align_value, Hm by lia.
  rewrite <- Z.mul_assoc, <- Z.pow_add_r by lia.
  replace (- e + (e - ez)) with (- ez) by lia.
  destruct (Z.ltb_spec z 0); cbn [cond_Zopp]; lia.
Qed.

(** Sums, differences and products of integers are computed exactly as
    long as the operands and the result stay below [2^53] in magnitude. *)
Lemma SF64add_int (a b : Z) :
  Z.abs a < 2 ^ 53 -> Z.abs b < 2 ^ 53 -> Z.abs (a + b) < 2 ^ 53 ->
  SF64add (SFint a) (SFint b) = SFint (a + b).
Proof.
  intros Ha Hb Hab.
  destruct (SFint_cases a Ha) as [[-> ->]|(ma & ea & Ha0 & Ea & Hda & Hea & Hma)],
    (SFint_cases b Hb) as [[-> ->]|(mb & eb & Hb0 & Eb & Hdb & Heb & Hmb)].
  - done.
  - by rewrite Z.add_0_l, Eb.
  - by rewrite Z.add_0_r, Ea.
  - rewrite Ea, Eb. unfold SF64add, SFadd.
    rewrite (aligned_int a), (aligned_int b) by (done || lia).
    rewrite <- Z.mul_add_distr_r.
    rewrite <- (Z.opp_involutive (Z.min ea eb)) at 2.
    apply binary_normalize_int; lia.
Qed.

Lemma SF64sub_int (a b : Z) :
  Z.abs a < 2 ^ 53 -> Z.abs b < 2 ^ 53 -> Z.abs (a - b) < 2 ^ 53 ->
  SF64sub (SFint a) (SFint b) = SFint (a - b).
Proof.
  intros Ha Hb Hab.
  destruct (SFint_cases a Ha) as [[-> ->]|(ma & ea & Ha0 & Ea & Hda & Hea & Hma)],
    (SFint_cases b Hb) as [[-> ->]|(mb & eb & Hb0 & Eb & Hdb & Heb & Hmb)].
  - done.
  - rewrite Eb. cbn [SF64sub SFsub].
    destruct (SFint_cases (0 - b) Hab)
      as [[? _]|(m & e & _ & -> & Hd & He & Hm)]; [lia|].
    assert ((0 - b <? 0) = negb (b <? 0)) as ->
      by (destruct (Z.ltb_spec b 0), (Z.ltb_spec (0 - b) 0); (done || lia)).
    assert (e = eb) as ->.
    { pose proof (digits2_pos_bounds m) as Bm.
      pose proof (digits2_pos_bounds mb) as Bmb.
      rewrite Hd in Bm. rewrite Hdb in Bmb.
      replace (Z.abs (0 - b)) with (Z.abs b) in Hm by lia.
      destruct (Z.lt_trichotomy e eb) as [Hlt|[->|Hgt]]; [exfalso|done|exfalso].
      - assert (Z.pos m = Z.pos mb * 2 ^ (eb - e)) as E.
        { rewrite Hm, Hmb, <- Z.mul_assoc, <- Z.pow_add_r by lia.
          do 2 f_equal. lia. }
        assert (2 ^ 1 <= 2 ^ (eb - e)) by (apply Z.pow_le_mono_r; lia).
        change (2 ^ 1) with 2 in *. change (2 ^ (53 - 1)) with (2 ^ 52) in *.
        change (2 ^ 53) with (2 * 2 ^ 52) in *. nia.
      - assert (Z.pos mb = Z.pos m * 2 ^ (e - eb)) as E.
        { rewrite Hm, Hmb, <- Z.mul_assoc, <- Z.pow_add_r by lia.
          do 2 f_equal. lia. }
        assert (2 ^ 1 <= 2 ^ (e - eb)) by (apply Z.pow_le_mono_r; lia).
        change (2 ^ 1) with 2 in *. change (2 ^ (53 - 1)) with (2 ^ 52) in *.
        change (2 ^ 53) with (2 * 2 ^ 52) in *. nia. }
    f_equal. apply Pos2Z.inj. rewrite Hm, Hmb. f_equal. lia.
  - by rewrite Z.sub_0_r, Ea.
  - rewrite Ea, Eb. unfold SF64sub, SFsub.
    rewrite (aligned_int a), (aligned_int b) by (done || lia).
    rewrite <- Z.mul_sub_distr_r.
    rewrite <- (Z.opp_involutive (Z.min ea eb)) at 2.
    apply binary_normalize_int; lia.
Qed.

Lemma SF64mul_int (a b : Z) :
  0 <= a < 2 ^ 53 -> 0 <= b < 2 ^ 53 -> a * b < 2 ^ 53 ->
  SF64mul (SFint a) (SFint b) = SFint (a * b).
Proof.
  intros Ha Hb Hab.
  destruct (Z.eq_dec a 0) as [->|Ha0].
  { change (SFint 0) with (S754_zero false). rewrite Z.mul_0_l.
    destruct (SFint_cases b) as [[-> ->]|(mb & eb & _ & -> & _)]; [lia|done|].
    by destruct (Z.ltb_spec b 0); [lia|]. }
  destruct (Z.eq_dec b 0) as [->|Hb0].
  { change (SFint 0) with (S754_zero false). rewrite Z.mul_0_r.
    destruct (SFint_cases a) as [[-> ->]|(ma & ea & _ & -> & _)]; [lia|done|].
    by destruct (Z.ltb_spec a 0); [lia|]. }
  destruct (SFint_cases a) as [[? _]|(ma & ea & _ & -> & Hda & Hea & Hma)];
    [lia|lia|].
  destruct (SFint_cases b) as [[? _]|(mb & eb & _ & -> & Hdb & Heb & Hmb)];
    [lia|lia|].
  destruct (SFint_cases (a * b)) as [[? _]|(m & e & _ & -> & Hd & He & Hm)];
    [nia|nia|].
  destruct (Z.ltb_spec a 0); [lia|]. destruct (Z.ltb_spec b 0); [lia|].
  destruct (Z.ltb_spec (a * b) 0); [nia|].
  rewrite SF64mul_finite. cbn [xorb].
  rewrite Z.abs_eq in Hma, Hmb, Hm by nia.
  pose proof (digits2_pos_bounds m) as Bm. rewrite Hd in Bm.
  pose proof (digits2_pos_bounds ma) as Bma. rewrite Hda in Bma.
  pose proof (digits2_pos_bounds mb) as Bmb. rewrite Hdb in Bmb.
  change (2 ^ (53 - 1)) with (2 ^ 52) in *.
  assert (Z.pos ma * Z.pos mb = a * b * 2 ^ (- ea + - eb)) as Hprod.
  { rewrite Hma, Hmb, Z.pow_add_r by lia. ring. }
  assert (ea + eb <= e) as Hle.
  { apply Z.nlt_ge. intros Hlt.
    assert (Z.pos m = Z.pos ma * Z.pos mb * 2 ^ (ea + eb - e)) as E.
    { rewrite Hm, Hprod, <- (Z.mul_assoc (a * b)), <- Z.pow_add_r by lia.
      do 2 f_equal. lia. }
    assert (2 ^ 0 <= 2 ^ (ea + eb - e)) by (apply Z.pow_le_mono_r; lia).
    change (2 ^ 0) with 1 in *.
    assert (2 ^ 52 * 2 ^ 52 <= Z.pos ma * Z.pos mb) by nia.
    change (2 ^ 53) with (2 * 2 ^ 52) in *.
    assert (2 < 2 ^ 52) by done. nia. }
  apply binary_round_aux_exact; [done|lia|done|].
  rewrite Pos2Z.inj_mul, Hprod, Hm, <- (Z.mul_assoc (a * b)), <- Z.pow_add_r by lia.
  do 2 f_equal. lia.
Qed.

Lemma float_of_Z_add (a b : Z) :
  Z.abs a < 2 ^ 53 -> Z.abs b < 2 ^ 53 -> Z.abs (a + b) < 2 ^ 53 ->
  (float_of_Z a + float_of_Z b)%float = float_of_Z (a + b).
Proof.
  intros Ha Hb Hab. apply Prim2SF_inj.
  rewrite add_spec, !Prim2SF_float_of_Z by done. by apply SF64add_int.
Qed.

Lemma float_of_Z_sub (a b : Z) :
  Z.abs a < 2 ^ 53 -> Z.abs b < 2 ^ 53 -> Z.abs (a - b) < 2 ^ 53 ->
  (float_of_Z a - float_of_Z b)%float = float_of_Z (a - b).
Proof.
  intros Ha Hb Hab. apply Prim2SF_inj.
  rewrite sub_spec, !Prim2SF_float_of_Z by done. by apply SF64sub_int.
Qed.

Lemma float_of_Z_mul (a b : Z) :
  0 <= a < 2 ^ 53 -> 0 <= b < 2 ^ 53 -> a * b < 2 ^ 53 ->
  (float_of_Z a * float_of_Z b)%float = float_of_Z (a * b).
Proof.
  intros Ha Hb Hab. apply Prim2SF_inj.
  rewrite mul_spec, !Prim2SF_float_of_Z by nia. by apply SF64mul_int.
Qed.

(** ** Bounds on prefix sums *)

Lemma sumZ_bounds g (c : Z) lo n :
  0 <= n -> (forall i, lo <= i < lo + n -> 0 <= g i <= c) ->
  0 <= sumZ g lo n <= n * c.
Proof.
  intros Hn. pattern n. apply natlike_ind; [| |done].
  - intros _. rewrite sumZ_nil by lia. lia.
  - intros k Hk IH Hg. rewrite <- Z.add_1_r, sumZ_succ by done.
    specialize (IH ltac:(intros i Hi; apply Hg; lia)).
    specialize (Hg (lo + k) ltac:(lia)). nia.
Qed.

Lemma prefix_sum_bounds f (c : Z) x y :
  0 <= x -> 0 <= y -> (forall i j, 0 <= f i j <= c) ->
  0 <= prefix_sum f x y <= x * y * c.
Proof.
  intros Hx Hy Hf. unfold prefix_sum.
  pose proof (sumZ_bounds (fun j => sumZ (fun i => f i j) 0 x) (x * c) 0 y Hy) as H.
  rewrite (Z.mul_comm x y), <- Z.mul_assoc. apply H. intros j _.
  apply sumZ_bounds; [done|]. intros i _. apply Hf.
Qed.

Lemma prefix_sum_mono_x f x y k :
  (forall i j, 0 <= f i j) -> 0 <= x -> 0 <= k ->
  prefix_sum f x y <= prefix_sum f (x + k) y.
Proof.
  intros Hf Hx Hk. pattern k. apply natlike_ind; [| |done].
  - by rewrite Z.add_0_r.
  - intros n Hn IH. rewrite <- Z.add_1_r, Z.add_assoc.
    pose proof (prefix_sum_step_x f (x + n) y ltac:(lia)).
    pose proof (sumZ_nonneg (fun j => f (x + n) j) 0 y ltac:(intros; apply Hf)).
    lia.
Qed.

Lemma prefix_sum_mono_y f x y k :
  (forall i j, 0 <= f i j) -> 0 <= y -> 0 <= k ->
  prefix_sum f x y <= prefix_sum f x (y + k).
Proof.
  intros Hf Hy Hk. pattern k. apply natlike_ind; [| |done].
  - by rewrite Z.add_0_r.
  - intros n Hn IH. rewrite <- Z.add_1_r, Z.add_assoc.
    pose proof (prefix_sum_step_y f x (y + n) ltac:(lia)).
    pose proof (sumZ_nonneg (fun i => f i (y + n)) 0 x ltac:(intros; apply Hf)).
    lia.
Qed.

Lemma prefix_sum_mono f x y x' y' :
  (forall i j, 0 <= f i j) -> 0 <= x <= x' -> 0 <= y <= y' ->
  0 <= prefix_sum f x y <= prefix_sum f x' y'.
Proof.
  intros Hf Hx Hy. split.
  - pose proof (prefix_sum_mono_x f 0 y x Hf ltac:(lia) ltac:(lia)) as H.
    by rewrite prefix_sum_0_l, Z.add_0_l in H.
  - pose proof (prefix_sum_mono_x f x y (x' - x) Hf ltac:(lia) ltac:(lia)).
    pose proof (prefix_sum_mono_y f x' y (y' - y) Hf ltac:(lia) ltac:(lia)).
    replace (x + (x' - x)) with x' in * by lia.
    replace (y + (y' - y)) with y' in * by lia. lia.
Qed.

Lemma pixel_within img w x y maxv :
  0 <= maxv -> samples_within maxv img -> 0 <= pixel img w x y <= maxv.
Proof.
  intros Hm H. unfold pixel.
  destruct (img !! Z.to_nat (y * w + x)) as [v|] eqn:E; simpl; [|lia].
  exact (Forall_lookup_1 _ _ _ _ H E).
Qed.

Lemma sample_of_Z {N : Number} (img : list Z) (w h x y : Z) :
  length img = Z.to_nat (w * h) -> 0 <= x < w -> 0 <= y < h ->
  sample img (y * w + x) = of_Z (pixel img w x y).
Proof.
  intros Hlen Hx Hy. unfold sample, pixel.
  assert (0 <= y * w + x < w * h) as Hi by nia.
  destruct (Z.ltb_spec (y * w + x) 0); [lia|].
  destruct (lookup_lt_is_Some_2 img (Z.to_nat (y * w + x))) as [v Hv]; [lia|].
  by rewrite Hv.
Qed.

(** ** The builder on numbers that compute with integers exactly *)

Section IntegerTables.
Context {N : Number}.
Local Open Scope num_scope.

(** Up to the bound [B], the operations of [number] agree with those of
    the integers. *)
Variable B : Z.
Hypothesis of_Z_add : forall a b : Z,
  (Z.abs a <= B)%Z -> (Z.abs b <= B)%Z -> (Z.abs (a + b) <= B)%Z ->
  of_Z a + of_Z b = of_Z (a + b).
Hypothesis of_Z_sub : forall a b : Z,
  (Z.abs a <= B)%Z -> (Z.abs b <= B)%Z -> (Z.abs (a - b) <= B)%Z ->
  of_Z a - of_Z b = of_Z (a - b).
Hypothesis of_Z_mul : forall a b : Z,
  (0 <= a <= B)%Z -> (0 <= b <= B)%Z -> (a * b <= B)%Z ->
  of_Z a * of_Z b = of_Z (a * b).

Lemma int_table_inv_init f w h :
  (0 <= w)%Z -> (0 <= h)%Z ->
  int_table_inv w h 0 0 f (float64_array ((w + 1) * (h + 1))).
Proof.
  intros Hw Hh. split.
  - unfold float64_array. by rewrite length_replicate.
  - intros i j Hi Hj. pose proof (cell_index_bound w h i j Hi Hj).
    rewrite get_float64_array by lia. f_equal. unfold cell_done.
    destruct (Z.leb_spec j 0); simpl.
    + assert (j = 0%Z) as -> by lia. by rewrite prefix_sum_0_r.
    + destruct (Z.eqb_spec j (0 + 1)); simpl; [|done].
      destruct (Z.leb_spec i 0); [|done].
      assert (i = 0%Z) as -> by lia. by rewrite prefix_sum_0_l.
Qed.

Lemma int_table_inv_update f w h y x sat v :
  (forall i j, 0 <= f i j)%Z -> (2 * prefix_sum f w h <= B)%Z ->
  (0 <= x < w)%Z -> (0 <= y < h)%Z ->
  int_table_inv w h y x f sat ->
  v = of_Z (f x y) ->
  let i := ((y + 1) * (w + 1) + (x + 1))%Z in
  int_table_inv w h y (x + 1) f
    (sat_update sat v i (i - (w + 1)) (i - 1) (i - (w + 1) - 1)).
Proof.
  intros Hf HB Hx Hy [Hlen Hcells] -> i. subst i. unfold sat_update. split.
  - by rewrite length_put.
  - intros i' j' Hi' Hj'.
    pose proof (cell_index_bound w h i' j' Hi' Hj') as Hb'.
    pose proof (cell_index_bound w h (x + 1) (y + 1) ltac:(lia) ltac:(lia)) as Hb.
    destruct (decide (i' = (x + 1)%Z /\ j' = (y + 1)%Z)) as [[-> ->]|Hne].
    + rewrite get_put_eq by lia.
      replace ((y + 1) * (w + 1) + (x + 1) - (w + 1))%Z
        with (y * (w + 1) + (x + 1))%Z by lia.
      replace ((y + 1) * (w + 1) + (x + 1) - 1)%Z
        with ((y + 1) * (w + 1) + x)%Z by lia.
      replace (y * (w + 1) + (x + 1) - 1)%Z with (y * (w + 1) + x)%Z by lia.
      rewrite !Hcells by lia.
      rewrite !cell_done_above, !cell_done_row, !Z.leb_refl.
      pose proof (prefix_sum_succ f x y ltac:(lia) ltac:(lia)) as Esucc.
      pose proof (prefix_sum_mono f x y (x + 1) y Hf ltac:(lia) ltac:(lia)).
      pose proof (prefix_sum_mono f x y x (y + 1) Hf ltac:(lia) ltac:(lia)).
      pose proof (prefix_sum_mono f (x + 1) y (x + 1) (y + 1) Hf ltac:(lia) ltac:(lia)).
      pose proof (prefix_sum_mono f x (y + 1) (x + 1) (y + 1) Hf ltac:(lia) ltac:(lia)).
      pose proof (prefix_sum_mono f (x + 1) (y + 1) w h Hf ltac:(lia) ltac:(lia)).
      pose proof (Hf x y).
      rewrite !of_Z_add, of_Z_sub by lia. f_equal. lia.
    + rewrite get_put_ne; [|lia|lia|].
      * rewrite Hcells by done. f_equal. unfold cell_done.
        destruct (Z.leb_spec j' y); [done|]. simpl.
        destruct (Z.eqb_spec j' (y + 1)); [|done]. simpl.
        destruct (Z.leb_spec i' x), (Z.leb_spec i' (x + 1)); try done; lia.
      * intros E. apply cell_index_inj in E; lia.
Qed.

Lemma int_table_inv_next_row f w h y sat :
  int_table_inv w h y w f sat -> int_table_inv w h (y + 1) 0 f sat.
Proof.
  intros [Hlen Hcells]. split; [done|].
  intros i j Hi Hj. rewrite Hcells by done. f_equal.
  unfold cell_done.
  destruct (Z.leb_spec j y), (Z.leb_spec j (y + 1)); simpl; try done; try lia.
  - destruct (Z.eqb_spec j (y + 1)); [|lia]. simpl.
    by destruct (Z.leb_spec i w); [|lia].
  - destruct (Z.eqb_spec j (y + 1)); [lia|]. simpl.
    destruct (Z.eqb_spec j (y + 1 + 1)); simpl; [|done].
    destruct (Z.leb_spec i 0); [|done].
    assert (i = 0%Z) as -> by lia. by rewrite prefix_sum_0_l.
Qed.

Lemma int_table_inv_final f w h sat :
  int_table_inv w h h 0 f sat -> int_table_ok w h f sat.
Proof.
  intros [_ Hcells] i j Hi Hj. unfold cell. rewrite Hcells by done.
  unfold cell_done. by destruct (Z.leb_spec j h); [|lia].
Qed.

(** The four-corner difference of such a table is the number of the
    window's sum: the intermediate differences stay within the bound. *)
Lemma window_rect_int f w h sat wx wy ws :
  (forall i j, 0 <= f i j)%Z -> (2 * prefix_sum f w h <= B)%Z ->
  int_table_ok w h f sat ->
  (0 <= wx)%Z -> (0 <= wy)%Z -> (0 <= ws)%Z ->
  (wx + ws <= w)%Z -> (wy + ws <= h)%Z ->
  window_rect w ws wy wx sat = of_Z (window_sumZ f wx wy ws).
Proof.
  intros Hf HB Hok Hx Hy Hws Hw Hh. unfold window_rect, rect.
  pose proof (Hok (wx + ws)%Z (wy + ws)%Z ltac:(lia) ltac:(lia)) as Ebr.
  pose proof (Hok wx (wy + ws)%Z ltac:(lia) ltac:(lia)) as Ebl.
  pose proof (Hok (wx + ws)%Z wy ltac:(lia) ltac:(lia)) as Etr.
  pose proof (Hok wx wy ltac:(lia) ltac:(lia)) as Etl.
  unfold cell in *. rewrite Ebr, Ebl, Etr, Etl.
  pose proof (prefix_sum_mono f wx wy (wx + ws) wy Hf ltac:(lia) ltac:(lia)).
  pose proof (prefix_sum_mono f wx wy wx (wy + ws) Hf ltac:(lia) ltac:(lia)).
  pose proof (prefix_sum_mono f (wx + ws) wy (wx + ws) (wy + ws) Hf
                ltac:(lia) ltac:(lia)).
  pose proof (prefix_sum_mono f wx (wy + ws) (wx + ws) (wy + ws) Hf
                ltac:(lia) ltac:(lia)).
  pose proof (prefix_sum_mono f (wx + ws) (wy + ws) w h Hf ltac:(lia) ltac:(lia)).
  pose proof (four_corners f wx wy ws Hx Hy Hws) as E4.
  assert (0 <= window_sumZ f wx wy ws)%Z.
  { apply sumZ_nonneg. intros j _. apply sumZ_nonneg. intros i _. apply Hf. }
  unfold window_sumZ in *.
  rewrite !of_Z_sub, of_Z_add by lia. f_equal. lia.
Qed.

(** The images hold [w * h] samples in [[0, maxv]], and twice the largest
    prefix sum, that of the squares, stays within the bound. *)
Variables (img1 img2 : list Z) (w h maxv : Z).
Hypothesis length_img1 : length img1 = Z.to_nat (w * h).
Hypothesis length_img2 : length img2 = Z.to_nat (w * h).
Hypothesis within_img1 : samples_within maxv img1.
Hypothesis within_img2 : samples_within maxv img2.
Hypothesis size_w : (0 <= w)%Z.
Hypothesis size_h : (0 <= h)%Z.
Hypothesis maxv_pos : (1 <= maxv)%Z.
Hypothesis sums_within : (2 * (w * h * (maxv * maxv)) <= B)%Z.

Lemma quantity_within (f : Z -> Z -> Z) :
  (forall i j, 0 <= f i j <= maxv * maxv)%Z ->
  (forall i j, 0 <= f i j)%Z /\ (2 * prefix_sum f w h <= B)%Z.
Proof.
  intros Hf. split; [intros i j; apply Hf|].
  pose proof (prefix_sum_bounds f (maxv * maxv) w h size_w size_h Hf). lia.
Qed.

Lemma five_quantities_within :
  five_tables_of
    (fun f _ => (forall i j, 0 <= f i j)%Z /\ (2 * prefix_sum f w h <= B)%Z)
    img1 img2 w (build_sats img1 img2 w h).
Proof.
  pose proof (fun i j => pixel_within img1 w i j maxv ltac:(lia) within_img1) as P1.
  pose proof (fun i j => pixel_within img2 w i j maxv ltac:(lia) within_img2) as P2.
  five_tables; apply quantity_within; intros i j;
    specialize (P1 i j); specialize (P2 i j); nia.
Qed.

Lemma int_sats_inv_pixel y x s :
  (0 <= x < w)%Z -> (0 <= y < h)%Z ->
  five_tables_of (int_table_inv w h y x) img1 img2 w s ->
  five_tables_of (int_table_inv w h y (x + 1)) img1 img2 w
    (sat_pixel img1 img2 w (w + 1) y s x).
Proof.
  intros Hx Hy (HX & HY & HX2 & HY2 & HXY).
  destruct five_quantities_within as (QX & QY & QX2 & QY2 & QXY).
  pose proof (pixel_within img1 w x y maxv ltac:(lia) within_img1) as P1.
  pose proof (pixel_within img2 w x y maxv ltac:(lia) within_img2) as P2.
  assert (maxv * maxv <= B)%Z as HB.
  { assert (1 <= w * h)%Z by nia. nia. }
  unfold sat_pixel.
  rewrite (sample_of_Z img1 w h), (sample_of_Z img2 w h) by done.
  rewrite !of_Z_mul by nia.
  unfold five_tables_of. cbn [satX satY satX2 satY2 satXY].
  five_tables; (apply int_table_inv_update; [tauto|tauto|done..]).
Qed.

Lemma int_sats_inv_row y s :
  (0 <= y < h)%Z ->
  five_tables_of (int_table_inv w h y 0) img1 img2 w s ->
  five_tables_of (int_table_inv w h (y + 1) 0) img1 img2 w
    (sat_row img1 img2 w (w + 1) s y).
Proof.
  intros Hy Hs.
  assert (five_tables_of (int_table_inv w h y w) img1 img2 w
            (sat_row img1 img2 w (w + 1) s y))
    as (HX & HY & HX2 & HY2 & HXY).
  { unfold sat_row.
    apply (for_loop_inv
             (fun x s => five_tables_of (int_table_inv w h y x) img1 img2 w s));
      [done..|].
    intros x s' Hx Hs'. by apply int_sats_inv_pixel. }
  five_tables; by apply int_table_inv_next_row.
Qed.

(** After the builder, every cell of every table is the number of its
    prefix sum. *)
Lemma build_sats_int :
  five_tables_of (int_table_ok w h) img1 img2 w (build_sats img1 img2 w h).
Proof.
  assert (five_tables_of (int_table_inv w h h 0) img1 img2 w
            (build_sats img1 img2 w h)) as (HX & HY & HX2 & HY2 & HXY).
  { unfold build_sats.
    apply (for_loop_inv
             (fun y s => five_tables_of (int_table_inv w h y 0) img1 img2 w s));
      [done| |].
    - five_tables; by apply int_table_inv_init.
    - intros y s Hy Hs. by apply int_sats_inv_row. }
  five_tables; by apply int_table_inv_final.
Qed.

Lemma window_rects_int wx wy ws :
  (0 <= wx)%Z -> (0 <= wy)%Z -> (0 <= ws)%Z ->
  (wx + ws <= w)%Z -> (wy + ws <= h)%Z ->
  five_tables_of
    (fun f sat => window_rect w ws wy wx sat = of_Z (window_sumZ f wx wy ws))
    img1 img2 w (build_sats img1 img2 w h).
Proof.
  intros Hx Hy Hws Hw Hh.
  destruct five_quantities_within as (QX & QY & QX2 & QY2 & QXY).
  destruct build_sats_int as (HX & HY & HX2 & HY2 & HXY).
  five_tables; (eapply window_rect_int; [| |eassumption|done..]); tauto.
Qed.

End IntegerTables.

(** ** Double precision: the tables of 8-bit images are exact *)

Lemma binary64_of_Z_add (a b : Z) :
  Z.abs a <= 2 ^ 53 - 1 -> Z.abs b <= 2 ^ 53 - 1 -> Z.abs (a + b) <= 2 ^ 53 - 1 ->
  @add binary64 (of_Z a) (of_Z b) = of_Z (a + b).
Proof. intros. apply float_of_Z_add; lia. Qed.

Lemma binary64_of_Z_sub (a b : Z) :
  Z.abs a <= 2 ^ 53 - 1 -> Z.abs b <= 2 ^ 53 - 1 -> Z.abs (a - b) <= 2 ^ 53 - 1 ->
  @sub binary64 (of_Z a) (of_Z b) = of_Z (a - b).
Proof. intros. apply float_of_Z_sub; lia. Qed.

Lemma binary64_of_Z_mul (a b : Z) :
  0 <= a <= 2 ^ 53 - 1 -> 0 <= b <= 2 ^ 53 - 1 -> a * b <= 2 ^ 53 - 1 ->
  @mul binary64 (of_Z a) (of_Z b) = of_Z (a * b).
Proof. intros. apply float_of_Z_mul; lia. Qed.

(** The four-corner differences of the tables of a call, for the windows
    inside the image. *)
Lemma window_rects_binary64 img1 img2 w h maxv wx wy ws :
  length img1 = Z.to_nat (w * h) -> length img2 = Z.to_nat (w * h) ->
  samples_within maxv img1 -> samples_within maxv img2 ->
  1 <= maxv ->
  2 * (w * h * (maxv * maxv)) < 2 ^ 53 ->
  0 <= wx -> 0 <= wy -> 0 <= ws -> wx + ws <= w -> wy + ws <= h ->
  five_tables_of
    (fun f sat =>
       @window_rect binary64 w ws wy wx sat = float_of_Z (window_sumZ f wx wy ws))
    img1 img2 w (@build_sats binary64 img1 img2 w h).
Proof.
  intros. apply (window_rects_int (N:=binary64) (2 ^ 53 - 1)
    binary64_of_Z_add binary64_of_Z_sub binary64_of_Z_mul img1 img2 w h maxv);
    (done || lia).
Qed.

(** X7.  In double precision the tables are exact: for two images of
    [w * h] samples in [[0, maxv]] with [2 * w * h * maxv^2 < 2^53], every
    cell of each of the five tables is the double of its integer prefix
    sum; no rounding occurs while the tables are built. *)
Theorem build_sats_exact_binary64 img1 img2 w h maxv :
  length img1 = Z.to_nat (w * h) -> length img2 = Z.to_nat (w * h) ->
  samples_within maxv img1 -> samples_within maxv img2 ->
  0 <= w -> 0 <= h -> 1 <= maxv ->
  2 * (w * h * (maxv * maxv)) < 2 ^ 53 ->
  five_tables_of (@int_table_ok binary64 w h) img1 img2 w
    (@build_sats binary64 img1 img2 w h).
Proof.
  intros. apply (build_sats_int (N:=binary64) (2 ^ 53 - 1)
    binary64_of_Z_add binary64_of_Z_sub binary64_of_Z_mul img1 img2 w h maxv);
    (done || lia).
Qed.

(** X8.  In double precision the four-corner difference is exact: under
    the same bound, for a window inside the image, [br - bl - tr + tl] on
    each of the five tables is the double of the integer sum of the
    window's pixels, squares or products. *)
Theorem window_sums_exact_binary64 img1 img2 w h maxv wx wy ws :
  length img1 = Z.to_nat (w * h) -> length img2 = Z.to_nat (w * h) ->
  samples_within maxv img1 -> samples_within maxv img2 ->
  1 <= maxv ->
  2 * (w * h * (maxv * maxv)) < 2 ^ 53 ->
  0 <= wx -> 0 <= wy -> 0 <= ws -> wx + ws <= w -> wy + ws <= h ->
  five_tables_of
    (fun f sat =>
       @window_rect binary64 w ws wy wx sat = float_of_Z (window_sumZ f wx wy ws))
    img1 img2 w (@build_sats binary64 img1 img2 w h).
Proof.
  intros. apply (window_rects_int (N:=binary64) (2 ^ 53 - 1)
    binary64_of_Z_add binary64_of_Z_sub binary64_of_Z_mul img1 img2 w h maxv);
    (done || lia).
Qed.

Lemma samples_within_imgC : samples_within 255 imgC.
Proof. repeat constructor; lia. Qed.

Lemma samples_within_imgD : samples_within 255 imgD.
Proof. repeat constructor; lia. Qed.

Lemma build_sats_exact_binary64_witness :
  five_tables_of (@int_table_ok binary64 3 3) imgC imgD 3
    (@build_sats binary64 imgC imgD 3 3).
Proof.
  apply (build_sats_exact_binary64 imgC imgD 3 3 255);
    try reflexivity; try lia.
  - apply samples_within_imgC.
  - apply samples_within_imgD.
Defined.

Lemma window_sums_exact_binary64_witness :
  five_tables_of
    (fun f sat =>
       @window_rect binary64 3 2 1 1 sat = float_of_Z (window_sumZ f 1 1 2))
    imgC imgD 3 (@build_sats binary64 imgC imgD 3 3).
Proof.
  apply (window_sums_exact_binary64 imgC imgD 3 3 255 1 1 2);
    try reflexivity; try lia.
  - apply samples_within_imgC.
  - apply samples_within_imgD.
Defined.

(** ** Double precision: finite and monotone tables *)

Lemma float_of_Z_finite (a : Z) :
  Z.abs a < 2 ^ 53 -> finite_SF (Prim2SF (float_of_Z a)) = true.
Proof.
  intros Ha. rewrite Prim2SF_float_of_Z by done.
  by destruct (SFint_cases a Ha) as [[_ ->]|(m & e & _ & -> & _)].
Qed.

(** The doubles of two integers below [2^53] are ordered as the
    integers. *)
Lemma float_of_Z_leb (a b : Z) :
  0 <= a <= b -> b < 2 ^ 53 -> (float_of_Z a <=? float_of_Z b)%float = true.
Proof.
  intros Hab Hb. rewrite leb_spec, !Prim2SF_float_of_Z by lia.
  destruct (SFint_cases a ltac:(lia)) as [[-> ->]|(m1 & e1 & Ha0 & -> & Hd1 & He1 & Hm1)].
  - destruct (SFint_cases b ltac:(lia)) as [[-> ->]|(m2 & e2 & _ & -> & _)];
      [done|].
    by destruct (Z.ltb_spec b 0); [lia|].
  - destruct (SFint_cases b ltac:(lia)) as [[? _]|(m2 & e2 & _ & -> & Hd2 & He2 & Hm2)];
      [lia|].
    destruct (Z.ltb_spec a 0); [lia|]. destruct (Z.ltb_spec b 0); [lia|].
    rewrite Z.abs_eq in Hm1, Hm2 by lia.
    pose proof (digits2_pos_bounds m1) as B1. rewrite Hd1 in B1.
    pose proof (digits2_pos_bounds m2) as B2. rewrite Hd2 in B2.
    change (2 ^ (53 - 1)) with (2 ^ 52) in *.
    unfold SFleb, SFcompare.
    destruct (Z.compare_spec e1 e2) as [->|Hlt|Hgt]; [|done|].
    + assert (Z.pos m1 <= Z.pos m2) as Hm.
      { rewrite Hm1, Hm2. apply Z.mul_le_mono_nonneg_r; [|lia].
        apply Z.pow_nonneg. lia. }
      change (PosDef.Pos.compare_cont Eq m1 m2) with (Pos.compare m1 m2).
      by destruct (Pos.compare_spec m1 m2); [| |lia].
    + exfalso.
      assert (2 * 2 ^ (- e1) <= 2 ^ (- e2)) as Hp.
      { rewrite <- Z.pow_succ_r by lia. apply Z.pow_le_mono_r; lia. }
      assert (0 < 2 ^ (- e1)) by (apply Z.pow_pos_nonneg; lia).
      assert (a * (2 * 2 ^ (- e1)) <= b * 2 ^ (- e2)) as Hab2.
      { apply Z.mul_le_mono_nonneg; lia. }
      change (2 ^ 53) with (2 * 2 ^ 52) in *. lia.
Qed.

(** A table of doubles that holds the doubles of prefix sums below [2^53]
    of a quantity that is not negative is finite and monotone. *)
Lemma int_table_monotone64 f w h sat :
  (forall i j, 0 <= f i j) -> prefix_sum f w h < 2 ^ 53 ->
  @int_table_ok binary64 w h f sat -> sat_monotone64 w h sat.
Proof.
  intros Hf Hb Hok.
  assert (forall x y, 0 <= x <= w -> 0 <= y <= h ->
            0 <= prefix_sum f x y < 2 ^ 53) as Hp.
  { intros x y Hx Hy.
    pose proof (prefix_sum_mono f x y w h Hf ltac:(lia) ltac:(lia)). lia. }
  repeat split.
  - intros x y Hx Hy. rewrite Hok by done. cbn [of_Z binary64].
    apply float_of_Z_finite. specialize (Hp x y Hx Hy). lia.
  - intros x y Hx Hy. rewrite !Hok by lia. cbn [of_Z binary64].
    apply float_of_Z_leb; [|apply Hp; lia].
    pose proof (prefix_sum_mono f x y (x + 1) y Hf ltac:(lia) ltac:(lia)). lia.
  - intros x y Hx Hy. rewrite !Hok by lia. cbn [of_Z binary64].
    apply float_of_Z_leb; [|apply Hp; lia].
    pose proof (prefix_sum_mono f x y x (y + 1) Hf ltac:(lia) ltac:(lia)). lia.
Qed.

Lemma sats_monotone_binary64 img1 img2 w h maxv :
  length img1 = Z.to_nat (w * h) -> length img2 = Z.to_nat (w * h) ->
  0 <= w -> 0 <= h ->
  samples_within maxv img1 -> samples_within maxv img2 -> 1 <= maxv ->
  2 * (w * h * (maxv * maxv)) < 2 ^ 53 ->
  @all_tables binary64 (sat_monotone64 w h) (@build_sats binary64 img1 img2 w h).
Proof.
  intros H1 H2 Hw Hh P1 P2 Hmax Hsize.
  destruct (build_sats_int (N:=binary64) (2 ^ 53 - 1)
              binary64_of_Z_add binary64_of_Z_sub binary64_of_Z_mul
              img1 img2 w h maxv) as (HX & HY & HX2 & HY2 & HXY);
    try (done || lia).
  pose proof (fun i j => pixel_within img1 w i j maxv ltac:(lia) P1) as Q1.
  pose proof (fun i j => pixel_within img2 w i j maxv ltac:(lia) P2) as Q2.
  assert (forall f, (forall i j, 0 <= f i j <= maxv * maxv) ->
            (forall i j, 0 <= f i j) /\ prefix_sum f w h < 2 ^ 53) as Hq.
  { intros f Hf. split; [intros i j; apply Hf|].
    pose proof (prefix_sum_bounds f (maxv * maxv) w h Hw Hh Hf). lia. }
  unfold all_tables.
  five_tables;
    (eapply int_table_monotone64; [| |eassumption]; apply Hq; intros i j;
     specialize (Q1 i j); specialize (Q2 i j); nia).
Qed.

(** C7 (amended).  For two images of [w * h] samples, every cell of each
    of the five tables that [build_sats] produces is finite, and each table
    is non-decreasing in [x] and in [y]: in the exact reading when the
    samples are not negative, and in double precision when the samples lie
    in [[0, maxv]] with [2 * w * h * maxv^2 < 2^53]. *)
Theorem sats_finite_monotone img1 img2 w h :
  length img1 = Z.to_nat (w * h) -> length img2 = Z.to_nat (w * h) ->
  0 <= w -> 0 <= h ->
  (Forall (Z.le 0) img1 -> Forall (Z.le 0) img2 ->
   let s := @build_sats exact img1 img2 w h in
   sat_monotone w h (satX s) /\ sat_monotone w h (satY s) /\
   sat_monotone w h (satX2 s) /\ sat_monotone w h (satY2 s) /\
   sat_monotone w h (satXY s)) /\
  (forall maxv,
     samples_within maxv img1 -> samples_within maxv img2 -> 1 <= maxv ->
     2 * (w * h * (maxv * maxv)) < 2 ^ 53 ->
     let s := @build_sats binary64 img1 img2 w h in
     sat_monotone64 w h (satX s) /\ sat_monotone64 w h (satY s) /\
     sat_monotone64 w h (satX2 s) /\ sat_monotone64 w h (satY2 s) /\
     sat_monotone64 w h (satXY s)).
Proof.
  intros H1 H2 Hw Hh. split.
  - intros P1 P2. by apply sats_monotone_exact.
  - intros maxv P1 P2 Hmax Hsize.
    by apply (sats_monotone_binary64 img1 img2 w h maxv).
Qed.

Lemma sats_finite_monotone_witness :
  (let s := @build_sats exact imgC imgD 3 3 in
   sat_monotone 3 3 (satX s) /\ sat_monotone 3 3 (satY s) /\
   sat_monotone 3 3 (satX2 s) /\ sat_monotone 3 3 (satY2 s) /\
   sat_monotone 3 3 (satXY s)) /\
  (let s := @build_sats binary64 imgC imgD 3 3 in
   sat_monotone64 3 3 (satX s) /\ sat_monotone64 3 3 (satY s) /\
   sat_monotone64 3 3 (satX2 s) /\ sat_monotone64 3 3 (satY2 s) /\
   sat_monotone64 3 3 (satXY s)).
Proof.
  destruct (sats_finite_monotone imgC imgD 3 3) as [He Hb];
    [reflexivity|reflexivity|lia|lia|].
  split.
  - apply He; repeat constructor; lia.
  - apply (Hb 255); [apply samples_within_imgC|apply samples_within_imgD|lia|lia].
Defined.

(** C7, as stated, fails in double precision.  In the table of squares
    of the 2 by 2 image [[2^26; 0; 1; 0]], cell (2, 2) is computed as
    [0 + 2^52 + (2^52 + 1) - 2^52]; the sum [2^53 + 1] rounds to [2^53],
    and the cell holds [2^52], less than its left neighbour [2^52 + 1].
    The sample [2^600] is a double, its square is not: the table of
    squares of a 2 by 2 image of such samples holds [infinity] at cell
    (1, 1) and [NaN] at cell (2, 2). *)
Lemma sats_not_monotone_on_rounding :
  let s := @build_sats binary64 imgG imgG 2 2 in
  let t := @build_sats binary64 imgH imgH 2 2 in
  forallb (Z.leb 0) (imgG ++ imgH) = true /\
  @cell binary64 2 (satX2 s) 2 1 = 4503599627370497%float /\
  @cell binary64 2 (satX2 s) 2 2 = 4503599627370496%float /\
  (@cell binary64 2 (satX2 s) 2 1 <=? @cell binary64 2 (satX2 s) 2 2)%float
  = false /\
  float_of_Z (2 ^ 600) = 0x1p600%float /\
  @cell binary64 2 (satX2 t) 1 1 = infinity /\
  finite_SF (Prim2SF (@cell binary64 2 (satX2 t) 1 1)) = false /\
  @cell binary64 2 (satX2 t) 2 2 = PrimFloat.nan.
Proof. by vm_compute. Qed.

(** ** Double precision: exact quotients *)

Lemma new_location_0 (m : Z) : new_location m 0 = loc_Exact.
Proof.
  unfold new_location, new_location_even, new_location_odd.
  by destruct (Z.even m).
Qed.

(** The quotient of [c * n] by [n] is computed exactly. *)
Lemma SF64div_int (c n : Z) :
  0 <= c -> 0 < n < 2 ^ 53 -> c * n < 2 ^ 53 ->
  SF64div (SFint (c * n)) (SFint n) = SFint c.
Proof.
  intros Hc Hn Hcn.
  destruct (SFint_cases n) as [[? _]|(m2 & e2 & _ & -> & Hd2 & He2 & Hm2)];
    [lia|lia|].
  destruct (Z.ltb_spec n 0); [lia|].
  destruct (Z.eq_dec c 0) as [->|Hc0]; [done|].
  destruct (SFint_cases (c * n)) as [[? _]|(m1 & e1 & _ & -> & Hd1 & He1 & Hm1)];
    [nia|nia|].
  destruct (Z.ltb_spec (c * n) 0); [nia|].
  destruct (SFint_cases c) as [[? _]|(m & e & _ & -> & Hd & He & Hm)];
    [nia|lia|].
  destruct (Z.ltb_spec c 0); [lia|].
  rewrite Z.abs_eq in Hm1, Hm2, Hm by nia.
  pose proof (digits2_pos_bounds m) as Bm. rewrite Hd in Bm.
  pose proof (digits2_pos_bounds m1) as Bm1. rewrite Hd1 in Bm1.
  pose proof (digits2_pos_bounds m2) as Bm2. rewrite Hd2 in Bm2.
  change (2 ^ (53 - 1)) with (2 ^ 52) in *.
  unfold SF64div, SFdiv, SFdiv_core_binary. cbn [xorb Zdigits2].
  rewrite Hd1, Hd2.
  assert (Z.min (fexp prec emax (53 + e1 - (53 + e2))) (e1 - e2) = e1 - e2 - 53)
    as -> by (unfold fexp, prec, emin, emax; lia).
  replace (e1 - e2 - (e1 - e2 - 53)) with 53 by lia.
  rewrite Z.shiftl_mul_pow2 by lia.
  set (q := c * 2 ^ (53 + e2 - e1)).
  assert (Z.pos m1 * 2 ^ 53 = q * Z.pos m2) as Eq.
  { unfold q. rewrite Hm1, Hm2.
    replace (c * n * 2 ^ (- e1) * 2 ^ 53) with (c * n * (2 ^ (- e1) * 2 ^ 53)) by ring.
    replace (c * 2 ^ (53 + e2 - e1) * (n * 2 ^ (- e2)))
      with (c * n * (2 ^ (53 + e2 - e1) * 2 ^ (- e2))) by ring.
    rewrite <- !Z.pow_add_r by lia. do 2 f_equal. lia. }
  rewrite Eq, Z_div_eucl_mul by lia. rewrite new_location_0.
  assert (0 < q) as Hq by (unfold q; assert (0 < 2 ^ (53 + e2 - e1))
    by (apply Z.pow_pos_nonneg; lia); nia).
  destruct q as [|Q|Q] eqn:EQ; try lia.
  assert (e1 - e2 - 53 <= e) as Hle.
  { apply Z.nlt_ge. intros Hlt.
    assert (Z.pos m = Z.pos Q * 2 ^ (e1 - e2 - 53 - e)) as E.
    { rewrite <- EQ. subst q. rewrite Hm, <- Z.mul_assoc, <- Z.pow_add_r by lia.
      do 2 f_equal. lia. }
    assert (2 ^ 1 <= 2 ^ (e1 - e2 - 53 - e)) by (apply Z.pow_le_mono_r; lia).
    change (2 ^ 1) with 2 in *. change (2 ^ 53) with (2 * 2 ^ 52) in *.
    assert (2 ^ 52 < Z.pos Q) by nia. nia. }
  apply binary_round_aux_exact; [done|lia|done|].
  rewrite <- EQ. subst q. rewrite Hm, <- Z.mul_assoc, <- Z.pow_add_r by lia.
  do 2 f_equal. lia.
Qed.

Lemma float_of_Z_div (c n : Z) :
  0 <= c -> 0 < n < 2 ^ 53 -> c * n < 2 ^ 53 ->
  (float_of_Z (c * n) / float_of_Z n)%float = float_of_Z c.
Proof.
  intros Hc Hn Hcn. apply Prim2SF_inj.
  rewrite div_spec, !Prim2SF_float_of_Z by nia. by apply SF64div_int.
Qed.

(** ** Double precision: operations that change nothing *)

Lemma SF64sub_diag (s : bool) (m : positive) (e : Z) :
  SF64sub (S754_finite s m e) (S754_finite s m e) = S754_zero false.
Proof.
  unfold SF64sub, SFsub. rewrite Z.min_id. unfold shl_align.
  rewrite Z.sub_diag. cbn [fst].
  replace (cond_Zopp s (Z.pos m) - cond_Zopp s (Z.pos m)) with 0 by lia.
  done.
Qed.

(** Dividing by 1 changes nothing. *)
Lemma SF64div_one (s : bool) (m : positive) (e : Z) :
  valid_binary (S754_finite s m e) = true ->
  SF64div (S754_finite s m e) SFone = S754_finite s m e.
Proof.
  intros Hv. destruct (valid_finite_cases s m e Hv) as [He Hd].
  unfold SF64div, SFdiv, SFdiv_core_binary, SFone.
  rewrite xorb_false_r. cbn [Zdigits2].
  change (Z.pos (digits2_pos 4503599627370496)) with 53.
  destruct (decide (Z.pos (digits2_pos m) = 53 /\ -1073 <= e)) as [[H53 He']|Hsub].
  - assert (Z.min (fexp prec emax (Z.pos (digits2_pos m) + e - (53 + -52)))
              (e - -52) = e - 1) as ->
      by (unfold fexp, prec, emin, emax; lia).
    replace (e - -52 - (e - 1)) with 53 by lia.
    rewrite Z.shiftl_mul_pow2 by lia.
    replace (Z.pos m * 2 ^ 53) with (Z.pos m~0 * 4503599627370496) by lia.
    rewrite Z_div_eucl_mul by lia. rewrite new_location_0.
    apply binary_round_aux_exact; [done|lia|lia|].
    replace (e - (e - 1)) with 1 by lia. lia.
  - assert (e = -1074) as -> by lia.
    assert (Z.min (fexp prec emax (Z.pos (digits2_pos m) + -1074 - (53 + -52)))
              (-1074 - -52) = -1074) as ->
      by (unfold fexp, prec, emin, emax; lia).
    change (-1074 - -52 - -1074) with 52.
    rewrite Z.shiftl_mul_pow2 by lia.
    change (2 ^ 52) with 4503599627370496.
    rewrite Z_div_eucl_mul by lia. rewrite new_location_0.
    rewrite binary_round_aux_canonical
      by (unfold fexp, prec, emin, emax; lia).
    done.
Qed.

Lemma float_sub_zero (v : float) : steady v = true -> (v - 0)%float = v.
Proof.
  intros Hv. apply Prim2SF_inj. rewrite sub_spec. unfold steady in Hv.
  change (Prim2SF 0) with (S754_zero false).
  by destruct (Prim2SF v) as [[|]| | |].
Qed.

Lemma float_div_one (v : float) : steady v = true -> (v / 1)%float = v.
Proof.
  intros Hv. apply Prim2SF_inj. rewrite div_spec. unfold steady in Hv.
  change (Prim2SF 1) with SFone. pose proof (Prim2SF_valid v) as Hvalid.
  destruct (Prim2SF v) as [[|]| | |s m e]; try done.
  by apply SF64div_one.
Qed.

Lemma float_zero_add (v : float) : steady v = true -> (0 + v)%float = v.
Proof.
  intros Hv. apply Prim2SF_inj. rewrite add_spec. unfold steady in Hv.
  change (Prim2SF 0) with (S754_zero false).
  by destruct (Prim2SF v) as [[|]| | |].
Qed.

Lemma float_add_zero (v : float) : steady v = true -> (v + 0)%float = v.
Proof.
  intros Hv. apply Prim2SF_inj. rewrite add_spec. unfold steady in Hv.
  change (Prim2SF 0) with (S754_zero false).
  by destruct (Prim2SF v) as [[|]| | |].
Qed.

Lemma float_sub_diag (v : float) : steady v = true -> (v - v)%float = 0%float.
Proof.
  intros Hv. apply Prim2SF_inj. rewrite sub_spec. unfold steady in Hv.
  change (Prim2SF 0) with (S754_zero false).
  destruct (Prim2SF v) as [[|]| | |s m e]; try done.
  apply SF64sub_diag.
Qed.

(** ** The running mean of equal values *)

Lemma welford_first (v : float) :
  steady v = true -> @welford binary64 (@of_Z binary64 0, 0) v = (v, 1).
Proof.
  intros Hv. unfold welford. cbn [fst snd num of_Z add sub div binary64].
  change (float_of_Z 0) with 0%float. change (float_of_Z (0 + 1)) with 1%float.
  by rewrite float_sub_zero, float_div_one, float_zero_add.
Qed.

Lemma welford_same (v : float) (c : Z) :
  steady v = true -> 0 <= c -> c + 1 < 2 ^ 53 ->
  @welford binary64 (v, c) v = (v, c + 1).
Proof.
  intros Hv Hc Hb. unfold welford. cbn [fst snd num of_Z add sub div binary64].
  destruct (float_of_Z_regular (c + 1) ltac:(lia)) as (m & e & Hk).
  by rewrite float_sub_diag, (float_zero_div _ m e Hk), float_add_zero.
Qed.

Lemma foldl_welford_same (v : float) (vals : list float) (c : Z) :
  steady v = true -> 0 <= c -> c + Z.of_nat (length vals) < 2 ^ 53 ->
  Forall (eq v) vals ->
  foldl (@welford binary64) (v, c) vals = (v, c + Z.of_nat (length vals)).
Proof.
  intros Hs. revert c. induction vals as [|x vals IH]; intros c Hc Hb Hv.
  - simpl. f_equal. lia.
  - inversion Hv as [|? ? <- Hv']; subst. cbn [foldl length] in *.
    rewrite welford_same by (done || lia). rewrite IH by (done || lia).
    f_equal. lia.
Qed.

(** The running mean of equal steady values is that value. *)
Lemma mean_of_equal (v : float) (vals : list float) :
  steady v = true -> vals <> [] -> Z.of_nat (length vals) < 2 ^ 53 ->
  Forall (eq v) vals ->
  (foldl (@welford binary64) (@of_Z binary64 0, 0) vals).1 = v.
Proof.
  intros Hs Hne Hb Hv. destruct vals as [|x vals]; [done|].
  inversion Hv as [|? ? <- Hv']; subst. cbn [foldl length] in *.
  rewrite welford_first by done.
  by rewrite foldl_welford_same by (done || lia).
Qed.

(** ** Flat images in double precision *)

Lemma sumZ_const (c : Z) lo n : 0 <= n -> sumZ (fun _ => c) lo n = n * c.
Proof.
  intros Hn. pattern n. apply natlike_ind; [| |done].
  - by rewrite sumZ_nil.
  - intros k Hk IH. rewrite <- Z.add_1_r, sumZ_succ, IH by done. lia.
Qed.

Lemma window_sumZ_flat f (c : Z) wx wy ws :
  0 <= ws ->
  (forall i j, wx <= i < wx + ws -> wy <= j < wy + ws -> f i j = c) ->
  window_sumZ f wx wy ws = c * (ws * ws).
Proof.
  intros Hws Hf. unfold window_sumZ.
  rewrite (sumZ_ext _ (fun _ => ws * c)).
  - rewrite sumZ_const by done. lia.
  - intros j Hj. rewrite (sumZ_ext _ (fun _ => c)) by (intros i Hi; by apply Hf).
    by apply sumZ_const.
Qed.

Lemma samples_within_replicate (c maxv : Z) (n : nat) :
  0 <= c <= maxv -> samples_within maxv (replicate n c).
Proof. intros Hc. by apply Forall_replicate. Qed.

(** Every window of two flat images has the means [c] and [d] and no
    variance or covariance, with no rounding at all. *)
Lemma call_stats_flat (c d w h maxv : Z) options wy wx :
  0 <= c <= maxv -> 0 <= d <= maxv -> 1 <= maxv ->
  2 * (w * h * (maxv * maxv)) < 2 ^ 53 ->
  0 < ws_of options ->
  0 <= wy < h - ws_of options + 1 -> 0 <= wx < w - ws_of options + 1 ->
  @call_stats binary64 (replicate (Z.to_nat (w * h)) c)
    (replicate (Z.to_nat (w * h)) d) w h options wy wx
  = flat_stats c d.
Proof.
  intros Hc Hd Hmax Hsize Hws Hwy Hwx.
  set (ws := ws_of options) in *.
  set (img1 := replicate (Z.to_nat (w * h)) c).
  set (img2 := replicate (Z.to_nat (w * h)) d).
  destruct (window_rects_binary64 img1 img2 w h maxv wx wy ws)
    as (EX & EY & EX2 & EY2 & EXY);
    try (unfold img1, img2; rewrite ?length_replicate; done || lia);
    try (by apply samples_within_replicate).
  assert (forall i j, wx <= i < wx + ws -> wy <= j < wy + ws ->
            pixel img1 w i j = c) as P1
    by (intros i j Hi Hj; apply pixel_replicate; lia).
  assert (forall i j, wx <= i < wx + ws -> wy <= j < wy + ws ->
            pixel img2 w i j = d) as P2
    by (intros i j Hi Hj; apply pixel_replicate; lia).
  rewrite (window_sumZ_flat _ c) in EX by (done || lia).
  rewrite (window_sumZ_flat _ d) in EY by (done || lia).
  rewrite (window_sumZ_flat _ (c * c)) in EX2
    by (lia || (intros i j Hi Hj; by rewrite P1)).
  rewrite (window_sumZ_flat _ (d * d)) in EY2
    by (lia || (intros i j Hi Hj; by rewrite P2)).
  rewrite (window_sumZ_flat _ (c * d)) in EXY
    by (lia || (intros i j Hi Hj; by rewrite P1, P2)).
  unfold window_rect in *. unfold call_stats, window_stats. fold ws.
  rewrite EX, EY, EX2, EY2, EXY. cbn [num of_Z add sub mul div binary64].
  assert (1 <= ws * ws <= w * h) as Hn by nia.
  set (n := ws * ws) in *. set (K := w * h) in *. set (V := maxv * maxv) in *.
  assert (forall q, 0 <= q <= V -> 0 <= q * n <= V * K) as Hq by (intros; nia).
  assert (1 <= V) by (unfold V; nia).
  assert (0 <= c <= V) as Bc by (unfold V; nia).
  assert (0 <= d <= V) as Bd by (unfold V; nia).
  assert (0 <= c * c <= V) as Bcc by (unfold V; nia).
  assert (0 <= d * d <= V) as Bdd by (unfold V; nia).
  assert (0 <= c * d <= V) as Bcd by (unfold V; nia).
  pose proof (Hq _ Bc). pose proof (Hq _ Bd). pose proof (Hq _ Bcc).
  pose proof (Hq _ Bdd). pose proof (Hq _ Bcd).
  assert (n <= V * K) by nia.
  clearbody n K V.
  rewrite !float_of_Z_div by lia.
  rewrite !float_of_Z_mul by lia.
  rewrite !float_of_Z_sub by lia.
  by rewrite !Z.sub_diag.
Qed.

Lemma call_val_flat (c d w h maxv : Z) options wy wx :
  0 <= c <= maxv -> 0 <= d <= maxv -> 1 <= maxv ->
  2 * (w * h * (maxv * maxv)) < 2 ^ 53 ->
  0 < ws_of options ->
  0 <= wy < h - ws_of options + 1 -> 0 <= wx < w - ws_of options + 1 ->
  @call_val binary64 (replicate (Z.to_nat (w * h)) c)
    (replicate (Z.to_nat (w * h)) d) w h options wy wx
  = flat_val c d options.
Proof.
  intros Hc Hd Hmax Hsize Hws Hwy Hwx.
  pose proof (call_stats_flat c d w h maxv options wy wx
                Hc Hd Hmax Hsize Hws Hwy Hwx) as E.
  unfold call_stats in E. unfold call_val, window_val, flat_val.
  by rewrite E.
Qed.

Lemma ssimGrey_flat_val (c d w h maxv : Z) options :
  0 <= c <= maxv -> 0 <= d <= maxv -> 1 <= maxv ->
  0 < ws_of options <= w -> ws_of options <= h ->
  2 * (w * h * (maxv * maxv)) < 2 ^ 53 ->
  steady (flat_val c d options) = true ->
  @ssimGrey binary64 (replicate (Z.to_nat (w * h)) c)
    (replicate (Z.to_nat (w * h)) d) w h options
  = Return (flat_val c d options).
Proof.
  intros Hc Hd Hmax Hws Hh Hsize Hsteady.
  rewrite ssimGrey_unfold; [|lia|lia|nia]. f_equal.
  destruct (ssim_values_nonempty (N:=binary64)
              (replicate (Z.to_nat (w * h)) c) (replicate (Z.to_nat (w * h)) d)
              w h options) as [Hlen Hne]; [lia..|].
  apply mean_of_equal; [done|done| |].
  - refine (eq_ind_r (fun n => n < 2 ^ 53) _ Hlen).
    assert ((w - ws_of options + 1) * (h - ws_of options + 1) <= w * h) by nia.
    nia.
  - apply (ssim_values_Forall (N:=binary64)). intros wy wx Hwy Hwx.
    symmetry. apply (call_val_flat c d w h maxv); (done || lia).
Qed.

(** X9.  In double precision two flat images, all [c] and all [d], score
    the SSIM value of the statistics [(c, d, 0, 0, 0)], whatever the size
    of the images, when that value is a finite double other than [-0]:
    the statistics are computed without rounding and the running mean of
    equal values is that value. *)
Theorem ssimGrey_flat_binary64 (c d w h maxv : Z) options :
  0 <= c <= maxv -> 0 <= d <= maxv -> 1 <= maxv ->
  0 < ws_of options <= w -> ws_of options <= h ->
  2 * (w * h * (maxv * maxv)) < 2 ^ 53 ->
  steady (flat_val c d options) = true ->
  @ssimGrey binary64 (replicate (Z.to_nat (w * h)) c)
    (replicate (Z.to_nat (w * h)) d) w h options
  = Return (flat_val c d options).
Proof. apply ssimGrey_flat_val. Qed.

Lemma ssimGrey_flat_binary64_witness :
  @ssimGrey binary64 (replicate (Z.to_nat (48 * 48)) 0)
    (replicate (Z.to_nat (48 * 48)) 255) 48 48 None
  = Return (flat_val 0 255 None).
Proof.
  apply (ssimGrey_flat_binary64 0 255 48 48 255 None); by vm_compute.
Defined.

Lemma default_constants_c1 (options : option (SsimGreyOptions binary64)) :
  default_constants options ->
  c1_of options = c1_of None /\ c2_of options = c2_of None.
Proof.
  destruct options as [[ows ok1 ok2 ob]|]; [|done].
  intros (E1 & E2 & E3). simpl in E1, E2, E3. by subst.
Qed.

(** ** Double precision: quotients of integers stay small *)

Lemma shr_1_bounds (mrs : shr_record) :
  0 <= shr_m mrs -> 0 <= shr_m (shr_1 mrs) <= shr_m mrs.
Proof.
  destruct mrs as [m r s]. cbn [shr_m]. intros Hm.
  destruct m as [|[p|p|]|p]; cbn [shr_1 shr_m]; lia.
Qed.

Lemma iter_shr_1_bounds (p : positive) (mrs : shr_record) :
  0 <= shr_m mrs -> 0 <= shr_m (SpecFloat.iter_pos shr_1 p mrs) <= shr_m mrs.
Proof.
  revert mrs. induction p as [p IH|p IH|]; intros mrs Hm; cbn [SpecFloat.iter_pos].
  - pose proof (shr_1_bounds mrs Hm) as H1.
    pose proof (IH (shr_1 mrs) ltac:(lia)) as H2.
    pose proof (IH (SpecFloat.iter_pos shr_1 p (shr_1 mrs)) ltac:(lia)). lia.
  - pose proof (IH mrs Hm) as H1.
    pose proof (IH (SpecFloat.iter_pos shr_1 p mrs) ltac:(lia)). lia.
  - by apply shr_1_bounds.
Qed.

(** Shifting to the exponent that the precision asks for does not enlarge
    the mantissa and raises the exponent to that one at most. *)
Lemma shr_fexp_bounds (m e : Z) (l : location) :
  0 <= m ->
  0 <= shr_m (shr_fexp prec emax m e l).1 <= m /\
  (shr_fexp prec emax m e l).2 = Z.max e (fexp prec emax (Zdigits2 m + e)).
Proof.
  intros Hm. unfold shr_fexp, shr.
  assert (shr_m (shr_record_of_loc m l) = m) as Em by (by destruct l as [|[| |]]).
  destruct (fexp prec emax (Zdigits2 m + e) - e) as [|p|p] eqn:E; cbn [fst snd].
  - rewrite Em. lia.
  - pose proof (iter_shr_1_bounds p (shr_record_of_loc m l) ltac:(lia)). lia.
  - rewrite Em. lia.
Qed.

Lemma round_nearest_even_bounds (m : Z) (l : location) :
  m <= round_nearest_even m l <= m + 1.
Proof.
  unfold round_nearest_even. destruct l as [|[| |]]; try lia.
  destruct (Z.even m); lia.
Qed.

Lemma Zdigits2_le (m d : Z) : 0 <= m < 2 ^ d -> 0 <= d -> Zdigits2 m <= d.
Proof.
  intros Hm Hd. destruct m as [|p|p]; [done| |lia].
  cbn [Zdigits2]. apply digits2_pos_le; lia.
Qed.

(** A mantissa below [2^54] with an exponent that is not positive is
    rounded to a number whose exponent is at most 3. *)
Lemma binary_round_aux_small (s s' : bool) (Q : positive) (ex : Z) (l : location)
    (m : positive) (e : Z) :
  Z.pos Q < 2 ^ 54 -> ex <= 0 ->
  binary_round_aux prec emax s (Z.pos Q) ex l = S754_finite s' m e ->
  e <= 3.
Proof.
  intros HQ Hex. unfold binary_round_aux.
  pose proof (shr_fexp_bounds (Z.pos Q) ex l ltac:(lia)) as [B1 E1].
  destruct (shr_fexp prec emax (Z.pos Q) ex l) as [mrs' e'] eqn:S1.
  cbn [fst snd] in B1, E1.
  set (r := round_nearest_even (shr_m mrs') (loc_of_shr_record mrs')).
  pose proof (round_nearest_even_bounds (shr_m mrs') (loc_of_shr_record mrs')) as Br.
  fold r in Br.
  pose proof (shr_fexp_bounds r e' loc_Exact ltac:(lia)) as [B2 E2].
  destruct (shr_fexp prec emax r e' loc_Exact) as [mrs'' e''] eqn:S2.
  cbn [fst snd] in B2, E2.
  assert (Zdigits2 (Z.pos Q) <= 54) as D1 by (apply Zdigits2_le; lia).
  assert (Zdigits2 r <= 55) as D2.
  { apply Zdigits2_le; [|lia]. change (2 ^ 55) with (2 * 2 ^ 54). lia. }
  assert (e' <= 1) as He'.
  { rewrite E1. unfold fexp, prec, emin, emax.
    apply Z.max_lub; [lia|]. apply Z.max_lub; lia. }
  assert (e'' <= 3) as He''.
  { rewrite E2. unfold fexp, prec, emin, emax.
    apply Z.max_lub; [lia|]. apply Z.max_lub; lia. }
  destruct (shr_m mrs'') as [|p|p]; [done| |done].
  destruct (e'' <=? emax - prec); [|done]. intros [= _ _ <-]. done.
Qed.

(** The quotient of two positive integers below [2^53], when finite, has
    an exponent of at most 3. *)
Lemma SF64div_int_small (a n : Z) (s : bool) (m : positive) (e : Z) :
  0 < a < 2 ^ 53 -> 0 < n < 2 ^ 53 ->
  SF64div (SFint a) (SFint n) = S754_finite s m e -> e <= 3.
Proof.
  intros Ha Hn.
  destruct (SFint_cases a) as [[? _]|(m1 & e1 & _ & -> & Hd1 & He1 & Hm1)];
    [lia|lia|].
  destruct (SFint_cases n) as [[? _]|(m2 & e2 & _ & -> & Hd2 & He2 & Hm2)];
    [lia|lia|].
  pose proof (digits2_pos_bounds m1) as Bm1. rewrite Hd1 in Bm1.
  pose proof (digits2_pos_bounds m2) as Bm2. rewrite Hd2 in Bm2.
  change (2 ^ (53 - 1)) with (2 ^ 52) in *.
  unfold SF64div, SFdiv, SFdiv_core_binary. cbn [Zdigits2].
  rewrite Hd1, Hd2.
  assert (Z.min (fexp prec emax (53 + e1 - (53 + e2))) (e1 - e2) = e1 - e2 - 53)
    as -> by (unfold fexp, prec, emin, emax; lia).
  replace (e1 - e2 - (e1 - e2 - 53)) with 53 by lia.
  rewrite Z.shiftl_mul_pow2 by lia.
  pose proof (Z_div_mod (Z.pos m1 * 2 ^ 53) (Z.pos m2) ltac:(lia)) as Hdiv.
  destruct (Z.div_eucl (Z.pos m1 * 2 ^ 53) (Z.pos m2)) as [q r].
  destruct Hdiv as [Eq Hr].
  assert (0 < q < 2 ^ 54) as Hq.
  { change (2 ^ 54) with (2 * 2 ^ 53) in *. change (2 ^ 53) with (2 * 2 ^ 52) in *.
    split; nia. }
  destruct q as [|Q|Q]; try lia.
  apply binary_round_aux_small; lia.
Qed.

Lemma quotient_doubles_safely (a n : Z) :
  0 <= a < 2 ^ 53 -> 0 < n < 2 ^ 53 ->
  overflows_when_doubled (float_of_Z a / float_of_Z n)%float = false.
Proof.
  intros Ha Hn. unfold overflows_when_doubled.
  rewrite mul_spec. change (Prim2SF (float_of_Z 2)) with SFtwo.
  pose proof (Prim2SF_valid (float_of_Z a / float_of_Z n)%float) as Hv.
  destruct (Prim2SF (float_of_Z a / float_of_Z n)%float) as [| | |s m e] eqn:E;
    try done.
  rewrite (SF64mul_two s m e Hv).
  assert (e <= 3) as He.
  { rewrite div_spec, !Prim2SF_float_of_Z in E by lia.
    destruct (Z.eq_dec a 0) as [->|Ha0].
    - destruct (SFint_cases n) as [[? _]|(m2 & e2 & _ & E2 & _)]; [lia|lia|].
      rewrite E2 in E. done.
    - by apply (SF64div_int_small a n s m e); [lia|lia|]. }
  destruct (Z.pos (digits2_pos m) =? 53); [|done].
  by destruct (Z.leb_spec (e + 1) (emax - prec)); [|unfold emax, prec in *; lia].
Qed.

(** ** Double precision: exchanging images of bounded samples *)

Lemma window_sumZ_bounds f (c : Z) wx wy ws :
  0 <= ws -> (forall i j, 0 <= f i j <= c) ->
  0 <= window_sumZ f wx wy ws <= ws * ws * c.
Proof.
  intros Hws Hf. unfold window_sumZ.
  pose proof (sumZ_bounds (fun j => sumZ (fun i => f i j) wx ws) (ws * c) wy ws Hws)
    as H.
  rewrite <- Z.mul_assoc. apply H. intros j _.
  apply sumZ_bounds; [done|]. intros i _. apply Hf.
Qed.

Lemma means_double_safely_within img1 img2 w h maxv options :
  length img1 = Z.to_nat (w * h) -> length img2 = Z.to_nat (w * h) ->
  samples_within maxv img1 -> samples_within maxv img2 ->
  1 <= maxv -> 2 * (w * h * (maxv * maxv)) < 2 ^ 53 ->
  0 < ws_of options ->
  means_double_safely img1 img2 w h options.
Proof.
  intros H1 H2 P1 P2 Hmax Hsize Hws wy wx Hwy Hwx.
  set (ws := ws_of options) in *.
  destruct (window_rects_binary64 img1 img2 w h maxv wx wy ws)
    as (EX & EY & _); try (done || lia).
  unfold window_rect in *. unfold call_stats, window_stats. fold ws.
  cbv zeta. cbn [meanX meanY]. rewrite EX, EY.
  cbn [num of_Z div binary64].
  pose proof (window_sumZ_bounds (pixel img1 w) maxv wx wy ws ltac:(lia)
                (fun i j => pixel_within img1 w i j maxv ltac:(lia) P1)) as B1.
  pose proof (window_sumZ_bounds (pixel img2 w) maxv wx wy ws ltac:(lia)
                (fun i j => pixel_within img2 w i j maxv ltac:(lia) P2)) as B2.
  assert (1 <= ws * ws <= w * h) as Hn by nia.
  set (n := ws * ws) in *. set (K := w * h) in *.
  assert (n * maxv <= K * (maxv * maxv)) by nia.
  assert (n <= K * (maxv * maxv)) by nia.
  split; apply quotient_doubles_safely; lia.
Qed.

(** X14.  In double precision, exchanging the two images does not change
    the result, bit for bit, for all images of [w * h] samples in
    [[0, maxv]] with [2 * w * h * maxv^2 < 2^53] and every positive window
    size, whatever [k1], [k2] and [bitDepth] are: no window mean can
    overflow when doubled. *)
Theorem ssimGrey_symmetric_within img1 img2 w h maxv options :
  length img1 = Z.to_nat (w * h) -> length img2 = Z.to_nat (w * h) ->
  samples_within maxv img1 -> samples_within maxv img2 ->
  1 <= maxv -> 2 * (w * h * (maxv * maxv)) < 2 ^ 53 ->
  0 < ws_of options ->
  @ssimGrey binary64 img1 img2 w h options
  = @ssimGrey binary64 img2 img1 w h options.
Proof.
  intros. symmetry. apply ssimGrey_swap_binary64.
  by apply (means_double_safely_within img1 img2 w h maxv).
Qed.

Lemma ssimGrey_symmetric_within_witness :
  @ssimGrey binary64 imgC imgD 3 3 (with_window 2)
  = @ssimGrey binary64 imgD imgC 3 3 (with_window 2).
Proof.
  apply (ssimGrey_symmetric_within imgC imgD 3 3 255 (with_window 2));
    try reflexivity; try lia.
  - apply samples_within_imgC.
  - apply samples_within_imgD.
Defined.

(** ** Double precision: how far rounding can move a number *)

Lemma shr_1_div2 (mrs : shr_record) :
  0 <= shr_m mrs -> shr_m (shr_1 mrs) = shr_m mrs / 2.
Proof.
  destruct mrs as [m r s]. cbn [shr_m]. intros Hm.
  destruct m as [|[p|p|]|p]; cbn [shr_1 shr_m]; [done| | |done|lia].
  - rewrite (Pos2Z.inj_xI p). apply Z.div_unique with 1; lia.
  - rewrite (Pos2Z.inj_xO p). apply Z.div_unique with 0; lia.
Qed.

Lemma iter_shr_1_div (p : positive) (mrs : shr_record) :
  0 <= shr_m mrs ->
  shr_m (SpecFloat.iter_pos shr_1 p mrs) = shr_m mrs / 2 ^ Z.pos p.
Proof.
  revert mrs. induction p as [|p IH] using Pos.peano_ind; intros mrs Hm.
  - cbn [SpecFloat.iter_pos]. by apply shr_1_div2.
  - rewrite iter_pos_succ, IH by (by apply shr_1_bounds).
    rewrite shr_1_div2 by done.
    rewrite Pos2Z.inj_succ, Z.pow_succ_r by lia.
    rewrite Z.div_div by lia. done.
Qed.

(** The first step of rounding: the mantissa is divided by the power of 2
    that brings it to the exponent the precision asks for. *)
Lemma shr_fexp_div (m e : Z) (l : location) :
  0 <= m ->
  let k := Z.max 0 (fexp prec emax (Zdigits2 m + e) - e) in
  shr_m (shr_fexp prec emax m e l).1 = m / 2 ^ k /\
  (shr_fexp prec emax m e l).2 = e + k.
Proof.
  intros Hm k. subst k. unfold shr_fexp, shr.
  assert (shr_m (shr_record_of_loc m l) = m) as Em by (by destruct l as [|[| |]]).
  destruct (fexp prec emax (Zdigits2 m + e) - e) as [|p|p] eqn:E; cbn [fst snd].
  - rewrite Em, Z.max_id. change (2 ^ 0) with 1. rewrite Z.div_1_r. lia.
  - rewrite iter_shr_1_div, Em by lia. rewrite Z.max_r by lia. done.
  - rewrite Em, Z.max_l by lia. change (2 ^ 0) with 1. rewrite Z.div_1_r. lia.
Qed.

(** Rounding a mantissa [M] of at least 53 digits, clear of underflow and
    overflow: the result is a normal number whose mantissa, brought back
    to the exponent [E], differs from [M] by at most [M / 2^52]. *)
Lemma binary_round_aux_normal (s : bool) (M : positive) (E : Z) (l : location) :
  let d := Z.pos (digits2_pos M) in
  53 <= d -> -1074 <= E + d - 53 -> E + d - 52 <= 971 ->
  exists m e,
    binary_round_aux prec emax s (Z.pos M) E l = S754_finite s m e /\
    Z.pos (digits2_pos m) = 53 /\
    E + d - 53 <= e <= E + d - 52 /\
    2 ^ 52 * (Z.pos m * 2 ^ (e - E) - Z.pos M) <= Z.pos M /\
    2 ^ 52 * (Z.pos M - Z.pos m * 2 ^ (e - E)) <= Z.pos M.
Proof.
  intros d Hd Hlo Hhi. subst d. set (d := Z.pos (digits2_pos M)) in *.
  set (k := d - 53).
  pose proof (digits2_pos_bounds M) as BM. fold d in BM.
  assert (0 < 2 ^ k) as Hk by (apply Z.pow_pos_nonneg; lia).
  assert (2 ^ (d - 1) = 2 ^ 52 * 2 ^ k) as E1
    by (rewrite <- Z.pow_add_r by lia; f_equal; lia).
  assert (2 ^ d = 2 ^ 53 * 2 ^ k) as E2
    by (rewrite <- Z.pow_add_r by lia; f_equal; lia).
  set (m0 := Z.pos M / 2 ^ k).
  pose proof (Z.div_mod (Z.pos M) (2 ^ k) ltac:(lia)) as Hdm.
  pose proof (Z.mod_pos_bound (Z.pos M) (2 ^ k) Hk) as Hmod. fold m0 in Hdm.
  assert (2 ^ 52 <= m0 < 2 ^ 53) as Bm0.
  { split.
    - apply Z.div_le_lower_bound; lia.
    - apply Z.div_lt_upper_bound; lia. }
  unfold binary_round_aux.
  pose proof (shr_fexp_div (Z.pos M) E l ltac:(lia)) as [S1m S1e].
  cbn [Zdigits2] in S1m, S1e. fold d in S1m, S1e.
  assert (fexp prec emax (d + E) - E = k) as Ek
    by (unfold fexp, prec, emin, emax, k; lia).
  rewrite Ek, Z.max_r in S1m, S1e by lia. fold m0 in S1m.
  destruct (shr_fexp prec emax (Z.pos M) E l) as [mrs' e'].
  cbn [fst snd] in S1m, S1e. subst e'.
  pose proof (round_nearest_even_bounds (shr_m mrs') (loc_of_shr_record mrs')) as Br.
  set (r := round_nearest_even (shr_m mrs') (loc_of_shr_record mrs')) in *.
  rewrite S1m in Br.
  pose proof (shr_fexp_div r (E + k) loc_Exact ltac:(lia)) as [S2m S2e].
  destruct (shr_fexp prec emax r (E + k) loc_Exact) as [mrs'' e''].
  cbn [fst snd] in S2m, S2e.
  destruct (Z.eq_dec r (2 ^ 53)) as [Er|Hr].
  - (* the mantissa was rounded up to [2^53] *)
    rewrite Er in S2m, S2e.
    change (Zdigits2 (2 ^ 53)) with 54 in S2m, S2e.
    assert (fexp prec emax (54 + (E + k)) - (E + k) = 1) as E1'
      by (unfold fexp, prec, emin, emax, k; lia).
    rewrite E1' in S2m, S2e. change (Z.max 0 1) with 1 in S2m, S2e.
    change (2 ^ 53 / 2 ^ 1) with (Z.pos 4503599627370496) in S2m.
    rewrite S2m, S2e.
    destruct (Z.leb_spec (E + k + 1) (emax - prec));
      [|unfold emax, prec, k in *; lia].
    exists 4503599627370496%positive, (E + k + 1).
    split; [done|]. split; [done|]. split; [unfold k; lia|].
    replace (E + k + 1 - E) with (k + 1) by lia.
    rewrite Z.pow_add_r by lia. change (2 ^ 1) with 2.
    change (Z.pos 4503599627370496) with (2 ^ 52).
    assert (m0 = 2 ^ 53 - 1) as Em0 by lia.
    change (2 ^ 53) with (2 * 2 ^ 52) in *. nia.
  - assert (2 ^ 52 <= r < 2 ^ 53) as Brr by lia.
    destruct r as [|R|R] eqn:ER; try lia.
    assert (Zdigits2 (Z.pos R) = 53) as Dr.
    { cbn [Zdigits2]. apply Z.le_antisymm.
      - apply digits2_pos_le; lia.
      - apply Z.nlt_ge. intros Hlt. pose proof (digits2_pos_bounds R) as [_ Hup].
        assert (2 ^ Z.pos (digits2_pos R) <= 2 ^ 52) by (apply Z.pow_le_mono_r; lia).
        lia. }
    rewrite Dr in S2m, S2e.
    assert (fexp prec emax (53 + (E + k)) - (E + k) = 0) as E0
      by (unfold fexp, prec, emin, emax, k; lia).
    rewrite E0 in S2m, S2e. change (Z.max 0 0) with 0 in S2m, S2e.
    change (2 ^ 0) with 1 in S2m. rewrite Z.div_1_r in S2m.
    rewrite S2m, S2e, Z.add_0_r.
    destruct (Z.leb_spec (E + k) (emax - prec));
      [|unfold emax, prec, k in *; lia].
    exists R, (E + k). split; [done|]. split; [exact Dr|].
    split; [unfold k; lia|].
    replace (E + k - E) with k by lia.
    change (2 ^ 53) with (2 * 2 ^ 52) in *. nia.
Qed.

(** ** Double precision: values and rounding errors *)

Lemma normal_zero_or_normal lo hi x : normal_within lo hi x -> zero_or_normal lo hi x.
Proof. by destruct x. Qed.

Lemma zero_or_normal_weaken lo hi lo' hi' x :
  lo' <= lo -> hi <= hi' -> zero_or_normal lo hi x -> zero_or_normal lo' hi' x.
Proof. intros Hlo Hhi. destruct x as [| | |s m e]; try done. simpl. lia. Qed.

Lemma normal_within_weaken lo hi lo' hi' x :
  lo' <= lo -> hi <= hi' -> normal_within lo hi x -> normal_within lo' hi' x.
Proof. intros Hlo Hhi. destruct x as [| | |s m e]; try done. simpl. lia. Qed.

Lemma scaled_sign (s : bool) (m : positive) (e : Z) :
  -1074 <= e ->
  if s then scaled (S754_finite s m e) < 0 else 0 < scaled (S754_finite s m e).
Proof.
  intros He. unfold scaled.
  assert (0 < 2 ^ (e + 1074)) by (apply Z.pow_pos_nonneg; lia).
  destruct s; cbn [cond_Zopp]; nia.
Qed.

Lemma scaled_SFint (z : Z) : Z.abs z < 2 ^ 53 -> scaled (SFint z) = z * unit_scale.
Proof.
  intros Hz. unfold unit_scale.
  destruct (SFint_cases z Hz) as [[-> ->]|(m & e & Hz0 & -> & Hd & He & Hm)];
    [done|].
  unfold scaled. replace (2 ^ 1074) with (2 ^ (- e) * 2 ^ (e + 1074))
    by (rewrite <- Z.pow_add_r by lia; f_equal; lia).
  destruct (Z.ltb_spec z 0); cbn [cond_Zopp]; rewrite Hm; lia.
Qed.

Lemma SFint_normal (z : Z) :
  z <> 0 -> Z.abs z < 2 ^ 53 -> normal_within (-52) 0 (SFint z).
Proof.
  intros Hz0 Hz.
  destruct (SFint_cases z Hz) as [[? _]|(m & e & _ & -> & Hd & He & Hm)]; [done|].
  by split.
Qed.

(** *** Products *)

Lemma close_to_scale (s : bool) (t M P : Z) :
  0 < P -> 0 < M ->
  2 ^ 52 * (t - M) <= M -> 2 ^ 52 * (M - t) <= M ->
  close_to (cond_Zopp s t * P) (cond_Zopp s M * P).
Proof.
  intros HP HM B1 B2. unfold close_to.
  assert (cond_Zopp s t * P - cond_Zopp s M * P = cond_Zopp s (t - M) * P) as ->
    by (destruct s; cbn [cond_Zopp]; ring).
  assert (forall z, Z.abs (cond_Zopp s z) = Z.abs z) as Habs
    by (intros z; destruct s; cbn [cond_Zopp]; [apply Z.abs_opp|done]).
  rewrite !Z.abs_mul, !Habs, (Z.abs_eq P), (Z.abs_eq M) by lia.
  rewrite Z.mul_assoc. apply Z.mul_le_mono_nonneg_r; lia.
Qed.

Lemma SF64mul_close (lo1 hi1 lo2 hi2 : Z) (x y : spec_float) :
  zero_or_normal lo1 hi1 x -> zero_or_normal lo2 hi2 y ->
  -1074 <= lo1 + lo2 + 52 -> hi1 + hi2 + 54 <= 971 ->
  -1074 <= lo1 -> -1074 <= lo2 ->
  zero_or_normal (lo1 + lo2 + 52) (hi1 + hi2 + 54) (SF64mul x y) /\
  close_to (scaled (SF64mul x y) * unit_scale) (scaled x * scaled y).
Proof.
  intros Hx Hy Hlo Hhi Hlo1 Hlo2. unfold close_to.
  destruct x as [sx| | |sx mx ex], y as [sy| | |sy my ey]; try done;
    try (split; [done|]; cbn [SF64mul SFmul scaled]; rewrite ?Z.mul_0_r, ?Z.mul_0_l;
         simpl; lia).
  destruct Hx as [Hdx Hex], Hy as [Hdy Hey].
  rewrite SF64mul_finite.
  pose proof (digits2_pos_bounds mx) as Bx. rewrite Hdx in Bx.
  pose proof (digits2_pos_bounds my) as By. rewrite Hdy in By.
  pose proof (digits2_pos_bounds (mx * my)) as Bxy.
  change (2 ^ (53 - 1)) with (2 ^ 52) in *.
  assert (105 <= Z.pos (digits2_pos (mx * my)) <= 106) as Hd.
  { rewrite Pos2Z.inj_mul in Bxy. split.
    - apply Z.nlt_ge. intros Hlt.
      assert (2 ^ Z.pos (digits2_pos (mx * my)) <= 2 ^ 104)
        by (apply Z.pow_le_mono_r; lia).
      change (2 ^ 104) with (2 ^ 52 * 2 ^ 52) in *. nia.
    - apply Z.nlt_ge. intros Hlt.
      assert (2 ^ 106 <= 2 ^ (Z.pos (digits2_pos (mx * my)) - 1))
        by (apply Z.pow_le_mono_r; lia).
      change (2 ^ 106) with (2 ^ 53 * 2 ^ 53) in *. nia. }
  destruct (binary_round_aux_normal (xorb sx sy) (mx * my) (ex + ey) loc_Exact)
    as (m & e & -> & Hdm & He & B1 & B2); try lia.
  split; [split; [done|lia]|].
  unfold scaled, unit_scale.
  set (E := ex + ey) in *. set (M := Z.pos (mx * my)) in *.
  assert (Z.pos mx * Z.pos my = M) as EM by (unfold M; lia).
  assert (0 < 2 ^ (E + 2148)) as HP by (apply Z.pow_pos_nonneg; lia).
  assert (2 ^ (e + 1074) * 2 ^ 1074 = 2 ^ (e - E) * 2 ^ (E + 2148)) as E1
    by (rewrite <- !Z.pow_add_r by lia; f_equal; lia).
  assert (2 ^ (ex + 1074) * 2 ^ (ey + 1074) = 2 ^ (E + 2148)) as E2
    by (rewrite <- !Z.pow_add_r by lia; f_equal; unfold E; lia).
  set (P := 2 ^ (E + 2148)) in *. set (t := Z.pos m * 2 ^ (e - E)) in *.
  assert (cond_Zopp (xorb sx sy) (Z.pos m) * 2 ^ (e + 1074) * 2 ^ 1074
          = cond_Zopp (xorb sx sy) t * P) as ->.
  { rewrite <- Z.mul_assoc, E1. unfold t. destruct (xorb sx sy); cbn [cond_Zopp]; lia. }
  assert (cond_Zopp sx (Z.pos mx) * 2 ^ (ex + 1074)
          * (cond_Zopp sy (Z.pos my) * 2 ^ (ey + 1074))
          = cond_Zopp (xorb sx sy) M * P) as ->.
  { rewrite <- E2, <- EM. destruct sx, sy; cbn [cond_Zopp xorb]; lia. }
  apply close_to_scale; (done || lia).
Qed.

(** *** Sums and differences *)

Lemma close_to_refl (x : Z) : close_to x x.
Proof. unfold close_to. rewrite Z.sub_diag. simpl. lia. Qed.

(** Normalising the integer [D] at the exponent [ez]. *)
Lemma binary_normalize_close (D ez dmax : Z) :
  Z.abs D < 2 ^ dmax -> -1074 <= ez - 52 -> ez + dmax - 52 <= 971 ->
  zero_or_normal (ez - 52) (ez + dmax - 52) (binary_normalize prec emax D ez false) /\
  close_to (scaled (binary_normalize prec emax D ez false)) (D * 2 ^ (ez + 1074)).
Proof.
  intros HD Hlo Hhi.
  assert (forall (s : bool) (p : positive),
            Z.pos p < 2 ^ dmax ->
            zero_or_normal (ez - 52) (ez + dmax - 52) (binary_round prec emax s p ez) /\
            close_to (scaled (binary_round prec emax s p ez))
              (cond_Zopp s (Z.pos p) * 2 ^ (ez + 1074))) as Hround.
  { intros s p Hp. set (d := Z.pos (digits2_pos p)).
    pose proof (digits2_pos_bounds p) as Bp. fold d in Bp.
    assert (1 <= d) by (unfold d; lia).
    assert (d <= dmax) as Hd.
    { apply Z.nlt_ge. intros Hlt.
      assert (2 ^ dmax <= 2 ^ (d - 1)) by (apply Z.pow_le_mono_r; lia). lia. }
    assert (0 < 2 ^ (ez + 1074)) as HP by (apply Z.pow_pos_nonneg; lia).
    unfold binary_round. fold d.
    assert (fexp prec emax (d + ez) = d + ez - 53) as ->
      by (unfold fexp, prec, emin, emax; lia).
    unfold shl_align.
    destruct (d + ez - 53 - ez) as [|q|q] eqn:Eq.
    - (* exactly 53 digits *)
      rewrite binary_round_aux_canonical
        by (fold d; unfold fexp, prec, emin, emax; lia).
      destruct (Z.leb_spec ez (emax - prec)); [|unfold emax, prec in *; lia].
      split; [split; [unfold d in *; lia|lia]|]. apply close_to_refl.
    - (* more than 53 digits: rounding *)
      destruct (binary_round_aux_normal s p ez loc_Exact)
        as (m & e & -> & Hdm & He & B1 & B2); fold d; try lia.
      fold d in He. split; [split; [done|lia]|].
      unfold close_to, scaled.
      replace (2 ^ (e + 1074)) with (2 ^ (e - ez) * 2 ^ (ez + 1074))
        by (rewrite <- Z.pow_add_r by lia; f_equal; lia).
      set (t := Z.pos m * 2 ^ (e - ez)) in *. set (P := 2 ^ (ez + 1074)) in *.
      assert (cond_Zopp s (Z.pos m) * (2 ^ (e - ez) * P) = cond_Zopp s t * P) as ->
        by (unfold t; destruct s; cbn [cond_Zopp]; lia).
      apply close_to_scale; (done || lia).
    - (* fewer than 53 digits: aligned to the left, exact *)
      pose proof (digits2_pos_iter_xO p q) as Hq. fold d in Hq.
      rewrite binary_round_aux_canonical
        by (rewrite Hq; unfold fexp, prec, emin, emax; lia).
      destruct (Z.leb_spec (d + ez - 53) (emax - prec));
        [|unfold emax, prec in *; lia].
      split; [split; lia|].
      unfold scaled. rewrite Zpos_iter_xO.
      assert (2 ^ Z.pos q * 2 ^ (d + ez - 53 + 1074) = 2 ^ (ez + 1074)) as E
        by (rewrite <- Z.pow_add_r by lia; f_equal; lia).
      assert (cond_Zopp s (Z.pos p * 2 ^ Z.pos q) * 2 ^ (d + ez - 53 + 1074)
              = cond_Zopp s (Z.pos p) * 2 ^ (ez + 1074)) as ->
        by (rewrite <- E; destruct s; cbn [cond_Zopp]; lia).
      apply close_to_refl. }
  destruct D as [|p|p]; cbn [binary_normalize].
  - split; [done|]. apply close_to_refl.
  - apply (Hround false p). lia.
  - apply (Hround true p). lia.
Qed.

Lemma scaled_aligned (s : bool) (m : positive) (e ez : Z) :
  -1074 <= ez <= e ->
  cond_Zopp s (Z.pos (fst (shl_align m e ez))) * 2 ^ (ez + 1074)
  = scaled (S754_finite s m e).
Proof.
  intros He. rewrite shl_align_value by lia. unfold scaled.
  replace (2 ^ (e + 1074)) with (2 ^ (e - ez) * 2 ^ (ez + 1074))
    by (rewrite <- Z.pow_add_r by lia; f_equal; lia).
  destruct s; cbn [cond_Zopp]; lia.
Qed.

Lemma aligned_bound (s : bool) (m : positive) (e ez hi : Z) :
  Z.pos (digits2_pos m) = 53 -> ez <= e <= hi ->
  Z.abs (cond_Zopp s (Z.pos (fst (shl_align m e ez)))) < 2 ^ (53 + hi - ez).
Proof.
  intros Hd He. rewrite shl_align_value by lia.
  pose proof (digits2_pos_bounds m) as Bm. rewrite Hd in Bm.
  assert (2 ^ (e - ez) <= 2 ^ (hi - ez)) by (apply Z.pow_le_mono_r; lia).
  assert (0 < 2 ^ (e - ez)) by (apply Z.pow_pos_nonneg; lia).
  replace (2 ^ (53 + hi - ez)) with (2 ^ 53 * 2 ^ (hi - ez))
    by (rewrite <- Z.pow_add_r by lia; f_equal; lia).
  destruct s; cbn [cond_Zopp]; nia.
Qed.

Lemma SF64add_close (lo hi : Z) (x y : spec_float) :
  zero_or_normal lo hi x -> zero_or_normal lo hi y ->
  -1074 <= lo - 52 -> hi + 2 <= 971 ->
  zero_or_normal (lo - 52) (hi + 2) (SF64add x y) /\
  close_to (scaled (SF64add x y)) (scaled x + scaled y).
Proof.
  intros Hx Hy Hlo Hhi.
  destruct x as [sx| | |sx mx ex], y as [sy| | |sy my ey]; try done.
  - split; [by destruct sx, sy|]. destruct sx, sy; apply close_to_refl.
  - split; [|apply close_to_refl].
    by apply (zero_or_normal_weaken lo hi); [lia|lia|].
  - split; [|cbn [SF64add SFadd]; rewrite Z.add_0_r; apply close_to_refl].
    by apply (zero_or_normal_weaken lo hi); [lia|lia|].
  - destruct Hx as [Hdx Hex], Hy as [Hdy Hey].
    unfold SF64add, SFadd. set (ez := Z.min ex ey).
    set (Dx := cond_Zopp sx (Z.pos (fst (shl_align mx ex ez)))).
    set (Dy := cond_Zopp sy (Z.pos (fst (shl_align my ey ez)))).
    pose proof (aligned_bound sx mx ex ez hi Hdx ltac:(lia)) as Bx. fold Dx in Bx.
    pose proof (aligned_bound sy my ey ez hi Hdy ltac:(lia)) as By. fold Dy in By.
    destruct (binary_normalize_close (Dx + Dy) ez (54 + hi - ez)) as [Hn Hc].
    + replace (54 + hi - ez) with (Z.succ (53 + hi - ez)) by lia.
      rewrite Z.pow_succ_r by lia. lia.
    + lia.
    + lia.
    + split.
      * apply (zero_or_normal_weaken (ez - 52) (ez + (54 + hi - ez) - 52)); [lia|lia|done].
      * rewrite <- (scaled_aligned sx mx ex ez), <- (scaled_aligned sy my ey ez) by lia.
        fold Dx Dy. by rewrite <- Z.mul_add_distr_r.
Qed.

Lemma SF64sub_close (lo hi : Z) (x y : spec_float) :
  zero_or_normal lo hi x -> zero_or_normal lo hi y ->
  -1074 <= lo - 52 -> hi + 2 <= 971 ->
  zero_or_normal (lo - 52) (hi + 2) (SF64sub x y) /\
  close_to (scaled (SF64sub x y)) (scaled x - scaled y).
Proof.
  intros Hx Hy Hlo Hhi.
  destruct x as [sx| | |sx mx ex], y as [sy| | |sy my ey]; try done.
  - split; [by destruct sx, sy|]. destruct sx, sy; apply close_to_refl.
  - split.
    + apply (zero_or_normal_weaken lo hi); [lia|lia|done].
    + cbn [SF64sub SFsub]. unfold scaled at 2. rewrite Z.sub_0_l.
      assert (scaled (S754_finite (negb sy) my ey) = - scaled (S754_finite sy my ey)) as ->
        by (unfold scaled; destruct sy; cbn [cond_Zopp negb]; lia).
      apply close_to_refl.
  - split; [|cbn [SF64sub SFsub]; rewrite Z.sub_0_r; apply close_to_refl].
    by apply (zero_or_normal_weaken lo hi); [lia|lia|].
  - destruct Hx as [Hdx Hex], Hy as [Hdy Hey].
    unfold SF64sub, SFsub. set (ez := Z.min ex ey).
    set (Dx := cond_Zopp sx (Z.pos (fst (shl_align mx ex ez)))).
    set (Dy := cond_Zopp sy (Z.pos (fst (shl_align my ey ez)))).
    pose proof (aligned_bound sx mx ex ez hi Hdx ltac:(lia)) as Bx. fold Dx in Bx.
    pose proof (aligned_bound sy my ey ez hi Hdy ltac:(lia)) as By. fold Dy in By.
    destruct (binary_normalize_close (Dx - Dy) ez (54 + hi - ez)) as [Hn Hc].
    + replace (54 + hi - ez) with (Z.succ (53 + hi - ez)) by lia.
      rewrite Z.pow_succ_r by lia. lia.
    + lia.
    + lia.
    + split.
      * apply (zero_or_normal_weaken (ez - 52) (ez + (54 + hi - ez) - 52)); [lia|lia|done].
      * rewrite <- (scaled_aligned sx mx ex ez), <- (scaled_aligned sy my ey ez) by lia.
        fold Dx Dy. by rewrite <- Z.mul_sub_distr_r.
Qed.

(** *** Quotients of integers *)

Lemma digits2_pos_ge (p : positive) (d : Z) :
  2 ^ (d - 1) <= Z.pos p -> d <= Z.pos (digits2_pos p).
Proof.
  intros Hp. apply Z.nlt_ge. intros Hlt.
  pose proof (digits2_pos_bounds p) as [_ Hhi].
  assert (2 ^ Z.pos (digits2_pos p) <= 2 ^ (d - 1)) by (apply Z.pow_le_mono_r; lia).
  lia.
Qed.

(** The error of a quotient [Q] with remainder [r], rounded to [t]. *)
Lemma quotient_error (c m2 Q r t : Z) :
  0 < c -> 0 <= r < m2 -> 2 * c <= Q -> 2 * c * Z.abs (t - Q) <= Q ->
  c * Z.abs (t * m2 - m2 * Q - r) <= m2 * Q + r.
Proof.
  intros Hc Hr HQ Ht.
  assert (Z.abs (t * m2 - m2 * Q - r) <= m2 * Z.abs (t - Q) + r) as H1.
  { replace (t * m2 - m2 * Q - r) with (m2 * (t - Q) - r) by ring.
    assert (Z.abs (m2 * (t - Q)) = m2 * Z.abs (t - Q)) as E
      by (rewrite Z.abs_mul, (Z.abs_eq m2); lia).
    lia. }
  assert (2 * c * (m2 * Z.abs (t - Q)) <= m2 * Q) as H2.
  { replace (2 * c * (m2 * Z.abs (t - Q))) with (m2 * (2 * c * Z.abs (t - Q)))
      by ring.
    apply Z.mul_le_mono_nonneg_l; lia. }
  assert (2 * c * r <= m2 * Q) as H3.
  { transitivity (2 * c * m2); [apply Z.mul_le_mono_nonneg_l; lia|].
    rewrite (Z.mul_comm m2 Q). apply Z.mul_le_mono_nonneg_r; lia. }
  set (a := Z.abs (t * m2 - m2 * Q - r)) in *.
  set (b := m2 * Z.abs (t - Q)) in *.
  assert (c * a <= c * (b + r)) as H4 by (apply Z.mul_le_mono_nonneg_l; lia).
  clearbody a b. lia.
Qed.

(** The quotient of two integers below [2^53] is a normal double within
    one part in [2^51] of the exact quotient. *)
Lemma SF64div_int_close (a n : Z) :
  0 <= a < 2 ^ 53 -> 0 < n < 2 ^ 53 ->
  zero_or_normal (-105) 1 (SF64div (SFint a) (SFint n)) /\
  0 <= scaled (SF64div (SFint a) (SFint n)) /\
  2 ^ 51 * Z.abs (scaled (SF64div (SFint a) (SFint n)) * n - a * unit_scale)
  <= a * unit_scale.
Proof.
  intros Ha Hn.
  destruct (SFint_cases n) as [[? _]|(m2 & e2 & _ & E2 & Hd2 & He2 & Hm2)];
    [lia|lia|].
  destruct (Z.ltb_spec n 0); [lia|]. rewrite E2.
  destruct (SFint_cases a) as [[-> ->]|(m1 & e1 & _ & E1 & Hd1 & He1 & Hm1)];
    [lia| |].
  { cbn. lia. }
  destruct (Z.ltb_spec a 0); [lia|]. rewrite E1.
  rewrite Z.abs_eq in Hm1, Hm2 by lia.
  pose proof (digits2_pos_bounds m1) as Bm1. rewrite Hd1 in Bm1.
  pose proof (digits2_pos_bounds m2) as Bm2. rewrite Hd2 in Bm2.
  change (2 ^ (53 - 1)) with (2 ^ 52) in *.
  unfold SF64div, SFdiv, SFdiv_core_binary. cbn [Zdigits2 xorb].
  rewrite Hd1, Hd2.
  assert (Z.min (fexp prec emax (53 + e1 - (53 + e2))) (e1 - e2) = e1 - e2 - 53)
    as -> by (unfold fexp, prec, emin, emax; lia).
  replace (e1 - e2 - (e1 - e2 - 53)) with 53 by lia.
  rewrite Z.shiftl_mul_pow2 by lia.
  pose proof (Z_div_mod (Z.pos m1 * 2 ^ 53) (Z.pos m2) ltac:(lia)) as Hdiv.
  destruct (Z.div_eucl (Z.pos m1 * 2 ^ 53) (Z.pos m2)) as [q r].
  destruct Hdiv as [Eq Hr].
  assert (2 ^ 52 <= q < 2 ^ 54) as Hq.
  { change (2 ^ 54) with (2 * 2 ^ 53) in *. change (2 ^ 53) with (2 * 2 ^ 52) in *.
    split; nia. }
  destruct q as [|Q|Q]; try lia.
  set (e' := e1 - e2 - 53) in *.
  pose proof (digits2_pos_ge Q 53 ltac:(change (2 ^ (53 - 1)) with (2 ^ 52); lia)) as Dlo.
  pose proof (digits2_pos_le Q 54 ltac:(lia) ltac:(lia)) as Dhi.
  match goal with
  | |- context [binary_round_aux _ _ _ _ _ ?l] =>
      destruct (binary_round_aux_normal false Q e' l)
        as (m & e & -> & Hdm & He & B1 & B2); try (unfold e'; lia)
  end.
  split; [split; [done|unfold e' in *; lia]|].
  pose proof (scaled_sign false m e ltac:(unfold e' in *; lia)) as Hpos.
  cbn beta iota in Hpos. split; [lia|].
  unfold scaled in *. cbn [cond_Zopp] in *.
  replace (2 ^ (e + 1074)) with (2 ^ (e - e') * 2 ^ (e' + 1074))
    by (rewrite <- Z.pow_add_r by (unfold e' in *; lia); f_equal; lia).
  set (t := Z.pos m * 2 ^ (e - e')) in *.
  set (P := 2 ^ (e' + 1074)).
  assert (0 < P) as HP by (apply Z.pow_pos_nonneg; unfold e'; lia).
  set (K := 2 ^ (- e2)) in *.
  assert (0 < K) as HK by (apply Z.pow_pos_nonneg; lia).
  assert (a * unit_scale * K = (Z.pos m2 * Z.pos Q + r) * P) as EaU.
  { rewrite <- Eq, Hm1. unfold unit_scale, K, P, e'.
    rewrite <- !Z.mul_assoc, <- !Z.pow_add_r by lia.
    do 2 f_equal. lia. }
  rewrite Z.mul_assoc.
  set (X := t * P * n - a * unit_scale).
  assert (X * K = (t * Z.pos m2 - Z.pos m2 * Z.pos Q - r) * P) as EX.
  { unfold X. rewrite Z.mul_sub_distr_r, EaU, Hm2. fold K. lia. }
  set (x := t * Z.pos m2 - Z.pos m2 * Z.pos Q - r) in *.
  assert (2 ^ 51 * Z.abs x <= Z.pos m2 * Z.pos Q + r) as Hx.
  { apply quotient_error; [done|done|exact (proj1 Hq)|lia]. }
  assert (Z.abs (X * K) = Z.abs (x * P)) as EabsX by (by rewrite EX).
  rewrite !Z.abs_mul, (Z.abs_eq K), (Z.abs_eq P) in EabsX by lia.
  change (2 ^ 51 * Z.abs X <= a * unit_scale).
  apply (Z.mul_le_mono_pos_r _ _ K HK).
  rewrite EaU, <- Z.mul_assoc, EabsX, Z.mul_assoc.
  apply Z.mul_le_mono_nonneg_r; lia.
Qed.

(** ** The square of a window sum *)

Lemma sumZ_linear (a b c : Z) g h lo n :
  0 <= n ->
  sumZ (fun i => a * g i + b * h i + c) lo n
  = a * sumZ g lo n + b * sumZ h lo n + c * n.
Proof.
  intros Hn. pattern n. apply natlike_ind; [| |done].
  - rewrite !sumZ_nil by lia. lia.
  - intros k Hk IH. rewrite <- Z.add_1_r, !sumZ_succ, IH by done. lia.
Qed.

Lemma window_sumZ_linear (a b c : Z) g h wx wy ws :
  0 <= ws ->
  window_sumZ (fun i j => a * g i j + b * h i j + c) wx wy ws
  = a * window_sumZ g wx wy ws + b * window_sumZ h wx wy ws + c * (ws * ws).
Proof.
  intros Hws. unfold window_sumZ.
  rewrite (sumZ_ext _ (fun j => a * sumZ (fun i => g i j) wx ws
                               + b * sumZ (fun i => h i j) wx ws + c * ws))
    by (intros j _; by apply sumZ_linear).
  rewrite sumZ_linear by done. lia.
Qed.

(** The square of the sum of a window is at most the number of its pixels
    times the sum of the squares. *)
Lemma window_sumZ_square f wx wy ws :
  0 < ws ->
  window_sumZ f wx wy ws * window_sumZ f wx wy ws
  <= ws * ws * window_sumZ (fun i j => f i j * f i j) wx wy ws.
Proof.
  intros Hws. set (S := window_sumZ f wx wy ws).
  set (S2 := window_sumZ (fun i j => f i j * f i j) wx wy ws).
  set (n := ws * ws). assert (0 < n) as Hn by (unfold n; nia).
  assert (0 <= window_sumZ (fun i j => (n * f i j - S) * (n * f i j - S)) wx wy ws)
    as Hpos.
  { unfold window_sumZ. apply sumZ_nonneg. intros j _. apply sumZ_nonneg.
    intros i _. apply Z.square_nonneg. }
  assert (window_sumZ (fun i j => (n * f i j - S) * (n * f i j - S)) wx wy ws
          = n * n * S2 + (- (2 * n * S)) * S + S * S * n) as E.
  { transitivity (window_sumZ (fun i j => n * n * (f i j * f i j)
                                          + - (2 * n * S) * f i j + S * S) wx wy ws).
    - unfold window_sumZ. apply sumZ_ext. intros j _. apply sumZ_ext.
      intros i _. ring.
    - rewrite window_sumZ_linear by lia. fold S S2 n. ring. }
  rewrite E in Hpos. clearbody S S2 n. nia.
Qed.

(** ** Rounding errors of the variance *)

Lemma close_to_nonneg (r x : Z) : close_to r x -> 0 <= x -> 0 <= r.
Proof. unfold close_to. lia. Qed.

Lemma close_to_pos (r x : Z) : close_to r x -> 0 < x -> 0 < r.
Proof. unfold close_to. lia. Qed.

(** With a mean [M] and a mean of squares [A] within one part in [2^51]
    of [S / n] and [S2 / n], and a square [MM] within one part in [2^52]
    of [M * M], the difference [A - MM] is above [- 2^-33], in units of
    [1 / U]. *)
Lemma variance_bound (U n S S2 M A MM : Z) :
  0 < U -> 0 < n -> 0 <= S -> S * S <= n * S2 -> S2 <= 65025 * n ->
  0 <= M ->
  2 ^ 51 * Z.abs (M * n - S * U) <= S * U ->
  2 ^ 51 * Z.abs (A * n - S2 * U) <= S2 * U ->
  close_to (MM * U) (M * M) ->
  - U <= 2 ^ 33 * (A - MM).
Proof.
  unfold close_to. intros HU Hn HS HCS HS2 HM F1 F2 F3.
  assert (0 <= M * M) as HMM by nia.
  rewrite (Z.abs_eq (M * M)) in F3 by done.
  change (2 ^ 52) with (2 * 2 ^ 51) in F3.
  set (c := 2 ^ 51) in *.
  assert (c = 2251799813685248) as Ec by reflexivity.
  assert (0 <= S2) as HS2' by nia.
  assert (c * n * M <= (c + 1) * S * U) as Ha by lia.
  assert (0 <= c * n * M) as Hp by (rewrite Ec; nia).
  set (p := c * n * M) in *. set (q := (c + 1) * S * U) in *.
  assert (p * p <= q * q) as Hpq by nia.
  assert (2 * c * (MM * U) <= (2 * c + 1) * (M * M)) as Hc by lia.
  assert (2 * c * (c * c) * (n * n) * (MM * U) <= (2 * c + 1) * (p * p)) as Hc2.
  { replace (p * p) with (c * c * (n * n) * (M * M)) by (unfold p; ring).
    replace (2 * c * (c * c) * (n * n) * (MM * U))
      with (c * c * (n * n) * (2 * c * (MM * U))) by ring.
    replace ((2 * c + 1) * (c * c * (n * n) * (M * M)))
      with (c * c * (n * n) * ((2 * c + 1) * (M * M))) by ring.
    apply Z.mul_le_mono_nonneg_l; [rewrite Ec; nia|done]. }
  assert (q * q <= (c + 1) * (c + 1) * (U * U) * (n * S2)) as Hq2.
  { replace (q * q) with ((c + 1) * (c + 1) * (U * U) * (S * S)) by (unfold q; ring).
    apply Z.mul_le_mono_nonneg_l; [rewrite Ec; nia|done]. }
  assert (2 * c * (c * c) * n * MM * (n * U)
          <= (2 * c + 1) * ((c + 1) * (c + 1)) * S2 * U * (n * U)) as Hd.
  { replace (2 * c * (c * c) * n * MM * (n * U))
      with (2 * c * (c * c) * (n * n) * (MM * U)) by ring.
    replace ((2 * c + 1) * ((c + 1) * (c + 1)) * S2 * U * (n * U))
      with ((2 * c + 1) * ((c + 1) * (c + 1) * (U * U) * (n * S2))) by ring.
    rewrite Ec in *. lia. }
  apply Z.mul_le_mono_pos_r in Hd; [|nia].
  assert ((c - 1) * S2 * U <= c * (A * n)) as Hb by lia.
  clearbody p q. clear Hpq Hc2 Hq2 Ha Hp Hc F1 F2 F3.
  assert (- (8 * c * c * 65025 * U) * n <= 2 * c * c * c * (A - MM) * n) as He.
  { assert (S2 * U <= 65025 * n * U) by nia.
    set (T := S2 * U) in *. set (An := A * n) in *. set (Mn := n * MM).
    replace (2 * c * c * c * (A - MM) * n)
      with (2 * c * c * c * An - 2 * c * (c * c) * Mn) by (unfold An, Mn; ring).
    replace (2 * c * (c * c) * n * MM) with (2 * c * (c * c) * Mn) in Hd
      by (unfold Mn; ring).
    replace ((2 * c + 1) * ((c + 1) * (c + 1)) * S2 * U)
      with ((2 * c + 1) * ((c + 1) * (c + 1)) * T) in Hd by (unfold T; ring).
    replace ((c - 1) * S2 * U) with ((c - 1) * T) in Hb by (unfold T; ring).
    replace (- (8 * c * c * 65025 * U) * n)
      with (- (8 * c * c * (65025 * n * U))) by ring.
    assert (0 <= T) by (unfold T; nia).
    set (W := 65025 * n * U) in *.
    clearbody T An Mn W. rewrite Ec in *. lia. }
  apply Z.mul_le_mono_pos_r in He; [|done].
  rewrite Ec in He. lia.
Qed.

(** ** Double precision: the statistics of a window of 8-bit samples *)

Lemma unit_scale_pos : 0 < unit_scale.
Proof. unfold unit_scale. by apply Z.pow_pos_nonneg. Qed.

(** The square of the rounded mean [S / n]. *)
Lemma mean_square_SF (S n : Z) :
  0 <= S < 2 ^ 53 -> 0 < n < 2 ^ 53 ->
  zero_or_normal (-158) 56
    (SF64mul (SF64div (SFint S) (SFint n)) (SF64div (SFint S) (SFint n))) /\
  0 <= scaled
    (SF64mul (SF64div (SFint S) (SFint n)) (SF64div (SFint S) (SFint n))).
Proof.
  intros HS Hn. destruct (SF64div_int_close S n HS Hn) as (Hm & Hpos & F1).
  set (m := SF64div (SFint S) (SFint n)) in *.
  destruct (SF64mul_close (-105) 1 (-105) 1 m m) as [Hz Hc]; try (done || lia).
  split; [done|].
  apply close_to_nonneg in Hc; [|nia].
  pose proof unit_scale_pos. nia.
Qed.

(** The rounded variance [S2 / n - (S / n) * (S / n)] of samples in
    [[0, 255]] is above [- 2^-32]. *)
Lemma variance_SF (S S2 n : Z) :
  0 < n -> 0 <= S <= 255 * n -> S * S <= n * S2 -> S2 <= 65025 * n ->
  65025 * n < 2 ^ 53 ->
  zero_or_normal (-210) 58
    (SF64sub (SF64div (SFint S2) (SFint n))
       (SF64mul (SF64div (SFint S) (SFint n)) (SF64div (SFint S) (SFint n)))) /\
  - unit_scale
  <= 2 ^ 32 * scaled
       (SF64sub (SF64div (SFint S2) (SFint n))
          (SF64mul (SF64div (SFint S) (SFint n)) (SF64div (SFint S) (SFint n)))).
Proof.
  intros Hn HS HCS HS2 Hsize.
  assert (0 <= S2) as HS2' by nia.
  destruct (SF64div_int_close S n ltac:(lia) ltac:(lia)) as (Hm & Hpos & F1).
  destruct (SF64div_int_close S2 n ltac:(lia) ltac:(lia)) as (Ha & _ & F2).
  set (m := SF64div (SFint S) (SFint n)) in *.
  set (a := SF64div (SFint S2) (SFint n)) in *.
  destruct (SF64mul_close (-105) 1 (-105) 1 m m) as [Hmm Hc]; try (done || lia).
  set (mm := SF64mul m m) in *.
  destruct (SF64sub_close (-158) 56 a mm) as [Hv Hcv]; try (done || lia).
  { by apply (zero_or_normal_weaken (-105) 1); [lia|lia|]. }
  split; [done|].
  pose proof (variance_bound unit_scale n S S2 (scaled m) (scaled a) (scaled mm)
                unit_scale_pos Hn ltac:(lia) HCS HS2 Hpos F1 F2 Hc) as Hd.
  pose proof unit_scale_pos.
  unfold close_to in Hcv. lia.
Qed.

(** The denominator [(mmx + mmy + c1) * (vx + vy + c2)] of squares that
    are not negative, variances above [- 2^-32] and constants [c1 > 0] and
    [c2 >= 58] is a finite positive double. *)
Lemma den_SF_positive (c1 c2 mmx mmy vx vy : spec_float) :
  zero_or_normal (-158) 56 mmx -> 0 <= scaled mmx ->
  zero_or_normal (-158) 56 mmy -> 0 <= scaled mmy ->
  zero_or_normal (-210) 58 vx -> - unit_scale <= 2 ^ 32 * scaled vx ->
  zero_or_normal (-210) 58 vy -> - unit_scale <= 2 ^ 32 * scaled vy ->
  zero_or_normal (-210) 58 c1 -> 0 < scaled c1 ->
  zero_or_normal (-262) 60 c2 -> 58 * unit_scale <= scaled c2 ->
  normal_within (-524) 176
    (SF64mul (SF64add (SF64add mmx mmy) c1) (SF64add (SF64add vx vy) c2)) /\
  exists m e,
    SF64mul (SF64add (SF64add mmx mmy) c1) (SF64add (SF64add vx vy) c2)
    = S754_finite false m e.
Proof.
  intros Hx Px Hy Py Hvx Pvx Hvy Pvy Hc1 Pc1 Hc2 Pc2.
  pose proof unit_scale_pos as HU.
  destruct (SF64add_close (-158) 56 mmx mmy Hx Hy ltac:(lia) ltac:(lia))
    as [H1 C1].
  set (s1 := SF64add mmx mmy) in *.
  apply close_to_nonneg in C1; [|lia].
  destruct (SF64add_close (-210) 58 s1 c1 H1 Hc1 ltac:(lia) ltac:(lia))
    as [H2 C2].
  set (A1 := SF64add s1 c1) in *.
  apply close_to_pos in C2; [|lia].
  destruct (SF64add_close (-210) 58 vx vy Hvx Hvy ltac:(lia) ltac:(lia))
    as [H3 C3].
  set (s2 := SF64add vx vy) in *.
  assert (- (4 * unit_scale) <= 2 ^ 32 * scaled s2) as Ps2
    by (unfold close_to in C3; lia).
  destruct (SF64add_close (-262) 60 s2 c2 H3 Hc2 ltac:(lia) ltac:(lia))
    as [H4 C4].
  set (B1 := SF64add s2 c2) in *.
  apply close_to_pos in C4; [|lia].
  destruct (SF64mul_close (-262) 60 (-314) 62 A1 B1 H2 H4
              ltac:(lia) ltac:(lia) ltac:(lia) ltac:(lia)) as [H5 C5].
  apply close_to_pos in C5; [|nia].
  destruct (SF64mul A1 B1) as [s| | |s m e]; try done.
  split; [exact H5|].
  exists m, e. destruct s; [|done].
  destruct H5 as [_ He].
  pose proof (scaled_sign true m e ltac:(lia)) as Hneg.
  cbn beta iota in Hneg. nia.
Qed.

(** ** Double precision: 8-bit images under the default constants *)

(** The default [c1 = (0.01 * 255)^2] and [c2 = (0.03 * 255)^2] as
    doubles. *)
Lemma default_c1_SF :
  Prim2SF (@c1_of binary64 None) = S754_finite false 7321164144244164 (-50).
Proof. by vm_compute. Qed.

Lemma default_c2_SF :
  Prim2SF (@c2_of binary64 None) = S754_finite false 8236309662274682 (-47).
Proof. by vm_compute. Qed.

Lemma default_c2_above_58 :
  58 * unit_scale <= scaled (S754_finite false 8236309662274682 (-47)).
Proof.
  unfold unit_scale, scaled. cbn [cond_Zopp].
  replace 1074 with (47 + 1027) by lia.
  replace (-47 + (47 + 1027)) with 1027 by lia.
  rewrite Z.pow_add_r by lia.
  assert (0 < 2 ^ 1027) by (by apply Z.pow_pos_nonneg).
  change (2 ^ 47) with 140737488355328. lia.
Qed.

(** The sums over a window of an image of samples in [[0, 255]]. *)
Lemma window_sums_8bit img w wx wy ws :
  samples_within 255 img -> 0 < ws ->
  let S := window_sumZ (pixel img w) wx wy ws in
  let S2 := window_sumZ (fun i j => pixel img w i j * pixel img w i j) wx wy ws in
  0 <= S <= 255 * (ws * ws) /\ S * S <= ws * ws * S2 /\
  0 <= S2 <= 65025 * (ws * ws).
Proof.
  intros Himg Hws S S2.
  pose proof (window_sumZ_bounds (pixel img w) 255 wx wy ws ltac:(lia)
                (fun i j => pixel_within img w i j 255 ltac:(lia) Himg)) as B1.
  pose proof (window_sumZ_bounds
                (fun i j => pixel img w i j * pixel img w i j) 65025 wx wy ws
                ltac:(lia)) as B2.
  fold S in B1. fold S2 in B2.
  split; [lia|]. split; [apply window_sumZ_square; lia|].
  assert (0 <= S2 <= ws * ws * 65025); [|lia].
  apply B2. intros i j.
  pose proof (pixel_within img w i j 255 ltac:(lia) Himg). nia.
Qed.

(** The denominator of every window of two 8-bit images, as the
    specification of floats sees it. *)
Lemma call_den_SF img1 img2 w h options wy wx :
  length img1 = Z.to_nat (w * h) -> length img2 = Z.to_nat (w * h) ->
  samples_within 255 img1 -> samples_within 255 img2 ->
  2 * (w * h * (255 * 255)) < 2 ^ 53 ->
  0 < ws_of options -> default_constants options ->
  0 <= wy < h - ws_of options + 1 -> 0 <= wx < w - ws_of options + 1 ->
  normal_within (-524) 176
    (Prim2SF (@call_den binary64 img1 img2 w h options wy wx)) /\
  exists m e,
    Prim2SF (@call_den binary64 img1 img2 w h options wy wx)
    = S754_finite false m e.
Proof.
  intros H1 H2 P1 P2 Hsize Hws Hdef Hwy Hwx.
  destruct (default_constants_c1 options Hdef) as [E1 E2].
  unfold call_den. rewrite E1, E2. clear E1 E2.
  set (ws := ws_of options) in *.
  destruct (window_rects_binary64 img1 img2 w h 255 wx wy ws)
    as (EX & EY & EX2 & EY2 & _); try (done || lia).
  unfold window_rect in *. unfold ssim_den, call_stats, window_stats. fold ws.
  cbv zeta. cbn [meanX meanY varX varY]. rewrite EX, EY, EX2, EY2.
  cbn [num of_Z add sub mul div binary64].
  destruct (window_sums_8bit img1 w wx wy ws P1 Hws) as (B1 & CS1 & B12).
  destruct (window_sums_8bit img2 w wx wy ws P2 Hws) as (B2 & CS2 & B22).
  assert (1 <= ws * ws <= w * h) as Hn by nia.
  set (n := ws * ws) in *.
  set (Sx := window_sumZ (pixel img1 w) wx wy ws) in *.
  set (Sy := window_sumZ (pixel img2 w) wx wy ws) in *.
  set (Sx2 := window_sumZ (fun i j => pixel img1 w i j * pixel img1 w i j) wx wy ws)
    in *.
  set (Sy2 := window_sumZ (fun i j => pixel img2 w i j * pixel img2 w i j) wx wy ws)
    in *.
  assert (65025 * n < 2 ^ 53) as Hn53 by lia.
  rewrite mul_spec, !add_spec, !sub_spec, !mul_spec, !div_spec.
  rewrite !Prim2SF_float_of_Z by lia.
  rewrite default_c1_SF, default_c2_SF.
  destruct (mean_square_SF Sx n ltac:(lia) ltac:(lia)) as [Mx Px].
  destruct (mean_square_SF Sy n ltac:(lia) ltac:(lia)) as [My Py].
  destruct (variance_SF Sx Sx2 n ltac:(lia) ltac:(lia) CS1 ltac:(lia) Hn53)
    as [Vx Qx].
  destruct (variance_SF Sy Sy2 n ltac:(lia) ltac:(lia) CS2 ltac:(lia) Hn53)
    as [Vy Qy].
  apply den_SF_positive; (apply default_c2_above_58 || done).
Qed.

(** The mean of every window of an 8-bit image is zero or a normal
    double. *)
Lemma call_mean_SF img1 img2 w h options wy wx :
  length img1 = Z.to_nat (w * h) -> length img2 = Z.to_nat (w * h) ->
  samples_within 255 img1 -> samples_within 255 img2 ->
  2 * (w * h * (255 * 255)) < 2 ^ 53 ->
  0 < ws_of options ->
  0 <= wy < h - ws_of options + 1 -> 0 <= wx < w - ws_of options + 1 ->
  zero_or_normal (-105) 1
    (Prim2SF (meanX (@call_stats binary64 img1 img2 w h options wy wx))).
Proof.
  intros H1 H2 P1 P2 Hsize Hws Hwy Hwx.
  set (ws := ws_of options) in *.
  destruct (window_rects_binary64 img1 img2 w h 255 wx wy ws)
    as (EX & _); try (done || lia).
  unfold window_rect in *. unfold call_stats, window_stats. fold ws.
  cbv zeta. cbn [meanX]. rewrite EX.
  cbn [num of_Z div binary64].
  destruct (window_sums_8bit img1 w wx wy ws P1 Hws) as (B1 & _ & _).
  assert (1 <= ws * ws <= w * h) as Hn by nia.
  set (n := ws * ws) in *.
  rewrite div_spec, !Prim2SF_float_of_Z by lia.
  apply SF64div_int_close; lia.
Qed.

Lemma identity_safe_8bit img w h options :
  length img = Z.to_nat (w * h) -> samples_within 255 img ->
  2 * (w * h * (255 * 255)) < 2 ^ 53 ->
  0 < ws_of options -> default_constants options ->
  identity_safe img w h options.
Proof.
  intros Hlen Himg Hsize Hws Hdef wy wx Hwy Hwx.
  split; [|split].
  - exact (proj1 (means_double_safely_within img img w h 255 options
                    Hlen Hlen Himg Himg ltac:(lia) Hsize Hws wy wx Hwy Hwx)).
  - pose proof (call_mean_SF img img w h options wy wx
                  Hlen Hlen Himg Himg Hsize Hws Hwy Hwx) as Hm.
    unfold squares_safely.
    destruct (Prim2SF (meanX (@call_stats binary64 img img w h options wy wx)))
      as [| | |s m e]; try done.
    destruct Hm as [-> He]. rewrite Z.eqb_refl. apply Z.leb_le. lia.
  - destruct (call_den_SF img img w h options wy wx) as (_ & m & e & E);
      try done.
    unfold regular. by rewrite E.
Qed.

(** X10.  In double precision, under the default [k1], [k2] and
    [bitDepth], every 8-bit image compared with itself scores exactly
    [1.0]: for all samples in [[0, 255]], every window size that is
    positive and every image size with [2 * w * h * 255^2 < 2^53], the
    rounding errors of the means and variances never reach the result. *)
Theorem ssimGrey_identity_8bit img w h options :
  length img = Z.to_nat (w * h) -> samples_within 255 img ->
  2 * (w * h * (255 * 255)) < 2 ^ 53 ->
  0 < ws_of options -> default_constants options ->
  @ssimGrey binary64 img img w h options = Return 1%float.
Proof.
  intros Hlen Himg Hsize Hws Hdef.
  destruct (decide (w - ws_of options + 1 <= 0 \/ h - ws_of options + 1 <= 0))
    as [Hdeg|Hwin].
  - rewrite ssimGrey_guard by (by apply degenerate_guard). reflexivity.
  - apply ssimGrey_identity_binary64; [lia|lia|nia|].
    by apply identity_safe_8bit.
Qed.

Lemma ssimGrey_identity_8bit_witness :
  @ssimGrey binary64 imgC imgC 3 3 (with_window 2) = Return 1%float.
Proof.
  apply (ssimGrey_identity_8bit imgC 3 3 (with_window 2));
    try reflexivity; try lia.
  - apply samples_within_imgC.
  - by vm_compute.
Defined.

(** X16.  In double precision, under the default [k1], [k2] and
    [bitDepth], the denominator of every window of two 8-bit images is a
    finite positive double: the rounded variances can be negative, but
    never by enough to cancel [c2], so that no window divides by zero. *)
Theorem call_den_positive_8bit img1 img2 w h options wy wx :
  length img1 = Z.to_nat (w * h) -> length img2 = Z.to_nat (w * h) ->
  samples_within 255 img1 -> samples_within 255 img2 ->
  2 * (w * h * (255 * 255)) < 2 ^ 53 ->
  0 < ws_of options -> default_constants options ->
  0 <= wy < h - ws_of options + 1 -> 0 <= wx < w - ws_of options + 1 ->
  exists m e,
    Prim2SF (@call_den binary64 img1 img2 w h options wy wx)
    = S754_finite false m e.
Proof. intros. by apply call_den_SF. Qed.

Lemma call_den_positive_8bit_witness :
  exists m e,
    Prim2SF (@call_den binary64 imgC imgD 3 3 (with_window 2) 0 0)
    = S754_finite false m e.
Proof.
  apply (call_den_positive_8bit imgC imgD 3 3 (with_window 2) 0 0);
    first [reflexivity | lia | apply samples_within_imgC
          | apply samples_within_imgD | by vm_compute].
Defined.

(** ** Double precision: the value of a window of 8-bit samples *)

(** The quotient of a zero or normal double by a normal double, clear of
    underflow and overflow, is zero or normal. *)
Lemma SF64div_normal (lo1 hi1 lo2 hi2 : Z) (x y : spec_float) :
  zero_or_normal lo1 hi1 x -> normal_within lo2 hi2 y ->
  -1074 <= lo1 - hi2 - 53 -> hi1 - lo2 - 51 <= 971 ->
  zero_or_normal (lo1 - hi2 - 53) (hi1 - lo2 - 51) (SF64div x y).
Proof.
  intros Hx Hy Hlo Hhi.
  destruct y as [| | |s2 m2 e2]; try done. destruct Hy as [Hd2 He2].
  destruct x as [s1| | |s1 m1 e1]; try done. destruct Hx as [Hd1 He1].
  pose proof (digits2_pos_bounds m1) as Bm1. rewrite Hd1 in Bm1.
  pose proof (digits2_pos_bounds m2) as Bm2. rewrite Hd2 in Bm2.
  change (2 ^ (53 - 1)) with (2 ^ 52) in *.
  unfold SF64div, SFdiv, SFdiv_core_binary. cbn [Zdigits2].
  rewrite Hd1, Hd2.
  assert (Z.min (fexp prec emax (53 + e1 - (53 + e2))) (e1 - e2) = e1 - e2 - 53)
    as -> by (unfold fexp, prec, emin, emax; lia).
  replace (e1 - e2 - (e1 - e2 - 53)) with 53 by lia.
  rewrite Z.shiftl_mul_pow2 by lia.
  pose proof (Z_div_mod (Z.pos m1 * 2 ^ 53) (Z.pos m2) ltac:(lia)) as Hdiv.
  destruct (Z.div_eucl (Z.pos m1 * 2 ^ 53) (Z.pos m2)) as [q r].
  destruct Hdiv as [Eq Hr].
  assert (2 ^ 52 <= q < 2 ^ 54) as Hq.
  { change (2 ^ 54) with (2 * 2 ^ 53) in *. change (2 ^ 53) with (2 * 2 ^ 52) in *.
    split; nia. }
  destruct q as [|Q|Q]; try lia.
  set (e' := e1 - e2 - 53) in *.
  pose proof (digits2_pos_ge Q 53 ltac:(change (2 ^ (53 - 1)) with (2 ^ 52); lia))
    as Dlo.
  pose proof (digits2_pos_le Q 54 ltac:(lia) ltac:(lia)) as Dhi.
  match goal with
  | |- context [binary_round_aux _ _ ?s _ _ ?l] =>
      destruct (binary_round_aux_normal s Q e' l)
        as (m & e & -> & Hdm & He & _); try (unfold e'; lia)
  end.
  split; [done|unfold e' in *; lia].
Qed.

(** The numerator [(2 mx my + c1) * (2 cov + c2)] of means, a mean of
    products and constants that are zero or normal doubles in the ranges
    of 8-bit samples is zero or normal. *)
Lemma num_SF_range (c1 c2 mx my axy : spec_float) :
  zero_or_normal (-105) 1 mx -> zero_or_normal (-105) 1 my ->
  zero_or_normal (-105) 1 axy ->
  zero_or_normal (-210) 58 c1 -> zero_or_normal (-262) 60 c2 ->
  zero_or_normal (-524) 284
    (SF64mul (SF64add (SF64mul (SF64mul (SFint 2) mx) my) c1)
       (SF64add (SF64mul (SFint 2) (SF64sub axy (SF64mul mx my))) c2)).
Proof.
  intros Hx Hy Hxy Hc1 Hc2.
  assert (zero_or_normal (-52) 0 (SFint 2)) as H2 by done.
  destruct (SF64mul_close (-52) 0 (-105) 1 (SFint 2) mx H2 Hx
              ltac:(lia) ltac:(lia) ltac:(lia) ltac:(lia)) as [T1 _].
  destruct (SF64mul_close _ _ (-105) 1 _ my T1 Hy
              ltac:(lia) ltac:(lia) ltac:(lia) ltac:(lia)) as [T2 _].
  destruct (SF64add_close (-210) 112 (SF64mul (SF64mul (SFint 2) mx) my) c1)
    as [N1 _]; [|by apply (zero_or_normal_weaken (-210) 58)|lia|lia|].
  { revert T2. apply zero_or_normal_weaken; lia. }
  destruct (SF64mul_close (-105) 1 (-105) 1 mx my Hx Hy
              ltac:(lia) ltac:(lia) ltac:(lia) ltac:(lia)) as [P _].
  destruct (SF64sub_close (-158) 56 axy (SF64mul mx my)) as [C _];
    [by apply (zero_or_normal_weaken (-105) 1)|exact P|lia|lia|].
  destruct (SF64mul_close (-52) 0 _ _ (SFint 2) _ H2 C
              ltac:(lia) ltac:(lia) ltac:(lia) ltac:(lia)) as [T3 _].
  destruct (SF64add_close (-262) 114
              (SF64mul (SFint 2) (SF64sub axy (SF64mul mx my))) c2)
    as [N2 _]; [|by apply (zero_or_normal_weaken (-262) 60)|lia|lia|].
  { revert T3. apply zero_or_normal_weaken; lia. }
  destruct (SF64mul_close _ _ _ _ _ _ N1 N2
              ltac:(lia) ltac:(lia) ltac:(lia) ltac:(lia)) as [R _].
  revert R. apply zero_or_normal_weaken; lia.
Qed.

(** The value of every window of two 8-bit images, as the specification
    of floats sees it. *)
Lemma call_val_SF img1 img2 w h options wy wx :
  length img1 = Z.to_nat (w * h) -> length img2 = Z.to_nat (w * h) ->
  samples_within 255 img1 -> samples_within 255 img2 ->
  2 * (w * h * (255 * 255)) < 2 ^ 53 ->
  0 < ws_of options -> default_constants options ->
  0 <= wy < h - ws_of options + 1 -> 0 <= wx < w - ws_of options + 1 ->
  zero_or_normal (-753) 757
    (Prim2SF (@call_val binary64 img1 img2 w h options wy wx)).
Proof.
  intros H1 H2 P1 P2 Hsize Hws Hdef Hwy Hwx.
  destruct (call_den_SF img1 img2 w h options wy wx H1 H2 P1 P2 Hsize Hws Hdef
              Hwy Hwx) as [Hden _].
  pose proof (call_mean_SF img1 img2 w h options wy wx H1 H2 P1 P2 Hsize Hws
                Hwy Hwx) as Hmx.
  unfold call_den in Hden. unfold call_val, window_val.
  fold (@call_stats binary64 img1 img2 w h options wy wx).
  cbn [num div binary64]. rewrite div_spec.
  apply (SF64div_normal (-524) 284 (-524) 176); [|exact Hden|lia|lia].
  clear Hden.
  destruct (default_constants_c1 options Hdef) as [E1 E2].
  rewrite E1, E2. clear E1 E2.
  unfold call_stats in *. set (ws := ws_of options) in *.
  destruct (window_rects_binary64 img1 img2 w h 255 wx wy ws)
    as (EX & EY & _ & _ & EXY); try (done || lia).
  unfold window_rect in *. unfold ssim_num, window_stats in *.
  cbv zeta in *. cbn [meanX meanY covXY] in *. rewrite EX, EY, EXY in *.
  cbn [num of_Z add sub mul div binary64] in *.
  destruct (window_sums_8bit img1 w wx wy ws P1 Hws) as (B1 & _ & _).
  destruct (window_sums_8bit img2 w wx wy ws P2 Hws) as (B2 & _ & _).
  pose proof (window_sumZ_bounds
                (fun i j => pixel img1 w i j * pixel img2 w i j) 65025 wx wy ws
                ltac:(lia)) as B3.
  assert (1 <= ws * ws <= w * h) as Hn by nia.
  set (n := ws * ws) in *.
  set (Sx := window_sumZ (pixel img1 w) wx wy ws) in *.
  set (Sy := window_sumZ (pixel img2 w) wx wy ws) in *.
  set (Sxy := window_sumZ (fun i j => pixel img1 w i j * pixel img2 w i j) wx wy ws)
    in *.
  assert (0 <= Sxy <= n * 65025) as B3'.
  { apply B3. intros i j.
    pose proof (pixel_within img1 w i j 255 ltac:(lia) P1).
    pose proof (pixel_within img2 w i j 255 ltac:(lia) P2). nia. }
  rewrite mul_spec, !add_spec, !mul_spec, sub_spec, !mul_spec, !div_spec.
  rewrite !Prim2SF_float_of_Z by lia.
  rewrite default_c1_SF, default_c2_SF.
  apply num_SF_range; try done; apply SF64div_int_close; lia.
Qed.

(** ** Double precision: sums and quotients of any finite doubles *)

Lemma digits_exponent_bound (p : positive) (ez : Z) :
  -1074 <= ez -> Z.pos p * 2 ^ (ez + 1074) < 2 ^ 2097 ->
  Z.pos (digits2_pos p) + ez <= 1023.
Proof.
  intros Hez Hp. pose proof (digits2_pos_bounds p) as [Hlo _].
  set (d := Z.pos (digits2_pos p)) in *.
  apply Z.nlt_ge. intros Hlt.
  assert (2 ^ 2097 <= 2 ^ (d - 1) * 2 ^ (ez + 1074)) as H1.
  { rewrite <- Z.pow_add_r by (unfold d; lia). apply Z.pow_le_mono_r; lia. }
  assert (0 < 2 ^ (ez + 1074)) as H2 by (apply Z.pow_pos_nonneg; lia).
  assert (2 ^ (d - 1) * 2 ^ (ez + 1074) <= Z.pos p * 2 ^ (ez + 1074)) as H3
    by (apply Z.mul_le_mono_nonneg_r; lia).
  lia.
Qed.

(** Rounding [p * 2^ez] below the overflow threshold gives a finite double
    within one part in [2^52]; a result in the subnormal range is exact. *)
Lemma binary_round_bounded (s : bool) (p : positive) (ez : Z) :
  -1074 <= ez -> Z.pos p * 2 ^ (ez + 1074) < 2 ^ 2097 ->
  exists m e,
    binary_round prec emax s p ez = S754_finite s m e /\ -1074 <= e /\
    close_to (scaled (S754_finite s m e))
      (cond_Zopp s (Z.pos p) * 2 ^ (ez + 1074)).
Proof.
  intros Hez Hp. pose proof (digits_exponent_bound p ez Hez Hp) as Hd.
  set (d := Z.pos (digits2_pos p)) in *.
  assert (1 <= d) by (unfold d; lia).
  assert (0 < 2 ^ (ez + 1074)) as HP by (apply Z.pow_pos_nonneg; lia).
  unfold binary_round. fold d.
  destruct (Z_le_gt_dec (-1074) (d + ez - 53)) as [Hn|Hs].
  - assert (fexp prec emax (d + ez) = d + ez - 53) as ->
      by (unfold fexp, prec, emin, emax; lia).
    unfold shl_align.
    destruct (d + ez - 53 - ez) as [|q|q] eqn:Eq.
    + rewrite binary_round_aux_canonical
        by (fold d; unfold fexp, prec, emin, emax; lia).
      destruct (Z.leb_spec ez (emax - prec)); [|unfold emax, prec in *; lia].
      exists p, ez. split; [done|]. split; [lia|]. apply close_to_refl.
    + destruct (binary_round_aux_normal s p ez loc_Exact)
        as (m & e & -> & Hdm & He & B1 & B2); fold d; try lia.
      fold d in He. exists m, e. split; [done|]. split; [lia|].
      unfold scaled.
      replace (2 ^ (e + 1074)) with (2 ^ (e - ez) * 2 ^ (ez + 1074))
        by (rewrite <- Z.pow_add_r by lia; f_equal; lia).
      set (t := Z.pos m * 2 ^ (e - ez)) in *. set (P := 2 ^ (ez + 1074)) in *.
      assert (cond_Zopp s (Z.pos m) * (2 ^ (e - ez) * P) = cond_Zopp s t * P) as ->
        by (unfold t; destruct s; cbn [cond_Zopp]; lia).
      apply close_to_scale; (done || lia).
    + pose proof (digits2_pos_iter_xO p q) as Hq. fold d in Hq.
      rewrite binary_round_aux_canonical
        by (rewrite Hq; unfold fexp, prec, emin, emax; lia).
      destruct (Z.leb_spec (d + ez - 53) (emax - prec));
        [|unfold emax, prec in *; lia].
      exists (Pos.iter xO p q), (d + ez - 53). split; [done|]. split; [lia|].
      unfold scaled. rewrite Zpos_iter_xO.
      assert (2 ^ Z.pos q * 2 ^ (d + ez - 53 + 1074) = 2 ^ (ez + 1074)) as E
        by (rewrite <- Z.pow_add_r by lia; f_equal; lia).
      assert (cond_Zopp s (Z.pos p * 2 ^ Z.pos q) * 2 ^ (d + ez - 53 + 1074)
              = cond_Zopp s (Z.pos p) * 2 ^ (ez + 1074)) as ->
        by (rewrite <- E; destruct s; cbn [cond_Zopp]; lia).
      apply close_to_refl.
  - assert (fexp prec emax (d + ez) = -1074) as ->
      by (unfold fexp, prec, emin, emax; lia).
    unfold shl_align.
    destruct (-1074 - ez) as [|q|q] eqn:Eq; [|lia|].
    + assert (ez = -1074) as -> by lia.
      rewrite binary_round_aux_canonical
        by (fold d; unfold fexp, prec, emin, emax; lia).
      exists p, (-1074). split; [done|]. split; [lia|]. apply close_to_refl.
    + pose proof (digits2_pos_iter_xO p q) as Hq. fold d in Hq.
      rewrite binary_round_aux_canonical
        by (rewrite Hq; unfold fexp, prec, emin, emax; lia).
      exists (Pos.iter xO p q), (-1074). split; [done|]. split; [lia|].
      unfold scaled. rewrite Zpos_iter_xO.
      replace (ez + 1074) with (Z.pos q) by lia.
      change (2 ^ (-1074 + 1074)) with 1. rewrite Z.mul_1_r.
      assert (cond_Zopp s (Z.pos p * 2 ^ Z.pos q)
              = cond_Zopp s (Z.pos p) * 2 ^ Z.pos q) as ->
        by (destruct s; cbn [cond_Zopp]; lia).
      apply close_to_refl.
Qed.

Lemma binary_normalize_bounded (D ez : Z) :
  -1074 <= ez -> Z.abs D * 2 ^ (ez + 1074) < 2 ^ 2097 ->
  finite_SF (binary_normalize prec emax D ez false) /\
  close_to (scaled (binary_normalize prec emax D ez false)) (D * 2 ^ (ez + 1074)).
Proof.
  intros Hez HD. destruct D as [|p|p]; cbn [binary_normalize].
  - split; [done|]. apply close_to_refl.
  - destruct (binary_round_bounded false p ez Hez HD) as (m & e & -> & _ & Hc).
    by split.
  - destruct (binary_round_bounded true p ez Hez HD) as (m & e & -> & _ & Hc).
    by split.
Qed.

Lemma valid_exponent (s : bool) (m : positive) (e : Z) :
  valid_binary (S754_finite s m e) = true -> -1074 <= e.
Proof. intros Hv. by destruct (valid_finite_cases s m e Hv) as [[? _] _]. Qed.

(** The sum of two finite doubles, below the overflow threshold. *)
Lemma SF64add_bounded (x y : spec_float) :
  valid_binary x = true -> valid_binary y = true ->
  finite_SF x -> finite_SF y ->
  Z.abs (scaled x + scaled y) < 2 ^ 2097 ->
  finite_SF (SF64add x y) /\
  close_to (scaled (SF64add x y)) (scaled x + scaled y).
Proof.
  intros Vx Vy Hx Hy Hb.
  destruct x as [sx| | |sx mx ex], y as [sy| | |sy my ey]; try done.
  - split; [by destruct sx, sy|]. destruct sx, sy; apply close_to_refl.
  - split; [done|]. apply close_to_refl.
  - split; [done|]. cbn [SF64add SFadd]. rewrite Z.add_0_r. apply close_to_refl.
  - pose proof (valid_exponent _ _ _ Vx). pose proof (valid_exponent _ _ _ Vy).
    unfold SF64add, SFadd. set (ez := Z.min ex ey).
    set (Dx := cond_Zopp sx (Z.pos (fst (shl_align mx ex ez)))).
    set (Dy := cond_Zopp sy (Z.pos (fst (shl_align my ey ez)))).
    assert ((Dx + Dy) * 2 ^ (ez + 1074)
            = scaled (S754_finite sx mx ex) + scaled (S754_finite sy my ey)) as E.
    { rewrite <- (scaled_aligned sx mx ex ez), <- (scaled_aligned sy my ey ez) by lia.
      fold Dx Dy. ring. }
    assert (0 < 2 ^ (ez + 1074)) as HP by (apply Z.pow_pos_nonneg; lia).
    rewrite <- E in *. apply binary_normalize_bounded; [lia|].
    rewrite Z.abs_mul, (Z.abs_eq (2 ^ (ez + 1074))) in Hb by lia. done.
Qed.

Lemma SF64sub_bounded (x y : spec_float) :
  valid_binary x = true -> valid_binary y = true ->
  finite_SF x -> finite_SF y ->
  Z.abs (scaled x - scaled y) < 2 ^ 2097 ->
  finite_SF (SF64sub x y) /\
  close_to (scaled (SF64sub x y)) (scaled x - scaled y).
Proof.
  intros Vx Vy Hx Hy Hb.
  destruct x as [sx| | |sx mx ex], y as [sy| | |sy my ey]; try done.
  - split; [by destruct sx, sy|]. destruct sx, sy; apply close_to_refl.
  - split; [done|]. cbn [SF64sub SFsub]. unfold scaled at 2. rewrite Z.sub_0_l.
    assert (scaled (S754_finite (negb sy) my ey) = - scaled (S754_finite sy my ey))
      as -> by (unfold scaled; destruct sy; cbn [cond_Zopp negb]; lia).
    apply close_to_refl.
  - split; [done|]. cbn [SF64sub SFsub]. rewrite Z.sub_0_r. apply close_to_refl.
  - pose proof (valid_exponent _ _ _ Vx). pose proof (valid_exponent _ _ _ Vy).
    unfold SF64sub, SFsub. set (ez := Z.min ex ey).
    set (Dx := cond_Zopp sx (Z.pos (fst (shl_align mx ex ez)))).
    set (Dy := cond_Zopp sy (Z.pos (fst (shl_align my ey ez)))).
    assert ((Dx - Dy) * 2 ^ (ez + 1074)
            = scaled (S754_finite sx mx ex) - scaled (S754_finite sy my ey)) as E.
    { rewrite <- (scaled_aligned sx mx ex ez), <- (scaled_aligned sy my ey ez) by lia.
      fold Dx Dy. ring. }
    assert (0 < 2 ^ (ez + 1074)) as HP by (apply Z.pow_pos_nonneg; lia).
    rewrite <- E in *. apply binary_normalize_bounded; [lia|].
    rewrite Z.abs_mul, (Z.abs_eq (2 ^ (ez + 1074))) in Hb by lia. done.
Qed.

Lemma cond_Zopp_mul (s : bool) (a b : Z) : cond_Zopp s a * b = cond_Zopp s (a * b).
Proof. destruct s; cbn [cond_Zopp]; lia. Qed.

Lemma abs_cond_Zopp (s : bool) (a : Z) : Z.abs (cond_Zopp s a) = Z.abs a.
Proof. destruct s; cbn [cond_Zopp]; lia. Qed.

Lemma cond_Zopp_sub (s : bool) (a b : Z) :
  cond_Zopp s a - cond_Zopp s b = cond_Zopp s (a - b).
Proof. destruct s; cbn [cond_Zopp]; lia. Qed.

(** Rounding a mantissa below [2^53] at the smallest exponent moves it by
    one unit at most. *)
Lemma binary_round_aux_subnormal (s : bool) (q : Z) (l : location) :
  0 <= q < 2 ^ 53 ->
  exists rho, q <= rho <= q + 1 /\
    finite_SF (binary_round_aux prec emax s q (-1074) l) /\
    scaled (binary_round_aux prec emax s q (-1074) l) = cond_Zopp s rho.
Proof.
  intros Hq. unfold binary_round_aux.
  pose proof (shr_fexp_div q (-1074) l ltac:(lia)) as [E1 E2]. cbv zeta in E1, E2.
  pose proof (Zdigits2_le q 53 Hq ltac:(lia)) as Dq.
  assert (0 <= Zdigits2 q) as Dq0 by (destruct q; cbn [Zdigits2]; lia).
  assert (Z.max 0 (fexp prec emax (Zdigits2 q + -1074) - -1074) = 0) as Ek
    by (unfold fexp, prec, emin, emax; lia).
  rewrite Ek in E1, E2. change (2 ^ 0) with 1 in E1. rewrite Z.div_1_r in E1.
  destruct (shr_fexp prec emax q (-1074) l) as [mrs' e'].
  cbn [fst snd] in E1, E2. subst e'.
  pose proof (round_nearest_even_bounds (shr_m mrs') (loc_of_shr_record mrs')) as Br.
  set (rho := round_nearest_even (shr_m mrs') (loc_of_shr_record mrs')) in *.
  rewrite E1 in Br. exists rho. split; [done|].
  pose proof (shr_fexp_div rho (-1074 + 0) loc_Exact ltac:(lia)) as [E3 E4].
  cbv zeta in E3, E4.
  destruct (shr_fexp prec emax rho (-1074 + 0) loc_Exact) as [mrs'' e''].
  cbn [fst snd] in E3, E4.
  destruct (Z_lt_le_dec rho (2 ^ 53)) as [Hlt|Hge].
  - pose proof (Zdigits2_le rho 53 ltac:(lia) ltac:(lia)) as Dr.
    assert (0 <= Zdigits2 rho) as Dr0 by (destruct rho; cbn [Zdigits2]; lia).
    assert (Z.max 0 (fexp prec emax (Zdigits2 rho + (-1074 + 0)) - (-1074 + 0)) = 0)
      as Ek2 by (unfold fexp, prec, emin, emax; lia).
    rewrite Ek2 in E3, E4. change (2 ^ 0) with 1 in E3. rewrite Z.div_1_r in E3.
    rewrite E3. subst e''.
    destruct rho as [|r|r]; [by destruct s| |lia].
    split; [done|].
    change (-1074 + 0 + 0 <=? emax - prec) with true. cbn [scaled].
    change (2 ^ (-1074 + 0 + 0 + 1074)) with 1. apply Z.mul_1_r.
  - assert (rho = 2 ^ 53) as Er by lia. rewrite Er in E3, E4.
    rewrite E3. subst e''. split; [done|]. rewrite Er. by destruct s.
Qed.

(** The quotient of a finite double by a count, below the overflow
    threshold: within one part in [2^51] of the exact quotient in the
    normal range, and within one unit in the subnormal range. *)
Lemma SF64div_count_bounded (x : spec_float) (k : Z) :
  valid_binary x = true -> finite_SF x -> 0 < k < 2 ^ 53 ->
  Z.abs (scaled x) < 2 ^ 2097 ->
  finite_SF (SF64div x (SFint k)) /\
  2 ^ 51 * Z.abs (scaled (SF64div x (SFint k)) * k - scaled x)
  <= Z.abs (scaled x) + 2 ^ 51 * k.
Proof.
  intros Vx Hfx Hk Hb.
  destruct (SFint_cases k) as [[? _]|(m2 & e2 & _ & E2 & Hd2 & He2 & Hm2)];
    [lia|lia|].
  destruct (Z.ltb_spec k 0); [lia|]. rewrite E2. rewrite Z.abs_eq in Hm2 by lia.
  destruct x as [sx| | |sx m1 e1]; try done.
  { split; [done|]. cbn. lia. }
  destruct (valid_finite_cases sx m1 e1 Vx) as [He1 Hd1].
  assert (Z.abs (scaled (S754_finite sx m1 e1)) = Z.pos m1 * 2 ^ (e1 + 1074)) as Eabs.
  { unfold scaled. rewrite cond_Zopp_mul, abs_cond_Zopp.
    assert (0 < 2 ^ (e1 + 1074)) by (apply Z.pow_pos_nonneg; lia). lia. }
  rewrite Eabs in *.
  pose proof (digits_exponent_bound m1 e1 ltac:(lia) Hb) as Hde.
  pose proof (digits2_pos_bounds m1) as Bm1.
  pose proof (digits2_pos_bounds m2) as Bm2. rewrite Hd2 in Bm2.
  change (2 ^ (53 - 1)) with (2 ^ 52) in *.
  set (d1 := Z.pos (digits2_pos m1)) in *.
  assert (1 <= d1 <= 53) as Hd1' by (unfold d1; lia).
  set (K := 2 ^ (- e2)) in *.
  assert (0 < K) as HK by (apply Z.pow_pos_nonneg; lia).
  unfold SF64div, SFdiv, SFdiv_core_binary. cbn [Zdigits2 xorb].
  rewrite Hd2. fold d1. rewrite xorb_false_r.
  destruct (Z_le_gt_dec (-1074) (d1 + e1 - (53 + e2) - 53)) as [Hn|Hs].
  - (* the quotient is a normal number *)
    assert (Z.min (fexp prec emax (d1 + e1 - (53 + e2))) (e1 - e2)
            = d1 + e1 - e2 - 106) as ->
      by (unfold fexp, prec, emin, emax; lia).
    set (e' := d1 + e1 - e2 - 106) in *.
    replace (e1 - e2 - e') with (106 - d1) by (unfold e'; lia).
    destruct (106 - d1) as [|sh|sh] eqn:Esh; [lia| |lia].
    rewrite Z.shiftl_mul_pow2 by lia. rewrite <- Esh.
    set (M' := Z.pos m1 * 2 ^ (106 - d1)).
    assert (2 ^ 105 <= M' < 2 ^ 106) as HM'.
    { unfold M'.
      replace (2 ^ 105) with (2 ^ (d1 - 1) * 2 ^ (106 - d1))
        by (rewrite <- Z.pow_add_r by lia; f_equal; lia).
      replace (2 ^ 106) with (2 ^ d1 * 2 ^ (106 - d1))
        by (rewrite <- Z.pow_add_r by lia; f_equal; lia).
      assert (0 < 2 ^ (106 - d1)) by (apply Z.pow_pos_nonneg; lia).
      split; [apply Z.mul_le_mono_nonneg_r; lia|apply Z.mul_lt_mono_pos_r; lia]. }
    pose proof (Z_div_mod M' (Z.pos m2) ltac:(lia)) as Hdiv.
    destruct (Z.div_eucl M' (Z.pos m2)) as [q r].
    destruct Hdiv as [Eq Hr].
    assert (2 ^ 52 <= q < 2 ^ 54) as Hq.
    { change (2 ^ 106) with (2 ^ 53 * 2 ^ 53) in HM'.
      change (2 ^ 105) with (2 ^ 53 * 2 ^ 52) in HM'.
      change (2 ^ 54) with (2 * 2 ^ 53) in *. change (2 ^ 53) with (2 * 2 ^ 52) in *.
      clearbody M'. clear - HM' Eq Hr Bm2. split; nia. }
    destruct q as [|Q|Q]; try lia.
    pose proof (digits2_pos_ge Q 53 ltac:(change (2 ^ (53 - 1)) with (2 ^ 52); lia))
      as Dlo.
    pose proof (digits2_pos_le Q 54 ltac:(lia) ltac:(lia)) as Dhi.
    match goal with
    | |- context [binary_round_aux _ _ _ _ _ ?l] =>
        destruct (binary_round_aux_normal sx Q e' l)
          as (m & e & -> & Hdm & He & B1 & B2); try (unfold e'; lia)
    end.
    split; [done|].
    unfold scaled.
    replace (2 ^ (e + 1074)) with (2 ^ (e - e') * 2 ^ (e' + 1074))
      by (rewrite <- Z.pow_add_r by (unfold e' in *; lia); f_equal; lia).
    set (t := Z.pos m * 2 ^ (e - e')) in *.
    set (P := 2 ^ (e' + 1074)).
    assert (0 < P) as HP by (apply Z.pow_pos_nonneg; unfold e'; lia).
    assert (Z.pos m1 * 2 ^ (e1 + 1074) * K = M' * P) as EaU.
    { unfold M', K, P, e'. rewrite <- !Z.mul_assoc, <- !Z.pow_add_r by lia.
      do 2 f_equal. lia. }
    set (X := cond_Zopp sx (Z.pos m) * (2 ^ (e - e') * P) * k
              - cond_Zopp sx (Z.pos m1) * 2 ^ (e1 + 1074)).
    set (x := t * Z.pos m2 - Z.pos m2 * Z.pos Q - r).
    assert (X * K = cond_Zopp sx (x * P)) as EX.
    { unfold X, x. rewrite !cond_Zopp_mul, cond_Zopp_sub, cond_Zopp_mul.
      f_equal. rewrite Z.mul_sub_distr_r, EaU, Eq, Hm2. fold K. unfold t. ring. }
    assert (2 ^ 51 * Z.abs x <= M') as Hx.
    { rewrite Eq. apply quotient_error; [done|done|exact (proj1 Hq)|lia]. }
    assert (Z.abs X * K = Z.abs x * P) as EabsX.
    { assert (Z.abs (X * K) = Z.abs (cond_Zopp sx (x * P))) as E by (by rewrite EX).
      rewrite abs_cond_Zopp, !Z.abs_mul, (Z.abs_eq K), (Z.abs_eq P) in E by lia.
      done. }
    assert (2 ^ 51 * Z.abs X <= Z.pos m1 * 2 ^ (e1 + 1074)); [|lia].
    apply (Z.mul_le_mono_pos_r _ _ K HK).
    rewrite EaU, <- Z.mul_assoc, EabsX, Z.mul_assoc.
    apply Z.mul_le_mono_nonneg_r; lia.
  - (* the quotient is in the subnormal range *)
    assert (Z.min (fexp prec emax (d1 + e1 - (53 + e2))) (e1 - e2) = -1074) as ->
      by (unfold fexp, prec, emin, emax; lia).
    set (sh := e1 - e2 - -1074).
    assert (0 <= sh) as Hsh by (unfold sh; lia).
    set (M' := Z.pos m1 * 2 ^ sh).
    assert (match sh with
            | 0 => Z.pos m1
            | Z.pos _ => Z.shiftl (Z.pos m1) sh
            | Z.neg _ => 0
            end = M') as ->.
    { unfold M'. destruct sh as [|p|p] eqn:E; [lia| |lia].
      by rewrite Z.shiftl_mul_pow2. }
    assert (0 < M' < 2 ^ 105) as HM'.
    { unfold M'. assert (0 < 2 ^ sh) by (apply Z.pow_pos_nonneg; lia).
      split; [lia|].
      assert (2 ^ d1 * 2 ^ sh <= 2 ^ 105).
      { rewrite <- Z.pow_add_r by lia. apply Z.pow_le_mono_r; unfold sh; lia. }
      assert (Z.pos m1 * 2 ^ sh < 2 ^ d1 * 2 ^ sh)
        by (apply Z.mul_lt_mono_pos_r; lia).
      lia. }
    pose proof (Z_div_mod M' (Z.pos m2) ltac:(lia)) as Hdiv.
    destruct (Z.div_eucl M' (Z.pos m2)) as [q r].
    destruct Hdiv as [Eq Hr].
    assert (0 <= q < 2 ^ 53) as Hq.
    { change (2 ^ 105) with (2 ^ 53 * 2 ^ 52) in HM'.
      clearbody M'. clear - HM' Eq Hr Bm2. split; nia. }
    match goal with
    | |- context [binary_round_aux _ _ _ _ _ ?l] =>
        destruct (binary_round_aux_subnormal sx q l Hq) as (rho & Hrho & Hf & ->)
    end.
    split; [done|].
    assert (Z.pos m1 * 2 ^ (e1 + 1074) * K = M') as EaU.
    { unfold M', K, sh. rewrite <- !Z.mul_assoc, <- !Z.pow_add_r by lia.
      do 2 f_equal. lia. }
    set (X := cond_Zopp sx rho * k - scaled (S754_finite sx m1 e1)).
    set (x := rho * Z.pos m2 - Z.pos m2 * q - r).
    assert (X * K = cond_Zopp sx x) as EX.
    { unfold X, x, scaled. rewrite !cond_Zopp_mul, cond_Zopp_sub, cond_Zopp_mul.
      f_equal. rewrite Z.mul_sub_distr_r, EaU, Eq, Hm2. fold K. ring. }
    assert (Z.abs x <= Z.pos m2) as Hx.
    { unfold x. assert (rho = q \/ rho = q + 1) as [->| ->] by lia; lia. }
    assert (Z.abs X * K = Z.abs x) as EabsX.
    { assert (Z.abs (X * K) = Z.abs (cond_Zopp sx x)) as E by (by rewrite EX).
      rewrite abs_cond_Zopp, !Z.abs_mul, (Z.abs_eq K) in E by lia. done. }
    assert (Z.abs X <= k); [|lia].
    apply (Z.mul_le_mono_pos_r _ _ K HK). rewrite EabsX, <- Hm2. exact Hx.
Qed.

(** ** Double precision: the running mean of finite values *)

(** One step of the running mean, on magnitudes: with the values below
    [V] and the mean of [k - 1] values below [2 (k - 1) k (V + 1)], the mean
    of [k] values is below [2 k (k + 1) (V + 1)]; [d], [q] and [a'] stand
    for the rounded difference, quotient and sum. *)
Lemma welford_bound (k V W B d q a' : Z) :
  1 <= k <= 2 ^ 50 -> 0 <= V -> W = V + 1 -> 0 <= B <= 2 * (k - 1) * k * W ->
  0 <= d -> 0 <= q -> 0 <= a' ->
  2 ^ 52 * d <= (2 ^ 52 + 1) * (V + B) ->
  2 ^ 51 * (q * k) <= (2 ^ 51 + 1) * d + 2 ^ 51 * k ->
  2 ^ 52 * a' <= (2 ^ 52 + 1) * (B + q) ->
  a' <= 2 * k * (k + 1) * W.
Proof.
  intros Hk HV HW HB Hd Hq Ha H1 H2 H3.
  assert (1 <= W) as HW1 by lia.
  set (P1 := k * W). set (P2 := k * P1). set (P3 := k * P2).
  assert (W <= P1) as F1 by (unfold P1; nia).
  assert (k <= P1) as F4 by (unfold P1; nia).
  assert (P1 <= P2) as F2 by (unfold P2; nia).
  assert (0 <= P2) as F0 by lia.
  assert (P3 <= 2 ^ 50 * P2) as F3
    by (unfold P3; apply Z.mul_le_mono_nonneg_r; lia).
  assert (B * k <= 2 * P3 - 2 * P2) as HBk.
  { replace (2 * P3 - 2 * P2) with (2 * (k - 1) * k * W * k)
      by (unfold P3, P2, P1; ring).
    apply Z.mul_le_mono_nonneg_r; lia. }
  assert (B <= 2 * P2 - 2 * P1) as HB'
    by (replace (2 * P2 - 2 * P1) with (2 * (k - 1) * k * W)
          by (unfold P2, P1; ring); lia).
  assert (2 ^ 52 * (a' * k) <= (2 ^ 52 + 1) * (B * k + q * k)) as H3k.
  { replace (2 ^ 52 * (a' * k)) with (2 ^ 52 * a' * k) by ring.
    replace ((2 ^ 52 + 1) * (B * k + q * k)) with ((2 ^ 52 + 1) * (B + q) * k)
      by ring.
    apply Z.mul_le_mono_nonneg_r; lia. }
  assert (a' * k <= 2 * k * (k + 1) * W * k) as Hfin.
  { replace (2 * k * (k + 1) * W * k) with (2 * P3 + 2 * P2)
      by (unfold P3, P2, P1; ring).
    set (ak := a' * k) in *. set (Bk := B * k) in *. set (qk := q * k) in *.
    clearbody P1 P2 P3 ak Bk qk.
    change (2 ^ 52) with 4503599627370496 in *.
    change (2 ^ 51) with 2251799813685248 in *.
    change (2 ^ 50) with 1125899906842624 in *.
    lia. }
  apply Z.mul_le_mono_pos_r in Hfin; lia.
Qed.

Lemma welford_step_bounded (a v : float) (c V : Z) :
  0 <= c -> c + 1 <= 2 ^ 50 -> 0 <= V ->
  16 * ((c + 1) * (c + 1) * (V + 1)) < 2 ^ 2097 ->
  finite_below (2 * c * (c + 1) * (V + 1)) a -> finite_below V v ->
  (@welford binary64 (a, c) v).2 = c + 1 /\
  finite_below (2 * (c + 1) * (c + 2) * (V + 1)) (@welford binary64 (a, c) v).1.
Proof.
  intros Hc Hk HV Hsize [Fa Ba] [Fv Bv].
  unfold welford. cbn [fst snd num of_Z add sub div binary64].
  split; [done|].
  set (k := c + 1) in *. set (W := V + 1) in *.
  assert (2 * c * k * W = 2 * (k - 1) * k * W) as EB by (unfold k; ring).
  rewrite EB in Ba. set (B := 2 * (k - 1) * k * W) in *.
  set (T := k * k * W) in *.
  assert (1 <= k) as Hk1 by (unfold k; lia).
  assert (1 <= W) as HW1 by (unfold W; lia).
  assert (1 <= k * k) as Hkk by (clear - Hk1; nia).
  assert (k <= k * k) as Hkk' by (clear - Hk1; nia).
  assert (W <= T /\ k <= T) as [HWT HkT].
  { unfold T. split.
    - rewrite <- (Z.mul_1_l W) at 1. apply Z.mul_le_mono_nonneg_r; lia.
    - rewrite <- (Z.mul_1_r k) at 1. rewrite <- Z.mul_assoc.
      apply Z.mul_le_mono_nonneg_l; [lia|]. clear - Hk1 HW1. nia. }
  assert (0 <= B <= 2 * T) as HBT.
  { unfold B, T. split.
    - apply Z.mul_nonneg_nonneg; [|lia]. clear - Hk1. nia.
    - rewrite <- !Z.mul_assoc. apply Z.mul_le_mono_nonneg_l; [lia|].
      rewrite !Z.mul_assoc. apply Z.mul_le_mono_nonneg_r; [lia|].
      clear - Hk1. nia. }
  set (sa := scaled (Prim2SF a)) in *. set (sv := scaled (Prim2SF v)) in *.
  destruct (SF64sub_bounded (Prim2SF v) (Prim2SF a) (Prim2SF_valid v)
              (Prim2SF_valid a) Fv Fa) as [Fd Cd]; [fold sa sv; lia|].
  rewrite <- sub_spec in Fd, Cd. fold sa sv in Cd.
  set (d := (v - a)%float) in *. set (sd := scaled (Prim2SF d)) in *.
  assert (2 ^ 52 * Z.abs sd <= (2 ^ 52 + 1) * (V + B)) as H1
    by (unfold close_to in Cd; lia).
  destruct (SF64div_count_bounded (Prim2SF d) k (Prim2SF_valid d) Fd)
    as [Fq Cq]; [lia|fold sd; lia|].
  rewrite <- (Prim2SF_float_of_Z k), <- div_spec in Fq, Cq by lia.
  set (q := (d / float_of_Z k)%float) in *. fold sd in Cq.
  set (sq := scaled (Prim2SF q)) in *.
  assert (Z.abs (sq * k) = Z.abs sq * k) as Eqk
    by (rewrite Z.abs_mul, (Z.abs_eq k); lia).
  assert (2 ^ 51 * (Z.abs sq * k) <= (2 ^ 51 + 1) * Z.abs sd + 2 ^ 51 * k) as H2
    by lia.
  assert (Z.abs sq * 1 <= Z.abs sq * k) as Hqk
    by (apply Z.mul_le_mono_nonneg_l; lia).
  destruct (SF64add_bounded (Prim2SF a) (Prim2SF q) (Prim2SF_valid a)
              (Prim2SF_valid q) Fa Fq) as [Fr Cr]; [fold sa sq; lia|].
  rewrite <- add_spec in Fr, Cr. fold sa sq in Cr.
  split; [done|].
  assert (2 ^ 52 * Z.abs (scaled (Prim2SF (a + q)%float))
          <= (2 ^ 52 + 1) * (B + Z.abs sq)) as H3
    by (unfold close_to in Cr; lia).
  replace (2 * k * (c + 2) * W) with (2 * k * (k + 1) * W) by (unfold k; ring).
  apply (welford_bound k V W B (Z.abs sd) (Z.abs sq)); (done || lia).
Qed.

Lemma foldl_welford_bounded (vals : list float) (V : Z) :
  forall (a : float) (c : Z),
    0 <= V -> 0 <= c -> c + Z.of_nat (length vals) <= 2 ^ 50 ->
    16 * ((c + Z.of_nat (length vals)) * (c + Z.of_nat (length vals)) * (V + 1))
    < 2 ^ 2097 ->
    Forall (finite_below V) vals ->
    finite_below (2 * c * (c + 1) * (V + 1)) a ->
    finite_SF (Prim2SF (foldl (@welford binary64) (a, c) vals).1).
Proof.
  induction vals as [|v vals IH]; intros a c HV Hc Hn Hsize Hvals Ha.
  - by destruct Ha.
  - cbn [foldl]. apply Forall_cons_1 in Hvals as [Hv Hvals].
    rewrite length_cons, Nat2Z.inj_succ in Hn, Hsize.
    set (n := Z.of_nat (length vals)) in *. assert (0 <= n) by (unfold n; lia).
    destruct (welford_step_bounded a v c V Hc ltac:(lia) HV) as [Ec Ha'];
      [|done|done|].
    { assert ((c + 1) * (c + 1) * (V + 1)
              <= (c + Z.succ n) * (c + Z.succ n) * (V + 1)); [|lia].
      apply Z.mul_le_mono_nonneg_r; [lia|]. nia. }
    destruct (@welford binary64 (a, c) v) as [a' c'] eqn:E.
    cbn [fst snd] in Ec, Ha'. subst c'.
    apply IH; try (done || lia).
    replace (c + 1 + 1) with (c + 2) by lia. exact Ha'.
Qed.

Lemma zero_or_normal_below (lo hi : Z) (x : float) :
  -1074 <= lo -> zero_or_normal lo hi (Prim2SF x) ->
  finite_below (2 ^ (hi + 1127)) x.
Proof.
  intros Hlo Hx. unfold finite_below.
  destruct (Prim2SF x) as [s| | |s m e]; try done.
  - split; [done|]. cbn [scaled]. simpl. apply Z.pow_nonneg. lia.
  - destruct Hx as [Hd He]. split; [done|].
    unfold scaled. rewrite cond_Zopp_mul, abs_cond_Zopp.
    pose proof (digits2_pos_bounds m) as Bm. rewrite Hd in Bm.
    assert (0 < 2 ^ (e + 1074)) by (apply Z.pow_pos_nonneg; lia).
    assert (2 ^ (e + 1074) <= 2 ^ (hi + 1074)) by (apply Z.pow_le_mono_r; lia).
    replace (hi + 1127) with (53 + (hi + 1074)) by lia.
    rewrite (Z.pow_add_r 2 53 (hi + 1074)) by lia. rewrite Z.abs_eq by (apply Z.mul_nonneg_nonneg; lia).
    apply Z.mul_le_mono_nonneg; lia.
Qed.

(** X17.  In double precision, under the default [k1], [k2] and
    [bitDepth], the score of two 8-bit images is a finite double, never
    [NaN] and never infinite: every window value is finite, and the
    running mean of [k] values stays below [2 k (k + 1)] times their
    bound, far from overflow for every image size with
    [2 * w * h * 255^2 < 2^53]. *)
Theorem ssimGrey_finite_8bit img1 img2 w h options :
  length img1 = Z.to_nat (w * h) -> length img2 = Z.to_nat (w * h) ->
  samples_within 255 img1 -> samples_within 255 img2 ->
  2 * (w * h * (255 * 255)) < 2 ^ 53 ->
  0 < ws_of options -> default_constants options ->
  exists r,
    @ssimGrey binary64 img1 img2 w h options = Return r /\
    finite_SF (Prim2SF r) = true.
Proof.
  intros H1 H2 P1 P2 Hsize Hws Hdef.
  destruct (decide (w - ws_of options + 1 <= 0 \/ h - ws_of options + 1 <= 0))
    as [Hdeg|Hwin].
  { rewrite ssimGrey_guard by (by apply degenerate_guard). by eexists. }
  rewrite ssimGrey_unfold; [|lia|lia|nia]. eexists. split; [done|].
  apply Is_true_true.
  destruct (ssim_values_nonempty (N:=binary64) img1 img2 w h options)
    as [Hlen _]; [lia..|].
  set (n := Z.of_nat (length (@ssim_values binary64 img1 img2 w h options))) in *.
  assert (0 <= n <= 2 ^ 40) as Hn.
  { split; [unfold n; lia|]. rewrite Hlen.
    assert ((w - ws_of options + 1) * (h - ws_of options + 1) <= w * h) by nia.
    lia. }
  apply (foldl_welford_bounded _ (2 ^ 1884)).
  - by apply Z.pow_nonneg.
  - done.
  - change (0 + n <= 2 ^ 50). lia.
  - change (16 * ((0 + n) * (0 + n) * (2 ^ 1884 + 1)) < 2 ^ 2097).
    rewrite Z.add_0_l.
    assert (n * n <= 2 ^ 40 * 2 ^ 40) by (apply Z.mul_le_mono_nonneg; lia).
    assert (0 < 2 ^ 1884 + 1) by (assert (0 <= 2 ^ 1884) by (by apply Z.pow_nonneg); lia).
    assert (n * n * (2 ^ 1884 + 1) <= 2 ^ 40 * 2 ^ 40 * (2 ^ 1884 + 1))
      by (apply Z.mul_le_mono_nonneg_r; lia).
    assert (16 * (2 ^ 40 * 2 ^ 40 * (2 ^ 1884 + 1)) < 2 ^ 2097) by (by vm_compute).
    lia.
  - apply (ssim_values_Forall (N:=binary64)). intros wy wx Hwy Hwx.
    apply (zero_or_normal_below (-753) 757); [lia|].
    by apply call_val_SF.
  - split; [done|]. by vm_compute.
Qed.

Lemma ssimGrey_finite_8bit_witness :
  exists r,
    @ssimGrey binary64 imgC imgD 3 3 (with_window 2) = Return r /\
    finite_SF (Prim2SF r) = true.
Proof.
  apply (ssimGrey_finite_8bit imgC imgD 3 3 (with_window 2));
    first [reflexivity | lia | apply samples_within_imgC
          | apply samples_within_imgD | by vm_compute].
Defined.

(** ** Double precision: quotients of normal doubles *)

(** The quotient of a zero or normal double by a positive normal double,
    clear of underflow and overflow, is within one part in [2^51] of the
    exact quotient. *)
Lemma SF64div_close (lo1 hi1 lo2 hi2 : Z) (x : spec_float) (m2 : positive) (e2 : Z) :
  zero_or_normal lo1 hi1 x -> normal_within lo2 hi2 (S754_finite false m2 e2) ->
  -1074 <= lo1 - hi2 - 53 -> hi1 - lo2 - 51 <= 971 -> -1074 <= lo1 ->
  -1074 <= lo2 ->
  2 ^ 51 * Z.abs (scaled (SF64div x (S754_finite false m2 e2))
                  * scaled (S754_finite false m2 e2) - scaled x * unit_scale)
  <= Z.abs (scaled x) * unit_scale.
Proof.
  intros Hx [Hd2 He2] Hlo Hhi Hlo1 Hlo2.
  destruct x as [s1| | |s1 m1 e1]; try done.
  destruct Hx as [Hd1 He1].
  pose proof (digits2_pos_bounds m1) as Bm1. rewrite Hd1 in Bm1.
  pose proof (digits2_pos_bounds m2) as Bm2. rewrite Hd2 in Bm2.
  change (2 ^ (53 - 1)) with (2 ^ 52) in *.
  unfold SF64div, SFdiv, SFdiv_core_binary. cbn [Zdigits2].
  rewrite Hd1, Hd2.
  assert (Z.min (fexp prec emax (53 + e1 - (53 + e2))) (e1 - e2) = e1 - e2 - 53)
    as -> by (unfold fexp, prec, emin, emax; lia).
  replace (e1 - e2 - (e1 - e2 - 53)) with 53 by lia.
  rewrite Z.shiftl_mul_pow2 by lia.
  pose proof (Z_div_mod (Z.pos m1 * 2 ^ 53) (Z.pos m2) ltac:(lia)) as Hdiv.
  destruct (Z.div_eucl (Z.pos m1 * 2 ^ 53) (Z.pos m2)) as [q r].
  destruct Hdiv as [Eq Hr].
  assert (2 ^ 52 <= q < 2 ^ 54) as Hq.
  { change (2 ^ 54) with (2 * 2 ^ 53) in *. change (2 ^ 53) with (2 * 2 ^ 52) in *.
    split; nia. }
  destruct q as [|Q|Q]; try lia.
  set (e' := e1 - e2 - 53) in *.
  pose proof (digits2_pos_ge Q 53 ltac:(change (2 ^ (53 - 1)) with (2 ^ 52); lia))
    as Dlo.
  pose proof (digits2_pos_le Q 54 ltac:(lia) ltac:(lia)) as Dhi.
  match goal with
  | |- context [binary_round_aux _ _ ?s _ _ ?l] =>
      destruct (binary_round_aux_normal s Q e' l)
        as (m & e & -> & Hdm & He & B1 & B2); try (unfold e'; lia)
  end.
  cbn [xorb]. rewrite xorb_false_r.
  unfold scaled, unit_scale. cbn [cond_Zopp].
  set (R := 2 ^ (e1 + 2095)).
  assert (0 < R) as HR by (apply Z.pow_pos_nonneg; lia).
  set (t := Z.pos m * 2 ^ (e - e')) in *.
  assert (2 ^ (e + 1074) * 2 ^ (e2 + 1074) = 2 ^ (e - e') * R) as E1.
  { unfold R. rewrite <- !Z.pow_add_r by (unfold e' in *; lia). f_equal.
    unfold e'. lia. }
  assert (2 ^ (e1 + 1074) * 2 ^ 1074 = 2 ^ 53 * R) as E2.
  { unfold R. rewrite <- !Z.pow_add_r by lia. f_equal. lia. }
  assert (cond_Zopp s1 (Z.pos m) * 2 ^ (e + 1074) * (Z.pos m2 * 2 ^ (e2 + 1074))
          - cond_Zopp s1 (Z.pos m1) * 2 ^ (e1 + 1074) * 2 ^ 1074
          = cond_Zopp s1 (t * Z.pos m2 - Z.pos m2 * Z.pos Q - r) * R) as ->.
  { transitivity (cond_Zopp s1 (Z.pos m * Z.pos m2 * (2 ^ (e + 1074) * 2 ^ (e2 + 1074))
                                - Z.pos m1 * (2 ^ (e1 + 1074) * 2 ^ 1074))).
    - destruct s1; cbn [cond_Zopp]; ring.
    - rewrite E1, E2.
      replace (Z.pos m1 * (2 ^ 53 * R)) with ((Z.pos m2 * Z.pos Q + r) * R)
        by (rewrite <- Eq; ring).
      unfold t. destruct s1; cbn [cond_Zopp]; ring. }
  assert (Z.abs (cond_Zopp s1 (Z.pos m1) * 2 ^ (e1 + 1074)) * 2 ^ 1074
          = (Z.pos m2 * Z.pos Q + r) * R) as ->.
  { rewrite cond_Zopp_mul, abs_cond_Zopp, Z.abs_eq
      by (apply Z.mul_nonneg_nonneg; [lia|apply Z.pow_nonneg; lia]).
    rewrite <- Z.mul_assoc, E2. lia. }
  rewrite Z.abs_mul, abs_cond_Zopp, (Z.abs_eq R) by lia.
  rewrite Z.mul_assoc. apply Z.mul_le_mono_nonneg_r; [lia|].
  apply quotient_error; [done|done|exact (proj1 Hq)|].
  fold t in B1, B2. clear - B1 B2. change (2 ^ 52) with (2 * 2 ^ 51) in *. lia.
Qed.

(** ** The covariance of two windows *)

(** Sums of products over a window: twice the covariance is at most the
    sum of the variances, all three times the square of the number of
    pixels. *)
Lemma window_sumZ_cov f g wx wy ws :
  0 < ws ->
  let n := ws * ws in
  let Sf := window_sumZ f wx wy ws in
  let Sg := window_sumZ g wx wy ws in
  let Sff := window_sumZ (fun i j => f i j * f i j) wx wy ws in
  let Sgg := window_sumZ (fun i j => g i j * g i j) wx wy ws in
  let Sfg := window_sumZ (fun i j => f i j * g i j) wx wy ws in
  2 * Z.abs (n * Sfg - Sf * Sg) <= (n * Sff - Sf * Sf) + (n * Sgg - Sg * Sg).
Proof.
  intros Hws n Sf Sg Sff Sgg Sfg.
  assert (forall s : Z,
            window_sumZ (fun i j => f i j + s * g i j) wx wy ws = Sf + s * Sg) as E1.
  { intros s.
    transitivity (window_sumZ (fun i j => 1 * f i j + s * g i j + 0) wx wy ws).
    - unfold window_sumZ. apply sumZ_ext. intros j _. apply sumZ_ext.
      intros i _. ring.
    - rewrite window_sumZ_linear by lia. fold Sf Sg. ring. }
  assert (forall s : Z,
            window_sumZ (fun i j => (f i j + s * g i j) * (f i j + s * g i j))
              wx wy ws
            = Sff + 2 * s * Sfg + s * s * Sgg) as E2.
  { intros s.
    transitivity
      (window_sumZ
         (fun i j => 1 * (f i j * f i j)
                     + 1 * (2 * s * (f i j * g i j) + s * s * (g i j * g i j) + 0)
                     + 0) wx wy ws).
    - unfold window_sumZ. apply sumZ_ext. intros j _. apply sumZ_ext.
      intros i _. ring.
    - rewrite (window_sumZ_linear 1 1 0 (fun i j => f i j * f i j)) by lia.
      rewrite (window_sumZ_linear (2 * s) (s * s) 0 (fun i j => f i j * g i j)
                 (fun i j => g i j * g i j)) by lia.
      fold Sff Sfg Sgg. ring. }
  pose proof (window_sumZ_square (fun i j => f i j + 1 * g i j) wx wy ws Hws) as Hp.
  pose proof (window_sumZ_square (fun i j => f i j + -1 * g i j) wx wy ws Hws) as Hm.
  rewrite E1, E2 in Hp, Hm. fold n in Hp, Hm.
  clearbody n Sf Sg Sff Sgg Sfg. clear - Hp Hm.
  set (a := n * Sfg) in *. set (b := Sf * Sg) in *.
  assert ((Sf + 1 * Sg) * (Sf + 1 * Sg) = Sf * Sf + 2 * b + Sg * Sg) as Ep
    by (unfold b; ring).
  assert ((Sf + -1 * Sg) * (Sf + -1 * Sg) = Sf * Sf - 2 * b + Sg * Sg) as Em
    by (unfold b; ring).
  assert (n * (Sff + 2 * 1 * Sfg + 1 * 1 * Sgg) = n * Sff + 2 * a + n * Sgg) as Fp
    by (unfold a; ring).
  assert (n * (Sff + 2 * -1 * Sfg + -1 * -1 * Sgg) = n * Sff - 2 * a + n * Sgg) as Fm
    by (unfold a; ring).
  rewrite Ep, Fp in Hp. rewrite Em, Fm in Hm. lia.
Qed.

(** Magnitudes of products. *)
Lemma abs_mul_le (x y a b : Z) :
  Z.abs x <= a -> Z.abs y <= b -> Z.abs (x * y) <= a * b.
Proof.
  intros Hx Hy. rewrite Z.abs_mul. apply Z.mul_le_mono_nonneg; lia.
Qed.

(** The rounded covariance [Sxy / n - (Sx / n) * (Sy / n)] of sums of
    8-bit samples, with the two means [Mx], [My], the mean of products [A]
    and the product of the means [MM] rounded as the program does, is
    within [2^-32] of the exact one; all in units of [1 / U]. *)
Lemma covariance_error (U n Sx Sy Sxy Mx My A MM c : Z) :
  0 < U -> 0 < n ->
  0 <= Sx <= 255 * n -> 0 <= Sy <= 255 * n -> 0 <= Sxy <= 65025 * n ->
  2 ^ 51 * Z.abs (Mx * n - Sx * U) <= Sx * U ->
  2 ^ 51 * Z.abs (My * n - Sy * U) <= Sy * U ->
  2 ^ 51 * Z.abs (A * n - Sxy * U) <= Sxy * U ->
  close_to (MM * U) (Mx * My) -> close_to c (A - MM) ->
  2 ^ 32 * Z.abs (c * (n * n) - (n * Sxy - Sx * Sy) * U) <= n * n * U.
Proof.
  unfold close_to. intros HU Hn HSx HSy HSxy F1 F2 F3 F4 F5.
  set (T := n * U). assert (0 < T) as HT by (unfold T; nia).
  set (X := Mx * n) in *. set (Y := My * n) in *. set (a := A * n) in *.
  set (sx := Sx * U) in *. set (sy := Sy * U) in *. set (sxy := Sxy * U) in *.
  assert (0 <= sx <= 255 * T) as Bsx by (unfold sx, T; nia).
  assert (0 <= sy <= 255 * T) as Bsy by (unfold sy, T; nia).
  assert (0 <= sxy <= 65025 * T) as Bsxy by (unfold sxy, T; nia).
  change (2 ^ 51) with 2251799813685248 in *.
  change (2 ^ 52) with 4503599627370496 in *.
  assert (Z.abs X <= 256 * T) as BX by (clear - F1 Bsx; lia).
  assert (Z.abs Y <= 256 * T) as BY by (clear - F2 Bsy; lia).
  assert (Z.abs a <= 65026 * T) as Ba by (clear - F3 Bsxy; lia).
  set (p := MM * U - Mx * My) in *. set (d := c - (A - MM)) in *.
  assert (0 <= T * T) as HTT by (clear - HT; nia).
  (* the magnitudes of the error terms, times [2^51] or [2^52] *)
  assert (Z.abs (X * Y) <= 65536 * (T * T)) as BXY.
  { pose proof (abs_mul_le X Y _ _ BX BY) as H. clear - H. lia. }
  assert (X * Y = Mx * My * (n * n)) as EXY by (unfold X, Y; ring).
  assert (0 < n * n) as Hnn by (clear - Hn; nia).
  assert (4503599627370496 * Z.abs (p * (n * n)) <= 65536 * (T * T)) as Bp.
  { rewrite Z.abs_mul, (Z.abs_eq (n * n)) by (clear - Hnn; lia).
    assert (Z.abs (X * Y) = Z.abs (Mx * My) * (n * n)) as E
      by (rewrite EXY, Z.abs_mul, (Z.abs_eq (n * n)); clear - Hnn; lia).
    assert (4503599627370496 * Z.abs p * (n * n) <= Z.abs (Mx * My) * (n * n)) as H
      by (apply Z.mul_le_mono_nonneg_r; [clear - Hnn; lia|exact F4]).
    clear - H E BXY. lia. }
  assert (2251799813685248 * Z.abs (a - sxy) <= 65025 * T) as L1
    by (clear - F3 Bsxy; lia).
  assert (2251799813685248 * Z.abs (X - sx) <= 255 * T) as L2
    by (clear - F1 Bsx; lia).
  assert (2251799813685248 * Z.abs (Y - sy) <= 255 * T) as L3
    by (clear - F2 Bsy; lia).
  assert (2251799813685248 * Z.abs ((a - sxy) * T) <= 65025 * (T * T)) as B1.
  { rewrite Z.abs_mul, (Z.abs_eq T) by (clear - HT; lia).
    assert (2251799813685248 * Z.abs (a - sxy) * T <= 65025 * T * T) as H
      by (apply Z.mul_le_mono_nonneg_r; [clear - HT; lia|exact L1]).
    clear - H. lia. }
  assert (2251799813685248 * Z.abs ((X - sx) * Y) <= 65280 * (T * T)) as B2.
  { rewrite Z.abs_mul.
    assert (2251799813685248 * Z.abs (X - sx) * Z.abs Y <= 255 * T * (256 * T)) as H
      by (apply Z.mul_le_mono_nonneg; [clear; lia|exact L2|clear; lia|exact BY]).
    clear - H. lia. }
  assert (2251799813685248 * Z.abs (sx * (Y - sy)) <= 65025 * (T * T)) as B3.
  { rewrite Z.abs_mul, (Z.abs_eq sx) by (clear - Bsx; lia).
    assert (sx * (2251799813685248 * Z.abs (Y - sy)) <= 255 * T * (255 * T)) as H
      by (apply Z.mul_le_mono_nonneg; [clear - Bsx; lia|clear - Bsx; lia|clear; lia|exact L3]).
    clear - H. lia. }
  assert (MM * (n * T) = X * Y + p * (n * n)) as EMM by (unfold p, X, Y, T; ring).
  assert (Z.abs ((A - MM) * (n * T)) <= 131073 * (T * T)) as BAM.
  { replace ((A - MM) * (n * T)) with (a * T - MM * (n * T)) by (unfold a; ring).
    rewrite EMM.
    assert (Z.abs (a * T) <= 65026 * T * T) as H1
      by (rewrite Z.abs_mul, (Z.abs_eq T) by (clear - HT; lia);
          apply Z.mul_le_mono_nonneg_r; [clear - HT; lia|exact Ba]).
    clear - H1 BXY Bp HTT. lia. }
  assert (0 < n * T) as HnT by (clear - Hn HT; nia).
  assert (4503599627370496 * Z.abs (d * (n * T)) <= 131073 * (T * T)) as Bd.
  { rewrite Z.abs_mul, (Z.abs_eq (n * T)) by (clear - HnT; lia).
    rewrite Z.abs_mul, (Z.abs_eq (n * T)) in BAM by (clear - HnT; lia).
    assert (4503599627370496 * Z.abs d * (n * T) <= Z.abs (A - MM) * (n * T)) as H
      by (apply Z.mul_le_mono_nonneg_r; [clear - HnT; lia|exact F5]).
    clear - H BAM. lia. }
  assert ((c * (n * n) - (n * Sxy - Sx * Sy) * U) * U
          = (a - sxy) * T - ((X - sx) * Y + sx * (Y - sy)) - p * (n * n)
            + d * (n * T)) as EW
    by (unfold a, sxy, X, Y, sx, sy, p, d, T; ring).
  set (W := c * (n * n) - (n * Sxy - Sx * Sy) * U) in *.
  assert (4294967296 * Z.abs (W * U) <= T * T) as HW.
  { rewrite EW.
    set (t1 := (a - sxy) * T) in *. set (t2 := (X - sx) * Y) in *.
    set (t3 := sx * (Y - sy)) in *. set (t4 := p * (n * n)) in *.
    set (t5 := d * (n * T)) in *. set (TT := T * T) in *.
    clearbody t1 t2 t3 t4 t5 TT. clear - B1 B2 B3 Bp Bd HTT. lia. }
  rewrite Z.abs_mul, (Z.abs_eq U) in HW by (clear - HU; lia).
  change (2 ^ 32) with 4294967296.
  assert (4294967296 * Z.abs W * U <= n * n * U * U) as H
    by (replace (n * n * U * U) with (T * T) by (unfold T; ring); clear - HW; lia).
  apply Z.mul_le_mono_pos_r in H; [exact H|exact HU].
Qed.

(** Rounded covariance and variances, each within [2^-32] of the exact
    one: twice the covariance is at most the sum of the variances plus
    [2^-30]. *)
Lemma covariance_below_variances (U nn zc zx zy Nc Nx Ny : Z) :
  0 < U -> 0 < nn ->
  2 ^ 32 * Z.abs (zc * nn - Nc * U) <= nn * U ->
  2 ^ 32 * Z.abs (zx * nn - Nx * U) <= nn * U ->
  2 ^ 32 * Z.abs (zy * nn - Ny * U) <= nn * U ->
  2 * Z.abs Nc <= Nx + Ny ->
  2 ^ 30 * (2 * Z.abs zc - (zx + zy)) <= U.
Proof.
  intros HU Hnn Fc Fx Fy CS.
  change (2 ^ 32) with 4294967296 in *. change (2 ^ 30) with 1073741824.
  assert (Z.abs (zc * nn) = Z.abs zc * nn) as E1
    by (rewrite Z.abs_mul, (Z.abs_eq nn); [done|clear - Hnn; lia]).
  assert (Z.abs (Nc * U) = Z.abs Nc * U) as E2
    by (rewrite Z.abs_mul, (Z.abs_eq U); [done|clear - HU; lia]).
  assert (2 * (Z.abs Nc * U) <= Nx * U + Ny * U) as CS'.
  { assert (2 * Z.abs Nc * U <= (Nx + Ny) * U) as H
      by (apply Z.mul_le_mono_nonneg_r; [clear - HU; lia|exact CS]).
    clear - H. lia. }
  assert (1073741824 * (2 * Z.abs zc - (zx + zy)) * nn <= U * nn) as H.
  { assert (1073741824 * (2 * Z.abs zc - (zx + zy)) * nn
            = 1073741824 * (2 * (Z.abs zc * nn) - (zx * nn + zy * nn))) as -> by ring.
    rewrite <- E1. rewrite <- E2 in CS'.
    set (a := zc * nn) in *. set (b := zx * nn) in *. set (c := zy * nn) in *.
    set (p := Nc * U) in *. set (q := Nx * U) in *. set (r := Ny * U) in *.
    assert (U * nn = nn * U) as -> by ring. set (T := nn * U) in *.
    clearbody a b c p q r T. clear - Fc Fx Fy CS'. lia. }
  apply Z.mul_le_mono_pos_r in H; [exact H|exact Hnn].
Qed.

(** ** Double precision: the value of a window of 8-bit samples *)

(** The rounded covariance of two windows of 8-bit samples: a zero or
    normal double within [2^-32] of the exact covariance. *)
Lemma covariance_SF (Sx Sy Sxy n : Z) :
  0 < n -> 0 <= Sx <= 255 * n -> 0 <= Sy <= 255 * n -> 0 <= Sxy <= 65025 * n ->
  65025 * n < 2 ^ 53 ->
  let c := SF64sub (SF64div (SFint Sxy) (SFint n))
             (SF64mul (SF64div (SFint Sx) (SFint n)) (SF64div (SFint Sy) (SFint n))) in
  zero_or_normal (-210) 58 c /\
  2 ^ 32 * Z.abs (scaled c * (n * n) - (n * Sxy - Sx * Sy) * unit_scale)
  <= n * n * unit_scale.
Proof.
  intros Hn HSx HSy HSxy Hsize c.
  destruct (SF64div_int_close Sx n ltac:(lia) ltac:(lia)) as (Hmx & Px & F1).
  destruct (SF64div_int_close Sy n ltac:(lia) ltac:(lia)) as (Hmy & Py & F2).
  destruct (SF64div_int_close Sxy n ltac:(lia) ltac:(lia)) as (Ha & _ & F3).
  set (mx := SF64div (SFint Sx) (SFint n)) in *.
  set (my := SF64div (SFint Sy) (SFint n)) in *.
  set (a := SF64div (SFint Sxy) (SFint n)) in *.
  destruct (SF64mul_close (-105) 1 (-105) 1 mx my) as [Hmm Hc]; try (done || lia).
  set (mm := SF64mul mx my) in *.
  destruct (SF64sub_close (-158) 56 a mm) as [Hv Hcv]; try (done || lia).
  { by apply (zero_or_normal_weaken (-105) 1); [lia|lia|]. }
  split; [exact Hv|].
  apply (covariance_error unit_scale n Sx Sy Sxy (scaled mx) (scaled my)
           (scaled a) (scaled mm) (scaled c));
    first [done | apply unit_scale_pos].
Qed.

(** The two factors of the numerator and of the denominator that hold the
    means: [2 mx my + c1] is at most [mx mx + my my + c1], up to rounding. *)
Lemma means_ratio_SF (mx my c1 : spec_float) :
  zero_or_normal (-105) 1 mx -> 0 <= scaled mx ->
  zero_or_normal (-105) 1 my -> 0 <= scaled my ->
  zero_or_normal (-210) 58 c1 -> 0 < scaled c1 ->
  let A := SF64add (SF64mul (SF64mul (SFint 2) mx) my) c1 in
  let C := SF64add (SF64add (SF64mul mx mx) (SF64mul my my)) c1 in
  zero_or_normal (-262) 114 A /\ zero_or_normal (-262) 60 C /\
  0 <= scaled A /\ 0 < scaled C /\
  2 ^ 48 * scaled A <= (2 ^ 48 + 1) * scaled C.
Proof.
  intros Hx Px Hy Py Hc1 Pc1 A C.
  pose proof unit_scale_pos as HU. set (U := unit_scale) in *.
  assert (zero_or_normal (-52) 0 (SFint 2)) as H2 by done.
  assert (scaled (SFint 2) = 2 * U) as E2 by (by apply scaled_SFint).
  destruct (SF64mul_close (-52) 0 (-105) 1 (SFint 2) mx H2 Hx
              ltac:(lia) ltac:(lia) ltac:(lia) ltac:(lia)) as [T1 C1].
  set (t1 := SF64mul (SFint 2) mx) in *.
  destruct (SF64mul_close _ _ (-105) 1 _ my T1 Hy
              ltac:(lia) ltac:(lia) ltac:(lia) ltac:(lia)) as [T2 C2].
  set (t2 := SF64mul t1 my) in *.
  destruct (SF64add_close (-210) 112 t2 c1) as [HA CA];
    [|by apply (zero_or_normal_weaken (-210) 58)|lia|lia|].
  { revert T2. apply zero_or_normal_weaken; lia. }
  destruct (SF64mul_close (-105) 1 (-105) 1 mx mx Hx Hx
              ltac:(lia) ltac:(lia) ltac:(lia) ltac:(lia)) as [Hxx Cxx].
  destruct (SF64mul_close (-105) 1 (-105) 1 my my Hy Hy
              ltac:(lia) ltac:(lia) ltac:(lia) ltac:(lia)) as [Hyy Cyy].
  set (pxx := SF64mul mx mx) in *. set (pyy := SF64mul my my) in *.
  destruct (SF64add_close (-158) 56 pxx pyy Hxx Hyy ltac:(lia) ltac:(lia))
    as [Hs1 Cs1].
  set (s1 := SF64add pxx pyy) in *.
  destruct (SF64add_close (-210) 58 s1 c1 Hs1 Hc1 ltac:(lia) ltac:(lia))
    as [HC CC].
  fold A in HA, CA. fold C in HC, CC.
  split; [exact HA|]. split; [exact HC|].
  unfold close_to in *. rewrite E2 in C1. fold U in C1, C2, Cxx, Cyy.
  set (zx := scaled mx) in *. set (zy := scaled my) in *.
  set (z1 := scaled t1) in *. set (z2 := scaled t2) in *.
  set (zxx := scaled pxx) in *. set (zyy := scaled pyy) in *.
  set (zs := scaled s1) in *. set (zA := scaled A) in *. set (zC := scaled C) in *.
  set (zc := scaled c1) in *.
  clearbody zx zy z1 z2 zxx zyy zs zA zC zc U.
  clear - HU Px Py Pc1 C1 C2 Cxx Cyy Cs1 CA CC.
  change (2 ^ 52) with 4503599627370496 in *.
  change (2 ^ 48) with 281474976710656.
  (* [t1] against [2 mx] *)
  assert (4503599627370496 * Z.abs (z1 - 2 * zx) <= 2 * zx) as D1.
  { assert (z1 * U - 2 * U * zx = (z1 - 2 * zx) * U) as E by ring.
    rewrite E, Z.abs_mul, (Z.abs_eq U), (Z.abs_eq (2 * U * zx)) in C1
      by (clear - HU Px; nia).
    assert (4503599627370496 * Z.abs (z1 - 2 * zx) * U <= 2 * zx * U) as H
      by (clear - C1; lia).
    apply Z.mul_le_mono_pos_r in H; [exact H|exact HU]. }
  assert (0 <= z1) as P1 by (clear - D1 Px; lia).
  assert (4503599627370496 * (z1 * zy) <= 9007199254740994 * (zx * zy)) as D2.
  { assert (4503599627370496 * z1 * zy <= 9007199254740994 * zx * zy) as H
      by (apply Z.mul_le_mono_nonneg_r; [exact Py|clear - D1 Px; lia]).
    clear - H. lia. }
  assert (0 <= z1 * zy) as Q1 by (apply Z.mul_nonneg_nonneg; lia).
  assert (0 <= zx * zy) as Q2 by (apply Z.mul_nonneg_nonneg; lia).
  assert (2 * (zx * zy) <= zx * zx + zy * zy) as AM.
  { pose proof (Z.square_nonneg (zx - zy)) as H.
    replace ((zx - zy) * (zx - zy)) with (zx * zx - 2 * (zx * zy) + zy * zy) in H
      by ring.
    clear - H. lia. }
  assert (0 <= zx * zx) as Qxx by apply Z.square_nonneg.
  assert (0 <= zy * zy) as Qyy by apply Z.square_nonneg.
  set (p1 := z1 * zy) in *. set (p2 := zx * zy) in *.
  set (qx := zx * zx) in *. set (qy := zy * zy) in *.
  set (u2 := z2 * U) in *. set (uxx := zxx * U) in *. set (uyy := zyy * U) in *.
  assert (0 <= u2 /\ 0 <= uxx /\ 0 <= uyy /\
          1125899906842624 * u2 <= 1125899906842625 * (uxx + uyy)) as (R0 & Rx & Ry & R1).
  { clearbody p1 p2 qx qy u2 uxx uyy.
    clear - C2 Cxx Cyy D2 Q1 Q2 AM Qxx Qyy. lia. }
  assert (0 <= z2) as P2 by (clear - R0 HU; unfold u2 in R0; nia).
  assert (0 <= zxx) as Pxx by (clear - Rx HU; unfold uxx in Rx; nia).
  assert (0 <= zyy) as Pyy by (clear - Ry HU; unfold uyy in Ry; nia).
  assert (1125899906842624 * z2 <= 1125899906842625 * (zxx + zyy)) as R2.
  { assert (1125899906842624 * z2 * U <= 1125899906842625 * (zxx + zyy) * U) as H
      by (unfold u2, uxx, uyy in R1; clear - R1; lia).
    apply Z.mul_le_mono_pos_r in H; [exact H|exact HU]. }
  clear - R2 P2 Pxx Pyy Pc1 Cs1 CA CC. lia.
Qed.

(** The two factors that hold the variances: with twice the covariance
    at most the sum of the variances plus [2^-30], [|2 cov + c2|] is at
    most [vx + vy + c2], up to one part in [2^34]. *)
Lemma variances_ratio_SF (cov vx vy c2 : spec_float) :
  zero_or_normal (-210) 58 cov ->
  zero_or_normal (-210) 58 vx -> zero_or_normal (-210) 58 vy ->
  2 ^ 30 * (2 * Z.abs (scaled cov) - (scaled vx + scaled vy)) <= unit_scale ->
  zero_or_normal (-262) 60 c2 -> 58 * unit_scale <= scaled c2 ->
  let B := SF64add (SF64mul (SFint 2) cov) c2 in
  let D := SF64add (SF64add vx vy) c2 in
  zero_or_normal (-314) 116 B /\ zero_or_normal (-314) 62 D /\
  0 < scaled D /\
  2 ^ 34 * Z.abs (scaled B) <= (2 ^ 34 + 1) * scaled D.
Proof.
  intros Hcov Hvx Hvy Hcs Hc2 Pc2 B D.
  pose proof unit_scale_pos as HU. set (U := unit_scale) in *.
  assert (zero_or_normal (-52) 0 (SFint 2)) as H2 by done.
  assert (scaled (SFint 2) = 2 * U) as E2 by (by apply scaled_SFint).
  destruct (SF64mul_close (-52) 0 (-210) 58 (SFint 2) cov H2 Hcov
              ltac:(lia) ltac:(lia) ltac:(lia) ltac:(lia)) as [T1 C1].
  set (u := SF64mul (SFint 2) cov) in *.
  destruct (SF64add_close (-262) 114 u c2) as [HB CB];
    [|by apply (zero_or_normal_weaken (-262) 60)|lia|lia|].
  { revert T1. apply zero_or_normal_weaken; lia. }
  destruct (SF64add_close (-210) 58 vx vy Hvx Hvy ltac:(lia) ltac:(lia))
    as [Hs2 Cs2].
  set (s2 := SF64add vx vy) in *.
  destruct (SF64add_close (-262) 60 s2 c2 Hs2 Hc2 ltac:(lia) ltac:(lia))
    as [HD CD].
  fold B in HB, CB. fold D in HD, CD.
  split; [exact HB|]. split; [exact HD|].
  unfold close_to in *. rewrite E2 in C1. fold U in C1.
  set (zc := scaled cov) in *. set (w := scaled vx + scaled vy) in *.
  set (zu := scaled u) in *. set (zB := scaled B) in *.
  set (zs := scaled s2) in *. set (zD := scaled D) in *. set (c := scaled c2) in *.
  clearbody zc w zu zB zs zD c U.
  clear - HU Hcs Pc2 C1 CB Cs2 CD.
  change (2 ^ 52) with 4503599627370496 in *.
  change (2 ^ 34) with 17179869184.
  change (2 ^ 30) with 1073741824 in *.
  assert (4503599627370496 * Z.abs (zu - 2 * zc) <= 2 * Z.abs zc) as D1.
  { assert (zu * U - 2 * U * zc = (zu - 2 * zc) * U) as E by ring.
    assert (Z.abs (2 * U * zc) = 2 * Z.abs zc * U) as E'
      by (rewrite !Z.abs_mul, (Z.abs_eq 2), (Z.abs_eq U) by lia; ring).
    rewrite E, E', Z.abs_mul, (Z.abs_eq U) in C1 by lia.
    assert (4503599627370496 * Z.abs (zu - 2 * zc) * U <= 2 * Z.abs zc * U) as H
      by (clear - C1; lia).
    apply Z.mul_le_mono_pos_r in H; [exact H|exact HU]. }
  assert (1073741824 * 4503599627370496 * Z.abs zu
          <= 4503599627370497 * (1073741824 * w + U)) as Bu
    by (clear - D1 Hcs; lia).
  assert (- U <= 1073741824 * w) as Bw by (clear - Hcs; lia).
  assert (57 * U <= zs + c /\ 0 < zs + c) as [Bsc Bsc']
    by (clear - Cs2 Bw Pc2 HU; lia).
  assert (0 < zD /\ 4503599627370496 * zD >= 4503599627370495 * (zs + c)) as [PD BD]
    by (clear - CD Bsc' ; lia).
  split; [exact PD|].
  assert (4503599627370496 * Z.abs zB <= 4503599627370497 * (Z.abs zu + c)) as BB
    by (clear - CB Pc2 HU; lia).
  set (azu := Z.abs zu) in *. set (azB := Z.abs zB) in *.
  clearbody azu azB.
  clear - Bu BB BD Cs2 Bw Pc2 HU. lia.
Qed.

(** The quotient [(A * B) / (C * D)] of factors with [0 <= A <= C] and
    [|B| <= D], up to rounding, has magnitude at most [1 + 2^-33]. *)
Lemma val_SF_bound (A B C D : spec_float) :
  zero_or_normal (-262) 114 A -> zero_or_normal (-314) 116 B ->
  zero_or_normal (-262) 60 C -> zero_or_normal (-314) 62 D ->
  0 <= scaled A -> 0 < scaled C -> 0 < scaled D ->
  2 ^ 48 * scaled A <= (2 ^ 48 + 1) * scaled C ->
  2 ^ 34 * Z.abs (scaled B) <= (2 ^ 34 + 1) * scaled D ->
  zero_or_normal (-753) 757 (SF64div (SF64mul A B) (SF64mul C D)) /\
  2 ^ 33 * Z.abs (scaled (SF64div (SF64mul A B) (SF64mul C D)))
  <= (2 ^ 33 + 1) * unit_scale.
Proof.
  intros HA HB HC HD PA PC PD RA RB.
  pose proof unit_scale_pos as HU.
  destruct (SF64mul_close (-262) 114 (-314) 116 A B HA HB
              ltac:(lia) ltac:(lia) ltac:(lia) ltac:(lia)) as [Hn Cn].
  destruct (SF64mul_close (-262) 60 (-314) 62 C D HC HD
              ltac:(lia) ltac:(lia) ltac:(lia) ltac:(lia)) as [Hd Cd].
  replace (-262 + -314 + 52) with (-524) in * by lia.
  replace (114 + 116 + 54) with 284 in * by lia.
  replace (60 + 62 + 54) with 176 in * by lia.
  set (num := SF64mul A B) in *. set (den := SF64mul C D) in *.
  assert (0 < scaled C * scaled D) as PCD by (apply Z.mul_pos_pos; lia).
  assert (0 < scaled den) as Pden.
  { apply close_to_pos in Cd; [|exact PCD]. clear - Cd HU. nia. }
  destruct den as [s| | |s m2 e2] eqn:Eden; try done.
  destruct Hd as [Hd2 He2].
  assert (s = false) as ->.
  { destruct s; [|done].
    pose proof (scaled_sign true m2 e2 ltac:(lia)) as Hneg.
    cbn beta iota in Hneg. lia. }
  split.
  { apply (SF64div_normal (-524) 284 (-524) 176); (done || lia). }
  pose proof (SF64div_close (-524) 284 (-524) 176 num m2 e2 Hn
                (conj Hd2 He2) ltac:(lia) ltac:(lia) ltac:(lia) ltac:(lia)) as Cv.
  set (val := SF64div num (S754_finite false m2 e2)) in *.
  set (zd := scaled (S754_finite false m2 e2)) in *.
  set (U := unit_scale) in *.
  unfold close_to in Cn, Cd.
  set (zA := scaled A) in *. set (zB := scaled B) in *.
  set (zC := scaled C) in *. set (zD := scaled D) in *.
  set (zn := scaled num) in *. set (zv := scaled val) in *.
  clearbody zA zB zC zD zn zv zd U.
  clear - HU PA PC PD RA RB Cn Cd Cv Pden PCD.
  change (2 ^ 52) with 4503599627370496 in *.
  change (2 ^ 51) with 2251799813685248 in *.
  change (2 ^ 48) with 281474976710656 in *.
  change (2 ^ 34) with 17179869184 in *.
  change (2 ^ 33) with 8589934592.
  (* |A * B| against C * D *)
  assert (Z.abs (zA * zB) = zA * Z.abs zB) as EAB
    by (rewrite Z.abs_mul, (Z.abs_eq zA); [done|exact PA]).
  assert (281474976710656 * zA * (17179869184 * Z.abs zB)
          <= 281474976710657 * zC * (17179869185 * zD)) as H1
    by (apply Z.mul_le_mono_nonneg;
        [clear - PA; lia|exact RA|clear; lia|exact RB]).
  assert (281474976710656 * 17179869184 * Z.abs (zA * zB)
          <= 281474976710657 * 17179869185 * (zC * zD)) as H2
    by (rewrite EAB; clear - H1; lia).
  rewrite (Z.abs_eq (zC * zD)) in Cd by (clear - PCD; lia).
  set (ab := Z.abs (zA * zB)) in *. set (cd := zC * zD) in *.
  assert (Z.abs (zn * U) = Z.abs zn * U) as EnU
    by (rewrite Z.abs_mul, (Z.abs_eq U); [done|clear - HU; lia]).
  assert (68719476736 * (Z.abs zn * U) <= 68719476741 * (zd * U)) as H3.
  { rewrite <- EnU. set (nU := zn * U) in *. set (dU := zd * U) in *.
    set (p := zA * zB) in *.
    assert (Z.abs p = ab) as Eab by done.
    clearbody ab cd nU dU p. clear - Cn Cd H2 PCD Eab. lia. }
  assert (68719476736 * Z.abs zn <= 68719476741 * zd) as H4.
  { assert (68719476736 * Z.abs zn * U <= 68719476741 * zd * U) as H
      by (clear - H3; lia).
    apply Z.mul_le_mono_pos_r in H; [exact H|exact HU]. }
  assert (Z.abs (zv * zd) = Z.abs zv * zd) as Evd
    by (rewrite Z.abs_mul, (Z.abs_eq zd); [done|clear - Pden; lia]).
  assert (8589934592 * (Z.abs zv * zd) <= 8589934593 * U * zd) as H5.
  { rewrite <- Evd.
    assert (68719476736 * (Z.abs zn * U) <= 68719476741 * (U * zd)) as H3'
      by (clear - H3; lia).
    assert (Z.abs (zn * U) = Z.abs zn * U) as E by exact EnU.
    set (vd := zv * zd) in *. set (nU := zn * U) in *.
    set (anU := Z.abs zn * U) in *. set (Ud := U * zd) in *.
    assert (8589934593 * U * zd = 8589934593 * Ud) as -> by (unfold Ud; ring).
    clearbody vd nU anU Ud. clear - Cv H3' E. lia. }
  assert (8589934592 * Z.abs zv * zd <= 8589934593 * U * zd) as H6
    by (clear - H5; lia).
  apply Z.mul_le_mono_pos_r in H6; [exact H6|exact Pden].
Qed.

(** Zero and normal doubles are finite. *)
Lemma zero_or_normal_finite lo hi x : zero_or_normal lo hi x -> finite_SF x.
Proof. by destruct x. Qed.

(** The value of every window of two 8-bit images under the default
    constants is a finite double of magnitude at most [1 + 2^-33]. *)
Lemma call_val_below img1 img2 w h options wy wx :
  length img1 = Z.to_nat (w * h) -> length img2 = Z.to_nat (w * h) ->
  samples_within 255 img1 -> samples_within 255 img2 ->
  2 * (w * h * (255 * 255)) < 2 ^ 53 ->
  0 < ws_of options -> default_constants options ->
  0 <= wy < h - ws_of options + 1 -> 0 <= wx < w - ws_of options + 1 ->
  finite_below (2 ^ 1074 + 2 ^ 1041)
    (@call_val binary64 img1 img2 w h options wy wx).
Proof.
  intros H1 H2 P1 P2 Hsize Hws Hdef Hwy Hwx.
  destruct (default_constants_c1 options Hdef) as [E1 E2].
  unfold call_val, window_val. rewrite E1, E2. clear E1 E2.
  set (ws := ws_of options) in *.
  destruct (window_rects_binary64 img1 img2 w h 255 wx wy ws)
    as (EX & EY & EX2 & EY2 & EXY); try (done || lia).
  unfold window_rect in *. unfold ssim_num, ssim_den, window_stats.
  cbv zeta. cbn [meanX meanY varX varY covXY]. rewrite EX, EY, EX2, EY2, EXY.
  cbn [num of_Z add sub mul div binary64].
  destruct (window_sums_8bit img1 w wx wy ws P1 Hws) as (B1 & CS1 & B12).
  destruct (window_sums_8bit img2 w wx wy ws P2 Hws) as (B2 & CS2 & B22).
  pose proof (window_sumZ_bounds
                (fun i j => pixel img1 w i j * pixel img2 w i j) 65025 wx wy ws
                ltac:(lia)) as B3.
  pose proof (window_sumZ_cov (pixel img1 w) (pixel img2 w) wx wy ws Hws) as CS.
  cbv zeta in CS.
  assert (1 <= ws * ws <= w * h) as Hn by nia.
  set (n := ws * ws) in *.
  set (Sx := window_sumZ (pixel img1 w) wx wy ws) in *.
  set (Sy := window_sumZ (pixel img2 w) wx wy ws) in *.
  set (Sxx := window_sumZ (fun i j => pixel img1 w i j * pixel img1 w i j) wx wy ws)
    in *.
  set (Syy := window_sumZ (fun i j => pixel img2 w i j * pixel img2 w i j) wx wy ws)
    in *.
  set (Sxy := window_sumZ (fun i j => pixel img1 w i j * pixel img2 w i j) wx wy ws)
    in *.
  assert (0 <= Sxy <= 65025 * n) as B3'.
  { assert (0 <= Sxy <= n * 65025); [|lia]. apply B3. intros i j.
    pose proof (pixel_within img1 w i j 255 ltac:(lia) P1).
    pose proof (pixel_within img2 w i j 255 ltac:(lia) P2). nia. }
  clear B3.
  assert (65025 * n < 2 ^ 53) as Hn53 by lia.
  unfold finite_below.
  rewrite div_spec, !mul_spec, !add_spec, !mul_spec, !sub_spec, !mul_spec, !div_spec.
  rewrite !Prim2SF_float_of_Z by lia.
  rewrite default_c1_SF, default_c2_SF.
  set (c1 := S754_finite false 7321164144244164 (-50)).
  set (c2 := S754_finite false 8236309662274682 (-47)).
  destruct (SF64div_int_close Sx n ltac:(lia) ltac:(lia)) as (Hmx & Px & _).
  destruct (SF64div_int_close Sy n ltac:(lia) ltac:(lia)) as (Hmy & Py & _).
  set (mx := SF64div (SFint Sx) (SFint n)) in *.
  set (my := SF64div (SFint Sy) (SFint n)) in *.
  destruct (covariance_SF Sx Sx Sxx n ltac:(lia) ltac:(lia) ltac:(lia) ltac:(lia)
              Hn53) as [Hvx Fvx].
  destruct (covariance_SF Sy Sy Syy n ltac:(lia) ltac:(lia) ltac:(lia) ltac:(lia)
              Hn53) as [Hvy Fvy].
  destruct (covariance_SF Sx Sy Sxy n ltac:(lia) ltac:(lia) ltac:(lia) ltac:(lia)
              Hn53) as [Hcov Fcov].
  fold mx my in Hvx, Fvx, Hvy, Fvy, Hcov, Fcov.
  set (vx := SF64sub (SF64div (SFint Sxx) (SFint n)) (SF64mul mx mx)) in *.
  set (vy := SF64sub (SF64div (SFint Syy) (SFint n)) (SF64mul my my)) in *.
  set (cov := SF64sub (SF64div (SFint Sxy) (SFint n)) (SF64mul mx my)) in *.
  pose proof (covariance_below_variances unit_scale (n * n) (scaled cov)
                (scaled vx) (scaled vy) _ _ _ unit_scale_pos ltac:(nia)
                Fcov Fvx Fvy CS) as Hcs.
  destruct (means_ratio_SF mx my c1 Hmx Px Hmy Py ltac:(done) ltac:(done))
    as (HA & HC & PA & PC & RA).
  destruct (variances_ratio_SF cov vx vy c2 Hcov Hvx Hvy Hcs ltac:(done)
              default_c2_above_58) as (HB & HD & PD & RB).
  destruct (val_SF_bound _ _ _ _ HA HB HC HD PA PC PD RA RB) as [Hv Bv].
  split; [by apply (zero_or_normal_finite (-753) 757)|].
  clear - Bv. unfold unit_scale in Bv.
  change (2 ^ 1074) with (2 ^ 33 * 2 ^ 1041) in *.
  assert (0 < 2 ^ 1041) by (by apply Z.pow_pos_nonneg).
  set (P := 2 ^ 1041) in *. change (2 ^ 33) with 8589934592 in *.
  match goal with |- Z.abs ?z <= _ => set (zv := z) in * end.
  clearbody zv P. lia.
Qed.

(** ** Double precision: the running mean and the sum of finite values *)

(** One step of the running mean, on errors: [sa] stands for the mean of
    [c] values with the sum [S], [sv] for the next value, and [sd], [sq],
    [sa'] for the rounded difference, quotient and sum.  With at most [n]
    values of magnitude at most [V], the distance of [c * sa] from [S]
    grows by [n (V / 2^47 + 3)] at most. *)
Lemma welford_error_step (n V c sa sv sd sq sa' S : Z) :
  0 <= V -> 0 <= c -> c + 1 <= n -> n <= 2 ^ 47 ->
  Z.abs sv <= V -> Z.abs sa <= 2 * V + 3 * n -> Z.abs S <= c * V ->
  2 ^ 47 * Z.abs (c * sa - S) <= c * (n * V + 3 * 2 ^ 47 * n) ->
  2 ^ 52 * Z.abs (sd - (sv - sa)) <= Z.abs (sv - sa) ->
  2 ^ 51 * Z.abs (sq * (c + 1) - sd) <= Z.abs sd + 2 ^ 51 * (c + 1) ->
  2 ^ 52 * Z.abs (sa' - (sa + sq)) <= Z.abs (sa + sq) ->
  2 ^ 47 * Z.abs ((c + 1) * sa' - (S + sv)) <= (c + 1) * (n * V + 3 * 2 ^ 47 * n) /\
  Z.abs sa' <= 2 * V + 3 * n /\ Z.abs (S + sv) <= (c + 1) * V.
Proof.
  intros HV Hc Hcn Hn Hsv Hsa HS HE H1 H2 H3.
  set (k := c + 1) in *.
  assert (1 <= k) as Hk by (unfold k; lia).
  change (2 ^ 52) with 4503599627370496 in *.
  change (2 ^ 51) with 2251799813685248 in *.
  change (2 ^ 47) with 140737488355328 in *.
  assert (V <= n * V) as HnV by (clear - HV Hk Hcn; nia).
  assert (0 <= n * V) as HnV0 by (clear - HV Hk Hcn; nia).
  assert (n * V <= 140737488355328 * V) as HnV2
    by (apply Z.mul_le_mono_nonneg_r; lia).
  assert (n * n <= 140737488355328 * n) as Bnn
    by (apply Z.mul_le_mono_nonneg_r; lia).
  set (nV := n * V) in *.
  (* the three rounding errors *)
  set (e1 := sd - (sv - sa)) in *. set (e2 := sq * k - sd) in *.
  set (e3 := sa' - (sa + sq)) in *.
  assert (4503599627370496 * Z.abs e1 <= 3 * V + 3 * n) as Be1
    by (clear - H1 Hsv Hsa; lia).
  assert (Z.abs sd <= 4 * V + 4 * n) as Bsd
    by (clear - Be1 Hsv Hsa HV Hk Hcn; unfold e1 in Be1; lia).
  assert (Z.abs e2 <= V + n + k) as Be2' by (clear - H2 Bsd HV Hk Hcn; lia).
  assert (2251799813685248 * Z.abs e2 <= 4 * V + 4 * n + 2251799813685248 * k)
    as Be2 by (clear - H2 Bsd HV Hk Hcn; lia).
  assert (Z.abs sq <= 5 * V + 6 * n) as Bsq.
  { assert (Z.abs sq <= Z.abs sq * k) as Bq1
      by (rewrite <- (Z.mul_1_r (Z.abs sq)) at 1; apply Z.mul_le_mono_nonneg_l; lia).
    assert (Z.abs (sq * k) = Z.abs sq * k) as Eqk
      by (rewrite Z.abs_mul, (Z.abs_eq k); lia).
    assert (Z.abs (sq * k) <= Z.abs sd + Z.abs e2) as Bq2
      by (clear; unfold e2; lia).
    clear - Bq1 Eqk Bq2 Bsd Be2' Hcn. lia. }
  assert (4503599627370496 * Z.abs e3 <= 7 * V + 9 * n) as Be3
    by (clear - H3 Hsa Bsq; lia).
  assert (4503599627370496 * Z.abs (k * e3) <= 7 * nV + 9 * (n * n)) as Bke.
  { rewrite Z.abs_mul, (Z.abs_eq k) by lia.
    assert (k * (4503599627370496 * Z.abs e3) <= n * (7 * V + 9 * n)) as Hm
      by (apply Z.mul_le_mono_nonneg; lia).
    unfold nV. clear - Hm. lia. }
  assert (k * sa' - (S + sv) = (c * sa - S) + e1 + e2 + k * e3) as E
    by (unfold e1, e2, e3, k; ring).
  assert (c * (nV + 3 * 140737488355328 * n) + (nV + 3 * 140737488355328 * n)
          = k * (nV + 3 * 140737488355328 * n)) as Ek by (unfold k; ring).
  set (R := c * (nV + 3 * 140737488355328 * n)) in *.
  set (R' := k * (nV + 3 * 140737488355328 * n)) in *.
  assert (140737488355328 * Z.abs (k * sa' - (S + sv)) <= R') as Hfin.
  { rewrite E. set (ke := k * e3) in *. set (E0 := c * sa - S) in *.
    assert (Z.abs (E0 + e1 + e2 + ke)
            <= Z.abs E0 + Z.abs e1 + Z.abs e2 + Z.abs ke) as Htri by (clear; lia).
    set (a0 := Z.abs E0) in *. set (a1 := Z.abs e1) in *.
    set (a2 := Z.abs e2) in *. set (a3 := Z.abs ke) in *.
    set (a4 := Z.abs (E0 + e1 + e2 + ke)) in *.
    clearbody a0 a1 a2 a3 a4 R R' nV.
    clear - HE Be1 Be2 Bke Htri Ek HnV HnV0 Bnn HV Hk Hcn Hn. lia. }
  split; [exact Hfin|].
  assert (Z.abs (S + sv) <= k * V) as HS' by (clear - HS Hsv; unfold k; lia).
  split; [|exact HS'].
  assert (Z.abs (k * sa') = k * Z.abs sa') as Eka
    by (rewrite Z.abs_mul, (Z.abs_eq k); lia).
  assert (Z.abs (k * sa') <= Z.abs (k * sa' - (S + sv)) + Z.abs (S + sv)) as Htri
    by (clear; lia).
  assert (k * nV <= k * (140737488355328 * V)) as Hm3
    by (apply Z.mul_le_mono_nonneg_l; lia).
  assert (k * (140737488355328 * Z.abs sa')
          <= k * (140737488355328 * (2 * V + 3 * n))) as Hm2.
  { unfold R' in Hfin.
    set (b0 := Z.abs sa') in *. set (b1 := Z.abs (k * sa' - (S + sv))) in *.
    set (b2 := Z.abs (S + sv)) in *. set (b3 := Z.abs (k * sa')) in *.
    set (kn := k * nV) in *. set (kV := k * V) in *.
    assert (k * (nV + 3 * 140737488355328 * n) = kn + 3 * 140737488355328 * (k * n))
      as Ex by (unfold kn; ring).
    assert (k * (140737488355328 * b0) = 140737488355328 * (k * b0)) as Ey by ring.
    assert (k * (140737488355328 * (2 * V + 3 * n))
            = 140737488355328 * (2 * kV + 3 * (k * n))) as Ez by (unfold kV; ring).
    assert (k * (140737488355328 * V) = 140737488355328 * kV) as Ew
      by (unfold kV; ring).
    rewrite Ex in Hfin. rewrite Ey, Ez. rewrite Ew in Hm3.
    set (kn' := k * n) in *. set (kb := k * b0) in *.
    clearbody b0 b1 b2 b3 kn kV kn' kb. clear - Hfin Eka Htri Hm3 HS'. lia. }
  apply Z.mul_le_mono_pos_l in Hm2; [|lia].
  clear - Hm2. lia.
Qed.

(** The same step on doubles. *)
Lemma welford_step_error (a v : float) (n V c S : Z) :
  0 <= V -> 0 <= c -> c + 1 <= n -> n <= 2 ^ 47 -> 7 * V + 9 * n < 2 ^ 2097 ->
  finite_below V v ->
  finite_below (2 * V + 3 * n) a -> Z.abs S <= c * V ->
  2 ^ 47 * Z.abs (c * scaled (Prim2SF a) - S) <= c * (n * V + 3 * 2 ^ 47 * n) ->
  let a' := (@welford binary64 (a, c) v).1 in
  (@welford binary64 (a, c) v).2 = c + 1 /\
  finite_below (2 * V + 3 * n) a' /\
  Z.abs (S + scaled (Prim2SF v)) <= (c + 1) * V /\
  2 ^ 47 * Z.abs ((c + 1) * scaled (Prim2SF a') - (S + scaled (Prim2SF v)))
  <= (c + 1) * (n * V + 3 * 2 ^ 47 * n).
Proof.
  intros HV Hc Hcn Hn Hsize [Fv Bv] [Fa Ba] HS HE.
  unfold welford. cbn [fst snd num of_Z add sub div binary64].
  split; [done|].
  set (k := c + 1) in *.
  set (sa := scaled (Prim2SF a)) in *. set (sv := scaled (Prim2SF v)) in *.
  destruct (SF64sub_bounded (Prim2SF v) (Prim2SF a) (Prim2SF_valid v)
              (Prim2SF_valid a) Fv Fa) as [Fd Cd]; [fold sa sv; lia|].
  rewrite <- sub_spec in Fd, Cd. fold sa sv in Cd.
  set (d := (v - a)%float) in *. set (sd := scaled (Prim2SF d)) in *.
  unfold close_to in Cd.
  assert (Z.abs sd <= 4 * V + 4 * n) as Bsd by (clear - Cd Bv Ba HV Hcn Hc; lia).
  destruct (SF64div_count_bounded (Prim2SF d) k (Prim2SF_valid d) Fd)
    as [Fq Cq]; [unfold k; lia|fold sd; lia|].
  rewrite <- (Prim2SF_float_of_Z k), <- div_spec in Fq, Cq by (unfold k; lia).
  set (q := (d / float_of_Z k)%float) in *. fold sd in Cq.
  set (sq := scaled (Prim2SF q)) in *.
  assert (Z.abs sq <= 5 * V + 6 * n) as Bsq.
  { assert (Z.abs sq <= Z.abs sq * k) as Bq1
      by (rewrite <- (Z.mul_1_r (Z.abs sq)) at 1; apply Z.mul_le_mono_nonneg_l;
          unfold k; lia).
    assert (Z.abs (sq * k) = Z.abs sq * k) as Eqk
      by (rewrite Z.abs_mul, (Z.abs_eq k); unfold k; lia).
    assert (Z.abs (sq * k) <= Z.abs sd + Z.abs (sq * k - sd)) as Bq2 by (clear; lia).
    change (2 ^ 51) with 2251799813685248 in Cq.
    assert (Z.abs (sq * k - sd) <= V + n + k) as Be2
      by (clear - Cq Bsd HV Hcn Hc; unfold k in *; lia).
    clear - Bq1 Eqk Bq2 Bsd Be2 Hcn. unfold k in *. lia. }
  destruct (SF64add_bounded (Prim2SF a) (Prim2SF q) (Prim2SF_valid a)
              (Prim2SF_valid q) Fa Fq) as [Fr Cr]; [fold sa sq; lia|].
  rewrite <- add_spec in Fr, Cr. fold sa sq in Cr.
  set (a' := (a + q)%float) in *. set (sa' := scaled (Prim2SF a')) in *.
  unfold close_to in Cr.
  destruct (welford_error_step n V c sa sv sd sq sa' S) as (G1 & G2 & G3);
    try done.
Qed.

(** The running mean of a list of finite doubles against their exact sum. *)
Lemma foldl_welford_error (n V : Z) (vals : list float) :
  forall (a : float) (c S : Z),
    0 <= V -> 0 <= c -> c + Z.of_nat (length vals) <= n -> n <= 2 ^ 47 ->
    7 * V + 9 * n < 2 ^ 2097 ->
    Forall (finite_below V) vals ->
    finite_below (2 * V + 3 * n) a -> Z.abs S <= c * V ->
    2 ^ 47 * Z.abs (c * scaled (Prim2SF a) - S) <= c * (n * V + 3 * 2 ^ 47 * n) ->
    let r := (foldl (@welford binary64) (a, c) vals).1 in
    let k := c + Z.of_nat (length vals) in
    finite_below (2 * V + 3 * n) r /\
    Z.abs (S + scaled_sum vals) <= k * V /\
    2 ^ 47 * Z.abs (k * scaled (Prim2SF r) - (S + scaled_sum vals))
    <= k * (n * V + 3 * 2 ^ 47 * n).
Proof.
  induction vals as [|v vals IH]; intros a c S HV Hc Hcn Hn Hsize Hvals Ha HS HE.
  - cbn [foldl length scaled_sum foldr fst]. rewrite !Z.add_0_r. done.
  - cbn [foldl]. apply Forall_cons_1 in Hvals as [Hv Hvals].
    rewrite length_cons, Nat2Z.inj_succ in Hcn |- *.
    destruct (welford_step_error a v n V c S HV Hc ltac:(lia) Hn Hsize Hv Ha HS HE)
      as (Ec & Ha' & HS' & HE').
    destruct (@welford binary64 (a, c) v) as [a' c'] eqn:E.
    cbn [fst snd] in Ec, Ha', HS', HE'. subst c'.
    specialize (IH a' (c + 1) (S + scaled (Prim2SF v)) HV ltac:(lia) ltac:(lia)
                  Hn Hsize Hvals Ha' HS' HE').
    cbv zeta in IH |- *. cbn [scaled_sum foldr]. fold (scaled_sum vals).
    replace (c + Z.succ (Z.of_nat (length vals)))
      with (c + 1 + Z.of_nat (length vals)) by lia.
    replace (S + (scaled (Prim2SF v) + scaled_sum vals))
      with (S + scaled (Prim2SF v) + scaled_sum vals) by lia.
    exact IH.
Qed.



(** The running mean of [n] finite doubles of magnitude at most [V]
    exceeds [V] by [n] parts in [2^47] at most. *)
Lemma welford_mean_below (V : Z) (vals : list float) :
  let n := Z.of_nat (length vals) in
  0 <= V -> 0 < n -> n <= 2 ^ 47 -> 7 * V + 9 * n < 2 ^ 2097 ->
  Forall (finite_below V) vals ->
  let r := (foldl (@welford binary64) (float_of_Z 0, 0) vals).1 in
  finite_SF (Prim2SF r) /\
  2 ^ 47 * Z.abs (scaled (Prim2SF r)) <= 2 ^ 47 * V + n * V + 3 * 2 ^ 47 * n.
Proof.
  intros n HV Hn0 Hn Hsize Hvals r.
  assert (Prim2SF (float_of_Z 0) = S754_zero false) as E0 by (by vm_compute).
  destruct (foldl_welford_error n V vals (float_of_Z 0) 0 0 HV ltac:(lia)
              ltac:(fold n; lia) Hn Hsize Hvals) as ([Fr _] & HS & HE).
  { split; [by rewrite E0|]. rewrite E0. cbn [scaled]. simpl Z.abs. lia. }
  { simpl. lia. }
  { rewrite E0. simpl. lia. }
  fold r in Fr, HE. cbv zeta in HS, HE. rewrite !Z.add_0_l in *.
  fold n in HS, HE. split; [exact Fr|].
  set (sr := scaled (Prim2SF r)) in *. set (S := scaled_sum vals) in *.
  assert (Z.abs (n * sr) = n * Z.abs sr) as E
    by (rewrite Z.abs_mul, (Z.abs_eq n); [done|clear - Hn0; lia]).
  assert (n * (2 ^ 47 * Z.abs sr) <= n * (2 ^ 47 * V + n * V + 3 * 2 ^ 47 * n)) as H.
  { assert (n * (2 ^ 47 * Z.abs sr) = 2 ^ 47 * (n * Z.abs sr)) as -> by ring.
    rewrite <- E.
    assert (n * (2 ^ 47 * V + n * V + 3 * 2 ^ 47 * n)
            = 2 ^ 47 * (n * V) + n * (n * V + 3 * 2 ^ 47 * n)) as -> by ring.
    set (R := n * (n * V + 3 * 2 ^ 47 * n)) in *. set (nV := n * V) in *.
    set (nsr := n * sr) in *. change (2 ^ 47) with 140737488355328 in *.
    clearbody R nV nsr S. clear - HS HE. lia. }
  apply Z.mul_le_mono_pos_l in H; [exact H|exact Hn0].
Qed.

(** ** Double precision: the score of 8-bit images *)

(** The values of at most [10^8] windows of two 8-bit images: the bounds
    that the error analysis of the two means needs. *)
Lemma ssim_values_8bit img1 img2 w h options :
  length img1 = Z.to_nat (w * h) -> length img2 = Z.to_nat (w * h) ->
  samples_within 255 img1 -> samples_within 255 img2 ->
  2 * (w * h * (255 * 255)) < 2 ^ 53 ->
  0 < ws_of options -> default_constants options ->
  0 < w - ws_of options + 1 -> 0 < h - ws_of options + 1 ->
  (w - ws_of options + 1) * (h - ws_of options + 1) <= 10 ^ 8 ->
  let vals := @ssim_values binary64 img1 img2 w h options in
  let n := Z.of_nat (length vals) in
  0 < n <= 10 ^ 8 /\ Forall (finite_below (2 ^ 1074 + 2 ^ 1041)) vals.
Proof.
  intros H1 H2 P1 P2 Hsize Hws Hdef HW HH Hcount vals n.
  destruct (ssim_values_nonempty (N:=binary64) img1 img2 w h options HW HH)
    as [Hlen _].
  fold vals in Hlen. fold n in Hlen. split; [nia|].
  apply (ssim_values_Forall (N:=binary64)). intros wy wx Hwy Hwx.
  by apply call_val_below.
Qed.


(** X18.  In double precision, under the default [k1], [k2] and
    [bitDepth], every window value of two 8-bit images is a finite double
    of magnitude at most [1 + 2^-33], and with at most [10^8] windows the
    score is a finite double of magnitude at most [1 + 1e-6]: rounding
    takes the score out of [[-1, 1]] by that much at most. *)
Theorem ssimGrey_range_8bit img1 img2 w h options :
  length img1 = Z.to_nat (w * h) -> length img2 = Z.to_nat (w * h) ->
  samples_within 255 img1 -> samples_within 255 img2 ->
  2 * (w * h * (255 * 255)) < 2 ^ 53 ->
  0 < ws_of options -> default_constants options ->
  (w - ws_of options + 1) * (h - ws_of options + 1) <= 10 ^ 8 ->
  (forall wy wx,
     0 <= wy < h - ws_of options + 1 -> 0 <= wx < w - ws_of options + 1 ->
     finite_below (2 ^ 1074 + 2 ^ 1041)
       (@call_val binary64 img1 img2 w h options wy wx)) /\
  exists r,
    @ssimGrey binary64 img1 img2 w h options = Return r /\
    finite_SF (Prim2SF r) /\
    10 ^ 6 * Z.abs (scaled (Prim2SF r)) <= (10 ^ 6 + 1) * unit_scale.
Proof.
  intros H1 H2 P1 P2 Hsize Hws Hdef Hcount.
  split; [intros wy wx Hwy Hwx; by apply call_val_below|].
  destruct (decide (w - ws_of options + 1 <= 0 \/ h - ws_of options + 1 <= 0))
    as [Hdeg|Hwin].
  { rewrite ssimGrey_guard by (by apply degenerate_guard). eexists.
    split; [done|]. cbn [of_Z binary64]. rewrite Prim2SF_float_of_Z by (simpl; lia).
    split; [done|]. rewrite scaled_SFint by (simpl; lia).
    pose proof unit_scale_pos. lia. }
  rewrite ssimGrey_unfold; [|lia|lia|nia]. eexists. split; [done|].
  destruct (ssim_values_8bit img1 img2 w h options H1 H2 P1 P2 Hsize Hws Hdef
              ltac:(lia) ltac:(lia) Hcount) as [Hn Hvals].
  cbv zeta in Hn, Hvals.
  set (vals := @ssim_values binary64 img1 img2 w h options) in *.
  set (n := Z.of_nat (length vals)) in *.
  assert (0 < 2 ^ 1041) as HP by (by apply Z.pow_pos_nonneg).
  assert (2 ^ 20 <= 2 ^ 1041) as HP' by (apply Z.pow_le_mono_r; lia).
  assert (n * (2 ^ 1074 + 2 ^ 1041) <= 10 ^ 8 * (2 ^ 1074 + 2 ^ 1041)) as HnV.
  { apply Z.mul_le_mono_nonneg_r.
    - change (2 ^ 1074) with (2 ^ 33 * 2 ^ 1041). clear - HP. lia.
    - clear - Hn. lia. }
  pose proof (welford_mean_below (2 ^ 1074 + 2 ^ 1041) vals) as Hw.
  cbv zeta in Hw. change (Z.of_nat (length vals)) with n in Hw.
  destruct Hw as (Fr & Hd); try (done || lia).
  split; [exact Fr|].
  match type of Hd with
  | _ * Z.abs ?z <= _ =>
      change (10 ^ 6 * Z.abs z <= (10 ^ 6 + 1) * unit_scale); set (X := Z.abs z) in *
  end.
  unfold unit_scale.
  change (2 ^ 1074) with (2 ^ 33 * 2 ^ 1041) in *.
  set (P := 2 ^ 1041) in *. set (nV := n * (2 ^ 33 * P + P)) in *.
  change (2 ^ 47) with 140737488355328 in Hd.
  change (2 ^ 33) with 8589934592 in *. change (2 ^ 20) with 1048576 in HP'.
  change (10 ^ 8) with 100000000 in *. change (10 ^ 6) with 1000000.
  clearbody X nV P. clear - Hd HnV Hn HP HP'. lia.
Qed.

Lemma ssimGrey_range_8bit_witness :
  (forall wy wx, 0 <= wy < 2 -> 0 <= wx < 2 ->
     finite_below (2 ^ 1074 + 2 ^ 1041)
       (@call_val binary64 imgC imgD 3 3 (with_window 2) wy wx)) /\
  exists r,
    @ssimGrey binary64 imgC imgD 3 3 (with_window 2) = Return r /\
    finite_SF (Prim2SF r) /\
    10 ^ 6 * Z.abs (scaled (Prim2SF r)) <= (10 ^ 6 + 1) * unit_scale.
Proof.
  apply (ssimGrey_range_8bit imgC imgD 3 3 (with_window 2));
    first [reflexivity | lia | apply samples_within_imgC
          | apply samples_within_imgD | by vm_compute].
Defined.

(** ** The running mean *)


